(** * Instakand: a shallow embedding of the resilience core

    The development follows the TypeScript sources of the scraper:
    the count-string parsers of the profile and reel strategies, the proxy
    pool, the anti-ban rate limiter, the browser context registry, the job
    store, the hashtag strategy chain, the global search merge and the seven
    job flows of the scraper service.

    Conventions.
    - An integer-valued JS [number] (a counter, a length, a timestamp in
      milliseconds) is a [Z]; where the code can produce [NaN] the type
      [Js.number] is used and [===] is written out.
    - A limit or a page number of the hashtag, search and direct-URL
      requests is a rational [Q]: the request validation ([IsNumber],
      [Min(1)]) lets fractions such as 2.5 through.  Arithmetic on [Q] is
      exact; comparisons with a length, [Math.ceil], [Math.min] and the
      truncation made by [slice] are exact on doubles as well, products
      and quotients are when their operands are whole.  Where the code
      rounds a product or a quotient of doubles (a scaled count, a
      progress percentage) the exact value is rounded; the two can differ
      by one when the exact value lies next to a half.
    - [undefined] / [null] is [None]: the two are not told apart, also
      where [===] tells them apart.
    - A [Map] is a [gmap], a [Set] a [gset]; an array is a [list].
    - What the browser answers (page markup, fetched JSON, thrown timeouts)
      is an explicit argument of the function that asks for it. *)

From Stdlib Require Import ZArith QArith Qround Ascii String List Bool Lia.
From stdpp Require Import base gmap sets list strings pretty.

Open Scope string_scope.
Open Scope list_scope.
Open Scope Z_scope.

(* ===================================================================== *)
(** ** JavaScript values *)
(* ===================================================================== *)

Module Js.

(** A JS number that is either an integer or [NaN]. *)
Inductive number := NaN | Num (z : Z).

(** [a === b] on numbers: [NaN] differs from everything, itself included. *)
Definition strict_eq (a b : number) : bool :=
  match a, b with
  | Num x, Num y => bool_decide (x = y)
  | _, _ => false
  end.

(** Truthiness of a string-or-undefined value: [undefined] and [""] are falsy. *)
Definition truthy (v : option string) : bool :=
  match v with
  | Some s => negb (String.eqb s "")
  | None => false
  end.

(** [a || b] on string-or-undefined values. *)
Definition or (a b : option string) : option string :=
  if truthy a then a else b.

(** [Array.prototype.slice(start, end)] for integer arguments. *)
Definition clamp_index (len i : Z) : Z :=
  if i <? 0 then Z.max (len + i) 0 else Z.min i len.

Definition slice {A} (l : list A) (start stop : Z) : list A :=
  let len := Z.of_nat (length l) in
  let from := clamp_index len start in
  let to := clamp_index len stop in
  take (Z.to_nat (to - from)) (drop (Z.to_nat from) l).

(** [Math.ceil(a / b)] for integers [a] and a positive integer [b]. *)
Definition ceil_div (a b : Z) : Z := - ((- a) / b).

(** A whole number as a number that may carry a fraction. *)
Definition whole (z : Z) : Q := inject_Z z.

(** [n >= x] and [n < x] for a length [n]. *)
Definition at_least (n : Z) (x : Q) : bool := Qle_bool x (inject_Z n).

Definition below (n : Z) (x : Q) : bool := negb (Qle_bool x (inject_Z n)).

(** [Math.ceil(x)] *)
Definition ceil (x : Q) : Z := Qceiling x.

(** [Math.min(a, b)] *)
Definition min (a b : Q) : Q := if Qle_bool a b then a else b.

(** [Math.round(x)]: the nearest integer, halves going up. *)
Definition round (x : Q) : Z := Qfloor (x + (1 # 2)).

(** The integer that [slice] makes of an argument: the fraction is
    dropped, towards zero. *)
Definition trunc (x : Q) : Z := Z.quot (Qnum x) (Zpos (Qden x)).

(** [Math.round(a / b)] for integers [a] and a positive integer [b]:
    the nearest integer, halves going up. *)
Definition round_div (a b : Z) : Z := (2 * a + b) / (2 * b).

End Js.

(* ===================================================================== *)
(** ** Character classes and string helpers *)
(* ===================================================================== *)

Module Str.

Definition code (c : ascii) : N := N_of_ascii c.

(** [\d] *)
Definition is_digit (c : ascii) : bool :=
  ((48 <=? code c) && (code c <=? 57))%N.

(** [\s] restricted to the ASCII range; also what [trim] removes. *)
Definition is_space (c : ascii) : bool :=
  ((code c =? 32) || ((9 <=? code c) && (code c <=? 13)))%N.

Definition is_lower (c : ascii) : bool :=
  ((97 <=? code c) && (code c <=? 122))%N.

Definition is_upper (c : ascii) : bool :=
  ((65 <=? code c) && (code c <=? 90))%N.

Definition upper_char (c : ascii) : ascii :=
  if is_lower c then ascii_of_N (code c - 32) else c.

Definition lower_char (c : ascii) : ascii :=
  if is_upper c then ascii_of_N (code c + 32) else c.

Fixpoint map (f : ascii -> ascii) (s : string) : string :=
  match s with
  | EmptyString => EmptyString
  | String c s' => String (f c) (map f s')
  end.

Definition toUpperCase : string -> string := map upper_char.
Definition toLowerCase : string -> string := map lower_char.

Fixpoint filter (p : ascii -> bool) (s : string) : string :=
  match s with
  | EmptyString => EmptyString
  | String c s' => if p c then String c (filter p s') else filter p s'
  end.

Fixpoint drop_while (p : ascii -> bool) (s : string) : string :=
  match s with
  | EmptyString => EmptyString
  | String c s' => if p c then drop_while p s' else s
  end.

Fixpoint take_while (p : ascii -> bool) (s : string) : string :=
  match s with
  | EmptyString => EmptyString
  | String c s' => if p c then String c (take_while p s') else EmptyString
  end.

Fixpoint rev_acc (s acc : string) : string :=
  match s with
  | EmptyString => acc
  | String c s' => rev_acc s' (String c acc)
  end.

Definition rev (s : string) : string := rev_acc s EmptyString.

(** [s.trim()] *)
Definition trim (s : string) : string :=
  rev (drop_while is_space (rev (drop_while is_space s))).

Fixpoint forallb (p : ascii -> bool) (s : string) : bool :=
  match s with
  | EmptyString => true
  | String c s' => p c && forallb p s'
  end.

(** [s.includes(t)] *)
Fixpoint includes (s t : string) : bool :=
  String.prefix t s ||
  match s with
  | EmptyString => false
  | String _ s' => includes s' t
  end.

(** [\w] *)
Definition is_word (c : ascii) : bool :=
  is_lower c || is_upper c || is_digit c || Ascii.eqb c "_".

Fixpoint drop (n : nat) (s : string) : string :=
  match n, s with
  | O, _ => s
  | S n', String _ s' => drop n' s'
  | S _, EmptyString => EmptyString
  end.

Definition nonempty_run (cls : ascii -> bool) (s : string) : option string :=
  match take_while cls s with
  | EmptyString => None
  | run => Some run
  end.

Fixpoint group_here (prefixes : list string) (cls : ascii -> bool) (s : string)
  : option string :=
  match prefixes with
  | [] => None
  | p :: ps =>
      match (if String.prefix p s
             then nonempty_run cls (drop (String.length p) s) else None) with
      | Some run => Some run
      | None => group_here ps cls s
      end
  end.

(** The capture group of the leftmost match of a pattern made of one of
    the literal [prefixes] (tried in order) followed by [(cls+)]. *)
Fixpoint group_after (prefixes : list string) (cls : ascii -> bool) (s : string)
  : option string :=
  match group_here prefixes cls s with
  | Some run => Some run
  | None =>
      match s with
      | EmptyString => None
      | String _ s' => group_after prefixes cls s'
      end
  end.

(** [s.split(/\s+/)] *)
Fixpoint split_spaces (s cur : string) (in_space : bool) : list string :=
  match s with
  | EmptyString => [rev cur]
  | String c s' =>
      if is_space c then
        if in_space then split_spaces s' cur true
        else rev cur :: split_spaces s' EmptyString true
      else split_spaces s' (String c cur) false
  end.

(** The value of a string of decimal digits. *)
Fixpoint digits_acc (s : string) (acc : Z) : Z :=
  match s with
  | EmptyString => acc
  | String c s' => digits_acc s' (10 * acc + Z.of_N (code c - 48))
  end.

Definition digits_value (s : string) : Z := digits_acc s 0.

End Str.

(* ===================================================================== *)
(** ** The count-string parsers *)
(* ===================================================================== *)

Module Count.

Import Str.

Definition is_numch (c : ascii) : bool := is_digit c || Ascii.eqb c ".".

Definition is_suffix (c : ascii) : bool :=
  Ascii.eqb c "K" || Ascii.eqb c "M" || Ascii.eqb c "B".

(** A decimal literal read by [parseFloat]: [mant / 10 ^ frac], kept
    exact.  Doubles are modelled by these exact decimals; the two agree
    whenever every intermediate value is representable, which is the case
    for all the values computed below. *)
Record decimal := { mant : Z; frac : nat }.

(** [parseFloat] on a string made of digits and dots: the longest prefix
    [digits], [digits.digits], [digits.] or [.digits]; [NaN] (here [None])
    when that prefix holds no digit. *)
Definition parseFloat (s : string) : option decimal :=
  let int_part := take_while is_digit s in
  let rest := drop_while is_digit s in
  let frac_part :=
    match rest with
    | String "." r => take_while is_digit r
    | _ => EmptyString
    end in
  match int_part, frac_part with
  | EmptyString, EmptyString => None
  | _, _ =>
      Some {| mant := digits_value (int_part +:+ frac_part);
              frac := String.length frac_part |}
  end.

Definition scale_of (suffix : option ascii) : Z :=
  match suffix with
  | Some "K"%char => 1000
  | Some "M"%char => 1000000
  | Some "B"%char => 1000000000
  | _ => 1
  end.

(** [num *= scale; return Math.round(num)] *)
Definition scale_round (num : option decimal) (suffix : option ascii) : Js.number :=
  match num with
  | None => Js.NaN
  | Some d => Js.Num (Js.round_div (mant d * scale_of suffix) (10 ^ Z.of_nat (frac d)))
  end.

(** [countStr.replace(/,/g, '').trim().toUpperCase()] *)
Definition clean (countStr : string) : string :=
  toUpperCase (trim (filter (fun c => negb (Ascii.eqb c ",")) countStr)).

Module ProfileStrategy.

(** [cleanStr.match(/^([\d.]+)\s*([KMB])?$/)]: the three classes are
    pairwise disjoint, so the only candidate match takes the maximal run
    of each. *)
Definition match_count (cleanStr : string) : option (string * option ascii) :=
  let num := take_while is_numch cleanStr in
  let rest := drop_while is_space (drop_while is_numch cleanStr) in
  match num with
  | EmptyString => None
  | _ =>
      match rest with
      | EmptyString => Some (num, None)
      | String c EmptyString => if is_suffix c then Some (num, Some c) else None
      | _ => None
      end
  end.

Definition parseCount (countStr : string) : Js.number :=
  if String.eqb countStr "" then Js.Num 0
  else
    match match_count (clean countStr) with
    | None => Js.Num 0
    | Some (num, suffix) => scale_round (parseFloat num) suffix
    end.

End ProfileStrategy.

Module ReelStrategy.

(** [cleanStr.match(/([\d.]+)([KMB])?/)]: unanchored, so the match starts
    at the first digit or dot. *)
Definition match_count (cleanStr : string) : option (string * option ascii) :=
  let from := drop_while (fun c => negb (is_numch c)) cleanStr in
  let num := take_while is_numch from in
  match num with
  | EmptyString => None
  | _ =>
      match drop_while is_numch from with
      | String c _ => Some (num, if is_suffix c then Some c else None)
      | EmptyString => Some (num, None)
      end
  end.

Definition parseCount (countStr : string) : Js.number :=
  if String.eqb countStr "" then Js.Num 0
  else
    match match_count (clean countStr) with
    | None => Js.Num 0
    | Some (num, suffix) => scale_round (parseFloat num) suffix
    end.

End ReelStrategy.

End Count.

(* ===================================================================== *)
(** ** The proxy pool ([ProxyService]) *)
(* ===================================================================== *)

Module Proxy.

Record ProxyConfig := {
  protocol : string;
  host : string;
  port : Js.number;
  username : option string;
  password : option string;
  isActive : bool;
  failCount : Z;
  lastUsed : option Z;
}.

Record ProxyService := {
  proxies : list ProxyConfig;
  currentIndex : nat;
  requestCounts : gmap string Z;
  requestsPerProxy : Z;
}.

(** The parts of a parsed [URL] that [parseProxyString] reads. *)
Record Url := {
  url_protocol : string;   (* with its trailing colon, as in "http:" *)
  url_hostname : string;
  url_port : string;       (* decimal digits, or "" for the scheme's default *)
  url_username : string;
  url_password : string;
}.

(** [parseInt(s, 10)] on a string of decimal digits or the empty string. *)
Definition parseInt (s : string) : Js.number :=
  match Str.take_while Str.is_digit s with
  | EmptyString => Js.NaN
  | ds => Js.Num (Str.digits_value ds)
  end.

(** [s.replace(':', '')]: the first colon only. *)
Fixpoint remove_first_colon (s : string) : string :=
  match s with
  | EmptyString => EmptyString
  | String c s' => if Ascii.eqb c ":" then s' else String c (remove_first_colon s')
  end.

Definition nonempty (s : string) : option string :=
  if String.eqb s "" then None else Some s.

(** [parseProxyString]; the argument is [None] when [new URL] throws. *)
Definition parseProxyString (parsed : option Url) : option ProxyConfig :=
  match parsed with
  | None => None
  | Some url =>
      Some {| protocol := remove_first_colon (url_protocol url);
              host := url_hostname url;
              port := parseInt (url_port url);
              username := nonempty (url_username url);
              password := nonempty (url_password url);
              isActive := true;
              failCount := 0;
              lastUsed := None |}
  end.

Definition loadProxies (proxyList : list (option Url)) (requestsPerProxy : Z)
  : ProxyService :=
  {| proxies := omap parseProxyString proxyList;
     currentIndex := 0;
     requestCounts := ∅;
     requestsPerProxy := requestsPerProxy |}.

Definition show_number (x : Js.number) : string :=
  match x with
  | Js.NaN => "NaN"
  | Js.Num z => pretty z
  end.

(** [`${proxy.host}:${proxy.port}`] *)
Definition proxyKey (p : ProxyConfig) : string :=
  host p +:+ ":" +:+ show_number (port p).

(** [p.host === h && p.port === pt] *)
Definition same_endpoint (h : string) (pt : Js.number) (p : ProxyConfig) : bool :=
  String.eqb (host p) h && Js.strict_eq (port p) pt.

(** [const found = xs.find(f); if (found) { mutate found }] on an array
    of objects: the first match is updated in place. *)
Fixpoint update_first {A} (f : A -> bool) (g : A -> A) (l : list A) : list A :=
  match l with
  | [] => []
  | x :: l' => if f x then g x :: l' else x :: update_first f g l'
  end.

(** Mutating the [k]-th element of [proxies.filter(p => p.isActive)]
    mutates that same object in [proxies]. *)
Fixpoint update_active (k : nat) (g : ProxyConfig -> ProxyConfig)
    (l : list ProxyConfig) : list ProxyConfig :=
  match l with
  | [] => []
  | x :: l' =>
      if isActive x then
        match k with
        | O => g x :: l'
        | S k' => x :: update_active k' g l'
        end
      else x :: update_active k g l'
  end.

Definition touch (now : Z) (p : ProxyConfig) : ProxyConfig :=
  {| protocol := protocol p; host := host p; port := port p;
     username := username p; password := password p;
     isActive := isActive p; failCount := failCount p;
     lastUsed := Some now |}.

Definition requestCount (s : ProxyService) (p : ProxyConfig) : Z :=
  default 0 (requestCounts s !! proxyKey p).

(** [getNextProxy]; [now] is what [new Date()] returns. *)
Definition getNextProxy (now : Z) (s : ProxyService)
  : option ProxyConfig * ProxyService :=
  let activeProxies := List.filter isActive (proxies s) in
  let n := length activeProxies in
  match activeProxies with
  | [] => (None, s)
  | first :: _ =>
      let index_of (i : nat) := ((currentIndex s + i) mod n)%nat in
      let below_limit (i : nat) :=
        match activeProxies !! index_of i with
        | Some proxy => requestCount s proxy <? requestsPerProxy s
        | None => false
        end in
      match List.find below_limit (seq 0 n) with
      | Some i =>
          let index := index_of i in
          match activeProxies !! index with
          | Some proxy =>
              (Some (touch now proxy),
               {| proxies := update_active index (touch now) (proxies s);
                  currentIndex := ((index + 1) mod n)%nat;
                  requestCounts :=
                    <[proxyKey proxy := requestCount s proxy + 1]> (requestCounts s);
                  requestsPerProxy := requestsPerProxy s |})
          | None => (None, s)
          end
      | None =>
          (Some (touch now first),
           {| proxies := update_active 0 (touch now) (proxies s);
              currentIndex := (1 mod n)%nat;
              requestCounts := {[ proxyKey first := 1 ]};
              requestsPerProxy := requestsPerProxy s |})
      end
  end.

Definition with_proxies (s : ProxyService) (ps : list ProxyConfig) : ProxyService :=
  {| proxies := ps; currentIndex := currentIndex s;
     requestCounts := requestCounts s; requestsPerProxy := requestsPerProxy s |}.

Definition fail_once (found : ProxyConfig) : ProxyConfig :=
  let count := failCount found + 1 in
  {| protocol := protocol found; host := host found; port := port found;
     username := username found; password := password found;
     isActive := if 3 <=? count then false else isActive found;
     failCount := count;
     lastUsed := lastUsed found |}.

Definition clear_failures (found : ProxyConfig) : ProxyConfig :=
  {| protocol := protocol found; host := host found; port := port found;
     username := username found; password := password found;
     isActive := isActive found; failCount := 0;
     lastUsed := lastUsed found |}.

Definition reactivate (found : ProxyConfig) : ProxyConfig :=
  {| protocol := protocol found; host := host found; port := port found;
     username := username found; password := password found;
     isActive := true; failCount := 0;
     lastUsed := lastUsed found |}.

Definition markProxyFailed (proxy : ProxyConfig) (s : ProxyService) : ProxyService :=
  with_proxies s
    (update_first (same_endpoint (host proxy) (port proxy)) fail_once (proxies s)).

Definition markProxySuccess (proxy : ProxyConfig) (s : ProxyService) : ProxyService :=
  with_proxies s
    (update_first (same_endpoint (host proxy) (port proxy)) clear_failures (proxies s)).

Definition resetProxy (h : string) (pt : Js.number) (s : ProxyService) : ProxyService :=
  with_proxies s (update_first (same_endpoint h pt) reactivate (proxies s)).

Definition addProxy (parsed : option Url) (s : ProxyService) : bool * ProxyService :=
  match parseProxyString parsed with
  | Some proxy => (true, with_proxies s (proxies s ++ [proxy]))
  | None => (false, s)
  end.

(** The calls a client of the pool can make. *)
Inductive call :=
| GetNext (now : Z)
| Failed (h : string) (pt : Js.number)
| Success (h : string) (pt : Js.number)
| Reset (h : string) (pt : Js.number)
| Add (parsed : option Url).

(** [markProxyFailed] and [markProxySuccess] read only the host and the
    port of their argument. *)
Definition endpoint (h : string) (pt : Js.number) : ProxyConfig :=
  {| protocol := ""; host := h; port := pt; username := None; password := None;
     isActive := true; failCount := 0; lastUsed := None |}.

Definition step (c : call) (s : ProxyService)
  : ProxyService * list (option ProxyConfig) :=
  match c with
  | GetNext now => let '(r, s') := getNextProxy now s in (s', [r])
  | Failed h pt => (markProxyFailed (endpoint h pt) s, [])
  | Success h pt => (markProxySuccess (endpoint h pt) s, [])
  | Reset h pt => (resetProxy h pt s, [])
  | Add parsed => ((addProxy parsed s).2, [])
  end.

(** Runs the calls in order and collects what [getNextProxy] returned. *)
Fixpoint run (cs : list call) (s : ProxyService)
  : ProxyService * list (option ProxyConfig) :=
  match cs with
  | [] => (s, [])
  | c :: cs' =>
      let '(s1, out1) := step c s in
      let '(s2, out2) := run cs' s1 in
      (s2, out1 ++ out2)
  end.

(** Does the call succeed-report, reset or re-add the endpoint [h:n]? *)
Definition revives (h : string) (n : Z) (c : call) : bool :=
  match c with
  | GetNext _ | Failed _ _ => false
  | Success h' pt | Reset h' pt => String.eqb h' h && Js.strict_eq pt (Js.Num n)
  | Add parsed =>
      match parseProxyString parsed with
      | Some p => same_endpoint h (Js.Num n) p
      | None => false
      end
  end.

(** Does the call reset or re-add the endpoint [h:n]?  These are the
    calls that can put it back into service. *)
Definition restores (h : string) (n : Z) (c : call) : bool :=
  match c with
  | GetNext _ | Failed _ _ | Success _ _ => false
  | Reset h' pt => String.eqb h' h && Js.strict_eq pt (Js.Num n)
  | Add parsed =>
      match parseProxyString parsed with
      | Some p => same_endpoint h (Js.Num n) p
      | None => false
      end
  end.

Definition is_failure_of (h : string) (n : Z) (c : call) : bool :=
  match c with
  | Failed h' pt => String.eqb h' h && Js.strict_eq pt (Js.Num n)
  | _ => false
  end.

(** The pool state invariant of the data model. *)
Definition healthy (p : ProxyConfig) : Prop :=
  0 <= failCount p /\ (3 <= failCount p -> isActive p = false).

Definition wf (s : ProxyService) : Prop := Forall healthy (proxies s).

(** Exactly one entry of the pool has host [h] and port [n]. *)
Definition unique_endpoint (h : string) (n : Z) (s : ProxyService) : Prop :=
  length (List.filter (same_endpoint h (Js.Num n)) (proxies s)) = 1%nat.

(** Bookkeeping for one endpoint [h:n], followed through the calls. *)
Section Endpoint.

Variables (h : string) (n : Z).

Definition matching : ProxyConfig -> bool := same_endpoint h (Js.Num n).

(** How a call that does not revive the endpoint may rewrite an entry. *)
Definition keeps (x y : ProxyConfig) : Prop :=
  matching y = matching x /\
  (matching x = true ->
   failCount x <= failCount y /\ (isActive x = false -> isActive y = false)).

Definition down (p : ProxyConfig) : Prop :=
  matching p = true -> isActive p = false /\ 3 <= failCount p.

Definition fc_of (l : list ProxyConfig) : Z :=
  match List.find matching l with
  | Some p => failCount p
  | None => 0
  end.

(** No call of [cs] reports a success for, resets or re-adds [h:n]. *)
Definition quiet (cs : list call) : Prop :=
  Forall (fun c => revives h n c = false) cs.

(** How a call that does not restore the endpoint may rewrite an entry:
    an entry of the endpoint that is out of service stays so. *)
Definition stays_off (x y : ProxyConfig) : Prop :=
  matching y = matching x /\
  (matching x = true -> isActive x = false -> isActive y = false).

Definition off (p : ProxyConfig) : Prop :=
  matching p = true -> isActive p = false.

(** No call of [cs] resets or re-adds [h:n]; successes and failures may
    be reported for it. *)
Definition unrestored (cs : list call) : Prop :=
  Forall (fun c => restores h n c = false) cs.

(** How many calls of [cs] report a failure of [h:n]. *)
Definition failures (cs : list call) : Z :=
  Z.of_nat (length (List.filter (is_failure_of h n) cs)).

End Endpoint.

End Proxy.

(* ===================================================================== *)
(** ** The anti-ban rate limiter and the session cache *)
(* ===================================================================== *)

Module Session.

(** The state of the scraper's [AuthService] that outlives a login. *)
Record AuthService := {
  cachedSessionId : option string;
  lastLoginAttempt : option Z;
}.

Definition hasSession (a : AuthService) : bool := Js.truthy (cachedSessionId a).

(** "Clear the cached session (call this on 401/403 errors)". *)
Definition invalidateSession (a : AuthService) : AuthService :=
  {| cachedSessionId := None; lastLoginAttempt := lastLoginAttempt a |}.

End Session.

Module RateLimiter.

Record Config := {
  minDelayMs : Z;
  maxDelayMs : Z;
  requestsPerMinute : Z;
  requestsPerHour : Z;
  maxRequestsPerSession : Z;
}.

Record State := {
  requestTimestamps : list Z;
  sessionRequestCount : Z;
  sessionStartTime : Z;
  consecutiveErrors : Z;
  isInCooldown : bool;
  cooldownUntil : Z;
}.

(** The limiter together with the clock it reads through [Date.now()]. *)
Record Timed := { clock : Z; limiter : State }.

(** [await this.sleep(ms)]: the timer fires after [ms] milliseconds, at
    once when [ms] is not positive. *)
Definition sleep (ms : Z) (w : Timed) : Timed :=
  {| clock := clock w + Z.max 0 ms; limiter := limiter w |}.

Definition set_limiter (w : Timed) (s : State) : Timed :=
  {| clock := clock w; limiter := s |}.

Definition triggerCooldown (durationMs : Z) (w : Timed) : Timed :=
  let s := limiter w in
  set_limiter w
    {| requestTimestamps := requestTimestamps s;
       sessionRequestCount := sessionRequestCount s;
       sessionStartTime := sessionStartTime s;
       consecutiveErrors := consecutiveErrors s;
       isInCooldown := true;
       cooldownUntil := clock w + durationMs |}.

Definition bump_errors (w : Timed) : Timed :=
  let s := limiter w in
  set_limiter w
    {| requestTimestamps := requestTimestamps s;
       sessionRequestCount := sessionRequestCount s;
       sessionStartTime := sessionStartTime s;
       consecutiveErrors := consecutiveErrors s + 1;
       isInCooldown := isInCooldown s;
       cooldownUntil := cooldownUntil s |}.

(** [reportError(statusCode?)] *)
Definition reportError (statusCode : option Z) (w : Timed) : Timed :=
  let w1 := bump_errors w in
  match statusCode with
  | Some 429 => triggerCooldown (5 * 60 * 1000) w1
  | Some 401 | Some 403 => triggerCooldown (60 * 1000) w1
  | _ => w1
  end.

Definition reportSuccess (w : Timed) : Timed :=
  let s := limiter w in
  set_limiter w
    {| requestTimestamps := requestTimestamps s;
       sessionRequestCount := sessionRequestCount s;
       sessionStartTime := sessionStartTime s;
       consecutiveErrors := 0;
       isInCooldown := isInCooldown s;
       cooldownUntil := cooldownUntil s |}.

Definition resetSession (w : Timed) : Timed :=
  let s := limiter w in
  set_limiter w
    {| requestTimestamps := requestTimestamps s;
       sessionRequestCount := 0;
       sessionStartTime := clock w;
       consecutiveErrors := consecutiveErrors s;
       isInCooldown := isInCooldown s;
       cooldownUntil := cooldownUntil s |}.

Definition set_timestamps (w : Timed) (ts : list Z) : Timed :=
  let s := limiter w in
  set_limiter w
    {| requestTimestamps := ts;
       sessionRequestCount := sessionRequestCount s;
       sessionStartTime := sessionStartTime s;
       consecutiveErrors := consecutiveErrors s;
       isInCooldown := isInCooldown s;
       cooldownUntil := cooldownUntil s |}.

(** [oldest ? a : b] on a timestamp: 0 and [undefined] are falsy. *)
Definition if_timestamp (oldest : option Z) (a : Z -> Z) (b : Z) : Z :=
  match oldest with
  | Some t => if t =? 0 then b else a t
  | None => b
  end.

(** [enforceRateLimits]; [now] is read once, before any waiting. *)
Definition enforceRateLimits (cfg : Config) (w : Timed) : Timed :=
  let now := clock w in
  let w1 := set_timestamps w
              (List.filter (fun ts => now - ts <? 3600000)
                           (requestTimestamps (limiter w))) in
  let inMinute := List.filter (fun ts => now - ts <? 60000)
                              (requestTimestamps (limiter w1)) in
  let w2 :=
    if requestsPerMinute cfg <=? Z.of_nat (length inMinute) then
      sleep (if_timestamp (head inMinute)
                          (fun oldest => 60000 - (now - oldest) + 1000) 60000) w1
    else w1 in
  let w3 :=
    if requestsPerHour cfg <=? Z.of_nat (length (requestTimestamps (limiter w2))) then
      sleep (Z.min (if_timestamp (head (requestTimestamps (limiter w2)))
                                 (fun oldest => 3600000 - (now - oldest) + 1000) 60000)
                   300000) w2
    else w2 in
  if maxRequestsPerSession cfg <=? sessionRequestCount (limiter w3)
  then resetSession w3 else w3.

Definition recordRequest (w : Timed) : Timed :=
  let s := limiter w in
  set_limiter w
    {| requestTimestamps := requestTimestamps s ++ [clock w];
       sessionRequestCount := sessionRequestCount s + 1;
       sessionStartTime := sessionStartTime s;
       consecutiveErrors := consecutiveErrors s;
       isInCooldown := isInCooldown s;
       cooldownUntil := cooldownUntil s |}.

Definition leave_cooldown (w : Timed) : Timed :=
  let s := limiter w in
  set_limiter w
    {| requestTimestamps := requestTimestamps s;
       sessionRequestCount := sessionRequestCount s;
       sessionStartTime := sessionStartTime s;
       consecutiveErrors := consecutiveErrors s;
       isInCooldown := false;
       cooldownUntil := cooldownUntil s |}.

(** The first statement of [waitBeforeRequest]: sit out the cooldown. *)
Definition wait_cooldown (w : Timed) : Timed :=
  if isInCooldown (limiter w) && (clock w <? cooldownUntil (limiter w)) then
    leave_cooldown (sleep (cooldownUntil (limiter w) - clock w) w)
  else w.

(** [waitBeforeRequest].  [delay] is what [calculateDelay] returns: a
    random draw scaled by double multiplications, left to the caller. *)
Definition waitBeforeRequest (cfg : Config) (delay : Z) (w : Timed) : Timed :=
  recordRequest (sleep delay (enforceRateLimits cfg (wait_cooldown w))).

(** The services a scrape can reach: the limiter with its clock, and the
    session cache.  The limiter holds no reference to the session cache
    (its only constructor argument is the configuration), so its methods
    act on the first component alone. *)
Record Services := { timed : Timed; auth : Session.AuthService }.

Definition on_limiter (f : Timed -> Timed) (sv : Services) : Services :=
  {| timed := f (timed sv); auth := auth sv |}.

End RateLimiter.

(* ===================================================================== *)
(** ** Effects: state that survives exceptions *)
(* ===================================================================== *)

Module Eff.

(** The outcome of a call: a value, or a thrown [Error] with its message. *)
Inductive res (A : Type) := Ok (a : A) | Throw (msg : string).
Arguments Ok {A} a.
Arguments Throw {A} msg.

(** A computation over a mutable state [S]: what was written before a
    throw stays written. *)
Definition M (S A : Type) : Type := S -> res A * S.

Definition ret {S A} (a : A) : M S A := fun s => (Ok a, s).

Definition bind {S A B} (m : M S A) (k : A -> M S B) : M S B :=
  fun s =>
    match m s with
    | (Ok a, s') => k a s'
    | (Throw msg, s') => (Throw msg, s')
    end.

Definition throw {S A} (msg : string) : M S A := fun s => (Throw msg, s).

Definition get {S} : M S S := fun s => (Ok s, s).

Definition modify {S} (f : S -> S) : M S unit := fun s => (Ok tt, f s).

(** An outcome decided elsewhere (by the browser, by a strategy). *)
Definition lift {S A} (r : res A) : M S A := fun s => (r, s).

(** [try { body } catch (error) { handler(error.message) }] *)
Definition try_catch {S A} (body : M S A) (handler : string -> M S A) : M S A :=
  fun s =>
    match body s with
    | (Ok a, s') => (Ok a, s')
    | (Throw msg, s') => handler msg s'
    end.

(** [try { body } finally { cleanup }] *)
Definition finally {S A} (body : M S A) (cleanup : M S unit) : M S A :=
  fun s =>
    match body s with
    | (r, s') =>
        match cleanup s' with
        | (Ok _, s'') => (r, s'')
        | (Throw msg, s'') => (Throw msg, s'')
        end
    end.

Module Notations.
Notation "'let*' x := m 'in' k" := (bind m (fun x => k))
  (at level 10, x name, m at level 100, k at level 200).
Notation "m >> k" := (bind m (fun _ => k))
  (at level 100, k at level 200, right associativity).
End Notations.

End Eff.

(* ===================================================================== *)
(** ** The hashtag strategy chain ([HashtagStrategy]) *)
(* ===================================================================== *)

Module Hashtag.

Import Eff Eff.Notations.

Inductive MediaType := Image | Video | Carousel | Reel.

(** [PostData], without its media URLs, counters and dates. *)
Record PostData := {
  id : option string;
  shortcode : option string;
  url : string;
  type : MediaType;
  caption : string;
  ownerUsername : string;
  hashtags : list string;
}.

(** The hashtag summary; no strategy ever fills it in. *)
Record HashtagData := { name : string; postsCount : Z }.

Record Result := { hashtagData : option HashtagData; posts : list PostData }.

(** A GraphQL media node, as far as [parseGraphQLPost] reads it. *)
Record Node := {
  node_id : option string;
  node_pk : option string;
  node_shortcode : option string;
  node_code : option string;
  node_is_video : bool;
  node_typename : option string;
  node_caption_edge : option string;   (* edge_media_to_caption.edges[0].node.text *)
  node_caption_text : option string;   (* caption.text *)
  node_owner_username : option string;
  node_user_username : option string;
}.

(** An element of an [edges] array: [None] is an element on which
    [edge.node] throws (a [null]); otherwise the node is [edge.node || edge]. *)
Definition Edge := option Node.

Definition show (v : option string) : string :=
  match v with
  | Some s => s
  | None => "undefined"
  end.

Definition post_url (sc : option string) : string :=
  "https://www.instagram.com/p/" +:+ show sc +:+ "/".

Definition typename_is (n : Node) (t : string) : bool :=
  match node_typename n with
  | Some s => String.eqb s t
  | None => false
  end.

Definition typename_includes (n : Node) (t : string) : bool :=
  match node_typename n with
  | Some s => Str.includes s t
  | None => false
  end.

(** [parseGraphQLPost]: [null] when reading the edge throws. *)
Definition parseGraphQLPost (edge : Edge) : option PostData :=
  match edge with
  | None => None
  | Some node =>
      let sc := Js.or (node_shortcode node) (node_code node) in
      Some {| id := Js.or (node_id node) (Js.or (node_pk node) sc);
              shortcode := sc;
              url := post_url sc;
              type := if node_is_video node || typename_includes node "Video"
                      then Video
                      else if typename_is node "GraphSidecar" then Carousel else Image;
              caption := default "" (Js.or (node_caption_edge node)
                                           (node_caption_text node));
              ownerUsername := default "" (Js.or (node_owner_username node)
                                                 (node_user_username node));
              hashtags := [] |}
  end.

(** [posts.some(p => p.shortcode === sc)] *)
Definition has_shortcode (posts : list PostData) (sc : option string) : bool :=
  existsb (fun p => bool_decide (shortcode p = sc)) posts.

Definition count (posts : list PostData) : Z := Z.of_nat (length posts).

(** [for (const edge of edges) { if (posts.length >= limit) break; ... push ... }] *)
Fixpoint add_edges (edges : list Edge) (posts : list PostData) (limit : Q)
  : list PostData :=
  match edges with
  | [] => posts
  | edge :: rest =>
      if Js.at_least (count posts) limit then posts
      else
        match parseGraphQLPost edge with
        | Some post =>
            if has_shortcode posts (shortcode post)
            then add_edges rest posts limit
            else add_edges rest (posts ++ [post]) limit
        | None => add_edges rest posts limit
        end
  end.

Record TagData := {
  edge_hashtag_to_media : list Edge;
  edge_hashtag_to_top_posts : list Edge;
  tag_edges : list Edge;
}.

(** A captured JSON body: the four places where tag data is looked for. *)
Record Response := {
  data_hashtag : option TagData;
  top_hashtag : option TagData;
  graphql_hashtag : option TagData;
  data_logged_out_media : option TagData;
}.

Definition tagData_of (data : Response) : option TagData :=
  match data_hashtag data with
  | Some t => Some t
  | None =>
      match top_hashtag data with
      | Some t => Some t
      | None =>
          match graphql_hashtag data with
          | Some t => Some t
          | None => data_logged_out_media data
          end
      end
  end.

Fixpoint processCapturedResponses (responses : list Response)
    (posts : list PostData) (limit : Q) : list PostData :=
  match responses with
  | [] => posts
  | data :: rest =>
      if Js.at_least (count posts) limit then posts
      else
        match tagData_of data with
        | Some tagData =>
            let edges := edge_hashtag_to_media tagData
                         ++ edge_hashtag_to_top_posts tagData
                         ++ tag_edges tagData in
            processCapturedResponses rest (add_edges edges posts limit) limit
        | None => processCapturedResponses rest posts limit
        end
  end.

(** Page markup, as the two patterns of [extractFromHtml] see it: the
    quoted value after every key [shortcode], respectively [code], in
    document order (the first capture group of each match). *)
Record Html := {
  shortcode_matches : list string;
  code_matches : list string;
}.

Definition html_post (sc : string) : PostData :=
  {| id := Some sc; shortcode := Some sc; url := post_url (Some sc);
     type := Image; caption := ""; ownerUsername := ""; hashtags := [] |}.

(** [sc && sc.length > 5 && sc.length < 20] *)
Definition plausible (sc : string) : bool :=
  let len := Z.of_nat (String.length sc) in
  negb (String.eqb sc "") && (5 <? len) && (len <? 20).

Fixpoint extract_matches (matches : list string) (posts : list PostData) (limit : Q)
  : list PostData :=
  match matches with
  | [] => posts
  | sc :: rest =>
      if plausible sc && negb (has_shortcode posts (Some sc)) then
        if Js.at_least (count posts) limit then posts
        else extract_matches rest (posts ++ [html_post sc]) limit
      else extract_matches rest posts limit
  end.

(** The timestamp that [new RegExp] looks up for a shortcode is not kept;
    the construction of that pattern is taken to succeed. *)
Definition extractFromHtml (html : Html) (posts : list PostData) (limit : Q)
  : list PostData :=
  let posts1 := extract_matches (shortcode_matches html) posts limit in
  if Js.at_least (count posts1) limit then posts1
  else extract_matches (code_matches html) posts1 limit.

(** *** Strategy 1: cursor pagination, then the scroll fallback *)

Record PageInfo := { has_next_page : bool; end_cursor : option string }.

Record PageResult := { edges : list Edge; pageInfo : PageInfo }.

(** What [extractPageInfoFromDOM] finds in the inline scripts. *)
Record DomPageInfo := { endCursor : string; hasNextPage : bool }.

(** The browser, as strategy 1 meets it.  [initial_page] is [None] when
    the navigation or the first read of the markup throws; the two fetches
    answer the page number, the cursor and the page size they are called
    with ([None] for a failed or shapeless answer); [fallback_scroll k] is
    the markup after the [k]-th scroll of the fallback, or the exception
    thrown by that scroll. *)
Record PaginationDriver := {
  initial_page : option (Html * option DomPageInfo);
  fetchNextPageViaQueryHash : nat -> option string -> Q -> option PageResult;
  fetchNextPageViaDocId : nat -> option string -> Q -> option PageResult;
  fallback_scroll : nat -> res Html;
}.

(** [!r || r.edges.length === 0] rejects [r]. *)
Definition usable (r : option PageResult) : option PageResult :=
  match r with
  | Some p => match edges p with [] => None | _ => Some p end
  | None => None
  end.

Fixpoint paginate (d : PaginationDriver) (limit : Q) (fuel pageCount : nat)
    (hasNextPage : bool) (endCursor : option string) (posts : list PostData)
  : list PostData :=
  match fuel with
  | O => posts
  | S fuel' =>
      if Js.below (count posts) limit && hasNextPage then
        let pageCount := S pageCount in
        let size := Js.min 50 (limit - Js.whole (count posts)) in
        let paginationResult :=
          match usable (fetchNextPageViaQueryHash d pageCount endCursor size) with
          | Some r => Some r
          | None => usable (fetchNextPageViaDocId d pageCount endCursor size)
          end in
        match paginationResult with
        | None => posts
        | Some r =>
            let posts := add_edges (edges r) posts limit in
            let hasNextPage := has_next_page (pageInfo r) in
            let endCursor := Js.or (end_cursor (pageInfo r)) None in
            if negb hasNextPage || negb (Js.truthy endCursor) then posts
            else paginate d limit fuel' pageCount hasNextPage endCursor posts
        end
      else posts
  end.

Fixpoint scroll_loop (scroll : nat -> res Html) (limit : Q)
    (fuel scrollCount : nat) (noNewPostsCount : Z) (posts : list PostData)
  : res (list PostData) :=
  match fuel with
  | O => Ok posts
  | S fuel' =>
      if Js.below (count posts) limit then
        match scroll scrollCount with
        | Throw msg => Throw msg
        | Ok currentHtml =>
            let beforeCount := count posts in
            let posts := extractFromHtml currentHtml posts limit in
            let newPostsFound := count posts - beforeCount in
            let noNewPostsCount :=
              if 0 <? newPostsFound then 0 else noNewPostsCount + 1 in
            if 5 <=? noNewPostsCount then Ok posts
            else scroll_loop scroll limit fuel' (S scrollCount) noNewPostsCount posts
        end
      else Ok posts
  end.

Definition scrollFallback (scroll : nat -> res Html)
    (existingPosts : list PostData) (limit : Q) : res (list PostData) :=
  let maxScrolls := Js.ceil ((limit - Js.whole (count existingPosts)) / 5) + 10 in
  match scroll_loop scroll limit (Z.to_nat maxScrolls) 0 0 existingPosts with
  | Ok posts => Ok (Js.slice posts 0 (Js.trunc limit))
  | Throw msg => Throw msg
  end.

Definition scrapeWithPagination (d : PaginationDriver) (limit : Q) : res Result :=
  let MAX_PAGES := Js.ceil (limit / 50) + 3 in
  let posts :=
    match initial_page d with
    | None => []
    | Some (initialHtml, initialPageInfo) =>
        let posts := extractFromHtml initialHtml [] limit in
        let endCursor := option_map endCursor initialPageInfo in
        let hasNextPage := default true (option_map hasNextPage initialPageInfo) in
        paginate d limit (Z.to_nat MAX_PAGES) 0 hasNextPage endCursor posts
    end in
  if Js.below (count posts) limit && (count posts <=? 15) then
    match scrollFallback (fallback_scroll d) posts limit with
    | Ok scrolledPosts => Ok {| hashtagData := None; posts := scrolledPosts |}
    | Throw msg => Throw msg
    end
  else Ok {| hashtagData := None; posts := Js.slice posts 0 (Js.trunc limit) |}.

(** *** Strategy 2: live interception and scrolling *)

(** The browser, as strategy 2 meets it: the JSON bodies the response
    handler receives while the page loads, the first markup ([None] when
    the navigation throws), and for the [k]-th scroll the bodies received
    during it and the markup after it ([None] when the scroll throws). *)
Record LiveDriver := {
  navigation_responses : list Response;
  first_markup : option Html;
  live_scroll : nat -> list Response * option Html;
}.

(** The handler: each body goes through [processCapturedResponses([data], ...)]. *)
Definition handle_responses (responses : list Response) (posts : list PostData)
    (limit : Q) : list PostData :=
  fold_left (fun posts data => processCapturedResponses [data] posts limit)
            responses posts.

Fixpoint live_loop (scroll : nat -> list Response * option Html) (limit : Q)
    (fuel scrollCount : nat) (lastPostCount noNewPostsCount : Z)
    (captured : list Response) (posts : list PostData)
  : list Response * list PostData :=
  match fuel with
  | O => (captured, posts)
  | S fuel' =>
      if Js.below (count posts) limit then
        let '(responses, markup) := scroll scrollCount in
        let posts := handle_responses responses posts limit in
        let captured := captured ++ responses in
        match markup with
        | None => (captured, posts)
        | Some currentHtml =>
            let posts := extractFromHtml currentHtml posts limit in
            let same := count posts =? lastPostCount in
            let noNewPostsCount := if same then noNewPostsCount + 1 else 0 in
            let lastPostCount := if same then lastPostCount else count posts in
            if 5 <=? noNewPostsCount then (captured, posts)
            else live_loop scroll limit fuel' (S scrollCount)
                           lastPostCount noNewPostsCount captured posts
        end
      else (captured, posts)
  end.

Definition scrapeViaLiveInterception (d : LiveDriver) (limit : Q) : Result :=
  let posts := handle_responses (navigation_responses d) [] limit in
  let captured := navigation_responses d in
  let '(captured, posts) :=
    match first_markup d with
    | None => (captured, posts)
    | Some pageSource =>
        let posts := extractFromHtml pageSource posts limit in
        let maxScrolls := Z.max 25 (Js.ceil (limit / 10) + 5) in
        live_loop (live_scroll d) limit (Z.to_nat maxScrolls) 0 (count posts) 0
                  captured posts
    end in
  let posts := processCapturedResponses captured posts limit in
  {| hashtagData := None; posts := Js.slice posts 0 (Js.trunc limit) |}.

(** *** Strategy 3: one doc_id GraphQL request *)

(** [fetch first] is the parsed answer to a request for [first] posts,
    [None] when the request or its parsing throws. *)
Definition scrapeViaDocIdGraphQL (fetch : Q -> option Response) (limit : Q) : Result :=
  let posts :=
    match fetch (Js.min limit 50) with
    | Some response =>
        match data_hashtag response with
        | Some _ => processCapturedResponses [response] [] limit
        | None => []
        end
    | None => []
    end in
  {| hashtagData := None; posts := posts |}.

(** *** Strategy 4: the web-info endpoint *)

Record Media := {
  media_id : option string;
  media_code : option string;
  media_type : Z;
  media_caption : option string;
  media_username : option string;
}.

Definition mapMediaToPost (media : Media) : PostData :=
  {| id := media_id media;
     shortcode := media_code media;
     url := post_url (media_code media);
     type := if media_type media =? 2 then Video
             else if media_type media =? 8 then Carousel else Image;
     caption := default "" (Js.or (media_caption media) None);
     ownerUsername := default "" (Js.or (media_username media) None);
     hashtags := [] |}.

(** An element of [fill_items] / [medias]: [None] is an element on which
    [item.media] throws; otherwise the media is [item.media || item]. *)
Definition Item := option Media.

(** A section: [None] is one on which [section.layout_content] throws. *)
Definition Section := option (list Item).

Record WebInfo := { has_hashtag : bool; sections : list Section }.

(** The inner loop; the flag tells whether an exception left it. *)
Fixpoint add_medias (medias : list Item) (posts : list PostData) (limit : Q)
  : list PostData * bool :=
  match medias with
  | [] => (posts, false)
  | None :: _ => (posts, true)
  | Some media :: rest =>
      if Js.at_least (count posts) limit then (posts, false)
      else if Js.truthy (media_code media)
              && negb (has_shortcode posts (media_code media))
      then add_medias rest (posts ++ [mapMediaToPost media]) limit
      else add_medias rest posts limit
  end.

Fixpoint add_sections (sections : list Section) (posts : list PostData) (limit : Q)
  : list PostData :=
  match sections with
  | [] => posts
  | None :: _ => posts
  | Some medias :: rest =>
      match add_medias medias posts limit with
      | (posts, true) => posts
      | (posts, false) => add_sections rest posts limit
      end
  end.

Definition scrapeViaWebInfoEndpoint (answer : option WebInfo) (limit : Q) : Result :=
  let posts :=
    match answer with
    | Some data => if has_hashtag data then add_sections (sections data) [] limit else []
    | None => []
    end in
  {| hashtagData := None; posts := posts |}.

(** *** The chain *)

Record Driver := {
  pagination : PaginationDriver;
  live : LiveDriver;
  docid_fetch : Q -> option Response;
  web_info : option WebInfo;
}.

Definition strip_hash (s : string) : string :=
  match s with
  | String "#" rest => rest
  | _ => s
  end.

Definition is_tag_char (c : ascii) : bool :=
  Str.is_lower c || Str.is_digit c || Ascii.eqb c "_".

Definition invalid_format : string :=
  "Invalid hashtag format. Use only letters, numbers, and underscores.".

(** [sanitizeHashtag]; the pattern is [^[a-z0-9_]+$]. *)
Definition sanitizeHashtag (hashtag : string) : res string :=
  let sanitized := Str.trim (Str.toLowerCase (strip_hash hashtag)) in
  if negb (String.eqb sanitized "") && Str.forallb is_tag_char sanitized
  then Ok sanitized
  else Throw invalid_format.

(** What the strategy writes to its logger. *)
Inductive event :=
| Rejected (hashtag : string)              (* error: invalid hashtag format *)
| Started (cleanHashtag : string) (limit : Q)
| Invoked (strategy : nat)                 (* debug: Strategy k: ... *)
| Succeeded (strategy : nat) (n : nat)     (* log: Strategy k succeeded: n posts *)
| Exhausted (cleanHashtag : string).       (* warn: No posts found ... *)

Definition emit (e : event) : M (list event) unit := modify (fun log => log ++ [e]).

(** [posts.length >= limit * 0.7], the product taken exactly.  For a
    whole [limit] the double product is within rounding of [7 * limit / 10]
    and never above it when that quotient is an integer, so the test is
    [10 * length >= 7 * limit]. *)
Definition reaches_70_percent (posts : list PostData) (limit : Q) : bool :=
  Js.at_least (count posts) (limit * (7 # 10)).

Definition nonempty (posts : list PostData) : bool := 0 <? count posts.

Definition scrapeHashtag (d : Driver) (hashtag : string) (limit : Q)
  : M (list event) Result :=
  let* cleanHashtag :=
    try_catch (lift (sanitizeHashtag hashtag))
              (fun msg => emit (Rejected hashtag) >> throw msg) in
  emit (Started cleanHashtag limit) >>
  emit (Invoked 1) >>
  let* paginatedResult := lift (scrapeWithPagination (pagination d) limit) in
  if reaches_70_percent (posts paginatedResult) limit then
    emit (Succeeded 1 (length (posts paginatedResult))) >> ret paginatedResult
  else
    emit (Invoked 2) >>
    let liveResult := scrapeViaLiveInterception (live d) limit in
    if nonempty (posts liveResult) then
      emit (Succeeded 2 (length (posts liveResult))) >> ret liveResult
    else
      emit (Invoked 3) >>
      let docIdResult := scrapeViaDocIdGraphQL (docid_fetch d) limit in
      if nonempty (posts docIdResult) then
        emit (Succeeded 3 (length (posts docIdResult))) >> ret docIdResult
      else
        emit (Invoked 4) >>
        let webInfoResult := scrapeViaWebInfoEndpoint (web_info d) limit in
        if nonempty (posts webInfoResult) then
          emit (Succeeded 4 (length (posts webInfoResult))) >> ret webInfoResult
        else
          emit (Exhausted cleanHashtag) >>
          ret {| hashtagData := None; posts := [] |}.

(** The strategies that were started, in order. *)
Definition invoked (log : list event) : list nat :=
  omap (fun e => match e with Invoked k => Some k | _ => None end) log.

(** The strategy whose result was returned, if any. *)
Definition accepted (log : list event) : option nat :=
  head (omap (fun e => match e with Succeeded k _ => Some k | _ => None end) log).

Definition empty_result : Result := {| hashtagData := None; posts := [] |}.

(** A driver under which the first strategy meets the limit at once. *)
Definition quiet_pagination : PaginationDriver :=
  {| initial_page := None;
     fetchNextPageViaQueryHash := fun _ _ _ => None;
     fetchNextPageViaDocId := fun _ _ _ => None;
     fallback_scroll := fun _ => Ok {| shortcode_matches := []; code_matches := [] |} |}.

Definition markup (codes : list string) : Html :=
  {| shortcode_matches := codes; code_matches := [] |}.

(** A stub browser: pagination finds nothing, the live page shows two
    posts (one of them twice), the last two strategies are never needed. *)
Definition stub_driver : Driver :=
  {| pagination := quiet_pagination;
     live := {| navigation_responses := [];
                first_markup := Some (markup ["CxYz123ABC"; "DaBc456DEF"; "CxYz123ABC"]);
                live_scroll := fun _ => ([], Some (markup ["CxYz123ABC"])) |};
     docid_fetch := fun _ => None;
     web_info := None |}.

(** A stub browser that yields nothing at all. *)
Definition barren_driver : Driver :=
  {| pagination := quiet_pagination;
     live := {| navigation_responses := [];
                first_markup := None;
                live_scroll := fun _ => ([], None) |};
     docid_fetch := fun _ => None;
     web_info := None |}.

(** A node that carries its shortcode and nothing else. *)
Definition bare_node (sc : string) : Node :=
  {| node_id := None; node_pk := None; node_shortcode := Some sc;
     node_code := None; node_is_video := false; node_typename := None;
     node_caption_edge := None; node_caption_text := None;
     node_owner_username := None; node_user_username := None |}.

Definition tag_response (codes : list string) : Response :=
  {| data_hashtag :=
       Some {| edge_hashtag_to_media := List.map (fun sc => Some (bare_node sc)) codes;
               edge_hashtag_to_top_posts := [];
               tag_edges := [] |};
     top_hashtag := None; graphql_hashtag := None;
     data_logged_out_media := None |}.

Definition four_codes : list string :=
  ["CxYz123ABC"; "DaBc456DEF"; "EfGh789GHI"; "JkLm012JKL"].

(** A browser in which only the doc_id request of strategy 3 is answered,
    with four posts. *)
Definition docid_driver : Driver :=
  {| pagination := quiet_pagination;
     live := {| navigation_responses := [];
                first_markup := None;
                live_scroll := fun _ => ([], None) |};
     docid_fetch := fun _ => Some (tag_response four_codes);
     web_info := None |}.

(** A browser in which the same four posts are captured while the page
    of strategy 2 loads. *)
Definition capture_driver : Driver :=
  {| pagination := quiet_pagination;
     live := {| navigation_responses := [tag_response four_codes];
                first_markup := None;
                live_scroll := fun _ => ([], None) |};
     docid_fetch := fun _ => None;
     web_info := None |}.

(** *** What a result set must satisfy *)

(** Pairwise-distinct shortcodes, [===] being equality on
    string-or-undefined values. *)
Definition distinct (posts : list PostData) : Prop := NoDup (shortcode <$> posts).

(** No more posts than the limit rounded up, and none at all under a
    negative limit. *)
Definition within (limit : Q) (posts : list PostData) : Prop :=
  count posts <= Z.max 0 (Js.ceil limit).

Definition good (limit : Q) (posts : list PostData) : Prop :=
  distinct posts /\ within limit posts.

End Hashtag.

(* ===================================================================== *)
(** ** The job store, the browser registry and the shared services *)
(* ===================================================================== *)

Module Service.

Import Eff Eff.Notations.

Inductive JobType := profile | hashtag | post | comments | reels | search | direct_urls.

Inductive JobStatus := pending | processing | completed | failed.

Inductive JobInput :=
| ProfileInput (username : string) (limit : Z)
| HashtagInput (hashtag : string) (limit page : Q)
| PostInput (postUrl : string) (includeComments : bool) (commentsLimit : Z)
| CommentsInput (postUrl : string) (commentsLimit : Z)
| ReelsInput (username : string) (limit : Z)
| SearchInput (keyword : string) (searchLimit resultLimit : Q)
| UrlsInput (urls : list string) (postsLimit : Q) (includeComments : bool).

Record ScrapeJob := {
  id : string;
  type : JobType;
  status : JobStatus;
  input : JobInput;
  progress : Z;
  totalItems : Q;
  scrapedItems : Z;
  error : option string;
  createdAt : Z;
  startedAt : option Z;
  completedAt : option Z;
}.

(** The [Partial<ScrapeJob>] objects the flows pass to [updateJob]. *)
Record JobUpdate := {
  new_status : option JobStatus;
  new_scrapedItems : option Z;
  new_progress : option Z;
  new_error : option string;
  new_completedAt : option Z;
}.

Definition no_update : JobUpdate :=
  {| new_status := None; new_scrapedItems := None; new_progress := None;
     new_error := None; new_completedAt := None |}.

(** [Object.assign(job, updates)] *)
Definition assign (job : ScrapeJob) (u : JobUpdate) : ScrapeJob :=
  {| id := id job;
     type := type job;
     status := default (status job) (new_status u);
     input := input job;
     progress := default (progress job) (new_progress u);
     totalItems := totalItems job;
     scrapedItems := default (scrapedItems job) (new_scrapedItems u);
     error := match new_error u with Some e => Some e | None => error job end;
     createdAt := createdAt job;
     startedAt := startedAt job;
     completedAt := match new_completedAt u with
                    | Some t => Some t
                    | None => completedAt job
                    end |}.

Definition terminal (job : ScrapeJob) : bool :=
  match status job with
  | completed | failed => true
  | pending | processing => false
  end.

(** A browser context, reduced to the proxy server it routes through. *)
Record BrowserContext := { server : option string }.

(** The process-wide state the flows share.  [history] is a ghost field:
    it records the job store after each of its writes and is read by no
    code.  [browserContexts] is the number of contexts the browser holds
    (the length of [browser.contexts()]): those opened by [newContext] and
    not closed since, registered in [activeContexts] or not; the service
    never reads it. *)
Record Sys := {
  jobs : gmap string ScrapeJob;
  history : list (gmap string ScrapeJob);
  activeContexts : gmap string BrowserContext;
  browserContexts : nat;
  pool : Proxy.ProxyService;
  consecutiveWarnings : Z;
  lastWarningTime : Z;
  strategy_log : list Hashtag.event;
}.

Definition set_jobs (s : Sys) (js : gmap string ScrapeJob) : Sys :=
  {| jobs := js; history := history s ++ [js];
     activeContexts := activeContexts s;
     browserContexts := browserContexts s; pool := pool s;
     consecutiveWarnings := consecutiveWarnings s;
     lastWarningTime := lastWarningTime s; strategy_log := strategy_log s |}.

Definition set_contexts (s : Sys) (cs : gmap string BrowserContext) : Sys :=
  {| jobs := jobs s; history := history s;
     activeContexts := cs;
     browserContexts := browserContexts s; pool := pool s;
     consecutiveWarnings := consecutiveWarnings s;
     lastWarningTime := lastWarningTime s; strategy_log := strategy_log s |}.

Definition set_browser (s : Sys) (n : nat) : Sys :=
  {| jobs := jobs s; history := history s;
     activeContexts := activeContexts s;
     browserContexts := n; pool := pool s;
     consecutiveWarnings := consecutiveWarnings s;
     lastWarningTime := lastWarningTime s; strategy_log := strategy_log s |}.

Definition set_pool (s : Sys) (p : Proxy.ProxyService) : Sys :=
  {| jobs := jobs s; history := history s;
     activeContexts := activeContexts s;
     browserContexts := browserContexts s; pool := p;
     consecutiveWarnings := consecutiveWarnings s;
     lastWarningTime := lastWarningTime s; strategy_log := strategy_log s |}.

Definition set_warnings (s : Sys) (n t : Z) : Sys :=
  {| jobs := jobs s; history := history s;
     activeContexts := activeContexts s;
     browserContexts := browserContexts s; pool := pool s;
     consecutiveWarnings := n;
     lastWarningTime := t; strategy_log := strategy_log s |}.

Definition set_log (s : Sys) (log : list Hashtag.event) : Sys :=
  {| jobs := jobs s; history := history s;
     activeContexts := activeContexts s;
     browserContexts := browserContexts s; pool := pool s;
     consecutiveWarnings := consecutiveWarnings s;
     lastWarningTime := lastWarningTime s; strategy_log := log |}.

(** *** [DataService] *)

Definition createJob (job : ScrapeJob) : M Sys unit :=
  modify (fun s => set_jobs s (<[id job := job]> (jobs s))).

Definition updateJob (jobId : string) (updates : JobUpdate) : M Sys unit :=
  modify (fun s =>
            match jobs s !! jobId with
            | None => s
            | Some job => set_jobs s (<[jobId := assign job updates]> (jobs s))
            end).

Definition getJob (jobId : string) : M Sys (option ScrapeJob) :=
  fun s => (Ok (jobs s !! jobId), s).

(** *** [BrowserService] *)

Definition proxy_server (proxy : option Proxy.ProxyConfig) : option string :=
  match proxy with
  | Some p =>
      if Proxy.isActive p
      then Some (Proxy.protocol p +:+ "://" +:+ Proxy.host p +:+ ":"
                 +:+ Proxy.show_number (Proxy.port p))
      else None
  | None => None
  end.

(** [createContext]; [launched] is the outcome of launching the browser
    and of [browser.newContext], [scripted] that of
    [addAntiDetectionScripts].  The context is registered only when both
    succeed: when the scripts throw, the context that was opened stays
    with the browser, out of the registry. *)
Definition createContext (contextId : string) (proxy : option Proxy.ProxyConfig)
    (launched scripted : res unit) : M Sys unit :=
  lift launched >>
  modify (fun s => set_browser s (S (browserContexts s))) >>
  lift scripted >>
  modify (fun s => set_contexts s
                     (<[contextId := {| server := proxy_server proxy |}]>
                        (activeContexts s))).

(** [createPage]; [opened] is the outcome of [context.newPage()] and of
    setting the headers. *)
Definition createPage (contextId : string) (opened : res unit) : M Sys unit :=
  let* s := get in
  match activeContexts s !! contextId with
  | None => throw ("Context " +:+ contextId +:+ " not found")
  | Some _ => lift opened
  end.

(** [closeContext]; [closed] is the outcome of [context.close()].  The
    entry leaves the registry after the close: when the close throws, the
    error goes to the caller and the entry stays; the browser is then
    counted as holding the context still. *)
Definition closeContext (contextId : string) (closed : res unit) : M Sys unit :=
  let* s := get in
  match activeContexts s !! contextId with
  | Some _ =>
      lift closed >>
      modify (fun s => set_browser s (Nat.pred (browserContexts s))) >>
      modify (fun s => set_contexts s (delete contextId (activeContexts s)))
  | None => ret tt
  end.

Definition getActiveContextCount (s : Sys) : nat := size (activeContexts s).

(** *** The token-bucket limiter, as the flows use it *)

(** [acquireToken] suspends until both buckets hold a token; it never
    throws, and the buckets are no part of [Sys].  The decay of the
    warnings in [getAdaptiveDelay] is modelled in
    [TokenBucket.acquireToken] only. *)
Definition acquireToken : M Sys unit := ret tt.

(** [reportSuccess]; [lucky] is [Math.random() > 0.7]. *)
Definition reportSuccess (lucky : bool) : M Sys unit :=
  modify (fun s =>
            if (0 <? consecutiveWarnings s) && lucky
            then set_warnings s (consecutiveWarnings s - 1) (lastWarningTime s)
            else s).

Definition reportWarning (now : Z) : M Sys unit :=
  modify (fun s => set_warnings s (consecutiveWarnings s + 1) now).

(** *** The proxy pool, as the flows use it *)

Definition getNextProxy (now : Z) : M Sys (option Proxy.ProxyConfig) :=
  fun s =>
    let '(proxy, p) := Proxy.getNextProxy now (pool s) in
    (Ok proxy, set_pool s p).

(** [if (proxy) this.proxyService.markProxySuccess(proxy)] *)
Definition markProxySuccess (proxy : option Proxy.ProxyConfig) : M Sys unit :=
  match proxy with
  | Some p => modify (fun s => set_pool s (Proxy.markProxySuccess p (pool s)))
  | None => ret tt
  end.

(** *** A flow and its local variables *)

(** A flow runs on the shared state paired with its own locals; the
    locals, like the shared state, keep what was assigned before a throw. *)
Definition shared {L A} (m : M Sys A) : M (Sys * L) A :=
  fun st =>
    let '(r, s') := m st.1 in (r, (s', st.2)).

Definition locals {L} : M (Sys * L) L := fun st => (Ok st.2, st).

Definition assign_locals {L} (f : L -> L) : M (Sys * L) unit :=
  fun st => (Ok tt, (st.1, f st.2)).

(** What the browser, the clock and the random source answer during one
    flow, as far as every flow asks. *)
Record Common := {
  jobId : string;              (* generateJobId() *)
  created_at : Z;              (* the new Date() readings *)
  started_at : Z;
  finished_at : Z;
  proxy_used_at : Z;
  warned_at : Z;
  launched : res unit;         (* createContext: browser.newContext *)
  scripted : res unit;         (* createContext: addAntiDetectionScripts *)
  opened : res unit;           (* createPage *)
  closed : res unit;           (* closeContext: context.close *)
  lucky : bool;                (* reportSuccess *)
}.

Definition completed_update (scraped progress : option Z) (e : Common) : JobUpdate :=
  {| new_status := Some completed; new_scrapedItems := scraped;
     new_progress := progress; new_error := None;
     new_completedAt := Some (finished_at e) |}.

Definition failed_update (msg : string) (e : Common) : JobUpdate :=
  {| new_status := Some failed; new_scrapedItems := None;
     new_progress := None; new_error := Some msg;
     new_completedAt := Some (finished_at e) |}.

Definition progress_update (scraped progress : Z) : JobUpdate :=
  {| new_status := None; new_scrapedItems := Some scraped;
     new_progress := Some progress; new_error := None;
     new_completedAt := None |}.

(** The skeleton the seven flows of [ScraperService] share:

    [createJob; try { acquireToken; getNextProxy; createContext; createPage;
      body; reportSuccess; markProxySuccess; updateJob(completed) }
     catch { reportWarning; updateJob(failed) }
     finally { closeContext }; return { job: getJob(jobId), ...locals }]

    An error thrown by [closeContext] in the [finally] block is the
    outcome of the flow, in place of the result.

    [acquire_first] is false for the direct-URL flow, which takes its
    tokens per URL.  [summary] gives the [scrapedItems] and [progress]
    written with the completed status. *)
Definition job_flow {L} (e : Common) (kind : JobType) (prefix : string)
    (job_input : JobInput) (total : Q) (acquire_first : bool) (init : L)
    (body : M (Sys * L) unit) (summary : L -> option Z * option Z)
  : M Sys (option ScrapeJob * L) :=
  let contextId := prefix +:+ "_" +:+ jobId e in
  fun s =>
    let flow : M (Sys * L) unit :=
      shared (createJob {| id := jobId e; type := kind; status := processing;
                           input := job_input; progress := 0; totalItems := total;
                           scrapedItems := 0; error := None;
                           createdAt := created_at e;
                           startedAt := Some (started_at e);
                           completedAt := None |}) >>
      finally
        (try_catch
           ((if acquire_first then shared acquireToken else ret tt) >>
            let* proxy := shared (getNextProxy (proxy_used_at e)) in
            shared (createContext contextId proxy (launched e) (scripted e)) >>
            shared (createPage contextId (opened e)) >>
            body >>
            shared (reportSuccess (lucky e)) >>
            shared (markProxySuccess proxy) >>
            let* l := locals in
            shared (updateJob (jobId e)
                      (completed_update (summary l).1 (summary l).2 e)))
           (fun msg =>
              shared (reportWarning (warned_at e)) >>
              shared (updateJob (jobId e) (failed_update msg e))))
        (shared (closeContext contextId (closed e))) in
    match flow (s, init) with
    | (Ok _, (s', l)) => (Ok (jobs s' !! jobId e, l), s')
    | (Throw msg, (s', l)) => (Throw msg, s')
    end.

(** *** Records and answers of the strategies outside the hashtag chain *)

Record ProfileData := {
  profile_username : string;
  followersCount : Js.number;
  isPrivate : bool;
}.

Record CommentData := { comment_author : string; comment_text : string }.

Record ReelData := {
  reel_shortcode : string;
  reel_caption : string;
  viewsCount : Js.number;
}.

Abbreviation PostData := Hashtag.PostData.

Definition count {A} (l : list A) : Z := Z.of_nat (length l).

(** The hashtag chain, run against the shared logger. *)
Definition run_chain (d : Hashtag.Driver) (tag : string) (limit : Q)
  : M Sys Hashtag.Result :=
  fun s =>
    let '(r, log) := Hashtag.scrapeHashtag d tag limit (strategy_log s) in
    (r, set_log s log).

(** *** [scrapeProfile] *)

Record ProfileAnswers := {
  profile_found : res (option ProfileData);     (* profileStrategy.scrapeProfile *)
  profile_posts : res (list PostData);          (* profileStrategy.scrapeProfilePosts *)
}.

Definition scrapeProfile (e : Common) (a : ProfileAnswers)
    (username : string) (includePosts : bool) (postsLimit : Z)
  : M Sys (option ScrapeJob * (option ProfileData * list PostData)) :=
  job_flow e profile "profile" (ProfileInput username postsLimit)
    (Js.whole (if includePosts then postsLimit + 1 else 1)) true
    (None, [])
    (let* found := lift (profile_found a) in
     assign_locals (fun l => (found, l.2)) >>
     shared (updateJob (jobId e) (progress_update 1 10)) >>
     match found with
     | Some p =>
         if includePosts && negb (isPrivate p) then
           shared acquireToken >>
           let* profilePosts := lift (profile_posts a) in
           assign_locals (fun l => (l.1, l.2 ++ profilePosts)) >>
           let* l := locals in
           shared (updateJob (jobId e) (progress_update (1 + count l.2) 100))
         else ret tt
     | None => ret tt
     end)
    (fun _ => (None, None)).

(** *** [scrapeHashtag] *)

Definition scrapeHashtag (e : Common) (d : Hashtag.Driver)
    (tag : string) (limit page : Q)
  : M Sys (option ScrapeJob * (option Hashtag.HashtagData * list PostData)) :=
  let offset := ((page - 1) * limit)%Q in
  let totalToScrape := (offset + limit)%Q in
  job_flow e hashtag "hashtag" (HashtagInput tag limit page) limit true
    (None, [])
    (let* result := shared (run_chain d tag totalToScrape) in
     assign_locals (fun _ => (Hashtag.hashtagData result,
                              Js.slice (Hashtag.posts result) (Js.trunc offset)
                                       (Js.trunc (offset + limit)))))
    (fun l => (Some (count l.2), Some 100)).

(** *** [scrapePost] *)

Record PostAnswers := {
  post_found : res (option PostData);           (* postStrategy.scrapePost *)
  post_comments : res (list CommentData);       (* commentStrategy.scrapeComments *)
}.

Definition scrapePost (e : Common) (a : PostAnswers)
    (postUrl : string) (includeComments : bool) (commentsLimit : Z)
  : M Sys (option ScrapeJob * (option PostData * list CommentData)) :=
  job_flow e post "post" (PostInput postUrl includeComments commentsLimit)
    (Js.whole (if includeComments then 2 else 1)) true
    (None, [])
    (let* found := lift (post_found a) in
     assign_locals (fun l => (found, l.2)) >>
     shared (updateJob (jobId e) (progress_update 1 50)) >>
     match found with
     | Some _ =>
         if includeComments then
           shared acquireToken >>
           let* postComments := lift (post_comments a) in
           assign_locals (fun l => (l.1, l.2 ++ postComments))
         else ret tt
     | None => ret tt
     end)
    (fun l => (Some (1 + count l.2), Some 100)).

(** *** [scrapeComments] *)

Definition scrapeComments (e : Common) (found : res (list CommentData))
    (postUrl : string) (limit : Z)
  : M Sys (option ScrapeJob * list CommentData) :=
  job_flow e comments "comments" (CommentsInput postUrl limit) (Js.whole limit) true
    []
    (let* cs := lift found in assign_locals (fun _ => cs))
    (fun l => (Some (count l), Some 100)).

(** *** [scrapeReels] *)

Record ReelAnswers := {
  reels_found : res (list ReelData);                    (* scrapeProfileReels *)
  reel_details : nat -> string -> res (option ReelData) (* scrapeReelDetails *)
}.

(** [for (let i = ...; i < reels.length; i++) { ... }], over the indices
    still to visit. *)
Fixpoint detail_loop (e : Common) (a : ReelAnswers) (indices : list nat)
  : M (Sys * list ReelData) unit :=
  match indices with
  | [] => ret tt
  | i :: rest =>
      shared acquireToken >>
      let* rs := locals in
      match rs !! i with
      | None => throw "Cannot read properties of undefined (reading 'shortcode')"
      | Some reel =>
          let* details := lift (reel_details a i (reel_shortcode reel)) in
          match details with
          | Some detailed => assign_locals (fun rs => <[i := detailed]> rs)
          | None => ret tt
          end >>
          shared (updateJob (jobId e)
                    (progress_update (Z.of_nat i + 1)
                       (Js.round_div ((Z.of_nat i + 1) * 100) (count rs)))) >>
          detail_loop e a rest
      end
  end.

Definition scrapeReels (e : Common) (a : ReelAnswers)
    (username : string) (limit : Z) (includeDetails : bool)
  : M Sys (option ScrapeJob * list ReelData) :=
  job_flow e reels "reels" (ReelsInput username limit) (Js.whole limit) true
    []
    (let* found := lift (reels_found a) in
     assign_locals (fun _ => found) >>
     if includeDetails && (0 <? count found)
     then detail_loop e a (seq 0 (length found))
     else ret tt)
    (fun l => (Some (count l), Some 100)).

(** *** [searchPostsByCaption] *)

Record Link := { href : string; img : string; alt : string }.

Definition not_slash (c : ascii) : bool := negb (Ascii.eqb c "/").

Definition is_tag_text (c : ascii) : bool :=
  Str.is_word c || (128 <=? Str.code c)%N.

(** The matches of the global pattern [#] followed by one or more word or
    non-ASCII characters, without their [#]. *)
Fixpoint scan_tags (s : string) (cur : option string) : list string :=
  let flush (acc : string) : list string :=
    match acc with
    | EmptyString => []
    | _ => [Str.rev acc]
    end in
  match s with
  | EmptyString =>
      match cur with
      | Some acc => flush acc
      | None => []
      end
  | String c s' =>
      match cur with
      | Some acc =>
          if is_tag_text c then scan_tags s' (Some (String c acc))
          else flush acc
               ++ scan_tags s' (if Ascii.eqb c "#" then Some EmptyString else None)
      | None => scan_tags s' (if Ascii.eqb c "#" then Some EmptyString else None)
      end
  end.

Definition extractHashtagsFromText (text : string) : list string :=
  List.map Str.toLowerCase (scan_tags text None).

Definition reel_url (sc : string) : string :=
  "https://www.instagram.com/reel/" +:+ sc +:+ "/".

Definition link_post (sc : string) (isReel : bool) (link : Link) : PostData :=
  {| Hashtag.id := Some sc;
     Hashtag.shortcode := Some sc;
     Hashtag.url := if isReel then reel_url sc else Hashtag.post_url (Some sc);
     Hashtag.type := if isReel then Hashtag.Reel else Hashtag.Image;
     Hashtag.caption := alt link;
     Hashtag.ownerUsername := "";
     Hashtag.hashtags := extractHashtagsFromText (alt link) |}.

Fixpoint explore_links_loop (links : list Link) (posts : list PostData) (limit : Q)
  : list PostData :=
  match links with
  | [] => posts
  | link :: rest =>
      if Js.at_least (count posts) limit then posts
      else
        match Str.group_after ["/p/"; "/reel/"] not_slash (href link) with
        | None => explore_links_loop rest posts limit
        | Some sc =>
            explore_links_loop rest
              (posts ++ [link_post sc (Str.includes (href link) "/reel/") link]) limit
        end
  end.

(** [searchViaExplore]; [links] is [None] when the explore page fails to
    load or shows no search button. *)
Definition searchViaExplore (links : option (list Link)) (limit : Q) : list PostData :=
  match links with
  | Some ls => explore_links_loop ls [] limit
  | None => []
  end.

(** [keyword.toLowerCase().split(/\s+/).map(kw => kw.replace(/^#/, ''))] *)
Definition searchTerms (keyword : string) : list string :=
  List.map Hashtag.strip_hash (Str.split_spaces (Str.toLowerCase keyword) "" false).

Fixpoint reel_links_loop (terms : list string) (links : list Link)
    (posts : list PostData) (limit : Q) : list PostData :=
  match links with
  | [] => posts
  | link :: rest =>
      if Js.at_least (count posts) limit then posts
      else
        match Str.group_after ["/reel/"] not_slash (href link) with
        | None => reel_links_loop terms rest posts limit
        | Some sc =>
            let altLower := Str.toLowerCase (alt link) in
            if existsb (fun term => Str.includes altLower term) terms
               || String.eqb (alt link) ""
            then reel_links_loop terms rest (posts ++ [link_post sc true link]) limit
            else reel_links_loop terms rest posts limit
        end
  end.

(** [searchReelsViaExplore]; [links] is [None] when the reels page fails
    to load. *)
Definition searchReelsViaExplore (links : option (list Link)) (keyword : string)
    (limit : Q) : list PostData :=
  match links with
  | Some ls => reel_links_loop (searchTerms keyword) ls [] limit
  | None => []
  end.

(** The locals of the search: [matchingPosts] and [seenShortcodes]. *)
Definition Found : Type := list PostData * gset (option string).

(** [for (const post of posts) { if (matchingPosts.length >= resultLimit)
    break; if (seenShortcodes.has(post.shortcode)) continue; [if (!keep)
    continue;] seenShortcodes.add(...); matchingPosts.push(post) }] *)
Fixpoint merge (keep : PostData -> bool) (posts : list PostData) (resultLimit : Q)
    (found : Found) : Found :=
  match posts with
  | [] => found
  | p :: rest =>
      if Js.at_least (count found.1) resultLimit then found
      else if bool_decide (Hashtag.shortcode p ∈ found.2) then
        merge keep rest resultLimit found
      else if keep p then
        merge keep rest resultLimit
              (found.1 ++ [p], {[ Hashtag.shortcode p ]} ∪ found.2)
      else merge keep rest resultLimit found
  end.

(** The caption filter applied to the explore results. *)
Definition matches (terms : list string) (p : PostData) : bool :=
  let captionLower := Str.toLowerCase (Hashtag.caption p) in
  let postHashtags := List.map Str.toLowerCase (Hashtag.hashtags p) in
  existsb (fun term =>
             Str.includes captionLower term
             || existsb (fun h => Str.includes h term) postHashtags)
          terms.

Record SearchAnswers := {
  has_credentials : bool;
  logged_in : res bool;                     (* authService.ensureLoggedIn *)
  term_driver : nat -> Hashtag.Driver;      (* the browser during the k-th term *)
  explore_links : option (list Link);
  reels_page_links : option (list Link);
}.

Fixpoint term_loop (e : Common) (a : SearchAnswers) (perTerm : Z) (resultLimit : Q)
    (k : nat) (terms : list string) : M (Sys * Found) unit :=
  match terms with
  | [] => ret tt
  | term :: rest =>
      let* found := locals in
      if Js.at_least (count found.1) resultLimit then ret tt
      else
        shared acquireToken >>
        try_catch
          (let* hashtagResult := shared (run_chain (term_driver a k) term (Js.whole perTerm)) in
           assign_locals (merge (fun _ => true) (Hashtag.posts hashtagResult)
                                resultLimit) >>
           let* found := locals in
           shared (updateJob (jobId e)
                     (progress_update (count found.1)
                        (Js.round (Js.whole (count found.1) / resultLimit * 50)))))
          (fun _ => ret tt) >>
        term_loop e a perTerm resultLimit (S k) rest
  end.

Definition searchPostsByCaption (e : Common) (a : SearchAnswers)
    (keyword : string) (searchLimit resultLimit : Q)
  : M Sys (option ScrapeJob * Found) :=
  let terms := searchTerms keyword in
  job_flow e search "search" (SearchInput keyword searchLimit resultLimit)
    resultLimit true
    ([], ∅)
    ((if has_credentials a then let* _ := lift (logged_in a) in ret tt else ret tt) >>
     term_loop e a (Js.ceil (searchLimit / Js.whole (count terms))) resultLimit 0 terms >>
     (let* found := locals in
      if Js.below (count found.1) resultLimit then
        shared acquireToken >>
        try_catch
          (assign_locals (merge (matches terms)
                                (searchViaExplore (explore_links a) searchLimit)
                                resultLimit))
          (fun _ => ret tt)
      else ret tt) >>
     (let* found := locals in
      if Js.below (count found.1) resultLimit then
        shared acquireToken >>
        try_catch
          (assign_locals (merge (fun _ => true)
                                (searchReelsViaExplore (reels_page_links a) keyword
                                                       searchLimit)
                                resultLimit))
          (fun _ => ret tt)
      else ret tt))
    (fun found => (Some (count found.1), Some 100)).

(** *** The search, summarised

    The functions below restate what the search flow does to its locals,
    as plain functions of the answers; the flow is proved to compute
    exactly [final (search_trace ...)]. *)

Definition is_ok {A} (r : res A) : bool :=
  match r with
  | Ok _ => true
  | Throw _ => false
  end.

(** What the hashtag chain surfaces for one term: [None] when it throws. *)
Definition chain_posts (d : Hashtag.Driver) (term : string) (perTerm : Z)
  : option (list PostData) :=
  match (Hashtag.scrapeHashtag d term (Js.whole perTerm) []).1 with
  | Ok r => Some (Hashtag.posts r)
  | Throw _ => None
  end.

Fixpoint hashtag_phase (a : SearchAnswers) (perTerm : Z) (resultLimit : Q) (k : nat)
    (terms : list string) (found : Found) : Found :=
  match terms with
  | [] => found
  | term :: rest =>
      if Js.at_least (count found.1) resultLimit then found
      else
        hashtag_phase a perTerm resultLimit (S k) rest
          (match chain_posts (term_driver a k) term perTerm with
           | Some ps => merge (fun _ => true) ps resultLimit found
           | None => found
           end)
  end.

(** The posts the hashtag chains returned, for the terms that were tried. *)
Fixpoint hashtag_surfaced (a : SearchAnswers) (perTerm : Z) (resultLimit : Q) (k : nat)
    (terms : list string) (found : Found) : list PostData :=
  match terms with
  | [] => []
  | term :: rest =>
      if Js.at_least (count found.1) resultLimit then []
      else
        let ps := default [] (chain_posts (term_driver a k) term perTerm) in
        ps ++ hashtag_surfaced a perTerm resultLimit (S k) rest
                (merge (fun _ => true) ps resultLimit found)
  end.

(** Did the flow get as far as its first sub-strategy? *)
Definition setup_ok (e : Common) (a : SearchAnswers) : bool :=
  is_ok (launched e) && is_ok (scripted e) && is_ok (opened e)
  && (negb (has_credentials a) || is_ok (logged_in a)).

Record SearchTrace := {
  from_hashtags : list PostData;   (* surfaced by the hashtag expansion *)
  from_explore : list PostData;    (* surfaced by the explore-page search *)
  from_reels : list PostData;      (* surfaced by the reels explore *)
  final : Found;                   (* matchingPosts and seenShortcodes at the end *)
}.

Definition search_trace (e : Common) (a : SearchAnswers)
    (keyword : string) (searchLimit resultLimit : Q) : SearchTrace :=
  let terms := searchTerms keyword in
  let perTerm := Js.ceil (searchLimit / Js.whole (count terms)) in
  if setup_ok e a then
    let found1 := hashtag_phase a perTerm resultLimit 0 terms ([], ∅) in
    let explored :=
      if Js.below (count found1.1) resultLimit
      then searchViaExplore (explore_links a) searchLimit else [] in
    let found2 := merge (matches terms) explored resultLimit found1 in
    let reeled :=
      if Js.below (count found2.1) resultLimit
      then searchReelsViaExplore (reels_page_links a) keyword searchLimit else [] in
    {| from_hashtags := hashtag_surfaced a perTerm resultLimit 0 terms ([], ∅);
       from_explore := explored;
       from_reels := reeled;
       final := merge (fun _ => true) reeled resultLimit found2 |}
  else
    {| from_hashtags := []; from_explore := []; from_reels := []; final := ([], ∅) |}.




(** The locals of the search are tidy when the posts have pairwise
    distinct shortcodes, the set holds exactly those shortcodes, and the
    cap is respected. *)
Definition tidy (resultLimit : Q) (found : Found) : Prop :=
  NoDup (Hashtag.shortcode <$> found.1) /\
  (forall sc, sc ∈ found.2 <-> sc ∈ Hashtag.shortcode <$> found.1) /\
  count found.1 <= Z.max 0 (Js.ceil resultLimit).

(** *** [scrapeDirectUrls] *)

Inductive UrlResult :=
| PostResult (url : string) (found : option PostData) (cs : list CommentData)
| ProfileResult (url : string) (found : option ProfileData) (ps : list PostData)
| HashtagResult (url : string) (summary : option Hashtag.HashtagData)
                (ps : list PostData)
| UnknownResult (url : string)
| ErrorResult (url : string) (msg : string).

Definition is_word_or_dot (c : ascii) : bool := Str.is_word c || Ascii.eqb c ".".

(** [url.match(/instagram\.com\/[\w.]+\/?$/)] *)
Fixpoint profile_like (url : string) : bool :=
  (String.prefix "instagram.com/" url
   && (let rest := Str.drop 14 url in
       let tail := Str.drop_while is_word_or_dot rest in
       negb (String.eqb (Str.take_while is_word_or_dot rest) "")
       && (String.eqb tail "" || String.eqb tail "/")))
  || match url with
     | EmptyString => false
     | String _ url' => profile_like url'
     end.

Record UrlAnswers := {
  url_post : nat -> res (option PostData);
  url_comments : nat -> res (list CommentData);
  url_profile : nat -> res (option ProfileData);
  url_profile_posts : nat -> res (list PostData);
  url_driver : nat -> Hashtag.Driver;
}.

Definition push_result (r : UrlResult) : M (Sys * list UrlResult) unit :=
  assign_locals (fun results => results ++ [r]).

Fixpoint url_loop (e : Common) (a : UrlAnswers) (postsLimit : Q)
    (includeComments : bool) (total : Z) (i : nat) (urls : list string)
  : M (Sys * list UrlResult) unit :=
  match urls with
  | [] => ret tt
  | url :: rest =>
      shared acquireToken >>
      try_catch
        ((if Str.includes url "/p/" || Str.includes url "/reel/" then
            let* found := lift (url_post a i) in
            let* cs :=
              match found with
              | Some _ => if includeComments then lift (url_comments a i) else ret []
              | None => ret []
              end in
            push_result (PostResult url found cs)
          else if profile_like url then
            match Str.group_after ["instagram.com/"] is_word_or_dot url with
            | Some username =>
                let* found := lift (url_profile a i) in
                let* ps := lift (url_profile_posts a i) in
                push_result (ProfileResult url found ps)
            | None => ret tt
            end
          else if Str.includes url "/explore/tags/" then
            match Str.group_after ["tags/"] not_slash url with
            | Some tag =>
                let* result := shared (run_chain (url_driver a i) tag postsLimit) in
                push_result (HashtagResult url (Hashtag.hashtagData result)
                                           (Hashtag.posts result))
            | None => ret tt
            end
          else push_result (UnknownResult url)) >>
         shared (updateJob (jobId e)
                   (progress_update (Z.of_nat i + 1)
                      (Js.round_div ((Z.of_nat i + 1) * 100) total))))
        (fun msg => push_result (ErrorResult url msg)) >>
      url_loop e a postsLimit includeComments total (S i) rest
  end.

Definition scrapeDirectUrls (e : Common) (a : UrlAnswers)
    (urls : list string) (postsLimit : Q) (includeComments : bool)
  : M Sys (option ScrapeJob * list UrlResult) :=
  job_flow e direct_urls "urls" (UrlsInput urls postsLimit includeComments)
    (Js.whole (count urls)) false
    []
    (url_loop e a postsLimit includeComments (count urls) 0 urls)
    (fun results => (Some (count results), Some 100)).

End Service.

(* ===================================================================== *)
(** ** Assertions about flows *)
(* ===================================================================== *)

Module Logic.

Import Eff Service.

(** From a state satisfying [P], [m] either returns [a] in a state
    satisfying [Q a] or throws [msg] in a state satisfying [E msg]. *)
Definition triple {S A} (P : S -> Prop) (m : M S A)
    (Q : A -> S -> Prop) (E : string -> S -> Prop) : Prop :=
  forall s, P s ->
    match m s with
    | (Ok a, s') => Q a s'
    | (Throw msg, s') => E msg s'
    end.

(** [m] keeps [I], whether it returns or throws. *)
Definition preserves {S A} (I : S -> Prop) (m : M S A) : Prop :=
  triple I m (fun _ => I) (fun _ => I).

(** An assertion on the shared state, read on a flow's state. *)
Definition on_shared {L} (I : Sys -> Prop) : Sys * L -> Prop := fun st => I st.1.

(** [m'] holds every terminal job of [m], unchanged. *)
Definition frozen (m m' : gmap string ScrapeJob) : Prop :=
  forall jid job, m !! jid = Some job -> terminal job = true -> m' !! jid = Some job.

(** Each write of the job store respected the terminal jobs. *)
Definition chained (h : list (gmap string ScrapeJob)) : Prop :=
  forall i m m', h !! i = Some m -> h !! S i = Some m' -> frozen m m'.

(** The recorded history ends with the current job store. *)
Definition coherent (s : Sys) : Prop := last (history s) = Some (jobs s).

(** Once a job is terminal in some recorded store, it is the same record
    in every later one. *)
Definition stable_history (h : list (gmap string ScrapeJob)) : Prop :=
  forall i j m m' jid job,
    (i <= j)%nat -> h !! i = Some m -> h !! j = Some m' ->
    m !! jid = Some job -> terminal job = true -> m' !! jid = Some job.

(** What a flow body may do to an assertion on the shared state: write
    the pool, the warnings and the strategy log, and update the flow's own
    job without touching its status. *)
Record robust (jid : string) (I : Sys -> Prop) : Prop := {
  robust_pool : forall s p, I s -> I (set_pool s p);
  robust_warnings : forall s n t, I s -> I (set_warnings s n t);
  robust_log : forall s log, I s -> I (set_log s log);
  robust_update : forall s u, new_status u = None -> I s -> I (updateJob jid u s).2;
}.

(** The updates that end a flow. *)
Definition final_update (e : Common) (u : JobUpdate) : Prop :=
  (exists scraped progress, u = completed_update scraped progress e)
  \/ (exists msg, u = failed_update msg e).

(** The flow's context is registered on top of the registry [c0], and the
    browser holds one context more than the [n0] it held. *)
Definition context_registered (cid : string) (c0 : gmap string BrowserContext)
    (n0 : nat) (s : Sys) : Prop :=
  (exists ctx, activeContexts s = <[cid := ctx]> c0) /\ browserContexts s = S n0.

(** The registry is as it was; the browser holds [n] contexts. *)
Definition context_absent (c0 : gmap string BrowserContext) (n : nat) (s : Sys)
  : Prop :=
  activeContexts s = c0 /\ browserContexts s = n.

(** Where the context of a flow is after [createContext]: registered, or
    absent from the registry, then left with the browser when the
    installation of the scripts threw. *)
Definition context_inv (e : Common) (cid : string) (c0 : gmap string BrowserContext)
    (n0 : nat) (s : Sys) : Prop :=
  match launched e, scripted e with
  | Ok _, Ok _ => context_registered cid c0 n0 s
  | Ok _, Throw _ => context_absent c0 (S n0) s
  | Throw _, _ => context_absent c0 n0 s
  end.

(** What a [closeContext] that returns leaves of the registry and of the
    browser's contexts at the end of a flow: the context that was
    registered has been closed. *)
Definition context_left (e : Common) (c0 : gmap string BrowserContext)
    (n0 : nat) (s : Sys) : Prop :=
  match launched e, scripted e with
  | Ok _, Ok _ => context_absent c0 n0 s /\ closed e = Ok tt
  | Ok _, Throw _ => context_absent c0 (S n0) s
  | Throw _, _ => context_absent c0 n0 s
  end.

(** A flow has its job in the store from [createJob] on; the update that
    ends the flow makes the job terminal. *)
Definition has_job (jid : string) (s : Sys) : Prop := is_Some (jobs s !! jid).

Definition job_inv (s : Sys) : Prop := chained (history s) /\ coherent s.

Definition running (jid : string) (s : Sys) : Prop :=
  exists job, jobs s !! jid = Some job /\ status job = processing.

Definition finished (jid : string) (s : Sys) : Prop :=
  exists job, jobs s !! jid = Some job /\ terminal job = true.

(** The job store while the flow of job [jid] runs: the history is
    chained and current, the job is processing, every other job is as in
    [j0]. *)
Definition job_running (jid : string) (j0 : gmap string ScrapeJob) (s : Sys) : Prop :=
  job_inv s /\ running jid s /\ forall k, k <> jid -> jobs s !! k = j0 !! k.

Definition job_finished (jid : string) (j0 : gmap string ScrapeJob) (s : Sys) : Prop :=
  job_inv s /\ finished jid s /\ forall k, k <> jid -> jobs s !! k = j0 !! k.

(** The seven operations of the scraper service with their arguments and
    with what the strategies answer. *)
Inductive Operation :=
| Profile (a : ProfileAnswers) (username : string) (includePosts : bool)
          (postsLimit : Z)
| Hashtag (d : Hashtag.Driver) (tag : string) (limit page : Q)
| Post (a : PostAnswers) (postUrl : string) (includeComments : bool)
       (commentsLimit : Z)
| Comments (found : res (list CommentData)) (postUrl : string) (limit : Z)
| Reels (a : ReelAnswers) (username : string) (limit : Z) (includeDetails : bool)
| Search (a : SearchAnswers) (keyword : string) (searchLimit resultLimit : Q)
| DirectUrls (a : UrlAnswers) (urls : list string) (postsLimit : Q)
             (includeComments : bool).

Definition prefix_of (op : Operation) : string :=
  match op with
  | Profile _ _ _ _ => "profile"
  | Hashtag _ _ _ _ => "hashtag"
  | Post _ _ _ _ => "post"
  | Comments _ _ _ => "comments"
  | Reels _ _ _ _ => "reels"
  | Search _ _ _ _ => "search"
  | DirectUrls _ _ _ _ => "urls"
  end.

Definition contextId (e : Common) (op : Operation) : string :=
  prefix_of op +:+ "_" +:+ jobId e.

(** The outcome of an operation, reduced to the job it returns. *)
Definition job_of {L} (r : res (option ScrapeJob * L) * Sys)
  : res (option ScrapeJob) * Sys :=
  match r with
  | (Ok (job, _), s) => (Ok job, s)
  | (Throw msg, s) => (Throw msg, s)
  end.

Definition exec (e : Common) (op : Operation) (s : Sys)
  : res (option ScrapeJob) * Sys :=
  match op with
  | Profile a username includePosts postsLimit =>
      job_of (scrapeProfile e a username includePosts postsLimit s)
  | Hashtag d tag limit page => job_of (scrapeHashtag e d tag limit page s)
  | Post a postUrl includeComments commentsLimit =>
      job_of (scrapePost e a postUrl includeComments commentsLimit s)
  | Comments found postUrl limit => job_of (scrapeComments e found postUrl limit s)
  | Reels a username limit includeDetails =>
      job_of (scrapeReels e a username limit includeDetails s)
  | Search a keyword searchLimit resultLimit =>
      job_of (searchPostsByCaption e a keyword searchLimit resultLimit s)
  | DirectUrls a urls postsLimit includeComments =>
      job_of (scrapeDirectUrls e a urls postsLimit includeComments s)
  end.

(** Operations run one after the other. *)
Fixpoint exec_all (ops : list (Common * Operation)) (s : Sys) : Sys :=
  match ops with
  | [] => s
  | (e, op) :: rest => exec_all rest (exec e op s).2
  end.

(** A freshly started process. *)
Definition boot (p : Proxy.ProxyService) : Sys :=
  {| jobs := ∅; history := [∅]; activeContexts := ∅; browserContexts := 0;
     pool := p;
     consecutiveWarnings := 0; lastWarningTime := 0; strategy_log := [] |}.

(** Two operations with different job ids, the second one failing at
    the creation of its page. *)
Definition answers_at (jid : string) (page : res unit) : Common :=
  {| jobId := jid; created_at := 0; started_at := 0; finished_at := 9;
     proxy_used_at := 1; warned_at := 8;
     launched := Ok tt; scripted := Ok tt; opened := page; closed := Ok tt;
     lucky := false |}.

Definition two_operations : list (Common * Operation) :=
  [(answers_at "job_1700000000000_abc1234" (Ok tt),
    Hashtag Hashtag.stub_driver "travel" 2 1);
   (answers_at "job_1700000000001_xyz9876" (Throw "Target closed"),
    Comments (Ok []) "CxYz123ABC" 50)].

End Logic.

(** Concrete browsers used to exercise the search statements. *)
Module SearchExamples.

Import Eff Service.




(** The hashtag page and the explore page show nothing; the reels page
    shows four reels without captions. *)
Definition four_reels : SearchAnswers :=
  {| has_credentials := false; logged_in := Ok false;
     term_driver := fun _ => Hashtag.barren_driver;
     explore_links := None;
     reels_page_links :=
       Some [{| href := "/reel/AAA111/"; img := ""; alt := "" |};
             {| href := "/reel/BBB222/"; img := ""; alt := "" |};
             {| href := "/reel/CCC333/"; img := ""; alt := "" |};
             {| href := "/reel/DDD444/"; img := ""; alt := "" |}] |}.

Definition answers : Common :=
  Logic.answers_at "job_1700000000003_srch123" (Ok tt).

End SearchExamples.

(** Concrete pools used to exercise the proxy statements. *)
Module ProxyExamples.

Import Proxy.

Definition url (user hostname port : string) : Url :=
  {| url_protocol := "http:"; url_hostname := hostname; url_port := port;
     url_username := user; url_password := "secret" |}.

(** Two endpoints on different hosts. *)
Definition two_hosts : ProxyService :=
  loadProxies [Some (url "" "10.0.0.1" "8080"); Some (url "" "10.0.0.2" "8080")] 50.

(** Two accounts behind one gateway: the same host and port twice. *)
Definition one_gateway : ProxyService :=
  loadProxies [Some (url "alice" "gw.example" "8000");
               Some (url "bob" "gw.example" "8000")] 50.

(** An endpoint on the scheme's default port: [URL.port] is [""]. *)
Definition default_port : ProxyService :=
  loadProxies [Some (url "" "10.0.0.3" "")] 50.

Definition three_failures (h : string) (pt : Js.number) : list call :=
  [Failed h pt; Failed h pt; Failed h pt].

End ProxyExamples.
(* ===================================================================== *)
(** ** What an operation reports about its job *)
(* ===================================================================== *)

Module Outcome.

Import Eff Service.

Section Flow.

Variables (e : Common) (kind : JobType) (job_input : JobInput) (total : Q).

(** The fields of a job written once, by [createJob]. *)
Definition created_as (job : ScrapeJob) : Prop :=
  id job = jobId e /\ type job = kind /\ input job = job_input /\
  totalItems job = total /\ createdAt job = created_at e /\
  startedAt job = Some (started_at e).

Definition in_progress (s : Sys) : Prop :=
  exists job, jobs s !! jobId e = Some job /\ status job = processing /\
              created_as job.

End Flow.

(** A job as the update that ends its flow leaves it: under its id, with
    its completion time, completed or failed with an error message. *)
Definition settled (e : Common) (job : ScrapeJob) : Prop :=
  id job = jobId e /\
  completedAt job = Some (finished_at e) /\
  (status job = completed \/ (status job = failed /\ is_Some (error job))).

(** The job reports the counts that the flow computes from its result. *)
Definition reports (summary : option Z * option Z) (job : ScrapeJob) : Prop :=
  (forall n, summary.1 = Some n -> scrapedItems job = n) /\
  (forall n, summary.2 = Some n -> progress job = n).

(** The [url] field of an entry of [scrapeDirectUrls]. *)
Definition url_of (r : UrlResult) : string :=
  match r with
  | PostResult url _ _ | ProfileResult url _ _ | HashtagResult url _ _
  | UnknownResult url | ErrorResult url _ => url
  end.

(** The strings on which [toLowerCase] and [trim] act as [Str] models
    them, character by character on the ASCII range. *)
Definition ascii_only (s : string) : bool :=
  Str.forallb (fun c => (Str.code c <? 128)%N) s.

End Outcome.

(* ===================================================================== *)
(** ** The rest of [DataService] *)
(* ===================================================================== *)

Module DataService.

Import Service.

(** [posts.filter(post => { if (seen.has(post.id)) return false;
    seen.add(post.id); return true })], from the set [seen]. *)
Fixpoint dedup_from (seen : gset (option string)) (posts : list PostData)
  : list PostData :=
  match posts with
  | [] => []
  | p :: rest =>
      if bool_decide (Hashtag.id p ∈ seen) then dedup_from seen rest
      else p :: dedup_from ({[ Hashtag.id p ]} ∪ seen) rest
  end.

Definition deduplicatePosts (posts : list PostData) : list PostData :=
  dedup_from ∅ posts.

(** [j.status === st] *)
Definition has_status (st : JobStatus) (job : ScrapeJob) : bool :=
  match st, status job with
  | pending, pending | processing, processing
  | completed, completed | failed, failed => true
  | _, _ => false
  end.

(** [Array.from(this.jobs.values())]; the counts taken from it do not
    depend on its order. *)
Definition values (m : gmap string ScrapeJob) : list ScrapeJob :=
  (map_to_list m).*2.

Record JobStats := {
  stat_total : nat;
  stat_pending : nat;
  stat_processing : nat;
  stat_completed : nat;
  stat_failed : nat;
}.

Definition getJobStats (m : gmap string ScrapeJob) : JobStats :=
  let jobs := values m in
  {| stat_total := length jobs;
     stat_pending := length (List.filter (has_status pending) jobs);
     stat_processing := length (List.filter (has_status processing) jobs);
     stat_completed := length (List.filter (has_status completed) jobs);
     stat_failed := length (List.filter (has_status failed) jobs) |}.

(** [job.createdAt.getTime() < oneDayAgo && job.status !== 'processing'] *)
Definition stale (now : Z) (job : ScrapeJob) : bool :=
  (createdAt job <? now - 24 * 60 * 60 * 1000) && negb (has_status processing job).

(** [cleanupOldJobs]: the number of jobs deleted, and the store after. *)
Definition cleanupOldJobs (now : Z) (m : gmap string ScrapeJob)
  : nat * gmap string ScrapeJob :=
  (length (List.filter (stale now) (values m)),
   filter (fun kv => stale now kv.2 = false) m).

End DataService.

(* ===================================================================== *)
(** ** The rest of [ProxyService] *)
(* ===================================================================== *)

Module ProxyStatus.

Import Proxy.

(** [this.proxies.some(p => p.isActive)] *)
Definition hasProxies (s : ProxyService) : bool := existsb isActive (proxies s).

Record Stats := {
  total : Z;
  active : Z;
  disabled : Z;
  counts : gmap string Z;
}.

Definition getStats (s : ProxyService) : Stats :=
  let active := Z.of_nat (length (List.filter isActive (proxies s))) in
  {| total := Z.of_nat (length (proxies s));
     active := active;
     disabled := Z.of_nat (length (proxies s)) - active;
     counts := requestCounts s |}.

(** The calls that can make an endpoint available again. *)
Definition brings_back (c : call) : bool :=
  match c with
  | Reset _ _ | Add _ => true
  | GetNext _ | Failed _ _ | Success _ _ => false
  end.

(** What the calls other than those leave of an entry: its place, its
    endpoint and its credentials, and its being out of service. *)
Definition same_place (x y : ProxyConfig) : Prop :=
  protocol y = protocol x /\ host y = host x /\ port y = port x /\
  username y = username x /\ password y = password x /\
  (isActive x = false -> isActive y = false).

(** No endpoint was handed out more often than the limit allows since
    the counters were last cleared. *)
Definition within_limit (s : ProxyService) : Prop :=
  forall key c, requestCounts s !! key = Some c -> 1 <= c <= requestsPerProxy s.

End ProxyStatus.

(* ===================================================================== *)
(** ** The anti-ban limiter seen from outside *)
(* ===================================================================== *)

Module LimiterStatus.

Import RateLimiter.

Record Stats := {
  sessionRequests : Z;
  sessionDuration : Z;
  requestsLastMinute : Z;
  requestsLastHour : Z;
  errorsInARow : Z;               (* consecutiveErrors *)
  coolingDown : bool;             (* isInCooldown *)
}.

(** [getStats()], with [now] read from the clock. *)
Definition getStats (w : Timed) : Stats :=
  let now := clock w in
  let s := limiter w in
  {| sessionRequests := sessionRequestCount s;
     sessionDuration := (now - sessionStartTime s) / 1000;
     requestsLastMinute :=
       Z.of_nat (length (List.filter (fun ts => now - ts <? 60000)
                                     (requestTimestamps s)));
     requestsLastHour := Z.of_nat (length (requestTimestamps s));
     errorsInARow := consecutiveErrors s;
     coolingDown := isInCooldown s && (now <? cooldownUntil s) |}.

(** The limiter as its field initialisers leave it at time [now]. *)
Definition fresh (now : Z) : Timed :=
  {| clock := now;
     limiter := {| requestTimestamps := [];
                   sessionRequestCount := 0;
                   sessionStartTime := now;
                   consecutiveErrors := 0;
                   isInCooldown := false;
                   cooldownUntil := 0 |} |}.

(** What a client can do with the limiter; [Later ms] is time passing
    between two calls. *)
Inductive call :=
| Wait (delay : Z)                 (* waitBeforeRequest, with the delay drawn *)
| Success                          (* reportSuccess *)
| Error (statusCode : option Z)    (* reportError *)
| Cooldown (durationMs : Z)        (* triggerCooldown *)
| Reset                            (* resetSession *)
| Later (ms : Z).

Definition step (cfg : Config) (c : call) (w : Timed) : Timed :=
  match c with
  | Wait delay => waitBeforeRequest cfg delay w
  | Success => reportSuccess w
  | Error statusCode => reportError statusCode w
  | Cooldown durationMs => triggerCooldown durationMs w
  | Reset => resetSession w
  | Later ms => sleep ms w
  end.

Definition run (cfg : Config) (cs : list call) (w : Timed) : Timed :=
  fold_left (fun w c => step cfg c w) cs w.


(** *** What the limiter keeps *)




End LimiterStatus.
(* ===================================================================== *)
(** ** The token buckets of the core [RateLimiterService] *)
(* ===================================================================== *)

Module TokenBucket.

Record Bucket := { tokens : Z; lastRefill : Z }.

Record Config := {
  requestsPerMinute : Z;
  requestsPerHour : Z;
}.

Record State := {
  minuteBucket : Bucket;
  hourBucket : Bucket;
  consecutiveWarnings : Z;
  lastWarningTime : Z;
}.

(** The constructor, and [reset()], at time [now]. *)
Definition fresh (cfg : Config) (now : Z) : State :=
  {| minuteBucket := {| tokens := requestsPerMinute cfg; lastRefill := now |};
     hourBucket := {| tokens := requestsPerHour cfg; lastRefill := now |};
     consecutiveWarnings := 0;
     lastWarningTime := 0 |}.

Section Doubles.

(** [scaled elapsed window rate] stands for
    [Math.floor((elapsed / window) * rate)], a quotient and a product of
    doubles; nothing is assumed about it. *)
Variable scaled : Z -> Z -> Z -> Z.

(** One half of [refillBuckets]. *)
Definition refill (window rate now : Z) (b : Bucket) : Bucket :=
  let elapsed := now - lastRefill b in
  if window <=? elapsed then {| tokens := rate; lastRefill := now |}
  else
    let tokensToAdd := scaled elapsed window rate in
    if 0 <? tokensToAdd
    then {| tokens := Z.min rate (tokens b + tokensToAdd); lastRefill := now |}
    else b.

Definition refillBuckets (cfg : Config) (now : Z) (s : State) : State :=
  {| minuteBucket := refill 60000 (requestsPerMinute cfg) now (minuteBucket s);
     hourBucket := refill 3600000 (requestsPerHour cfg) now (hourBucket s);
     consecutiveWarnings := consecutiveWarnings s;
     lastWarningTime := lastWarningTime s |}.

(** [this.minuteBucket.tokens <= 0 || this.hourBucket.tokens <= 0] *)
Definition isThrottled (s : State) : bool :=
  (tokens (minuteBucket s) <=? 0) || (tokens (hourBucket s) <=? 0).

(** The waiting loop of [acquireToken].  [clock k] is the [Date.now()]
    read by the refill number [k] of the call; every wait is for
    [getWaitTime()] milliseconds, a value between 1000 and 30000.  The
    result holds the number of waits. *)
Fixpoint wait_loop (cfg : Config) (clock : nat -> Z) (fuel k : nat) (s : State)
  : option (nat * State) :=
  if isThrottled s then
    match fuel with
    | O => None
    | S fuel' => wait_loop cfg clock fuel' (S k) (refillBuckets cfg (clock (S k)) s)
    end
  else Some (k, s).

Definition consume (s : State) : State :=
  {| minuteBucket := {| tokens := tokens (minuteBucket s) - 1;
                        lastRefill := lastRefill (minuteBucket s) |};
     hourBucket := {| tokens := tokens (hourBucket s) - 1;
                      lastRefill := lastRefill (hourBucket s) |};
     consecutiveWarnings := consecutiveWarnings s;
     lastWarningTime := lastWarningTime s |}.

(** What [getAdaptiveDelay] does to the state: the warnings decay when
    the last one is more than five minutes old at [now]. *)
Definition decay (now : Z) (s : State) : State :=
  if 300000 <? now - lastWarningTime s
  then {| minuteBucket := minuteBucket s;
          hourBucket := hourBucket s;
          consecutiveWarnings := Z.max 0 (consecutiveWarnings s - 1);
          lastWarningTime := lastWarningTime s |}
  else s.

(** [acquireToken]; [decay_at] is the clock read by [getAdaptiveDelay]. *)
Definition acquireToken (cfg : Config) (clock : nat -> Z) (decay_at : Z)
    (fuel : nat) (s : State) : option (nat * State) :=
  match wait_loop cfg clock fuel 0%nat (refillBuckets cfg (clock 0%nat) s) with
  | Some (waits, s') => Some (waits, decay decay_at (consume s'))
  | None => None
  end.

End Doubles.

Record Status := {
  minuteTokens : Z;
  hourTokens : Z;
  warnings : Z;
  throttled : bool;
}.

(** [getStatus()] *)
Definition getStatus (s : State) : Status :=
  {| minuteTokens := tokens (minuteBucket s);
     hourTokens := tokens (hourBucket s);
     warnings := consecutiveWarnings s;
     throttled := isThrottled s |}.

(** Both buckets hold between zero tokens and their capacity, and were
    last refilled no later than [now]. *)
Definition in_range (cfg : Config) (now : Z) (s : State) : Prop :=
  0 <= tokens (minuteBucket s) <= requestsPerMinute cfg /\
  0 <= tokens (hourBucket s) <= requestsPerHour cfg /\
  lastRefill (minuteBucket s) <= now /\ lastRefill (hourBucket s) <= now.

(** *** The state of the waiting loop *)

(** A bucket in range that the refill at [now] left empty was not
    refilled since the call began: its window had not elapsed. *)
Definition settled (clock : nat -> Z) (window rate now : Z) (b : Bucket) : Prop :=
  0 <= tokens b <= rate /\ lastRefill b <= now /\
  (tokens b <= 0 -> lastRefill b <= clock 0%nat /\ now - lastRefill b < window).

Definition waiting (cfg : Config) (clock : nat -> Z) (k : nat) (s : State) : Prop :=
  settled clock 60000 (requestsPerMinute cfg) (clock k) (minuteBucket s) /\
  settled clock 3600000 (requestsPerHour cfg) (clock k) (hourBucket s).

End TokenBucket.
(* ===================================================================== *)
(** ** The reel strategy ([ReelStrategy]) *)
(* ===================================================================== *)

Module Reels.

Import Eff Eff.Notations Service.

(** An element of the [$$eval] over the reel anchors of the grid. *)
Record ReelLink := { reel_href : string; thumbnail : string; viewsText : string }.

Definition is_count_char (c : ascii) : bool :=
  Str.is_digit c || Ascii.eqb c "," || Ascii.eqb c ".".

(** [[KMB]] under the [i] flag. *)
Definition is_unit (c : ascii) : bool := Count.is_suffix (Str.upper_char c).

(** Group 1 of [text.match(/([\d,.]+[KMB]?)/i)]: the match starts at the
    first digit, comma or dot and takes the whole run, then one unit
    letter if one follows. *)
Fixpoint first_count (text : string) : option string :=
  match text with
  | EmptyString => None
  | String c rest =>
      if is_count_char c then
        let run := Str.take_while is_count_char text in
        Some (run +:+ match Str.drop_while is_count_char text with
                      | String u _ => if is_unit u then String u EmptyString
                                      else EmptyString
                      | EmptyString => EmptyString
                      end)
      else first_count rest
  end.

Definition parseViewCount (text : string) : Js.number :=
  match first_count text with
  | None => Js.Num 0
  | Some m => Count.ReelStrategy.parseCount m
  end.

(** What the browser answers during [scrapeProfileReels]: a [Throw] is a
    rejected promise. *)
Record ReelsPage := {
  reels_goto : res unit;                    (* page.goto *)
  reels_missing : res bool;                 (* notFound || noReels *)
  reel_links : nat -> res (list ReelLink);  (* $$eval, at scroll attempt k *)
  reels_scroll : nat -> res unit;           (* scrollBy, after attempt k *)
}.

(** [reels.some((r) => r.shortcode === shortcode)] *)
Definition has_reel (rs : list ReelData) (sc : string) : bool :=
  existsb (fun r => String.eqb (reel_shortcode r) sc) rs.

Definition grid_reel (link : ReelLink) (sc : string) : ReelData :=
  {| reel_shortcode := sc;
     reel_caption := "";
     viewsCount := parseViewCount (viewsText link) |}.

(** [for (const reelLink of reelLinks) { ... }] *)
Fixpoint push_links (links : list ReelLink) (rs : list ReelData) (limit : Z)
  : list ReelData :=
  match links with
  | [] => rs
  | link :: rest =>
      if limit <=? count rs then rs
      else
        match Str.group_after ["/reel/"] not_slash (reel_href link) with
        | None => push_links rest rs limit
        | Some sc =>
            if has_reel rs sc then push_links rest rs limit
            else push_links rest (rs ++ [grid_reel link sc]) limit
        end
  end.

(** [while (reels.length < limit && scrollAttempts < maxScrollAttempts)],
    with [attempts] scroll attempts left and [k] made. *)
Fixpoint harvest (page : ReelsPage) (limit : Z) (attempts k : nat)
  : M (list ReelData) unit :=
  match attempts with
  | O => ret tt
  | S attempts' =>
      let* rs := get in
      if limit <=? count rs then ret tt
      else
        let* links := lift (reel_links page k) in
        modify (fun rs => push_links links rs limit) >>
        let* rs := get in
        if limit <=? count rs then ret tt
        else lift (reels_scroll page k) >> harvest page limit attempts' (S k)
  end.

(** [Math.ceil(limit / 12) + 5] *)
Definition maxScrollAttempts (limit : Z) : Z := Js.ceil_div limit 12 + 5.

(** [scrapeProfileReels]: the [catch] returns the reels gathered so far. *)
Definition scrapeProfileReels (page : ReelsPage) (username : string) (limit : Z)
  : list ReelData :=
  let body : M (list ReelData) bool :=
    lift (reels_goto page) >>
    let* missing := lift (reels_missing page) in
    if missing then ret true
    else harvest page limit (Z.to_nat (maxScrollAttempts limit)) 0 >> ret false in
  match body [] with
  | (Ok true, _) => []
  | (Ok false, rs) => Js.slice rs 0 limit
  | (Throw _, rs) => rs
  end.

(** What [page.evaluate] returns in [scrapeReelDetails], as far as
    [ReelData] keeps it. *)
Record DetailPage := {
  detail_caption : string;     (* og:description *)
  detail_views : string;       (* viewsMatch?.[1] || '0' *)
}.

(** [scrapeReelDetails]; [detail] is [Ok None] when the page shows that
    the reel is not available, a [Throw] when a browser call rejects. *)
Definition scrapeReelDetails (detail : res (option DetailPage)) (shortcode : string)
  : option ReelData :=
  match detail with
  | Ok (Some pg) =>
      Some {| reel_shortcode := shortcode;
              reel_caption := detail_caption pg;
              viewsCount := Count.ReelStrategy.parseCount (detail_views pg) |}
  | Ok None | Throw _ => None
  end.

(** The answers [ScraperService.scrapeReels] gets from this strategy. *)
Definition answers (page : ReelsPage) (details : nat -> res (option DetailPage))
    (username : string) (limit : Z) : ReelAnswers :=
  {| reels_found := Ok (scrapeProfileReels page username limit);
     reel_details := fun i sc => Ok (scrapeReelDetails (details i) sc) |}.

(** A reel built from an anchor that the grid showed. *)
Definition shown (page : ReelsPage) (r : ReelData) : Prop :=
  exists k links link,
    reel_links page k = Ok links /\ In link links /\
    Str.group_after ["/reel/"] not_slash (reel_href link) = Some (reel_shortcode r) /\
    r = grid_reel link (reel_shortcode r).

(** What the harvest keeps: distinct shortcodes, the bound, and reels
    that the grid showed. *)
Definition gathered (page : ReelsPage) (limit : Z) (rs : list ReelData) : Prop :=
  NoDup (reel_shortcode <$> rs) /\ count rs <= Z.max 0 limit /\
  Forall (shown page) rs.

(** A grid of four anchors, two of them for the same reel. *)
Definition sample_page : ReelsPage :=
  {| reels_goto := Ok tt;
     reels_missing := Ok false;
     reel_links := fun k =>
       if (k =? 0)%nat then
         Ok [ {| reel_href := "/natgeo/reel/Cabc123/"; thumbnail := "a.jpg";
                 viewsText := "1,204" |};
              {| reel_href := "/natgeo/reel/Cdef456/"; thumbnail := "b.jpg";
                 viewsText := "12K" |};
              {| reel_href := "/natgeo/reel/Cabc123/"; thumbnail := "a.jpg";
                 viewsText := "1,204" |};
              {| reel_href := "/natgeo/reel/Cghi789/"; thumbnail := "c.jpg";
                 viewsText := "" |} ]
       else Throw "Target closed";
     reels_scroll := fun _ => Ok tt |}.

End Reels.
(* ===================================================================== *)
(** ** The post strategy ([PostStrategy]) *)
(* ===================================================================== *)

Module Posts.

Import Eff Service.

Definition not_slash_or_query (c : ascii) : bool :=
  negb (Ascii.eqb c "/") && negb (Ascii.eqb c "?").

(** The shortcode of a post given by shortcode or by URL: group 1 of
    [/\/(?:p|reel)\/([^/?]+)/] for a string that includes
    [instagram.com] and matches, the string itself otherwise. *)
Definition shortcode_of (shortcodeOrUrl : string) : string :=
  if Str.includes shortcodeOrUrl "instagram.com" then
    match Str.group_after ["/p/"; "/reel/"] not_slash_or_query shortcodeOrUrl with
    | Some sc => sc
    | None => shortcodeOrUrl
    end
  else shortcodeOrUrl.

(** What the browser answers in [scrapePost], as far as [PostData] keeps
    it: the object returned by [page.evaluate] and the carousel probe. *)
Record PostPage := {
  page_type : string;             (* postData.type *)
  page_caption : string;
  page_author : string;
  hasMultipleMedia : bool;        (* [aria-label="Next"] is present *)
}.

Definition is_image (t : Hashtag.MediaType) : bool :=
  match t with Hashtag.Image => true | _ => false end.

Definition is_reel (t : Hashtag.MediaType) : bool :=
  match t with Hashtag.Reel => true | _ => false end.

(** [scrapePost]; [page] is [Ok None] when the page shows that the post
    is not available, a [Throw] when a browser call rejects: the [catch]
    returns [null]. *)
Definition scrapePost (page : res (option PostPage)) (shortcodeOrUrl : string)
  : option PostData :=
  let shortcode := shortcode_of shortcodeOrUrl in
  let url := "https://www.instagram.com/p/" +:+ shortcode +:+ "/" in
  match page with
  | Ok (Some postData) =>
      let type :=
        if Str.includes url "/reel/" then Hashtag.Reel
        else if String.eqb (page_type postData) "video" then Hashtag.Video
        else Hashtag.Image in
      let type :=
        if hasMultipleMedia postData && is_image type then Hashtag.Carousel
        else type in
      Some {| Hashtag.id := Some shortcode;
              Hashtag.shortcode := Some shortcode;
              Hashtag.url := "https://www.instagram.com/"
                             +:+ (if is_reel type then "reels" else "p")
                             +:+ "/" +:+ shortcode +:+ "/";
              Hashtag.type := type;
              Hashtag.caption := page_caption postData;
              Hashtag.ownerUsername := page_author postData;
              Hashtag.hashtags := extractHashtagsFromText (page_caption postData) |}
  | Ok None | Throw _ => None
  end.

(** What the browser answers in [scrapeCarouselMedia].  The [$eval] of
    the current medium has its own [catch] and yields the empty string
    when it rejects; [media k] is its answer after [k] clicks. *)
Record Carousel := {
  next_button : res bool;          (* page.$('[aria-label="Next"]') *)
  media : nat -> string;
  click : nat -> res unit;         (* the click number k + 1 *)
  has_next : nat -> res bool;      (* the probe after click k + 1 *)
}.

(** [if (currentMedia && !mediaUrls.includes(currentMedia)) push] *)
Definition push_medium (m : string) (mediaUrls : list string) : list string :=
  if negb (String.eqb m "") && negb (existsb (String.eqb m) mediaUrls)
  then mediaUrls ++ [m] else mediaUrls.

(** [while (hasNext && maxClicks > 0)], with [maxClicks] clicks left and
    [k] done; the loop is entered with [hasNext] true. *)
Fixpoint click_through (c : Carousel) (maxClicks k : nat) (mediaUrls : list string)
  : list string :=
  match maxClicks with
  | O => mediaUrls
  | S maxClicks' =>
      match click c k with
      | Throw _ => mediaUrls
      | Ok _ =>
          let mediaUrls := push_medium (media c (S k)) mediaUrls in
          match has_next c k with
          | Throw _ => mediaUrls
          | Ok true => click_through c maxClicks' (S k) mediaUrls
          | Ok false => mediaUrls
          end
      end
  end.

Definition scrapeCarouselMedia (c : Carousel) : list string :=
  match next_button c with
  | Throw _ => []
  | Ok false => if String.eqb (media c 0) "" then [] else [media c 0]
  | Ok true =>
      click_through c 20 0 (if String.eqb (media c 0) "" then [] else [media c 0])
  end.

(** What the walk keeps after [n] clicks: distinct, non-empty media read
    from the page. *)
Definition tidy_media (c : Carousel) (n : nat) (mediaUrls : list string) : Prop :=
  NoDup mediaUrls /\ (length mediaUrls <= S n)%nat /\
  Forall (fun m => m <> "" /\ exists k, (k <= n)%nat /\ m = media c k) mediaUrls.

End Posts.
(* ===================================================================== *)
(** ** The comment strategy ([CommentStrategy]) *)
(* ===================================================================== *)

Module Comments.

Import Eff Service.

(** An element of what [page.evaluate] returns. *)
Record RawComment := {
  raw_username : string;
  raw_text : string;
  raw_profilePic : string;
}.

(** [CommentData], without its counters and dates. *)
Record Comment := {
  comment_id : string;
  comment_body : CommentData;          (* ownerUsername and text *)
  ownerProfilePic : string;
  postShortcode : string;
}.

(** The statements that open [scrapeComments] are those that open
    [PostStrategy.scrapePost]. *)
Definition shortcode_of : string -> string := Posts.shortcode_of.

(** [c.ownerUsername === raw.username && c.text === raw.text] *)
Definition same_comment (raw : RawComment) (c : Comment) : bool :=
  String.eqb (comment_author (comment_body c)) (raw_username raw)
  && String.eqb (comment_text (comment_body c)) (raw_text raw).

Definition converted (shortcode : string) (index : nat) (raw : RawComment) : Comment :=
  {| comment_id := "comment_" +:+ shortcode +:+ "_" +:+ pretty index;
     comment_body := {| comment_author := raw_username raw;
                        comment_text := raw_text raw |};
     ownerProfilePic := raw_profilePic raw;
     postShortcode := shortcode |}.

(** [for (const raw of rawComments) { ... }] *)
Fixpoint convert (shortcode : string) (raws : list RawComment)
    (found : list Comment) (limit : Z) : list Comment :=
  match raws with
  | [] => found
  | raw :: rest =>
      if limit <=? count found then found
      else if existsb (same_comment raw) found
      then convert shortcode rest found limit
      else convert shortcode rest
             (found ++ [converted shortcode (length found) raw]) limit
  end.

(** [scrapeComments].  Until the conversion loop the list of comments is
    empty, so the browser's part is one answer: a [Throw] when one of the
    calls up to [page.evaluate] rejects (the [catch] returns the empty
    list), [Ok None] when the page shows that the post is not available,
    and the raw comments otherwise. *)
Definition scrapeComments (page : res (option (list RawComment)))
    (shortcodeOrUrl : string) (limit : Z) : list Comment :=
  let shortcode := shortcode_of shortcodeOrUrl in
  match page with
  | Ok (Some rawComments) => Js.slice (convert shortcode rawComments [] limit) 0 limit
  | Ok None | Throw _ => []
  end.

Definition pair_of (c : Comment) : string * string :=
  (comment_author (comment_body c), comment_text (comment_body c)).

Definition raw_pair (raw : RawComment) : string * string :=
  (raw_username raw, raw_text raw).

(** What the conversion loop keeps: distinct author and text pairs, the
    bound, and identifiers numbered by position. *)
Definition numbered (shortcode : string) (limit : Z) (found : list Comment) : Prop :=
  NoDup (pair_of <$> found) /\ count found <= Z.max 0 limit /\
  forall k c, found !! k = Some c ->
    comment_id c = "comment_" +:+ shortcode +:+ "_" +:+ pretty k /\
    postShortcode c = shortcode.

(** What [ScraperService] keeps of the comments. *)
Definition bodies (cs : list Comment) : list CommentData := comment_body <$> cs.

(** The answers [ScraperService.scrapePost] gets from the post strategy
    and from this one; both are given [postUrl]. *)
Definition post_answers (post_page : res (option Posts.PostPage))
    (comments_page : res (option (list RawComment)))
    (postUrl : string) (commentsLimit : Z) : PostAnswers :=
  {| post_found := Ok (Posts.scrapePost post_page postUrl);
     post_comments := Ok (bodies (scrapeComments comments_page postUrl commentsLimit)) |}.

End Comments.
(* ===================================================================== *)
(** ** The profile strategy ([ProfileStrategy]) *)
(* ===================================================================== *)

Module Profiles.

Import Eff Eff.Notations Service.

(** A GraphQL user object, as far as [parseGraphQLProfile] reads it into
    the fields of [ProfileData] kept here. *)
Record UserData := {
  user_username : option string;
  user_followers : option Z;          (* edge_followed_by?.count *)
  user_is_private : bool;
}.

(** [userData.username || username], [count || 0], [is_private || false] *)
Definition parseGraphQLProfile (userData : UserData) (username : string)
  : ProfileData :=
  {| profile_username :=
       if Js.truthy (user_username userData)
       then Hashtag.show (user_username userData) else username;
     followersCount := Js.Num (default 0 (user_followers userData));
     isPrivate := user_is_private userData |}.

(** [x > 0] *)
Definition positive (x : Js.number) : bool :=
  match x with
  | Js.Num z => 0 <? z
  | Js.NaN => false
  end.

(** What [extractProfileFromMetaTags] reads from the page. *)
Record MetaTags := {
  meta_followers : string;     (* the matched count, or '0' *)
  meta_private : bool;         (* "This account is private" is shown *)
}.

Record ProfilePage := {
  profile_goto : res unit;               (* page.goto *)
  not_available : res bool;              (* page.content() has the sorry text *)
  captured : list UserData;              (* capturedData, each with its user *)
  page_source : option UserData;         (* null also when its evaluate throws *)
  meta_tags : res MetaTags;              (* a Throw when a browser call rejects *)
}.

(** [for (const data of capturedData) { ... if (profile.followersCount > 0)
    return profile; }] *)
Fixpoint first_with_followers (username : string) (users : list UserData)
  : option ProfileData :=
  match users with
  | [] => None
  | userData :: rest =>
      let parsed := parseGraphQLProfile userData username in
      if positive (followersCount parsed) then Some parsed
      else first_with_followers username rest
  end.

Definition extractProfileFromMetaTags (data : MetaTags) (username : string)
  : ProfileData :=
  {| profile_username := username;
     followersCount := Count.ProfileStrategy.parseCount (meta_followers data);
     isPrivate := meta_private data |}.

(** [scrapeProfile]: the [catch] returns [null]. *)
Definition scrapeProfile (page : ProfilePage) (username : string)
  : option ProfileData :=
  match profile_goto page, not_available page with
  | Ok _, Ok false =>
      match first_with_followers username (captured page) with
      | Some parsed => Some parsed
      | None =>
          match first_with_followers username (option_list (page_source page)) with
          | Some pageProfile => Some pageProfile
          | None =>
              match meta_tags page with
              | Ok data => Some (extractProfileFromMetaTags data username)
              | Throw _ => None
              end
          end
      end
  | _, _ => None
  end.

(** *** [scrapeProfilePosts] *)

Record PostLink := { post_href : string; post_img : string }.

Record PostsPage := {
  posts_goto : res unit;                    (* page.goto *)
  posts_private : res bool;                 (* "This account is private" *)
  captured_edges : list Hashtag.Edge;       (* capturedPosts, when the loop reads it *)
  post_links : nat -> res (list PostLink);  (* $$eval, at scroll attempt k *)
  posts_scroll : nat -> res unit;           (* scrollBy, after attempt k *)
}.

(** The [parseGraphQLPost] of this strategy: [null] when reading the edge
    throws. *)
Definition parseGraphQLPost (edge : Hashtag.Edge) (ownerUsername : string)
  : option PostData :=
  match edge with
  | None => None
  | Some node =>
      let caption := default "" (Hashtag.node_caption_edge node) in
      Some {| Hashtag.id := Hashtag.node_id node;
              Hashtag.shortcode := Hashtag.node_shortcode node;
              Hashtag.url := Hashtag.post_url (Hashtag.node_shortcode node);
              Hashtag.type :=
                if Hashtag.node_is_video node then Hashtag.Video
                else if Hashtag.typename_is node "GraphSidecar"
                     then Hashtag.Carousel else Hashtag.Image;
              Hashtag.caption := caption;
              Hashtag.ownerUsername :=
                if Js.truthy (Hashtag.node_owner_username node)
                then Hashtag.show (Hashtag.node_owner_username node)
                else ownerUsername;
              Hashtag.hashtags := extractHashtagsFromText caption |}
  end.

(** [for (const edge of capturedPosts) { ... }] *)
Fixpoint add_captured (edges : list Hashtag.Edge) (username : string)
    (posts : list PostData) (limit : Z) : list PostData :=
  match edges with
  | [] => posts
  | edge :: rest =>
      if limit <=? count posts then posts
      else
        match parseGraphQLPost edge username with
        | Some p =>
            if Hashtag.has_shortcode posts (Hashtag.shortcode p)
            then add_captured rest username posts limit
            else add_captured rest username (posts ++ [p]) limit
        | None => add_captured rest username posts limit
        end
  end.

Definition grid_post (link : PostLink) (username sc : string) : PostData :=
  {| Hashtag.id := Some sc;
     Hashtag.shortcode := Some sc;
     Hashtag.url := Hashtag.post_url (Some sc);
     Hashtag.type := if Str.includes (post_href link) "/reel/"
                     then Hashtag.Reel else Hashtag.Image;
     Hashtag.caption := "";
     Hashtag.ownerUsername := username;
     Hashtag.hashtags := [] |}.

(** [for (const postLink of postLinks) { ... }] *)
Fixpoint push_links (links : list PostLink) (username : string)
    (posts : list PostData) (limit : Z) : list PostData :=
  match links with
  | [] => posts
  | link :: rest =>
      if limit <=? count posts then posts
      else
        match Str.group_after ["/p/"; "/reel/"] not_slash (post_href link) with
        | None => push_links rest username posts limit
        | Some sc =>
            if Hashtag.has_shortcode posts (Some sc)
            then push_links rest username posts limit
            else push_links rest username (posts ++ [grid_post link username sc]) limit
        end
  end.

(** [while (posts.length < limit && scrollAttempts < maxScrollAttempts)] *)
Fixpoint harvest (page : PostsPage) (username : string) (limit : Z)
    (attempts k : nat) : M (list PostData) unit :=
  match attempts with
  | O => ret tt
  | S attempts' =>
      let* posts := get in
      if limit <=? count posts then ret tt
      else
        let* links := lift (post_links page k) in
        modify (fun posts => push_links links username posts limit) >>
        let* posts := get in
        if limit <=? count posts then ret tt
        else lift (posts_scroll page k) >> harvest page username limit attempts' (S k)
  end.

(** [scrapeProfilePosts]: the [catch] returns the posts gathered so far. *)
Definition scrapeProfilePosts (page : PostsPage) (username : string) (limit : Z)
  : list PostData :=
  let body : M (list PostData) bool :=
    lift (posts_goto page) >>
    let* isPrivate := lift (posts_private page) in
    if isPrivate then ret true
    else
      modify (fun posts => add_captured (captured_edges page) username posts limit) >>
      harvest page username limit (Z.to_nat (Js.ceil_div limit 12 + 5)) 0 >>
      ret false in
  match body [] with
  | (Ok true, _) => []
  | (Ok false, posts) => Js.slice posts 0 limit
  | (Throw _, posts) => posts
  end.

(** Every post carries the [/p/] address of its shortcode. *)
Definition addressed (posts : list PostData) : Prop :=
  Forall (fun p => Hashtag.url p = Hashtag.post_url (Hashtag.shortcode p)) posts.

(** What the harvest of posts keeps. *)
Definition gathered (limit : Z) (posts : list PostData) : Prop :=
  Hashtag.good (Js.whole limit) posts /\ addressed posts.

(** The answers [ScraperService.scrapeProfile] gets from this strategy. *)
Definition answers (profile_page : ProfilePage) (posts_page : PostsPage)
    (username : string) (postsLimit : Z) : ProfileAnswers :=
  {| profile_found := Ok (scrapeProfile profile_page username);
     profile_posts := Ok (scrapeProfilePosts posts_page username postsLimit) |}.

End Profiles.
(* ===================================================================== *)
(** ** The scraper's [AuthService] *)
(* ===================================================================== *)

Module Auth.

Import Eff Eff.Notations Service Session.

(** [instagram.username] and [instagram.password] of the configuration. *)
Record Credentials := {
  cred_username : option string;
  cred_password : option string;
}.

(** [!!(username && password)] *)
Definition hasCredentials (c : Credentials) : bool :=
  Js.truthy (cred_username c) && Js.truthy (cred_password c).

(** The clock readings and the browser's answers of one [login()]. *)
Record LoginAnswers := {
  checked_at : Z;                  (* Date.now() of the cooldown test *)
  attempted_at : Z;                (* the new Date() kept as lastLoginAttempt *)
  context_stamp : Z;               (* Date.now() in the context id *)
  context_launched : res unit;     (* createContext: browser.newContext *)
  context_scripted : res unit;     (* createContext: addAntiDetectionScripts *)
  page_opened : res unit;          (* createPage *)
  context_closed : res unit;       (* closeContext: context.close *)
  session_cookie : res (option string);
    (* the page calls up to the cookies: a Throw when one rejects, None
       for an error message, a challenge or no sessionid cookie, else the
       value of the cookie *)
}.

Definition loginCooldownMs : Z := 60000.

Definition State : Type := Sys * AuthService.

Definition set_session (v : option string) : M State unit :=
  assign_locals (fun a => {| cachedSessionId := v;
                             lastLoginAttempt := lastLoginAttempt a |}).

Definition set_attempt (t : Z) : M State unit :=
  assign_locals (fun a => {| cachedSessionId := cachedSessionId a;
                             lastLoginAttempt := Some t |}).

(** Whether the cooldown test of [login] lets the attempt through. *)
Definition cooled_down (a : LoginAnswers) (auth : AuthService) : bool :=
  match lastLoginAttempt auth with
  | Some t => negb (checked_at a - t <? loginCooldownMs)
  | None => true
  end.

(** [login()] *)
Definition login (c : Credentials) (a : LoginAnswers) : M State (option string) :=
  if negb (hasCredentials c) then ret None
  else
    let* auth := locals in
    if negb (cooled_down a auth) then ret (cachedSessionId auth)
    else
      set_attempt (attempted_at a) >>
      let contextId := "auth_login_" +:+ pretty (context_stamp a) in
      finally
        (try_catch
           (shared (createContext contextId None (context_launched a)
                                  (context_scripted a)) >>
            shared (createPage contextId (page_opened a)) >>
            let* cookie := lift (session_cookie a) in
            match cookie with
            | Some sessionId => set_session (Some sessionId) >> ret (Some sessionId)
            | None => ret None
            end)
           (fun _ => ret None))
        (try_catch (shared (closeContext contextId (context_closed a)))
                   (fun _ => ret tt)).

(** [getSessionId()] *)
Definition getSessionId (c : Credentials) (a : LoginAnswers)
  : M State (option string) :=
  let* auth := locals in
  if Js.truthy (cachedSessionId auth) then ret (cachedSessionId auth)
  else if hasCredentials c then login c a
  else ret None.

(** [refreshSession()] *)
Definition refreshSession (c : Credentials) (a : LoginAnswers)
  : M State (option string) :=
  set_session None >> login c a.

Inductive call := GetSessionId | RefreshSession | Login.

Definition perform (c : Credentials) (a : LoginAnswers) (op : call)
  : M State (option string) :=
  match op with
  | GetSessionId => getSessionId c a
  | RefreshSession => refreshSession c a
  | Login => login c a
  end.

(** The id of the context that the login of [a] opens. *)
Definition login_context (a : LoginAnswers) : string :=
  "auth_login_" +:+ pretty (context_stamp a).

(** The state of the cache after an attempt that returned [r]. *)
Definition after_attempt (a : LoginAnswers) (r : option string) (auth : AuthService)
  : AuthService :=
  {| cachedSessionId := match r with Some _ => r | None => cachedSessionId auth end;
     lastLoginAttempt := Some (attempted_at a) |}.

(** What a call leaves of the shared state [s]: only the context registry
    and the number of contexts the browser holds can differ. *)
Definition login_leaves (a : LoginAnswers) (s s' : Sys) : Prop :=
  s' = set_browser (set_contexts s (activeContexts s')) (browserContexts s') /\
  (activeContexts s' = activeContexts s \/
   activeContexts s' = delete (login_context a) (activeContexts s) \/
   (activeContexts s'
    = <[login_context a := {| server := proxy_server None |}]> (activeContexts s) /\
    exists msg, context_closed a = Throw msg)) /\
  (browserContexts s' = browserContexts s \/
   browserContexts s' = Nat.pred (browserContexts s) \/
   browserContexts s' = S (browserContexts s)) /\
  (context_launched a = Ok tt -> context_scripted a = Ok tt ->
   context_closed a = Ok tt -> browserContexts s' = browserContexts s).

End Auth.

(* ===================================================================== *)
(** * Properties *)
(* ===================================================================== *)

Module JsFacts.

(** *** Numbers that may carry a fraction, against whole ones *)

Lemma at_least_ceil (n : Z) (x : Q) : Js.at_least n x = (Js.ceil x <=? n).
Proof.
  unfold Js.at_least, Js.ceil.
  destruct (Qle_bool x (inject_Z n)) eqn:E; symmetry.
  - apply Qle_bool_iff in E. apply Z.leb_le.
    rewrite <- (Qceiling_Z n). apply Qceiling_resp_le, E.
  - apply Z.leb_gt. apply Z.lt_nge. intros H. apply not_true_iff_false in E.
    apply E, Qle_bool_iff. eapply Qle_trans; [apply Qle_ceiling|].
    rewrite <- Zle_Qle. exact H.
Qed.

Lemma below_ceil (n : Z) (x : Q) : Js.below n x = (n <? Js.ceil x).
Proof.
  unfold Js.below. fold (Js.at_least n x). rewrite at_least_ceil.
  rewrite Z.ltb_antisym. reflexivity.
Qed.

Lemma ceil_whole (z : Z) : Js.ceil (Js.whole z) = z.
Proof. apply Qceiling_Z. Qed.

Lemma at_least_whole (n z : Z) : Js.at_least n (Js.whole z) = (z <=? n).
Proof. rewrite at_least_ceil, ceil_whole. reflexivity. Qed.

Lemma below_whole (n z : Z) : Js.below n (Js.whole z) = (n <? z).
Proof. rewrite below_ceil, ceil_whole. reflexivity. Qed.

Lemma trunc_whole (z : Z) : Js.trunc (Js.whole z) = z.
Proof. unfold Js.trunc, Js.whole. simpl. apply Z.quot_1_r. Qed.

(** Dropping the fraction never gives more than rounding up. *)
Lemma trunc_le_ceil (x : Q) : Js.trunc x <= Z.max 0 (Js.ceil x).
Proof.
  unfold Js.trunc, Js.ceil, Qceiling, Qfloor. destruct x as [a b]. simpl.
  destruct (Z.le_gt_cases 0 a) as [Ha | Ha].
  - rewrite Z.quot_div_nonneg by lia.
    assert (a / Z.pos b <= - (- a / Z.pos b)); [|lia].
    pose proof (Z.mul_div_le a (Z.pos b) ltac:(lia)).
    pose proof (Z.mul_div_le (- a) (Z.pos b) ltac:(lia)). nia.
  - assert (Z.quot a (Z.pos b) <= 0); [|lia].
    apply Z.quot_le_upper_bound; lia.
Qed.


End JsFacts.

Module CountFacts.

Import Count.

(** The four documented values, for both parsers. *)
Lemma parseCount_documented_values :
  ProfileStrategy.parseCount "1.5K" = Js.Num 1500 /\
  ProfileStrategy.parseCount "2M" = Js.Num 2000000 /\
  ProfileStrategy.parseCount "12,345" = Js.Num 12345 /\
  ProfileStrategy.parseCount "" = Js.Num 0 /\
  ReelStrategy.parseCount "1.5K" = Js.Num 1500 /\
  ReelStrategy.parseCount "2M" = Js.Num 2000000 /\
  ReelStrategy.parseCount "12,345" = Js.Num 12345 /\
  ReelStrategy.parseCount "" = Js.Num 0.
Proof. repeat split; vm_compute; reflexivity. Qed.

(** When the pattern does not match, the result is 0. *)
Lemma parseCount_no_match (countStr : string) :
  ProfileStrategy.match_count (clean countStr) = None ->
  ProfileStrategy.parseCount countStr = Js.Num 0.
Proof.
  intros H. unfold ProfileStrategy.parseCount. rewrite H.
  destruct (String.eqb countStr ""); reflexivity.
Qed.

(** C3 (the code at the failing input).  A lone dot is not a magnitude,
    yet the pattern [[\d.]+] accepts it, [parseFloat] yields [NaN], and
    both parsers return [NaN] instead of 0. *)
Theorem parseCount_lone_dot_is_NaN :
  ProfileStrategy.parseCount "." = Js.NaN /\
  ReelStrategy.parseCount "." = Js.NaN.
Proof. split; vm_compute; reflexivity. Qed.

End CountFacts.

Module ProxyFacts.

Import Proxy.

(** *** Entry-wise updates *)

(** Every mutation of the pool rewrites entries in place; [keeps] relates
    an entry to its rewritten self. *)
Section Pointwise.

Variable R : ProxyConfig -> ProxyConfig -> Prop.
Hypothesis R_refl : forall x, R x x.

Lemma update_first_pointwise f g l :
  (forall x, f x = true -> R x (g x)) ->
  Forall2 R l (update_first f g l).
Proof.
  intros Hg. induction l as [|x l IH]; simpl.
  - constructor.
  - destruct (f x) eqn:E.
    + constructor; [auto | apply Forall_Forall2_diag, Forall_forall; auto].
    + constructor; auto.
Qed.

Lemma update_active_pointwise k g l :
  (forall x, isActive x = true -> R x (g x)) ->
  Forall2 R l (update_active k g l).
Proof.
  intros Hg. revert k. induction l as [|x l IH]; intros k; simpl.
  - constructor.
  - destruct (isActive x) eqn:E.
    + destruct k.
      * constructor; [auto | apply Forall_Forall2_diag, Forall_forall; auto].
      * constructor; auto.
    + constructor; auto.
Qed.

End Pointwise.

(** *** The state invariant *)

Lemma healthy_fail_once p : healthy p -> healthy (fail_once p).
Proof.
  intros [H0 H3]. split; simpl; [lia|].
  intros H. destruct (3 <=? failCount p + 1) eqn:E; [reflexivity | lia].
Qed.

Lemma healthy_clear_failures p : healthy p -> healthy (clear_failures p).
Proof. intros _. split; simpl; lia. Qed.

Lemma healthy_reactivate p : healthy p -> healthy (reactivate p).
Proof. intros _. split; simpl; lia. Qed.

Lemma healthy_touch now p : healthy p -> healthy (touch now p).
Proof. intros H. exact H. Qed.

Lemma healthy_parsed parsed p : parseProxyString parsed = Some p -> healthy p.
Proof.
  destruct parsed as [u|]; simpl; [|discriminate].
  intros [= <-]. split; simpl; lia.
Qed.

Lemma Forall_pointwise (P : ProxyConfig -> Prop) l l' :
  Forall2 (fun x y => P x -> P y) l l' -> Forall P l -> Forall P l'.
Proof.
  induction 1; intros HF; [constructor|].
  inversion HF; subst. constructor; auto.
Qed.

Lemma getNextProxy_proxies now s :
  exists k, proxies (getNextProxy now s).2 = update_active k (touch now) (proxies s)
            \/ proxies (getNextProxy now s).2 = proxies s.
Proof.
  unfold getNextProxy.
  destruct (List.filter isActive (proxies s)) as [|first rest] eqn:E.
  - exists O. right. reflexivity.
  - set (n := length (first :: rest)).
    destruct (List.find _ (seq 0 n)) as [i|].
    + destruct ((first :: rest) !! _) as [proxy|].
      * eexists. left. reflexivity.
      * exists O. right. reflexivity.
    + exists O. left. reflexivity.
Qed.

Lemma wf_step c s : wf s -> wf (step c s).1.
Proof.
  unfold wf. intros H. destruct c as [now|h pt|h pt|h pt|parsed]; simpl.
  - destruct (getNextProxy now s) as [r s'] eqn:E. simpl.
    destruct (getNextProxy_proxies now s) as [k [Hk|Hk]];
      rewrite E in Hk; simpl in Hk; rewrite Hk; [|exact H].
    eapply Forall_pointwise; [|exact H].
    apply update_active_pointwise; [auto|]. intros x _. apply healthy_touch.
  - eapply Forall_pointwise; [|exact H].
    apply update_first_pointwise; [auto|]. intros x _. apply healthy_fail_once.
  - eapply Forall_pointwise; [|exact H].
    apply update_first_pointwise; [auto|]. intros x _. apply healthy_clear_failures.
  - eapply Forall_pointwise; [|exact H].
    apply update_first_pointwise; [auto|]. intros x _. apply healthy_reactivate.
  - unfold addProxy. destruct (parseProxyString parsed) as [p|] eqn:E; simpl; [|exact H].
    apply Forall_app. split; [exact H|].
    constructor; [|constructor]. eapply healthy_parsed; eauto.
Qed.

Lemma run_cons c cs s :
  run (c :: cs) s =
  ((run cs (step c s).1).1, (step c s).2 ++ (run cs (step c s).1).2).
Proof.
  cbn [run]. destruct (step c s) as [s1 o1]. cbn [fst snd].
  destruct (run cs s1) as [s2 o2]. reflexivity.
Qed.

Lemma wf_run cs s : wf s -> wf (run cs s).1.
Proof.
  revert s. induction cs as [|c cs IH]; intros s H; [exact H|].
  rewrite run_cons. simpl. apply IH, wf_step, H.
Qed.

(** The pool loaded at start-up satisfies the invariant. *)
Lemma wf_loadProxies proxyList rpp : wf (loadProxies proxyList rpp).
Proof.
  unfold wf, loadProxies. simpl. apply Forall_forall. intros p Hp.
  apply list_elem_of_omap in Hp as (parsed & _ & Hp).
  eapply healthy_parsed; eauto.
Qed.

(** *** One endpoint, followed through the calls *)

Section Endpoint.

Variables (h : string) (n : Z).

Local Abbreviation matching := (Proxy.matching h n).
Local Abbreviation keeps := (Proxy.keeps h n).
Local Abbreviation down := (Proxy.down h n).
Local Abbreviation fc_of := (Proxy.fc_of h n).
Local Abbreviation quiet := (Proxy.quiet h n).
Local Abbreviation failures := (Proxy.failures h n).

Lemma keeps_refl x : keeps x x.
Proof. split; [reflexivity|]. intros _. split; [lia|auto]. Qed.

Lemma same_endpoint_both h' pt x :
  same_endpoint h' pt x = true -> matching x = true ->
  String.eqb h' h && Js.strict_eq pt (Js.Num n) = true.
Proof.
  unfold Proxy.matching, same_endpoint. intros H1 H2.
  apply andb_true_iff in H1 as [Ha Hb]. apply andb_true_iff in H2 as [Hc Hd].
  apply String.eqb_eq in Ha, Hc. subst h'. rewrite <- Hc, String.eqb_refl. simpl.
  destruct (port x) as [|z]; simpl in *; try discriminate.
  destruct pt as [|z']; simpl in *; try discriminate.
  apply bool_decide_eq_true in Hb, Hd. subst. apply bool_decide_eq_true. reflexivity.
Qed.

Lemma same_endpoint_is_matching h' pt :
  String.eqb h' h && Js.strict_eq pt (Js.Num n) = true ->
  same_endpoint h' pt = matching.
Proof.
  intros H. apply andb_true_iff in H as [Ha Hb].
  apply String.eqb_eq in Ha. subst h'.
  destruct pt as [|z]; simpl in Hb; try discriminate.
  apply bool_decide_eq_true in Hb. subst z. reflexivity.
Qed.

Lemma quiet_step c s :
  revives h n c = false ->
  exists l' extra,
    proxies (step c s).1 = l' ++ extra /\
    Forall2 keeps (proxies s) l' /\
    Forall (fun p => matching p = false) extra.
Proof.
  intros Hq. destruct c as [now|h' pt|h' pt|h' pt|parsed]; simpl in *.
  - destruct (getNextProxy now s) as [r s'] eqn:E. simpl.
    destruct (getNextProxy_proxies now s) as [k [Hk|Hk]];
      rewrite E in Hk; simpl in Hk; rewrite Hk;
      eexists; exists []; rewrite app_nil_r; (split; [reflexivity|]);
      (split; [|constructor]).
    + apply update_active_pointwise; [apply keeps_refl|].
      intros x _. split; [reflexivity|]. intros _. simpl. split; [lia|auto].
    + apply Forall_Forall2_diag, Forall_forall. intros. apply keeps_refl.
  - eexists; exists []; rewrite app_nil_r; split; [reflexivity|].
    split; [|constructor].
    apply update_first_pointwise; [apply keeps_refl|].
    intros x _. split; [reflexivity|]. intros _. simpl. split; [lia|].
    intros ->. destruct (3 <=? failCount x + 1); reflexivity.
  - eexists; exists []; rewrite app_nil_r; split; [reflexivity|].
    split; [|constructor].
    apply update_first_pointwise; [apply keeps_refl|].
    intros x Hx. split; [reflexivity|]. intros Hm.
    pose proof (same_endpoint_both _ _ _ Hx Hm) as Hb. congruence.
  - eexists; exists []; rewrite app_nil_r; split; [reflexivity|].
    split; [|constructor].
    apply update_first_pointwise; [apply keeps_refl|].
    intros x Hx. split; [reflexivity|]. intros Hm.
    pose proof (same_endpoint_both _ _ _ Hx Hm) as Hb. congruence.
  - unfold addProxy. destruct (parseProxyString parsed) as [p|]; simpl.
    + exists (proxies s), [p]. split; [reflexivity|]. split.
      * apply Forall_Forall2_diag, Forall_forall. intros. apply keeps_refl.
      * constructor; [exact Hq | constructor].
    + exists (proxies s), []. rewrite app_nil_r. split; [reflexivity|]. split.
      * apply Forall_Forall2_diag, Forall_forall. intros. apply keeps_refl.
      * constructor.
Qed.

Lemma filter_keeps l l' extra :
  Forall2 keeps l l' -> Forall (fun p => matching p = false) extra ->
  length (List.filter matching (l' ++ extra)) = length (List.filter matching l).
Proof.
  intros H2 He. rewrite List.filter_app, length_app.
  replace (List.filter matching extra) with (@nil ProxyConfig).
  - simpl. rewrite Nat.add_0_r.
    induction H2 as [|x y l l' [Hxy _] _ IH]; simpl; [reflexivity|].
    rewrite Hxy. destruct (matching x); simpl; congruence.
  - induction He as [|x extra Hx _ IH]; simpl; [reflexivity|]. rewrite Hx. exact IH.
Qed.

Lemma find_none_extra l extra :
  Forall (fun p => matching p = false) extra ->
  List.find matching (l ++ extra) = List.find matching l.
Proof.
  intros He. induction l as [|x l IH]; simpl.
  - induction He as [|y extra Hy _ IH]; simpl; [reflexivity|]. rewrite Hy. exact IH.
  - destruct (matching x); [reflexivity | exact IH].
Qed.

Lemma fc_keeps l l' extra :
  Forall2 keeps l l' -> Forall (fun p => matching p = false) extra ->
  fc_of l <= fc_of (l' ++ extra).
Proof.
  intros H2 He. unfold fc_of. rewrite find_none_extra by exact He.
  induction H2 as [|x y l l' [Hxy Hm] _ IH]; simpl; [lia|].
  rewrite Hxy. destruct (matching x) eqn:E; [|exact IH].
  apply Hm. reflexivity.
Qed.

Lemma down_keeps l l' extra :
  Forall2 keeps l l' -> Forall (fun p => matching p = false) extra ->
  Forall down l -> Forall down (l' ++ extra).
Proof.
  intros H2 He Hd. apply Forall_app. split.
  - induction H2 as [|x y l l' [Hxy Hm] _ IH]; [constructor|].
    inversion Hd; subst. constructor; [|auto].
    intros Hy. rewrite Hxy in Hy. destruct (Hm Hy) as [Hfc Hact].
    destruct (H1 Hy) as [Hin H3]. split; [auto | lia].
  - eapply Forall_impl; [exact He|]. intros p Hp Hp'. congruence.
Qed.

Lemma find_update_first g l :
  (forall x, matching (g x) = matching x) ->
  List.find matching (update_first matching g l) =
  option_map g (List.find matching l).
Proof.
  intros Hg. induction l as [|x l IH]; simpl; [reflexivity|].
  destruct (matching x) eqn:E; simpl.
  - rewrite Hg, E. reflexivity.
  - rewrite E. exact IH.
Qed.

Lemma unique_has_entry l :
  length (List.filter matching l) = 1%nat ->
  exists e, List.find matching l = Some e.
Proof.
  induction l as [|x l IH]; simpl; [discriminate|].
  destruct (matching x); [eauto | exact IH].
Qed.

Lemma unique_is_entry l e p :
  length (List.filter matching l) = 1%nat ->
  List.find matching l = Some e ->
  In p l -> matching p = true -> p = e.
Proof.
  induction l as [|x l IH]; simpl; [discriminate|].
  destruct (matching x) eqn:E; simpl.
  - intros Hlen [= ->] [->|Hin] Hp; [reflexivity|].
    assert (In p (List.filter matching l)) as Hf by (apply filter_In; auto).
    destruct (List.filter matching l); [destruct Hf | discriminate].
  - intros Hlen He [->|Hin] Hp; [congruence | auto].
Qed.

Lemma failure_step c s :
  is_failure_of h n c = true ->
  length (List.filter matching (proxies s)) = 1%nat ->
  fc_of (proxies (step c s).1) = fc_of (proxies s) + 1.
Proof.
  destruct c as [now|h' pt|h' pt|h' pt|parsed]; simpl; try discriminate.
  intros Hf Hu. rewrite (same_endpoint_is_matching _ _ Hf).
  unfold fc_of. rewrite find_update_first by reflexivity.
  destruct (unique_has_entry _ Hu) as [e ->]. reflexivity.
Qed.

Lemma failures_accumulate cs s :
  quiet cs -> unique_endpoint h n s ->
  unique_endpoint h n (run cs s).1 /\
  fc_of (proxies s) + failures cs <= fc_of (proxies (run cs s).1).
Proof.
  unfold unique_endpoint, Proxy.failures. fold (Proxy.matching h n).
  revert s. induction cs as [|c cs IH]; intros s Hq Hu.
  - simpl. split; [exact Hu | lia].
  - inversion Hq as [|? ? Hc Hcs]; subst. rewrite run_cons. cbn [fst].
    destruct (quiet_step c s Hc) as (l' & extra & Hp & H2 & He).
    assert (length (List.filter matching (proxies (step c s).1)) = 1%nat) as Hu'.
    { rewrite Hp, (filter_keeps _ _ _ H2 He). exact Hu. }
    destruct (IH _ Hcs Hu') as [IHu IHf]. split; [exact IHu|].
    assert (fc_of (proxies s) + (if is_failure_of h n c then 1 else 0)
            <= fc_of (proxies (step c s).1)) as Hstep.
    { destruct (is_failure_of h n c) eqn:Ef.
      - rewrite (failure_step c s Ef Hu). lia.
      - rewrite Hp. pose proof (fc_keeps _ _ _ H2 He). lia. }
    simpl List.filter. destruct (is_failure_of h n c); simpl length; lia.
Qed.

Lemma getNextProxy_active now s p :
  (getNextProxy now s).1 = Some p ->
  exists q, In q (proxies s) /\ isActive q = true /\ p = touch now q.
Proof.
  unfold getNextProxy.
  destruct (List.filter isActive (proxies s)) as [|first rest] eqn:E.
  - discriminate.
  - assert (forall q, In q (first :: rest) -> In q (proxies s) /\ isActive q = true)
      as Hact by (intros q Hq; rewrite <- E in Hq; apply filter_In in Hq; exact Hq).
    set (n' := length (first :: rest)).
    destruct (List.find _ (seq 0 n')) as [i|].
    + destruct ((first :: rest) !! _) as [proxy|] eqn:El; [|discriminate].
      simpl. intros [= <-]. exists proxy.
      apply list_elem_of_lookup_2, list_elem_of_In, Hact in El. tauto.
    + simpl. intros [= <-]. exists first.
      destruct (Hact first (or_introl eq_refl)). tauto.
Qed.

Lemma down_stays cs s :
  quiet cs -> Forall down (proxies s) ->
  Forall down (proxies (run cs s).1) /\
  forall p, In (Some p) (run cs s).2 -> matching p = false.
Proof.
  revert s. induction cs as [|c cs IH]; intros s Hq Hd.
  - simpl. split; [exact Hd | tauto].
  - inversion Hq as [|? ? Hc Hcs]; subst. rewrite run_cons. cbn [fst snd].
    destruct (quiet_step c s Hc) as (l' & extra & Hp & H2 & He).
    assert (Forall down (proxies (step c s).1)) as Hd'
        by (rewrite Hp; eapply down_keeps; eauto).
    destruct (IH _ Hcs Hd') as [IHd IHo]. split; [exact IHd|].
    intros p Hin. apply in_app_or in Hin as [Hin|Hin]; [|auto].
    destruct c as [now|h' pt|h' pt|h' pt|parsed]; simpl in Hin; try tauto.
    destruct (getNextProxy now s) as [r s'] eqn:E. simpl in Hin.
    destruct Hin as [->|[]].
    assert ((getNextProxy now s).1 = Some p) as Hr by (rewrite E; reflexivity).
    apply getNextProxy_active in Hr as (q & Hq1 & Hq2 & ->).
    change (matching (touch now q)) with (matching q).
    destruct (matching q) eqn:Em; [|reflexivity].
    rewrite Forall_forall in Hd. apply list_elem_of_In in Hq1.
    destruct (Hd q Hq1 Em). congruence.
Qed.

(** *** Out of service until restored *)

Lemma keeps_stays_off x y : keeps x y -> Proxy.stays_off h n x y.
Proof. intros [Hm Hk]. split; [exact Hm|]. intros Hx. apply Hk, Hx. Qed.

Lemma unrestored_step c s :
  restores h n c = false ->
  exists l' extra,
    proxies (step c s).1 = l' ++ extra /\
    Forall2 (Proxy.stays_off h n) (proxies s) l' /\
    Forall (fun p => matching p = false) extra.
Proof.
  intros Hr.
  assert (revives h n c = false -> exists l' extra,
            proxies (step c s).1 = l' ++ extra /\
            Forall2 (Proxy.stays_off h n) (proxies s) l' /\
            Forall (fun p => matching p = false) extra) as Hquiet.
  { intros Hq. destruct (quiet_step c s Hq) as (l' & extra & Hp & H2 & He).
    exists l', extra. split; [exact Hp|]. split; [|exact He].
    eapply Forall2_impl; [exact H2|]. intros x y. apply keeps_stays_off. }
  destruct c as [now|h' pt|h' pt|h' pt|parsed];
    try (apply Hquiet; first [reflexivity | exact Hr]).
  simpl. eexists; exists []; rewrite app_nil_r; split; [reflexivity|].
  split; [|constructor].
  apply update_first_pointwise.
  - split; [reflexivity | auto].
  - intros x _. split; [reflexivity|]. intros _ Hoff. exact Hoff.
Qed.

Lemma filter_stays l l' extra :
  Forall2 (Proxy.stays_off h n) l l' -> Forall (fun p => matching p = false) extra ->
  length (List.filter matching (l' ++ extra)) = length (List.filter matching l).
Proof.
  intros H2 He. rewrite List.filter_app, length_app.
  replace (List.filter matching extra) with (@nil ProxyConfig).
  - simpl. rewrite Nat.add_0_r.
    induction H2 as [|x y l l' [Hxy _] _ IH]; simpl; [reflexivity|].
    rewrite Hxy. destruct (matching x); simpl; congruence.
  - induction He as [|x extra Hx _ IH]; simpl; [reflexivity|]. rewrite Hx. exact IH.
Qed.

Lemma off_stays_step l l' extra :
  Forall2 (Proxy.stays_off h n) l l' -> Forall (fun p => matching p = false) extra ->
  Forall (Proxy.off h n) l -> Forall (Proxy.off h n) (l' ++ extra).
Proof.
  intros H2 He Hd. apply Forall_app. split.
  - induction H2 as [|x y l l' [Hxy Hm] _ IH]; [constructor|].
    inversion Hd; subst. constructor; [|auto].
    intros Hy. rewrite Hxy in Hy. apply (Hm Hy). auto.
  - eapply Forall_impl; [exact He|]. intros p Hp Hp'. congruence.
Qed.

(** As long as the endpoint is neither reset nor re-added, its entry
    stays out of service and [getNextProxy] never returns it, whatever
    successes and failures are reported. *)
Lemma off_stays cs s :
  Proxy.unrestored h n cs -> Forall (Proxy.off h n) (proxies s) ->
  length (List.filter matching (proxies s)) = 1%nat ->
  Forall (Proxy.off h n) (proxies (run cs s).1) /\
  length (List.filter matching (proxies (run cs s).1)) = 1%nat /\
  forall p, In (Some p) (run cs s).2 -> matching p = false.
Proof.
  revert s. induction cs as [|c cs IH]; intros s Hq Hd Hu.
  - simpl. split; [exact Hd|]. split; [exact Hu | tauto].
  - inversion Hq as [|? ? Hc Hcs]; subst. rewrite run_cons. cbn [fst snd].
    destruct (unrestored_step c s Hc) as (l' & extra & Hp & H2 & He).
    assert (Forall (Proxy.off h n) (proxies (step c s).1)) as Hd'
        by (rewrite Hp; eapply off_stays_step; eauto).
    assert (length (List.filter matching (proxies (step c s).1)) = 1%nat) as Hu'
        by (rewrite Hp, (filter_stays _ _ _ H2 He); exact Hu).
    destruct (IH _ Hcs Hd' Hu') as (IHd & IHu & IHo).
    split; [exact IHd|]. split; [exact IHu|].
    intros p Hin. apply in_app_or in Hin as [Hin|Hin]; [|auto].
    destruct c as [now|h' pt|h' pt|h' pt|parsed]; simpl in Hin; try tauto.
    destruct (getNextProxy now s) as [r s'] eqn:E. simpl in Hin.
    destruct Hin as [->|[]].
    assert ((getNextProxy now s).1 = Some p) as Hr by (rewrite E; reflexivity).
    apply getNextProxy_active in Hr as (q & Hq1 & Hq2 & ->).
    change (matching (touch now q)) with (matching q).
    destruct (matching q) eqn:Em; [|reflexivity].
    rewrite Forall_forall in Hd. apply list_elem_of_In in Hq1.
    pose proof (Hd q Hq1 Em). congruence.
Qed.

Lemma reset_reactivates l :
  length (List.filter matching l) = 1%nat ->
  Forall (fun p => matching p = true -> isActive p = true /\ failCount p = 0)
         (update_first matching reactivate l).
Proof.
  induction l as [|x l IH]; simpl; [discriminate|].
  destruct (matching x) eqn:E; simpl.
  - intros Hlen. constructor; [simpl; auto|].
    apply Forall_forall. intros p Hp Hm. apply list_elem_of_In in Hp.
    assert (In p (List.filter matching l)) as Hf by (apply filter_In; auto).
    destruct (List.filter matching l); [destruct Hf | discriminate].
  - intros Hlen. constructor; [congruence | auto].
Qed.

End Endpoint.

(** C4 (amended).  Take a pool that satisfies the invariant and in which
    exactly one entry has host [h] and numeric port [n].  After calls that
    report at least three failures of [h:n] and never a success, a reset or
    a re-addition of it, the entry is inactive with [failCount >= 3].  From
    then on, whatever successes and failures are reported for it, it stays
    inactive and is the result of no [getNextProxy], as long as it is
    neither reset nor added again; the invariant
    [failCount >= 3 -> isActive = false] holds throughout; and
    [resetProxy h n] makes the entry active again with [failCount = 0]. *)
Theorem failed_endpoint_excluded_until_reset
    (h : string) (n : Z) (s : ProxyService) (cs1 cs2 : list call) :
  wf s ->
  unique_endpoint h n s ->
  quiet h n cs1 ->
  3 <= failures h n cs1 ->
  unrestored h n cs2 ->
  let s1 := (run cs1 s).1 in
  let s2 := (run cs2 s1).1 in
  (exists p, In p (proxies s1) /\ matching h n p = true) /\
  (forall p, In p (proxies s1) -> matching h n p = true ->
             isActive p = false /\ 3 <= failCount p) /\
  (forall p, In (Some p) (run cs2 s1).2 -> matching h n p = false) /\
  (forall p, In p (proxies s2) -> matching h n p = true -> isActive p = false) /\
  wf s1 /\ wf s2 /\
  (exists p, In p (proxies (resetProxy h (Js.Num n) s2)) /\ matching h n p = true) /\
  (forall p, In p (proxies (resetProxy h (Js.Num n) s2)) -> matching h n p = true ->
             isActive p = true /\ failCount p = 0).
Proof.
  intros Hwf Hu Hq1 Hf Hq2 s1 s2.
  destruct (failures_accumulate h n cs1 s Hq1 Hu) as [Hu1 Hfc].
  fold s1 in Hu1, Hfc.
  pose proof (wf_run cs1 s Hwf) as Hwf1. fold s1 in Hwf1.
  destruct (unique_has_entry h n _ Hu1) as [e He].
  assert (In e (proxies s1) /\ matching h n e = true) as [Hin Hm]
      by (apply find_some in He; exact He).
  assert (0 <= fc_of h n (proxies s)) as Hge.
  { unfold fc_of. destruct (List.find _ (proxies s)) as [q|] eqn:Eq; [|lia].
    apply find_some in Eq as [Eq _]. unfold wf in Hwf. rewrite Forall_forall in Hwf.
    apply list_elem_of_In, Hwf in Eq. apply Eq. }
  assert (3 <= failCount e) as H3.
  { unfold fc_of, failures in *. rewrite He in Hfc. lia. }
  assert (isActive e = false) as Hoff.
  { unfold wf in Hwf1. rewrite Forall_forall in Hwf1.
    apply list_elem_of_In, Hwf1 in Hin. apply Hin, H3. }
  assert (Forall (off h n) (proxies s1)) as Hd.
  { apply Forall_forall. intros p Hp Hpm. apply list_elem_of_In in Hp.
    rewrite (unique_is_entry h n _ e p Hu1 He Hp Hpm). exact Hoff. }
  destruct (off_stays h n cs2 s1 Hq2 Hd Hu1) as (Hd2 & Hu2 & Hout).
  fold s2 in Hd2, Hu2.
  pose proof (reset_reactivates h n _ Hu2) as Hr. rewrite Forall_forall in Hr.
  split; [eauto|]. split.
  { intros p Hp Hpm. rewrite (unique_is_entry h n _ e p Hu1 He Hp Hpm). auto. }
  split; [exact Hout|]. split.
  { intros p Hp Hpm. rewrite Forall_forall in Hd2.
    apply (Hd2 p); [apply list_elem_of_In, Hp | exact Hpm]. }
  split; [exact Hwf1|].
  split; [apply wf_run, Hwf1|]. split.
  - destruct (unique_has_entry h n _ Hu2) as [e2 He2].
    exists (reactivate e2). simpl.
    pose proof (find_update_first h n reactivate (proxies s2) (fun x => eq_refl)) as Hfu.
    rewrite He2 in Hfu. simpl in Hfu. apply find_some in Hfu. exact Hfu.
  - intros p Hp Hpm. apply (Hr p); [apply list_elem_of_In, Hp | exact Hpm].
Qed.

Lemma failed_endpoint_excluded_until_reset_witness :
  let h := "10.0.0.1" in
  let n := 8080 in
  let s := ProxyExamples.two_hosts in
  let cs1 := [Failed h (Js.Num n); GetNext 1; Failed h (Js.Num n);
              Failed "10.0.0.2" (Js.Num 8080); Failed h (Js.Num n)] in
  let cs2 := [GetNext 2; Success h (Js.Num n); GetNext 3;
              Reset "10.0.0.2" (Js.Num 8080); GetNext 4] in
  let s1 := (run cs1 s).1 in
  let s2 := (run cs2 s1).1 in
  (wf s /\ unique_endpoint h n s /\ quiet h n cs1 /\ 3 <= failures h n cs1 /\
   unrestored h n cs2) /\
  (exists p, In p (proxies s1) /\ matching h n p = true) /\
  (forall p, In p (proxies s1) -> matching h n p = true ->
             isActive p = false /\ 3 <= failCount p) /\
  (forall p, In (Some p) (run cs2 s1).2 -> matching h n p = false) /\
  (forall p, In p (proxies s2) -> matching h n p = true -> isActive p = false) /\
  wf s1 /\ wf s2 /\
  (exists p, In p (proxies (resetProxy h (Js.Num n) s2)) /\ matching h n p = true) /\
  (forall p, In p (proxies (resetProxy h (Js.Num n) s2)) -> matching h n p = true ->
             isActive p = true /\ failCount p = 0).
Proof.
  intros h n s cs1 cs2 s1 s2.
  assert (wf s) as H1 by apply wf_loadProxies.
  assert (unique_endpoint h n s) as H2 by reflexivity.
  assert (quiet h n cs1) as H3 by (repeat constructor).
  assert (3 <= failures h n cs1) as H4 by (vm_compute; discriminate).
  assert (unrestored h n cs2) as H5 by (repeat constructor).
  split; [tauto|].
  exact (failed_endpoint_excluded_until_reset h n s cs1 cs2 H1 H2 H3 H4 H5).
Defined.

(** What the pool does when two entries share a host and port: the
    failures all land on the first entry, and the second one, still
    active, is served next. *)
Lemma one_gateway_second_account_served :
  let s1 := (run (ProxyExamples.three_failures "gw.example" (Js.Num 8000))
                 ProxyExamples.one_gateway).1 in
  exists p, (getNextProxy 0 s1).1 = Some p /\
            host p = "gw.example" /\ port p = Js.Num 8000 /\
            username p = Some "bob" /\ isActive p = true.
Proof.
  intros s1. eexists. split; [vm_compute; reflexivity|].
  vm_compute. repeat split.
Qed.

(** C4 (as stated, refuted).  Without the uniqueness of the host and
    port, three failures do not keep the endpoint out of the results. *)
Lemma duplicate_endpoint_not_excluded :
  ~ (forall (h : string) (n : Z) (s : ProxyService) (cs1 cs2 : list call),
        wf s ->
        (exists p, In p (proxies s) /\ matching h n p = true) ->
        quiet h n cs1 -> 3 <= failures h n cs1 -> quiet h n cs2 ->
        forall p, In (Some p) (run cs2 (run cs1 s).1).2 -> matching h n p = false).
Proof.
  intros H.
  destruct one_gateway_second_account_served as (p & Hp & Hh & Hpt & _ & _).
  specialize (H "gw.example" 8000 ProxyExamples.one_gateway
                (ProxyExamples.three_failures "gw.example" (Js.Num 8000))
                [GetNext 0]).
  assert (matching "gw.example" 8000 p = false) as Hno.
  { apply H.
    - apply wf_loadProxies.
    - eexists. split; [left; reflexivity | reflexivity].
    - repeat constructor.
    - vm_compute. discriminate.
    - repeat constructor.
    - rewrite run_cons. cbn [run fst snd step]. 
      destruct (getNextProxy 0 _) as [r s'] eqn:E. simpl in *. left.
      rewrite <- Hp. reflexivity. }
  unfold matching, same_endpoint in Hno. rewrite Hh, Hpt in Hno.
  vm_compute in Hno. discriminate.
Qed.

(** An endpoint on its scheme's default port has port [NaN], which no
    [===] finds: failures reported for it are dropped and it stays active. *)
Lemma default_port_never_disabled :
  let s := ProxyExamples.default_port in
  exists p, proxies s = [p] /\ port p = Js.NaN /\
    proxies (markProxyFailed p (markProxyFailed p (markProxyFailed p s))) = [p] /\
    isActive p = true /\ failCount p = 0.
Proof.
  intros s. eexists. split; [vm_compute; reflexivity|].
  vm_compute. repeat split.
Qed.

End ProxyFacts.

Module RateLimiterFacts.

Import RateLimiter.

(** A 429 starts a five-minute cooldown. *)
Lemma reportError_429 w :
  let w' := reportError (Some 429) w in
  isInCooldown (limiter w') = true /\
  cooldownUntil (limiter w') = clock w + 300000 /\ clock w' = clock w.
Proof. simpl. auto. Qed.

(** A 401 or 403 starts a one-minute cooldown. *)
Lemma reportError_auth w status :
  status = 401 \/ status = 403 ->
  let w' := reportError (Some status) w in
  isInCooldown (limiter w') = true /\
  cooldownUntil (limiter w') = clock w + 60000 /\ clock w' = clock w.
Proof. intros [-> | ->]; simpl; auto. Qed.

Lemma sleep_clock ms w : clock w <= clock (sleep ms w).
Proof. simpl. lia. Qed.

Lemma enforceRateLimits_clock cfg w : clock w <= clock (enforceRateLimits cfg w).
Proof.
  unfold enforceRateLimits.
  repeat match goal with
         | |- context [if ?b then _ else _] => destruct b
         end; simpl; lia.
Qed.


Lemma wait_cooldown_spec w :
  isInCooldown (limiter w) = true ->
  cooldownUntil (limiter w) <= clock (wait_cooldown w) /\
  clock w <= clock (wait_cooldown w).
Proof.
  intros Hc. unfold wait_cooldown. rewrite Hc. simpl.
  destruct (clock w <? cooldownUntil (limiter w)) eqn:E; simpl; lia.
Qed.

(** An admission request made during a cooldown is recorded no earlier
    than the end of that cooldown. *)
Lemma waitBeforeRequest_waits_out cfg delay w :
  isInCooldown (limiter w) = true ->
  let w' := waitBeforeRequest cfg delay w in
  cooldownUntil (limiter w) <= clock w' /\
  exists t, last (requestTimestamps (limiter w')) = Some t /\
            cooldownUntil (limiter w) <= t.
Proof.
  intros Hc w'. destruct (wait_cooldown_spec w Hc) as [H1 _].
  pose proof (enforceRateLimits_clock cfg (wait_cooldown w)) as H2.
  pose proof (sleep_clock delay (enforceRateLimits cfg (wait_cooldown w))) as H3.
  subst w'. unfold waitBeforeRequest.
  set (w3 := sleep delay _) in *.
  split; [simpl; lia|].
  exists (clock w3). split; [|lia].
  simpl. apply last_snoc.
Qed.

(** C6 (the code at the failing input).  Reporting a 401 or a 403 starts
    the one-minute cooldown but sends nothing to the session cache: a
    cached session stays cached, where [invalidateSession] would have
    cleared it. *)
Theorem auth_error_keeps_cached_session :
  let sv := {| timed := {| clock := 1000;
                          limiter := {| requestTimestamps := [];
                                        sessionRequestCount := 0;
                                        sessionStartTime := 0;
                                        consecutiveErrors := 0;
                                        isInCooldown := false;
                                        cooldownUntil := 0 |} |};
               auth := {| Session.cachedSessionId := Some "sessionid-1";
                          Session.lastLoginAttempt := None |} |} in
  Forall (fun status =>
            let sv' := on_limiter (reportError (Some status)) sv in
            isInCooldown (limiter (timed sv')) = true /\
            cooldownUntil (limiter (timed sv')) = 61000 /\
            Session.hasSession (auth sv') = true /\
            Session.hasSession (Session.invalidateSession (auth sv)) = false)
         [401; 403].
Proof.
  intros sv. repeat constructor.
Qed.

End RateLimiterFacts.

Module HashtagFacts.

Import Eff Hashtag.

(** *** Accumulation keeps the result set distinct and within the limit *)

Lemma has_shortcode_false posts sc :
  has_shortcode posts sc = false -> sc ∉ shortcode <$> posts.
Proof.
  unfold has_shortcode. intros H Hin.
  apply list_elem_of_fmap in Hin as (p & -> & Hp).
  assert (existsb (fun q => bool_decide (shortcode q = shortcode p)) posts = true) as Ht.
  { apply existsb_exists. exists p. split; [apply list_elem_of_In, Hp|].
    apply bool_decide_eq_true. reflexivity. }
  congruence.
Qed.

Lemma good_nil limit : good limit [].
Proof. split; [constructor | unfold within, count; simpl; lia]. Qed.

Lemma good_push limit posts p :
  good limit posts ->
  Js.at_least (count posts) limit = false ->
  has_shortcode posts (shortcode p) = false ->
  good limit (posts ++ [p]).
Proof.
  intros [Hd Hw] Hl Hs. rewrite JsFacts.at_least_ceil in Hl.
  apply Z.leb_gt in Hl. split.
  - unfold distinct in *. rewrite fmap_app. apply NoDup_app. split; [exact Hd|].
    split; [|simpl; apply NoDup_singleton].
    intros x Hx Hx'. simpl in Hx'. apply list_elem_of_singleton in Hx'. subst x.
    exact (has_shortcode_false _ _ Hs Hx).
  - unfold within, count in *. rewrite length_app. simpl. lia.
Qed.

Lemma add_edges_good limit edges posts :
  good limit posts -> good limit (add_edges edges posts limit).
Proof.
  revert posts. induction edges as [|e edges IH]; intros posts H; simpl; [exact H|].
  destruct (Js.at_least (count posts) limit) eqn:El; [exact H|].
  destruct (parseGraphQLPost e) as [post|]; [|auto].
  destruct (has_shortcode posts (shortcode post)) eqn:Es; [auto|].
  apply IH, good_push; auto.
Qed.

Lemma processCapturedResponses_good limit responses posts :
  good limit posts -> good limit (processCapturedResponses responses posts limit).
Proof.
  revert posts. induction responses as [|r rs IH]; intros posts H; simpl; [exact H|].
  destruct (Js.at_least (count posts) limit); [exact H|].
  destruct (tagData_of r); [|auto].
  apply IH, add_edges_good, H.
Qed.

Lemma handle_responses_good limit responses posts :
  good limit posts -> good limit (handle_responses responses posts limit).
Proof.
  unfold handle_responses. revert posts.
  induction responses as [|r rs IH]; intros posts H; simpl; [exact H|].
  apply IH. apply (processCapturedResponses_good limit [r]), H.
Qed.

Lemma extract_matches_good limit matches posts :
  good limit posts -> good limit (extract_matches matches posts limit).
Proof.
  revert posts. induction matches as [|sc ms IH]; intros posts H; simpl; [exact H|].
  destruct (plausible sc && negb (has_shortcode posts (Some sc))) eqn:E; [|auto].
  destruct (Js.at_least (count posts) limit) eqn:El; [exact H|].
  apply andb_true_iff in E as [_ E]. apply negb_true_iff in E.
  apply IH, good_push; auto.
Qed.

Lemma extractFromHtml_good limit html posts :
  good limit posts -> good limit (extractFromHtml html posts limit).
Proof.
  intros H. unfold extractFromHtml.
  pose proof (extract_matches_good limit (shortcode_matches html) posts H) as H1.
  destruct (Js.at_least (count _) limit); [exact H1|].
  apply extract_matches_good, H1.
Qed.

Lemma slice_from_start {A} (l : list A) (limit : Z) :
  Js.slice l 0 limit =
  take (Z.to_nat (Js.clamp_index (Z.of_nat (length l)) limit)) l.
Proof.
  unfold Js.slice.
  assert (Js.clamp_index (Z.of_nat (length l)) 0 = 0) as ->.
  { unfold Js.clamp_index. change (0 <? 0) with false. cbv iota. lia. }
  rewrite Z.sub_0_r. reflexivity.
Qed.

Lemma slice_good limit posts :
  good limit posts -> good limit (Js.slice posts 0 (Js.trunc limit)).
Proof.
  intros [Hd Hw]. rewrite slice_from_start. split.
  - unfold distinct in *. rewrite fmap_take.
    eapply sublist_NoDup; [exact Hd | apply sublist_take].
  - unfold within, count in *. rewrite length_take. lia.
Qed.

(** For a non-negative limit the slice alone enforces the bound. *)
Lemma slice_count limit (posts : list PostData) :
  0 <= limit -> count (Js.slice posts 0 limit) <= limit.
Proof.
  intros H. rewrite slice_from_start. unfold Js.clamp_index, count.
  rewrite length_take.
  destruct (limit <? 0) eqn:E; [apply Z.ltb_lt in E; lia|]. lia.
Qed.

Lemma paginate_good d limit fuel pageCount hasNext cursor posts :
  good limit posts ->
  good limit (paginate d limit fuel pageCount hasNext cursor posts).
Proof.
  revert pageCount hasNext cursor posts.
  induction fuel as [|fuel IH]; intros pageCount hasNext cursor posts H; simpl;
    [exact H|].
  destruct (Js.below (count posts) limit && hasNext); [|exact H].
  match goal with
  | |- good _ (match ?x with _ => _ end) => destruct x as [page|]; [|exact H]
  end.
  pose proof (add_edges_good limit (edges page) posts H) as H1.
  destruct (negb _ || negb _); [exact H1 | apply IH, H1].
Qed.

Lemma scroll_loop_good scroll limit fuel scrollCount noNew posts result :
  good limit posts ->
  scroll_loop scroll limit fuel scrollCount noNew posts = Ok result ->
  good limit result.
Proof.
  revert scrollCount noNew posts.
  induction fuel as [|fuel IH]; intros scrollCount noNew posts H; simpl.
  - intros [= <-]. exact H.
  - destruct (Js.below (count posts) limit); [|intros [= <-]; exact H].
    destruct (scroll scrollCount) as [html|msg]; [|discriminate].
    pose proof (extractFromHtml_good limit html posts H) as H1.
    destruct (5 <=? _); [intros [= <-]; exact H1|].
    apply IH, H1.
Qed.

Lemma live_loop_good scroll limit fuel scrollCount lastCount noNew captured posts :
  good limit posts ->
  good limit (live_loop scroll limit fuel scrollCount lastCount noNew captured posts).2.
Proof.
  revert scrollCount lastCount noNew captured posts.
  induction fuel as [|fuel IH]; intros scrollCount lastCount noNew captured posts H;
    simpl; [exact H|].
  destruct (Js.below (count posts) limit); [|exact H].
  destruct (scroll scrollCount) as [responses markup].
  pose proof (handle_responses_good limit responses posts H) as H1.
  destruct markup as [html|]; [|exact H1].
  pose proof (extractFromHtml_good limit html _ H1) as H2.
  destruct (5 <=? _); [exact H2 | apply IH, H2].
Qed.

Lemma add_medias_good limit medias posts :
  good limit posts -> good limit (add_medias medias posts limit).1.
Proof.
  revert posts. induction medias as [|[media|] ms IH]; intros posts H; simpl;
    [exact H | | exact H].
  destruct (Js.at_least (count posts) limit) eqn:El; [exact H|].
  destruct (Js.truthy (media_code media) && negb _) eqn:E; [|auto].
  apply andb_true_iff in E as [_ E]. apply negb_true_iff in E.
  apply IH, good_push; auto.
Qed.

Lemma add_sections_good limit sections posts :
  good limit posts -> good limit (add_sections sections posts limit).
Proof.
  revert posts. induction sections as [|[medias|] ss IH]; intros posts H; simpl;
    [exact H | | exact H].
  pose proof (add_medias_good limit medias posts H) as H1.
  destruct (add_medias medias posts limit) as [posts' [|]]; [exact H1 | apply IH, H1].
Qed.

(** *** Every strategy returns a good result set *)

Lemma scrapeWithPagination_good d limit r :
  scrapeWithPagination d limit = Ok r -> good limit (posts r).
Proof.
  unfold scrapeWithPagination.
  set (collected := match initial_page d with Some _ => _ | None => _ end).
  assert (good limit collected) as H.
  { subst collected. destruct (initial_page d) as [[html info]|]; [|apply good_nil].
    apply paginate_good, extractFromHtml_good, good_nil. }
  destruct (Js.below (count collected) limit && (count collected <=? 15)).
  - unfold scrollFallback.
    destruct (scroll_loop _ _ _ _ _ _) as [scrolled|msg] eqn:E; [|discriminate].
    intros [= <-]. simpl. eapply slice_good, scroll_loop_good; eauto.
  - intros [= <-]. simpl. apply slice_good, H.
Qed.

Lemma scrapeViaLiveInterception_good d limit :
  good limit (posts (scrapeViaLiveInterception d limit)).
Proof.
  unfold scrapeViaLiveInterception.
  pose proof (handle_responses_good limit (navigation_responses d) [] (good_nil limit))
    as H0.
  destruct (first_markup d) as [html|].
  - pose proof (extractFromHtml_good limit html _ H0) as H1.
    pose proof (live_loop_good (live_scroll d) limit
                  (Z.to_nat (Z.max 25 (Js.ceil (limit / 10) + 5))) 0
                  (count (extractFromHtml html
                            (handle_responses (navigation_responses d) [] limit) limit))
                  0 (navigation_responses d) _ H1) as H2.
    destruct (live_loop _ _ _ _ _ _ _ _) as [captured collected]. simpl in *.
    apply slice_good, processCapturedResponses_good, H2.
  - simpl. apply slice_good, processCapturedResponses_good, H0.
Qed.

Lemma scrapeViaDocIdGraphQL_good fetch limit :
  good limit (posts (scrapeViaDocIdGraphQL fetch limit)).
Proof.
  unfold scrapeViaDocIdGraphQL. cbn [posts].
  destruct (fetch _) as [response|]; [|apply good_nil].
  destruct (data_hashtag response); [|apply good_nil].
  apply (processCapturedResponses_good limit [response]), good_nil.
Qed.

Lemma scrapeViaWebInfoEndpoint_good answer limit :
  good limit (posts (scrapeViaWebInfoEndpoint answer limit)).
Proof.
  unfold scrapeViaWebInfoEndpoint. cbn [posts].
  destruct answer as [data|]; [|apply good_nil].
  destruct (has_hashtag data); [|apply good_nil].
  apply add_sections_good, good_nil.
Qed.

(** *** The chain, unfolded *)

Lemma scrapeHashtag_rejected d h limit log msg :
  sanitizeHashtag h = Throw msg ->
  scrapeHashtag d h limit log = (Throw msg, log ++ [Rejected h]).
Proof.
  intros Hs. unfold scrapeHashtag, bind, try_catch, lift, emit, modify, throw.
  rewrite Hs. reflexivity.
Qed.

Lemma scrapeHashtag_thrown d h limit log tag msg :
  sanitizeHashtag h = Ok tag ->
  scrapeWithPagination (pagination d) limit = Throw msg ->
  scrapeHashtag d h limit log = (Throw msg, log ++ [Started tag limit; Invoked 1]).
Proof.
  intros Hs H1. unfold scrapeHashtag, bind, try_catch, lift, emit, modify, throw.
  rewrite Hs, H1. rewrite <- app_assoc. reflexivity.
Qed.

Lemma scrapeHashtag_run d h limit log tag r1 :
  sanitizeHashtag h = Ok tag ->
  scrapeWithPagination (pagination d) limit = Ok r1 ->
  let r2 := scrapeViaLiveInterception (live d) limit in
  let r3 := scrapeViaDocIdGraphQL (docid_fetch d) limit in
  let r4 := scrapeViaWebInfoEndpoint (web_info d) limit in
  scrapeHashtag d h limit log =
  if reaches_70_percent (posts r1) limit then
    (Ok r1, log ++ [Started tag limit; Invoked 1; Succeeded 1 (length (posts r1))])
  else if nonempty (posts r2) then
    (Ok r2, log ++ [Started tag limit; Invoked 1; Invoked 2;
                    Succeeded 2 (length (posts r2))])
  else if nonempty (posts r3) then
    (Ok r3, log ++ [Started tag limit; Invoked 1; Invoked 2; Invoked 3;
                    Succeeded 3 (length (posts r3))])
  else if nonempty (posts r4) then
    (Ok r4, log ++ [Started tag limit; Invoked 1; Invoked 2; Invoked 3; Invoked 4;
                    Succeeded 4 (length (posts r4))])
  else
    (Ok empty_result,
     log ++ [Started tag limit; Invoked 1; Invoked 2; Invoked 3; Invoked 4;
             Exhausted tag]).
Proof.
  intros Hs H1 r2 r3 r4.
  unfold scrapeHashtag, bind, try_catch, lift, emit, modify, throw, ret.
  rewrite Hs, H1. fold r2 r3 r4.
  destruct (reaches_70_percent (posts r1) limit);
    [repeat rewrite <- app_assoc; reflexivity|].
  destruct (nonempty (posts r2)); [repeat rewrite <- app_assoc; reflexivity|].
  destruct (nonempty (posts r3)); [repeat rewrite <- app_assoc; reflexivity|].
  destruct (nonempty (posts r4)); repeat rewrite <- app_assoc; reflexivity.
Qed.

(** Whatever the chain returns is a good result set. *)
Lemma scrapeHashtag_good d h limit log r log' :
  scrapeHashtag d h limit log = (Ok r, log') -> good limit (posts r).
Proof.
  destruct (sanitizeHashtag h) as [tag|msg] eqn:Hs;
    [|rewrite (scrapeHashtag_rejected _ _ _ _ _ Hs); discriminate].
  destruct (scrapeWithPagination (pagination d) limit) as [r1|msg] eqn:H1;
    [|rewrite (scrapeHashtag_thrown _ _ _ _ _ _ Hs H1); discriminate].
  rewrite (scrapeHashtag_run _ _ _ _ _ _ Hs H1).
  repeat match goal with
         | |- context [if ?b then _ else _] => destruct b
         end; intros [= <- _].
  - eapply scrapeWithPagination_good; eauto.
  - apply scrapeViaLiveInterception_good.
  - apply scrapeViaDocIdGraphQL_good.
  - apply scrapeViaWebInfoEndpoint_good.
  - apply good_nil.
Qed.

Lemma scrapeWithPagination_no_summary d limit r :
  scrapeWithPagination d limit = Ok r -> hashtagData r = None.
Proof.
  unfold scrapeWithPagination.
  destruct (_ && _); [destruct (scrollFallback _ _ _)|]; intros [= <-]; reflexivity.
Qed.

(** When no strategy finds a post, the chain returns the empty result. *)
Lemma scrapeHashtag_exhausted d h limit log tag r1 :
  sanitizeHashtag h = Ok tag ->
  scrapeWithPagination (pagination d) limit = Ok r1 ->
  posts r1 = [] ->
  posts (scrapeViaLiveInterception (live d) limit) = [] ->
  posts (scrapeViaDocIdGraphQL (docid_fetch d) limit) = [] ->
  posts (scrapeViaWebInfoEndpoint (web_info d) limit) = [] ->
  (scrapeHashtag d h limit log).1 = Ok empty_result.
Proof.
  intros Hs H1 E1 E2 E3 E4. rewrite (scrapeHashtag_run d h limit log tag r1 Hs H1).
  rewrite E2, E3, E4. unfold nonempty, count. simpl.
  destruct (reaches_70_percent (posts r1) limit); [|reflexivity].
  simpl. f_equal. pose proof (scrapeWithPagination_no_summary _ _ _ H1) as Hn.
  destruct r1 as [hd ps]. simpl in *. subst. reflexivity.
Qed.

(** What the chain returns does not depend on what was logged before. *)
Lemma scrapeHashtag_log_free d h limit log :
  (scrapeHashtag d h limit log).1 = (scrapeHashtag d h limit []).1.
Proof.
  destruct (sanitizeHashtag h) as [tag|msg] eqn:Hs;
    [|rewrite !(scrapeHashtag_rejected _ _ _ _ _ Hs); reflexivity].
  destruct (scrapeWithPagination (pagination d) limit) as [r1|msg] eqn:H1;
    [|rewrite !(scrapeHashtag_thrown _ _ _ _ _ _ Hs H1); reflexivity].
  rewrite !(scrapeHashtag_run _ _ _ _ _ _ Hs H1).
  repeat match goal with
         | |- context [if ?b then _ else _] => destruct b
         end; reflexivity.
Qed.

(** Whatever the limit, fractions included, the chain returns pairwise
    distinct shortcodes and no more posts than the limit rounded up; for a
    whole limit that is the limit itself. *)
Lemma scrapeHashtag_distinct_and_bounded
    (d : Driver) (hashtag : string) (limit : Q) (log log' : list event) (r : Result) :
  scrapeHashtag d hashtag limit log = (Ok r, log') ->
  NoDup (shortcode <$> posts r) /\
  Z.of_nat (length (posts r)) <= Z.max 0 (Js.ceil limit) /\
  (forall L : Z, 0 <= L -> limit = Js.whole L -> Z.of_nat (length (posts r)) <= L).
Proof.
  intros Hrun. destruct (scrapeHashtag_good _ _ _ _ _ _ Hrun) as [Hd Hw].
  unfold within, count in Hw. split; [exact Hd|]. split; [exact Hw|].
  intros L HL ->. rewrite JsFacts.ceil_whole in Hw. lia.
Qed.

(** The two strategies that end with [posts.slice(0, limit)] stay within
    the limit for a fraction as well: the slice drops the fraction. *)
Lemma sliced_strategies_within_fraction (d : Driver) (limit : Q) (r1 : Result) :
  (0 <= limit)%Q ->
  (scrapeWithPagination (pagination d) limit = Ok r1 ->
   (inject_Z (count (posts r1)) <= limit)%Q) /\
  (inject_Z (count (posts (scrapeViaLiveInterception (live d) limit))) <= limit)%Q.
Proof.
  intros Hpos.
  assert (forall ps : list PostData,
             (inject_Z (count (Js.slice ps 0 (Js.trunc limit))) <= limit)%Q) as Hslice.
  { intros ps. eapply Qle_trans with (y := inject_Z (Js.trunc limit)).
    - rewrite <- Zle_Qle. rewrite slice_from_start. unfold Js.clamp_index, count.
      rewrite length_take.
      assert (0 <= Js.trunc limit) as Ht.
      { unfold Js.trunc. apply Z.quot_pos; [|lia].
        unfold Qle in Hpos. simpl in Hpos. lia. }
      destruct (Js.trunc limit <? 0) eqn:E; [apply Z.ltb_lt in E; lia | lia].
    - unfold Js.trunc. destruct limit as [a b]. unfold Qle in *. simpl in *.
      rewrite Z.quot_div_nonneg by lia.
      pose proof (Z.mul_div_le a (Z.pos b) ltac:(lia)). nia. }
  split.
  - unfold scrapeWithPagination.
    destruct (_ && _).
    + unfold scrollFallback.
      destruct (scroll_loop _ _ _ _ _ _) as [scrolled|msg]; [|discriminate].
      intros [= <-]. apply Hslice.
    + intros [= <-]. apply Hslice.
  - unfold scrapeViaLiveInterception.
    destruct (first_markup (live d)) as [html|].
    + destruct (live_loop _ _ _ _ _ _ _ _) as [captured collected]. apply Hslice.
    + apply Hslice.
Qed.

(** C1.  With the limit 2.5, which the request validation lets through,
    and a browser in which only the doc_id request of strategy 3 is
    answered, [scrapeHashtag] returns three posts: more than the limit.
    Strategy 3 stops at [posts.length >= limit] and returns the array as
    it is. *)
Theorem fractional_limit_is_exceeded :
  let limit := 5 # 2 in
  exists r log,
    scrapeHashtag docid_driver "travel" limit [] = (Ok r, log) /\
    accepted log = Some 3%nat /\
    shortcode <$> posts r = [Some "CxYz123ABC"; Some "DaBc456DEF"; Some "EfGh789GHI"] /\
    ~ (inject_Z (Z.of_nat (length (posts r))) <= limit)%Q.
Proof.
  intros limit. eexists _, _. split; [vm_compute; reflexivity|].
  split; [reflexivity|]. split; [reflexivity|].
  vm_compute. intros H. apply H. reflexivity.
Qed.

(** The same posts met by strategy 2, which slices: two are returned. *)
Lemma sliced_strategy_keeps_fractional_limit :
  let limit := 5 # 2 in
  exists r log,
    scrapeHashtag capture_driver "travel" limit [] = (Ok r, log) /\
    accepted log = Some 2%nat /\
    shortcode <$> posts r = [Some "CxYz123ABC"; Some "DaBc456DEF"].
Proof.
  intros limit. eexists _, _. split; [vm_compute; reflexivity|].
  split; reflexivity.
Qed.



End HashtagFacts.

Module BrowserFacts.

Import Eff Service.

Lemma closeContext_absent contextId closed s :
  activeContexts s !! contextId = None ->
  closeContext contextId closed s = (Ok tt, s).
Proof. intros H. unfold closeContext, bind, get. rewrite H. reflexivity. Qed.

(** A close that throws leaves the state, the registry included, as it
    was, and the error goes to the caller. *)
Lemma closeContext_throws contextId msg s :
  is_Some (activeContexts s !! contextId) ->
  closeContext contextId (Throw msg) s = (Throw msg, s).
Proof. intros [ctx H]. unfold closeContext, bind, get. rewrite H. reflexivity. Qed.

(** After a [closeContext] that returns, the id is not registered,
    whatever was before. *)
Lemma closeContext_removes contextId s :
  activeContexts (closeContext contextId (Ok tt) s).2 !! contextId = None.
Proof.
  unfold closeContext, bind, get.
  destruct (activeContexts s !! contextId) eqn:E; simpl; [|exact E].
  apply lookup_delete_eq.
Qed.

(** A context that could not be opened was never registered. *)
Lemma createContext_failed contextId proxy scripted msg s :
  createContext contextId proxy (Throw msg) scripted s = (Throw msg, s).
Proof. reflexivity. Qed.

(** A context whose scripts could not be installed is open and was never
    registered. *)
Lemma createContext_unscripted contextId proxy msg s :
  createContext contextId proxy (Ok tt) (Throw msg) s
  = (Throw msg, set_browser s (S (browserContexts s))).
Proof. reflexivity. Qed.

(** C10.  [closeContext] on an id that is not registered (never created,
    or closed before) returns without an error and leaves the whole state,
    the set of active contexts included, as it was: no close is attempted,
    so what the browser would answer to one does not matter. *)
Theorem closeContext_unknown_is_noop
    (contextId : string) (closed : res unit) (s : Sys) :
  activeContexts s !! contextId = None ->
  closeContext contextId closed s = (Ok tt, s).
Proof. apply closeContext_absent. Qed.

Lemma closeContext_unknown_is_noop_witness :
  let opened :=
    (createContext "profile_job_1" None (Ok tt) (Ok tt)
       (Logic.boot ProxyExamples.two_hosts)).2 in
  let s := (closeContext "profile_job_1" (Ok tt) opened).2 in
  activeContexts opened !! "profile_job_1" = Some {| server := None |} /\
  activeContexts s !! "profile_job_1" = None /\
  closeContext "profile_job_1" (Throw "Target closed") s = (Ok tt, s).
Proof.
  intros opened s.
  assert (activeContexts s !! "profile_job_1" = None) as H
      by apply closeContext_removes.
  split; [reflexivity|]. split; [exact H|].
  exact (closeContext_unknown_is_noop "profile_job_1" (Throw "Target closed") s H).
Defined.

End BrowserFacts.

Module LogicFacts.

Import Eff Service Logic.

(** *** Rules *)

Section Rules.

Context {S : Type}.

Lemma triple_ret {A} (P : S -> Prop) (a : A) (Q : A -> S -> Prop) E :
  (forall s, P s -> Q a s) -> triple P (ret a) Q E.
Proof. intros H s Hs. simpl. auto. Qed.

Lemma triple_throw {A} (P : S -> Prop) msg (Q : A -> S -> Prop) (E : string -> S -> Prop) :
  (forall s, P s -> E msg s) -> triple P (throw msg) Q E.
Proof. intros H s Hs. simpl. auto. Qed.

Lemma triple_bind {A B} (P : S -> Prop) (m : M S A) (k : A -> M S B)
    (Q1 : A -> S -> Prop) (Q : B -> S -> Prop) (E : string -> S -> Prop) :
  triple P m Q1 E -> (forall a, triple (Q1 a) (k a) Q E) ->
  triple P (bind m k) Q E.
Proof.
  intros Hm Hk s Hs. unfold bind. specialize (Hm s Hs).
  destruct (m s) as [[a|msg] s']; [apply (Hk a s' Hm) | exact Hm].
Qed.

Lemma triple_try_catch {A} (P : S -> Prop) (body : M S A) handler
    (Q : A -> S -> Prop) (E1 E : string -> S -> Prop) :
  triple P body Q E1 -> (forall msg, triple (E1 msg) (handler msg) Q E) ->
  triple P (try_catch body handler) Q E.
Proof.
  intros Hb Hh s Hs. unfold try_catch. specialize (Hb s Hs).
  destruct (body s) as [[a|msg] s']; [exact Hb | apply (Hh msg s' Hb)].
Qed.

Lemma triple_finally {A} (P : S -> Prop) (body : M S A) cleanup
    (Q1 : A -> S -> Prop) (E1 : string -> S -> Prop)
    (Q : A -> S -> Prop) (E : string -> S -> Prop) :
  triple P body Q1 E1 ->
  (forall a, triple (Q1 a) cleanup (fun _ => Q a) E) ->
  (forall msg, triple (E1 msg) cleanup (fun _ => E msg) E) ->
  triple P (finally body cleanup) Q E.
Proof.
  intros Hb Hq He s Hs. unfold finally. specialize (Hb s Hs).
  destruct (body s) as [[a|msg] s'].
  - specialize (Hq a s' Hb). destruct (cleanup s') as [[[]|msg'] s'']; exact Hq.
  - specialize (He msg s' Hb). destruct (cleanup s') as [[[]|msg'] s'']; exact He.
Qed.

Lemma triple_weaken {A} (P P' : S -> Prop) (m : M S A)
    (Q Q' : A -> S -> Prop) (E E' : string -> S -> Prop) :
  triple P' m Q' E' ->
  (forall s, P s -> P' s) -> (forall a s, Q' a s -> Q a s) ->
  (forall msg s, E' msg s -> E msg s) ->
  triple P m Q E.
Proof.
  intros Hm HP HQ HE s Hs. specialize (Hm s (HP s Hs)).
  destruct (m s) as [[a|msg] s']; auto.
Qed.

Variable I : S -> Prop.

Lemma preserves_ret {A} (a : A) : preserves I (ret a).
Proof. apply triple_ret. auto. Qed.

Lemma preserves_throw {A} msg : preserves I (@throw S A msg).
Proof. apply triple_throw. auto. Qed.

Lemma preserves_lift {A} (r : res A) : preserves I (lift r).
Proof. intros s Hs. unfold lift. destruct r; exact Hs. Qed.

Lemma preserves_bind {A B} (m : M S A) (k : A -> M S B) :
  preserves I m -> (forall a, preserves I (k a)) -> preserves I (bind m k).
Proof. intros Hm Hk. eapply triple_bind; [exact Hm | exact Hk]. Qed.

Lemma preserves_try_catch {A} (body : M S A) handler :
  preserves I body -> (forall msg, preserves I (handler msg)) ->
  preserves I (try_catch body handler).
Proof. intros Hb Hh. eapply triple_try_catch; [exact Hb | exact Hh]. Qed.

End Rules.

(** *** Steps of a flow *)

Section Steps.

Context {L : Type}.
Variable I : Sys -> Prop.

Lemma preserves_shared {A} (m : M Sys A) :
  (forall s, I s -> I (m s).2) -> preserves (@on_shared L I) (shared m).
Proof.
  intros Hm [s l] Hs. unfold shared, on_shared in *. simpl in *.
  specialize (Hm s Hs). destruct (m s) as [[a|msg] s']; exact Hm.
Qed.

Lemma preserves_locals : preserves (@on_shared L I) locals.
Proof. intros st Hs. exact Hs. Qed.

Lemma preserves_assign_locals (f : L -> L) :
  preserves (@on_shared L I) (assign_locals f).
Proof. intros [s l] Hs. exact Hs. Qed.

Variable jid : string.
Hypothesis HI : robust jid I.

Lemma preserves_acquireToken : preserves (@on_shared L I) (shared acquireToken).
Proof. apply preserves_shared. auto. Qed.

Lemma preserves_getNextProxy now :
  preserves (@on_shared L I) (shared (getNextProxy now)).
Proof.
  apply preserves_shared. intros s Hs. unfold getNextProxy.
  destruct (Proxy.getNextProxy now (pool s)). simpl. apply HI, Hs.
Qed.

Lemma preserves_markProxySuccess proxy :
  preserves (@on_shared L I) (shared (markProxySuccess proxy)).
Proof.
  apply preserves_shared. intros s Hs. destruct proxy; simpl; [apply HI|]; exact Hs.
Qed.

Lemma preserves_reportSuccess lucky :
  preserves (@on_shared L I) (shared (reportSuccess lucky)).
Proof.
  apply preserves_shared. intros s Hs. simpl.
  destruct (_ && _); [apply HI|]; exact Hs.
Qed.

Lemma preserves_reportWarning now :
  preserves (@on_shared L I) (shared (reportWarning now)).
Proof. apply preserves_shared. intros s Hs. simpl. apply HI, Hs. Qed.

Lemma preserves_run_chain d tag limit :
  preserves (@on_shared L I) (shared (run_chain d tag limit)).
Proof.
  apply preserves_shared. intros s Hs. unfold run_chain.
  destruct (Hashtag.scrapeHashtag _ _ _ _). simpl. apply HI, Hs.
Qed.

Lemma preserves_progress scraped progress :
  preserves (@on_shared L I)
            (shared (updateJob jid (progress_update scraped progress))).
Proof.
  apply preserves_shared. intros s Hs. apply HI; [reflexivity | exact Hs].
Qed.

End Steps.

(** *** The skeleton *)

Lemma triple_shared {L A} (P : Sys -> Prop) (m : M Sys A)
    (Q : Sys -> Prop) (E : string -> Sys * L -> Prop) :
  (forall s, P s -> exists a, (m s).1 = Ok a /\ Q (m s).2) ->
  triple (@on_shared L P) (shared m) (fun _ => on_shared Q) E.
Proof.
  intros Hm [s l] Hs. unfold shared, on_shared in *. simpl in *.
  destruct (Hm s Hs) as (a & Ha & Hq). destruct (m s) as [r s']. simpl in *.
  subst r. exact Hq.
Qed.

Section Skeleton.

Context {L : Type}.
Variables (e : Common) (kind : JobType) (prefix : string) (job_input : JobInput)
          (total : Q) (acquire_first : bool) (init : L)
          (body : M (Sys * L) unit) (summary : L -> option Z * option Z).

Let cid := prefix +:+ "_" +:+ jobId e.

Let new_job : ScrapeJob :=
  {| id := jobId e; type := kind; status := processing; input := job_input;
     progress := 0; totalItems := total; scrapedItems := 0; error := None;
     createdAt := created_at e; startedAt := Some (started_at e);
     completedAt := None |}.

(** [Mid] holds from the creation of the job, [After] from the call of
    [createContext], whether it returned or threw, [Done] from the update
    that ends the job; [Post] holds when the flow returns, [Failed msg]
    when [closeContext] throws [msg]. *)
Variables Pre Mid After Done Post : Sys -> Prop.
Variable Failed : string -> Sys -> Prop.

Hypothesis After_robust : robust (jobId e) After.
Hypothesis created : forall s, Pre s -> Mid (createJob new_job s).2.
Hypothesis pool_used : forall s p, Mid s -> Mid (set_pool s p).
Hypothesis context_created :
  forall s proxy,
    Mid s -> After (createContext cid proxy (launched e) (scripted e) s).2.
Hypothesis finalised :
  forall s u, final_update e u -> After s -> Done (updateJob (jobId e) u s).2.
Hypothesis cleaned :
  forall s, Done s ->
    match closeContext cid (closed e) s with
    | (Ok _, s') => Post s'
    | (Throw msg, s') => Failed msg s'
    end.
Hypothesis body_ok : preserves (on_shared After) body.

Lemma createPage_keeps (I : Sys -> Prop) s r : I s -> I (createPage cid r s).2.
Proof.
  intros Hs. unfold createPage, bind, get.
  destruct (activeContexts s !! cid); [destruct r|]; exact Hs.
Qed.

(** The flow returns, with the job read back from the store, in a state
    satisfying [Post]; or its [closeContext] throws, in a state satisfying
    [Failed]. *)
Lemma job_flow_spec s :
  Pre s ->
  match job_flow e kind prefix job_input total acquire_first init body summary s with
  | (Ok (job, l), s') => job = jobs s' !! jobId e /\ Post s'
  | (Throw msg, s') => Failed msg s'
  end.
Proof.
  intros Hpre. unfold job_flow. fold cid. fold new_job.
  match goal with
  | |- context [match ?flow (s, init) with _ => _ end] => set (run := flow)
  end.
  assert (triple (on_shared Pre) run (fun _ => on_shared Post)
                 (fun msg => on_shared (Failed msg)))
    as Hrun.
  { subst run. eapply triple_bind with (Q1 := fun _ => on_shared Mid).
    { apply triple_shared. intros s0 H0. exists tt. split; [reflexivity|].
      apply created, H0. }
    intros _. eapply triple_finally
      with (Q1 := fun _ => on_shared Done) (E1 := fun _ _ => False).
    - eapply triple_try_catch with (E1 := fun _ => on_shared After).
      + eapply triple_bind with (Q1 := fun _ => on_shared Mid).
        { destruct acquire_first.
          - apply triple_shared. intros s0 H0. exists tt. auto.
          - apply triple_ret. auto. }
        intros _. eapply triple_bind with (Q1 := fun _ => on_shared Mid).
        { apply triple_shared. intros s0 H0. unfold getNextProxy.
          destruct (Proxy.getNextProxy _ _) as [proxy p']. simpl.
          exists proxy. split; [reflexivity | apply pool_used, H0]. }
        intros proxy. eapply triple_bind with (Q1 := fun _ => on_shared After).
        { intros [s0 l0] H0. unfold shared, on_shared in *. simpl in *.
          pose proof (context_created s0 proxy H0) as Hc.
          destruct (createContext cid proxy (launched e) (scripted e) s0)
            as [[[]|msg] s1]; exact Hc. }
        intros _. eapply triple_bind with (Q1 := fun _ => on_shared After).
        { apply preserves_shared. intros s0 H0. apply createPage_keeps, H0. }
        intros _. eapply triple_bind with (Q1 := fun _ => on_shared After).
        { exact body_ok. }
        intros _. eapply triple_bind with (Q1 := fun _ => on_shared After).
        { eapply preserves_reportSuccess; eauto. }
        intros _. eapply triple_bind with (Q1 := fun _ => on_shared After).
        { eapply preserves_markProxySuccess; eauto. }
        intros _. eapply triple_bind with (Q1 := fun l st => on_shared After st).
        { apply preserves_locals. }
        intros l. apply triple_shared. intros s0 H0. exists tt.
        split; [reflexivity|]. apply finalised; [|exact H0]. left. eauto.
      + intros msg. eapply triple_bind with (Q1 := fun _ => on_shared After).
        { apply triple_shared. intros s0 H0. exists tt. split; [reflexivity|].
          simpl. apply After_robust, H0. }
        intros _. apply triple_shared. intros s0 H0. exists tt.
        split; [reflexivity|]. apply finalised; [|exact H0]. right. eauto.
    - intros _ [s0 l0] H0. unfold shared, on_shared in *. simpl in *.
      pose proof (cleaned s0 H0) as Hc.
      destruct (closeContext cid (closed e) s0) as [[[]|msg] s1]; exact Hc.
    - intros msg [s0 l0] []. }
  specialize (Hrun (s, init) Hpre).
  destruct (run (s, init)) as [[[]|msg] [s' l]]; [|exact Hrun].
  split; [reflexivity | exact Hrun].
Qed.

End Skeleton.

(** *** The skeleton when nothing throws *)

Lemma triple_shared_frame {L A} (P : Sys -> Prop) (R : L -> Prop) (m : M Sys A)
    (Q : Sys -> Prop) (E : string -> Sys * L -> Prop) :
  (forall s, P s -> exists a, (m s).1 = Ok a /\ Q (m s).2) ->
  triple (fun st : Sys * L => P st.1 /\ R st.2) (shared m)
         (fun _ st => Q st.1 /\ R st.2) E.
Proof.
  intros Hm [s l] [Hs Hl]. unfold shared. simpl in *.
  destruct (Hm s Hs) as (a & Ha & Hq). destruct (m s) as [r s']. simpl in *.
  subst r. auto.
Qed.

Section Completion.

Context {L : Type}.
Variables (e : Common) (kind : JobType) (prefix : string) (job_input : JobInput)
          (total : Q) (acquire_first : bool) (init : L)
          (body : M (Sys * L) unit) (summary : L -> option Z * option Z).

Variable R : L -> Prop.

Hypothesis launched_ok : launched e = Ok tt.
Hypothesis scripted_ok : scripted e = Ok tt.
Hypothesis opened_ok : opened e = Ok tt.
Hypothesis body_returns :
  triple (on_shared (running (jobId e))) body
         (fun _ st => running (jobId e) st.1 /\ R st.2) (fun _ _ => False).

Let cid := prefix +:+ "_" +:+ jobId e.

Lemma running_robust : robust (jobId e) (running (jobId e)).
Proof.
  split; try (intros; assumption).
  intros s u Hu (job & Hj & Hst). unfold updateJob, modify. simpl. rewrite Hj.
  exists (assign job u). simpl. rewrite lookup_insert_eq. split; [reflexivity|].
  rewrite Hu. exact Hst.
Qed.

(** When the context and the page are created and the body returns, the
    flow leaves its job in the store with the status completed, whatever
    the close of the context does; when the context closes, the flow
    returns that job, and the locals are as the body left them. *)
Lemma job_flow_completes s :
  let out := job_flow e kind prefix job_input total acquire_first init body summary s in
  exists job,
    jobs out.2 !! jobId e = Some job /\ status job = completed /\
    (closed e = Ok tt -> exists l, out.1 = Ok (Some job, l) /\ R l).
Proof.
  intros out. subst out.
  unfold job_flow. fold cid.
  match goal with
  | |- context [match ?flow (s, init) with _ => _ end] => set (run := flow)
  end.
  set (Run := running (jobId e)).
  set (Fin := fun s : Sys => exists job, jobs s !! jobId e = Some job
                                        /\ status job = completed).
  assert (triple (fun _ : Sys * L => True) run
                 (fun _ st => Fin st.1 /\ R st.2)
                 (fun msg st => Fin st.1 /\ closed e = Throw msg)) as Hrun.
  { subst run. eapply triple_bind with (Q1 := fun _ => on_shared Run).
    { intros [s0 l0] _. unfold shared, createJob, modify, on_shared, Run, running.
      simpl. eexists. rewrite lookup_insert_eq. split; reflexivity. }
    intros _. eapply triple_finally
      with (Q1 := fun _ st => Fin st.1 /\ R st.2) (E1 := fun _ _ => False).
    - eapply triple_try_catch with (E1 := fun _ _ => False); [|intros msg st []].
      eapply triple_bind with (Q1 := fun _ => on_shared Run).
      { destruct acquire_first.
        - apply triple_shared. intros s0 H0. exists tt. auto.
        - apply triple_ret. auto. }
      intros _. eapply triple_bind with (Q1 := fun _ => on_shared Run).
      { apply triple_shared. intros s0 H0. unfold getNextProxy.
        destruct (Proxy.getNextProxy _ _) as [proxy p']. simpl.
        exists proxy. split; [reflexivity | exact H0]. }
      intros proxy. eapply triple_bind with
        (Q1 := fun _ => on_shared (fun s => Run s /\ is_Some (activeContexts s !! cid))).
      { apply triple_shared. intros s0 H0. unfold createContext, bind, lift, modify.
        rewrite launched_ok, scripted_ok. simpl. exists tt. split; [reflexivity|].
        split; [exact H0|]. rewrite lookup_insert_eq. eauto. }
      intros _. eapply triple_bind with (Q1 := fun _ => on_shared Run).
      { apply triple_shared. intros s0 [H0 [ctx Hctx]]. unfold createPage, bind, get.
        rewrite Hctx, opened_ok. simpl. exists tt. auto. }
      intros _. eapply triple_bind
        with (Q1 := fun _ st => Run st.1 /\ R st.2); [exact body_returns|].
      intros _. eapply triple_bind with (Q1 := fun _ st => Run st.1 /\ R st.2).
      { apply triple_shared_frame. intros s0 H0. exists tt. split; [reflexivity|].
        simpl. destruct (_ && _); [apply running_robust|]; exact H0. }
      intros _. eapply triple_bind with (Q1 := fun _ st => Run st.1 /\ R st.2).
      { apply triple_shared_frame. intros s0 H0. destruct proxy; simpl.
        - exists tt. split; [reflexivity|]. apply running_robust, H0.
        - exists tt. auto. }
      intros _. eapply triple_bind
        with (Q1 := fun l st => (Run st.1 /\ R st.2)); [intros st Hst; exact Hst|].
      intros l. apply triple_shared_frame. intros s0 (job & Hj & Hst).
      exists tt. split; [reflexivity|]. unfold updateJob, modify. simpl. rewrite Hj.
      exists (assign job (completed_update (summary l).1 (summary l).2 e)).
      simpl. rewrite lookup_insert_eq. auto.
    - intros _ [s0 l0] [H0 Hl0]. unfold shared, closeContext, bind, get, lift.
      cbn [fst snd].
      destruct (activeContexts s0 !! cid); [|split; [exact H0 | exact Hl0]].
      destruct (closed e) as [[]|msg]; simpl;
        [split; [exact H0 | exact Hl0] | split; [exact H0 | reflexivity]].
    - intros msg st []. }
  specialize (Hrun (s, init) I).
  destruct (run (s, init)) as [[[]|msg] [s' l]].
  - destruct Hrun as [(job & Hj & Hst) Hl]. simpl in *.
    exists job. split; [exact Hj|]. split; [exact Hst|].
    intros _. exists l. rewrite Hj. auto.
  - destruct Hrun as [(job & Hj & Hst) Hc]. simpl in *.
    exists job. split; [exact Hj|]. split; [exact Hst|].
    intros Hok. congruence.
Qed.

End Completion.

(** C7.  Let the hashtag be syntactically valid and let each of the four
    strategies return without a post.  Then the chain returns the empty
    post list with no hashtag data, without throwing; and the hashtag job
    whose context and page were created is left in the store with the
    status completed, not failed, whatever the close of its context does.
    When the context closes, the operation returns that job with the
    empty result.  The limit and the page number may carry a fraction. *)
Theorem exhausted_chain_completes_job
    (e : Common) (d : Hashtag.Driver) (tag clean : string) (limit page : Q)
    (r1 : Hashtag.Result) (s : Sys) :
  let totalToScrape := ((page - 1) * limit + limit)%Q in
  Hashtag.sanitizeHashtag tag = Ok clean ->
  Hashtag.scrapeWithPagination (Hashtag.pagination d) totalToScrape = Ok r1 ->
  Hashtag.posts r1 = [] ->
  Hashtag.posts (Hashtag.scrapeViaLiveInterception (Hashtag.live d) totalToScrape) = [] ->
  Hashtag.posts (Hashtag.scrapeViaDocIdGraphQL (Hashtag.docid_fetch d) totalToScrape) = [] ->
  Hashtag.posts (Hashtag.scrapeViaWebInfoEndpoint (Hashtag.web_info d) totalToScrape) = [] ->
  launched e = Ok tt ->
  scripted e = Ok tt ->
  opened e = Ok tt ->
  (forall log, (Hashtag.scrapeHashtag d tag totalToScrape log).1
               = Ok {| Hashtag.hashtagData := None; Hashtag.posts := [] |}) /\
  let out := scrapeHashtag e d tag limit page s in
  exists job,
    jobs out.2 !! jobId e = Some job /\
    status job = completed /\
    (closed e = Ok tt -> out.1 = Ok (Some job, (None, []))).
Proof.
  intros total Hs H1 E1 E2 E3 E4 Hl Hsc Ho.
  assert (forall log, (Hashtag.scrapeHashtag d tag total log).1 = Ok Hashtag.empty_result)
    as Hchain by (intros log; eapply HashtagFacts.scrapeHashtag_exhausted; eauto).
  split; [exact Hchain|].
  unfold scrapeHashtag.
  match goal with
  | |- context [@job_flow ?L ?e0 ?k ?p ?ji ?t ?af ?init ?b ?sm s] =>
      destruct (@job_flow_completes L e0 k p ji t af init b sm
                  (fun l => l = (None, [])) Hl Hsc Ho) with (s := s)
        as (job & Hj & Hst & Hret)
  end.
  - intros [s0 l0] H0. unfold bind, shared, run_chain, assign_locals, on_shared in *.
    simpl in *. fold total. specialize (Hchain (strategy_log s0)).
    destruct (Hashtag.scrapeHashtag d tag total (strategy_log s0)) as [r log'].
    simpl in Hchain. subst r. simpl. split; [exact H0|].
    unfold Js.slice. rewrite drop_nil, take_nil. reflexivity.
  - exists job. split; [exact Hj|]. split; [exact Hst|].
    intros Hc. destruct (Hret Hc) as (l & Hout & ->). exact Hout.
Qed.

Lemma exhausted_chain_completes_job_witness :
  let e := {| jobId := "job_1700000000002_qrs4567"; created_at := 0; started_at := 0;
              finished_at := 9; proxy_used_at := 1; warned_at := 8;
              launched := Ok tt; scripted := Ok tt; opened := Ok tt;
              closed := Throw "Target closed"; lucky := false |} in
  let d := Hashtag.barren_driver in
  let s := boot ProxyExamples.two_hosts in
  let total := ((1 - 1) * 50 + 50)%Q in
  (Hashtag.sanitizeHashtag "#Travel" = Ok "travel" /\
   Hashtag.scrapeWithPagination (Hashtag.pagination d) total = Ok Hashtag.empty_result /\
   launched e = Ok tt /\ scripted e = Ok tt /\ opened e = Ok tt) /\
  (forall log, (Hashtag.scrapeHashtag d "#Travel" total log).1
               = Ok {| Hashtag.hashtagData := None; Hashtag.posts := [] |}) /\
  let out := scrapeHashtag e d "#Travel" 50 1 s in
  exists job,
    jobs out.2 !! jobId e = Some job /\
    status job = completed /\
    (closed e = Ok tt -> out.1 = Ok (Some job, (None, []))).
Proof.
  intros e d s total.
  assert (Hashtag.sanitizeHashtag "#Travel" = Ok "travel") as H1
      by (vm_compute; reflexivity).
  assert (Hashtag.scrapeWithPagination (Hashtag.pagination d) total
          = Ok Hashtag.empty_result) as H2 by (vm_compute; reflexivity).
  assert (launched e = Ok tt) as H3 by reflexivity.
  assert (scripted e = Ok tt) as H4 by reflexivity.
  assert (opened e = Ok tt) as H5 by reflexivity.
  split; [tauto|].
  exact (exhausted_chain_completes_job e d "#Travel" "travel" 50 1 Hashtag.empty_result s
           H1 H2 eq_refl eq_refl eq_refl eq_refl H3 H4 H5).
Defined.

(** *** The bodies of the seven flows *)

Ltac walk HI :=
  repeat
    match goal with
    | |- preserves _ (ret _) => apply preserves_ret
    | |- preserves _ (throw _) => apply preserves_throw
    | |- preserves _ (lift _) => apply preserves_lift
    | |- preserves _ locals => apply preserves_locals
    | |- preserves _ (assign_locals _) => apply preserves_assign_locals
    | |- preserves _ (push_result _) => apply preserves_assign_locals
    | |- preserves _ (shared acquireToken) => apply preserves_acquireToken
    | |- preserves _ (shared (run_chain _ _ _)) =>
        eapply preserves_run_chain; exact HI
    | |- preserves _ (shared (updateJob _ (progress_update _ _))) =>
        eapply preserves_progress; exact HI
    | |- preserves _ (bind _ _) => apply preserves_bind; [|intros ?]
    | |- preserves _ (try_catch _ _) => apply preserves_try_catch; [|intros ?]
    | |- preserves _ (if ?b then _ else _) => destruct b
    | |- preserves _ (match ?x with _ => _ end) => destruct x
    end.

Section Bodies.

Variables (e : Common) (I : Sys -> Prop).
Hypothesis HI : robust (jobId e) I.

Lemma detail_loop_keeps a indices :
  preserves (on_shared I) (detail_loop e a indices).
Proof.
  induction indices as [|i rest IH]; simpl; [apply preserves_ret|].
  apply preserves_bind; [apply preserves_acquireToken | intros _].
  apply preserves_bind; [apply preserves_locals | intros rs].
  destruct (rs !! i) as [reel|]; [|apply preserves_throw].
  apply preserves_bind; [apply preserves_lift | intros details].
  apply preserves_bind; [walk HI | intros _].
  apply preserves_bind; [walk HI | intros _]. exact IH.
Qed.

Lemma term_loop_keeps a perTerm resultLimit k terms :
  preserves (on_shared I) (term_loop e a perTerm resultLimit k terms).
Proof.
  revert k. induction terms as [|term rest IH]; intros k; simpl;
    [apply preserves_ret|].
  apply preserves_bind; [apply preserves_locals | intros found].
  destruct (Js.at_least (count found.1) resultLimit); [apply preserves_ret|].
  apply preserves_bind; [apply preserves_acquireToken | intros _].
  apply preserves_bind; [walk HI | intros _]. apply IH.
Qed.

Lemma url_loop_keeps a postsLimit includeComments total i urls :
  preserves (on_shared I) (url_loop e a postsLimit includeComments total i urls).
Proof.
  revert i. induction urls as [|url rest IH]; intros i; simpl;
    [apply preserves_ret|].
  apply preserves_bind; [apply preserves_acquireToken | intros _].
  apply preserves_bind; [unfold push_result; walk HI | intros _]. apply IH.
Qed.

End Bodies.

(** *** The browser registry through a flow *)

Lemma has_job_robust jid : robust jid (has_job jid).
Proof.
  split; try (intros; assumption).
  intros s u _ [job Hj]. unfold updateJob, modify, has_job. simpl. rewrite Hj.
  simpl. rewrite lookup_insert_eq. eauto.
Qed.

Lemma final_update_terminal e u s :
  final_update e u -> has_job (jobId e) s ->
  finished (jobId e) (updateJob (jobId e) u s).2.
Proof.
  intros Hu [job Hj]. unfold updateJob, modify, finished. simpl. rewrite Hj. simpl.
  exists (assign job u). rewrite lookup_insert_eq. split; [reflexivity|].
  destruct Hu as [(a & b & ->) | (msg & ->)]; reflexivity.
Qed.

Lemma context_inv_update jid u e cid c0 n0 s :
  context_inv e cid c0 n0 s -> context_inv e cid c0 n0 (updateJob jid u s).2.
Proof.
  intros Hs. unfold updateJob, modify. simpl. destruct (jobs s !! jid); exact Hs.
Qed.

Lemma context_inv_robust jid e cid c0 n0 : robust jid (context_inv e cid c0 n0).
Proof.
  split; try (intros; assumption).
  intros s u _ Hs. apply context_inv_update, Hs.
Qed.

Lemma context_inv_created e cid c0 n0 proxy s :
  context_absent c0 n0 s ->
  context_inv e cid c0 n0
    (createContext cid proxy (launched e) (scripted e) s).2.
Proof.
  intros [Hc Hn]. unfold context_inv, createContext, bind, lift, modify.
  destruct (launched e) as [[]|msg]; simpl; [|split; assumption].
  destruct (scripted e) as [[]|msg]; simpl.
  - split; [|simpl; congruence]. eexists. simpl. rewrite Hc. reflexivity.
  - split; [exact Hc | simpl; congruence].
Qed.

Lemma context_inv_closed e cid c0 n0 s :
  c0 !! cid = None -> context_inv e cid c0 n0 s ->
  match closeContext cid (closed e) s with
  | (Ok _, s') => context_left e c0 n0 s'
  | (Throw msg, s') =>
      launched e = Ok tt /\ scripted e = Ok tt /\ closed e = Throw msg /\
      context_registered cid c0 n0 s'
  end.
Proof.
  intros Hfresh. unfold context_inv, context_left, closeContext, bind, get, lift.
  destruct (launched e) as [[]|m1]; [destruct (scripted e) as [[]|m2]|].
  - intros [[ctx Hc] Hn]. rewrite Hc, lookup_insert_eq.
    destruct (closed e) as [[]|msg]; simpl.
    + split; [|reflexivity]. split; [|simpl; rewrite Hn; reflexivity]. simpl.
      rewrite Hc. rewrite delete_insert_eq. apply delete_id, Hfresh.
    + repeat split; eauto.
  - intros [Hc Hn]. rewrite Hc, Hfresh. split; assumption.
  - intros [Hc Hn]. rewrite Hc, Hfresh. split; assumption.
Qed.

Section FlowContexts.

Context {L : Type}.
Variables (e : Common) (kind : JobType) (prefix : string) (job_input : JobInput)
          (total : Q) (acquire_first : bool) (init : L)
          (body : M (Sys * L) unit) (summary : L -> option Z * option Z).

Hypothesis body_ok :
  forall I, robust (jobId e) I -> preserves (on_shared I) body.

Let cid := prefix +:+ "_" +:+ jobId e.

(** Where a flow leaves its context and its job.  When the flow returns,
    the registry is as before, and so are the browser's contexts unless
    the installation of the scripts threw.  When [closeContext] throws,
    so does the flow: the context is still registered, and the job is
    finished in the store all the same. *)
Lemma job_flow_contexts s :
  activeContexts s !! cid = None ->
  match job_flow e kind prefix job_input total acquire_first init body summary s with
  | (Ok (job, l), s') =>
      job = jobs s' !! jobId e /\
      context_left e (activeContexts s) (browserContexts s) s' /\
      finished (jobId e) s'
  | (Throw msg, s') =>
      launched e = Ok tt /\ scripted e = Ok tt /\ closed e = Throw msg /\
      context_registered cid (activeContexts s) (browserContexts s) s' /\
      finished (jobId e) s'
  end.
Proof.
  intros Hfresh. set (c0 := activeContexts s) in *. set (n0 := browserContexts s).
  assert (match job_flow e kind prefix job_input total acquire_first init body
                 summary s with
          | (Ok (job, l), s') =>
              job = jobs s' !! jobId e /\
              context_left e c0 n0 s' /\ finished (jobId e) s'
          | (Throw msg, s') =>
              launched e = Ok tt /\ scripted e = Ok tt /\ closed e = Throw msg /\
              context_registered cid c0 n0 s' /\ finished (jobId e) s'
          end) as Hrun.
  { apply (job_flow_spec e kind prefix job_input total acquire_first init body
             summary
             (context_absent c0 n0)
             (fun s => context_absent c0 n0 s /\ has_job (jobId e) s)
             (fun s => context_inv e cid c0 n0 s /\ has_job (jobId e) s)
             (fun s => context_inv e cid c0 n0 s /\ finished (jobId e) s)
             (fun s => context_left e c0 n0 s /\ finished (jobId e) s)
             (fun msg s =>
                launched e = Ok tt /\ scripted e = Ok tt /\ closed e = Throw msg /\
                context_registered cid c0 n0 s /\ finished (jobId e) s)).
    - split.
      + intros s0 p [H1 H2]. split; [exact H1 | exact H2].
      + intros s0 n t [H1 H2]. split; [exact H1 | exact H2].
      + intros s0 log [H1 H2]. split; [exact H1 | exact H2].
      + intros s0 u Hu [H1 H2].
        split; [apply context_inv_robust | apply has_job_robust]; assumption.
    - intros s0 H0. split; [exact H0|]. unfold has_job, createJob, modify. simpl.
      rewrite lookup_insert_eq. eauto.
    - intros s0 p H0. exact H0.
    - intros s0 proxy [H0 Hj]. split; [apply context_inv_created, H0|].
      unfold has_job, createContext, bind, lift, modify in *.
      destruct (launched e) as [[]|m1]; simpl; [|exact Hj].
      destruct (scripted e) as [[]|m2]; exact Hj.
    - intros s0 u Hu [H0 Hj]. split; [|apply final_update_terminal; assumption].
      apply context_inv_update, H0.
    - intros s0 [H0 Hf]. fold cid.
      pose proof (context_inv_closed e cid c0 n0 s0 Hfresh H0) as Hc.
      assert (forall r, finished (jobId e) (closeContext cid r s0).2) as Hkeep.
      { intros r. unfold closeContext, bind, get, lift.
        destruct (activeContexts s0 !! cid); [destruct r as [[]|]|]; exact Hf. }
      specialize (Hkeep (closed e)).
      destruct (closeContext cid (closed e) s0) as [[[]|msg] s1]; cbn [snd] in *.
      + exact (conj Hc Hkeep).
      + destruct Hc as (H1 & H2 & H3 & H4). exact (conj H1 (conj H2 (conj H3 (conj H4 Hkeep)))).
    - apply body_ok. split.
      + intros s0 p [H1 H2]. split; [exact H1 | exact H2].
      + intros s0 n t [H1 H2]. split; [exact H1 | exact H2].
      + intros s0 log [H1 H2]. split; [exact H1 | exact H2].
      + intros s0 u Hu [H1 H2].
        split; [apply context_inv_robust | apply has_job_robust]; assumption.
    - split; reflexivity. }
  destruct (job_flow _ _ _ _ _ _ _ _ _ s) as [[[job l]|msg] s'].
  - destruct Hrun as (H1 & H2 & H3). auto.
  - exact Hrun.
Qed.

End FlowContexts.

(** The body of each of the seven flows keeps every robust assertion. *)
Ltac flow_body HI :=
  first
    [ solve [walk HI]
    | solve [apply preserves_bind; [apply preserves_lift | intros ?];
             apply preserves_bind; [apply preserves_assign_locals | intros _];
             match goal with
             | |- preserves _ (if ?b then _ else _) =>
                 destruct b; [apply detail_loop_keeps, HI | apply preserves_ret]
             end]
    | solve [apply preserves_bind; [walk HI | intros _];
             apply preserves_bind; [apply term_loop_keeps, HI | intros _];
             apply preserves_bind; [walk HI | intros _; walk HI]]
    | solve [apply url_loop_keeps, HI] ].

(** Where an operation leaves its context and its job. *)
Lemma exec_contexts (e : Common) (op : Operation) (s : Sys) :
  activeContexts s !! contextId e op = None ->
  match exec e op s with
  | (Ok job, s') =>
      job = jobs s' !! jobId e /\
      context_left e (activeContexts s) (browserContexts s) s' /\
      finished (jobId e) s'
  | (Throw msg, s') =>
      launched e = Ok tt /\ scripted e = Ok tt /\ closed e = Throw msg /\
      context_registered (contextId e op) (activeContexts s) (browserContexts s) s' /\
      finished (jobId e) s'
  end.
Proof.
  intros Hfresh.
  destruct op; unfold exec, contextId in *; cbn [prefix_of] in *;
    unfold scrapeProfile, scrapeHashtag, scrapePost, scrapeComments,
      scrapeReels, searchPostsByCaption, scrapeDirectUrls;
    match goal with
    | |- context [job_of (@job_flow ?L ?e0 ?k ?p ?ji ?t ?af ?init ?b ?sm s)] =>
        assert (forall Inv, robust (jobId e) Inv -> preserves (on_shared Inv) b)
          as Hok by (intros Inv HI; flow_body HI);
        pose proof (@job_flow_contexts L e0 k p ji t af init b sm Hok s Hfresh) as Hrun;
        destruct (@job_flow L e0 k p ji t af init b sm s) as [[[job l]|msg] s']
    end; exact Hrun.
Qed.

(** When the close of the context succeeds, every operation returns its
    job with the registry, hence the active-context count, as it was
    before; the browser holds the contexts it held, unless the
    installation of the scripts threw and left one behind. *)
Lemma context_closed_when_close_succeeds (e : Common) (op : Operation) (s : Sys) :
  activeContexts s !! contextId e op = None ->
  closed e = Ok tt ->
  exists job s',
    exec e op s = (Ok (Some job), s') /\
    activeContexts s' = activeContexts s /\
    getActiveContextCount s' = getActiveContextCount s /\
    ((launched e = Ok tt -> scripted e = Ok tt) ->
     browserContexts s' = browserContexts s).
Proof.
  intros Hfresh Hc. pose proof (exec_contexts e op s Hfresh) as Hrun.
  destruct (exec e op s) as [[job|m] s'].
  - destruct Hrun as (-> & Hleft & (j & Hj & _)). exists j, s'. rewrite Hj.
    split; [reflexivity|].
    assert (activeContexts s' = activeContexts s /\
            ((launched e = Ok tt -> scripted e = Ok tt) ->
             browserContexts s' = browserContexts s)) as [H1 H2].
    { revert Hleft. unfold context_left, context_absent.
      destruct (launched e) as [[]|m1]; [destruct (scripted e) as [[]|m2]|].
      - intros [[H1 H2] _]. auto.
      - intros [H1 H2]. split; [exact H1|]. intros H. discriminate (H eq_refl).
      - intros [H1 H2]. auto. }
    split; [exact H1|]. split; [|exact H2].
    unfold getActiveContextCount. rewrite H1. reflexivity.
  - destruct Hrun as (_ & _ & Hm & _). congruence.
Qed.

(** When the installation of the scripts throws, the operation returns
    its job as failed, and the context that [newContext] opened stays with
    the browser: it was never registered, so nothing closes it. *)
Lemma unregistered_context_left_open (e : Common) (op : Operation) (s : Sys)
    (msg : string) :
  activeContexts s !! contextId e op = None ->
  launched e = Ok tt -> scripted e = Throw msg ->
  exists job s',
    exec e op s = (Ok (Some job), s') /\
    activeContexts s' = activeContexts s /\
    browserContexts s' = S (browserContexts s).
Proof.
  intros Hfresh Hl Hs. pose proof (exec_contexts e op s Hfresh) as Hrun.
  destruct (exec e op s) as [[job|m] s'].
  - destruct Hrun as (-> & Hleft & (j & Hj & _)). exists j, s'. rewrite Hj.
    split; [reflexivity|]. revert Hleft. unfold context_left. rewrite Hl, Hs.
    intros [H1 H2]. auto.
  - destruct Hrun as (_ & H & _). congruence.
Qed.

(** C9.  When [createContext] returned and the close of the context
    throws, an operation does not return: it throws the error of the
    close.  Its context stays in the registry, which counts one context
    more than before the operation, although the job is finished in the
    store. *)
Theorem failed_close_leaves_context_registered
    (e : Common) (op : Operation) (s : Sys) (msg : string) :
  activeContexts s !! contextId e op = None ->
  launched e = Ok tt -> scripted e = Ok tt -> closed e = Throw msg ->
  exists s' ctx job,
    exec e op s = (Throw msg, s') /\
    activeContexts s' = <[contextId e op := ctx]> (activeContexts s) /\
    getActiveContextCount s' = S (getActiveContextCount s) /\
    jobs s' !! jobId e = Some job /\ terminal job = true.
Proof.
  intros Hfresh Hl Hs Hc. pose proof (exec_contexts e op s Hfresh) as Hrun.
  destruct (exec e op s) as [[job|m] s'].
  - exfalso. destruct Hrun as (_ & Hleft & _).
    revert Hleft. unfold context_left. rewrite Hl, Hs. intros [_ Hok]. congruence.
  - destruct Hrun as (_ & _ & Hm & [[ctx Hreg] Hn] & (j & Hj & Ht)).
    rewrite Hc in Hm. injection Hm as <-.
    exists s', ctx, j. split; [reflexivity|]. split; [exact Hreg|].
    split; [|auto]. unfold getActiveContextCount. rewrite Hreg.
    apply map_size_insert_None, Hfresh.
Qed.

Lemma failed_close_leaves_context_registered_witness :
  let e := {| jobId := "job_1700000000000_abc1234"; created_at := 0; started_at := 0;
              finished_at := 9; proxy_used_at := 1; warned_at := 8;
              launched := Ok tt; scripted := Ok tt; opened := Ok tt;
              closed := Throw "Target closed"; lucky := false |} in
  let op := Hashtag Hashtag.stub_driver "travel" 2 1 in
  let s := boot ProxyExamples.two_hosts in
  (activeContexts s !! contextId e op = None /\
   launched e = Ok tt /\ scripted e = Ok tt /\ closed e = Throw "Target closed") /\
  exists s' ctx job,
    exec e op s = (Throw "Target closed", s') /\
    activeContexts s' = <[contextId e op := ctx]> (activeContexts s) /\
    getActiveContextCount s' = S (getActiveContextCount s) /\
    jobs s' !! jobId e = Some job /\ terminal job = true.
Proof.
  intros e op s.
  assert (activeContexts s !! contextId e op = None) as H by reflexivity.
  split; [repeat split; assumption|].
  exact (failed_close_leaves_context_registered e op s "Target closed" H
           eq_refl eq_refl eq_refl).
Defined.

(** *** The job store through a flow *)

Lemma frozen_refl m : frozen m m.
Proof. intros jid job H _. exact H. Qed.

Lemma frozen_trans m1 m2 m3 : frozen m1 m2 -> frozen m2 m3 -> frozen m1 m3.
Proof. intros H12 H23 jid job H Ht. apply H23; [apply H12|]; assumption. Qed.

Lemma chained_snoc h m m' :
  chained h -> last h = Some m -> frozen m m' -> chained (h ++ [m']).
Proof.
  intros Hc Hl Hf i a b Ha Hb.
  destruct (decide (S i < length h)%nat) as [Hlt|Hge].
  - rewrite lookup_app_l in Ha by lia. rewrite lookup_app_l in Hb by lia. eauto.
  - assert (S i = length h) as Hi.
    { apply lookup_lt_Some in Hb. rewrite length_app in Hb. simpl in Hb. lia. }
    rewrite lookup_app_l in Ha by lia.
    rewrite lookup_app_r in Hb by lia.
    replace (S i - length h)%nat with 0%nat in Hb by lia. simpl in Hb.
    injection Hb as <-.
    rewrite last_lookup in Hl. replace (pred (length h)) with i in Hl by lia.
    rewrite Ha in Hl. injection Hl as ->. exact Hf.
Qed.

Lemma chained_stable h : chained h -> stable_history h.
Proof.
  intros Hc i j. revert i. induction j as [|j IH]; intros i m m' jid job Hij Hi Hj Hm Ht.
  - assert (i = 0)%nat as -> by lia. rewrite Hi in Hj. injection Hj as <-. exact Hm.
  - destruct (decide (i = S j)) as [->|Hne].
    + rewrite Hi in Hj. injection Hj as <-. exact Hm.
    + destruct (h !! j) as [mj|] eqn:Ej.
      * apply (Hc j mj m' Ej Hj jid job); [|exact Ht].
        apply (IH i m mj jid job); auto. lia.
      * apply lookup_ge_None in Ej. apply lookup_lt_Some in Hj. lia.
Qed.

Lemma job_inv_write s m' :
  job_inv s -> frozen (jobs s) m' -> job_inv (set_jobs s m').
Proof.
  intros [Hc Hl] Hf. split.
  - simpl. eapply chained_snoc; eauto.
  - unfold coherent. simpl. apply last_snoc.
Qed.

Lemma frozen_update (m : gmap string ScrapeJob) jid job job' :
  m !! jid = Some job -> terminal job = false -> frozen m (<[jid := job']> m).
Proof.
  intros Hj Ht k jk Hk Htk. destruct (decide (k = jid)) as [->|Hne].
  - congruence.
  - rewrite lookup_insert_ne by congruence. exact Hk.
Qed.

Lemma job_running_robust jid j0 : robust jid (job_running jid j0).
Proof.
  split; try (intros; assumption).
  intros s u Hu (Hinv & (job & Hj & Hst) & Hothers).
  unfold updateJob, modify. simpl. rewrite Hj. split; [|split].
  - apply job_inv_write; [exact Hinv|].
    eapply frozen_update; [exact Hj|]. unfold terminal. rewrite Hst. reflexivity.
  - exists (assign job u). simpl. rewrite lookup_insert_eq. split; [reflexivity|].
    rewrite Hu. simpl. exact Hst.
  - intros k Hk. simpl. rewrite lookup_insert_ne by congruence. apply Hothers, Hk.
Qed.

Section FlowJobs.

Context {L : Type}.
Variables (e : Common) (kind : JobType) (prefix : string) (job_input : JobInput)
          (total : Q) (acquire_first : bool) (init : L)
          (body : M (Sys * L) unit) (summary : L -> option Z * option Z).

Hypothesis body_ok :
  forall I, robust (jobId e) I -> preserves (on_shared I) body.

(** Whether the flow returns or its [closeContext] throws, it leaves its
    job finished and every write to the store respected the terminal
    jobs. *)
Lemma job_flow_jobs s :
  job_inv s -> jobs s !! jobId e = None ->
  job_finished (jobId e) (jobs s)
    (job_flow e kind prefix job_input total acquire_first init body summary s).2.
Proof.
  intros Hinv Hfresh. set (j0 := jobs s).
  assert (match job_flow e kind prefix job_input total acquire_first init body
                 summary s with
          | (Ok (job, l), s') =>
              job = jobs s' !! jobId e /\ job_finished (jobId e) j0 s'
          | (Throw msg, s') => job_finished (jobId e) j0 s'
          end) as Hrun.
  { apply (job_flow_spec e kind prefix job_input total acquire_first init body
             summary
             (fun s => job_inv s /\ jobs s = j0)
             (job_running (jobId e) j0) (job_running (jobId e) j0)
             (job_finished (jobId e) j0)
             (job_finished (jobId e) j0) (fun _ => job_finished (jobId e) j0)).
    - apply job_running_robust.
    - intros s0 [H0 Hj0]. unfold createJob, modify. simpl. split; [|split].
      + apply job_inv_write; [exact H0|]. intros k jk Hk _.
        destruct (decide (k = jobId e)) as [->|Hne];
          [rewrite Hj0 in Hk; unfold j0 in Hk; congruence|].
        rewrite lookup_insert_ne by congruence. exact Hk.
      + eexists. simpl. rewrite lookup_insert_eq. split; reflexivity.
      + intros k Hk. simpl. rewrite lookup_insert_ne by congruence.
        rewrite Hj0. reflexivity.
    - intros s0 p H0. exact H0.
    - intros s0 proxy Hs0. unfold createContext, bind, lift, modify.
      destruct (launched e) as [[]|m1]; simpl; [|exact Hs0].
      destruct (scripted e) as [[]|m2]; exact Hs0.
    - intros s0 u Hu (H0 & (job & Hj & Hst) & Hothers).
      unfold updateJob, modify. simpl. rewrite Hj. split; [|split].
      + apply job_inv_write; [exact H0|].
        eapply frozen_update; [exact Hj|]. unfold terminal. rewrite Hst. reflexivity.
      + exists (assign job u). simpl. rewrite lookup_insert_eq. split; [reflexivity|].
        destruct Hu as [(a & b & ->) | (msg & ->)]; reflexivity.
      + intros k Hk. simpl. rewrite lookup_insert_ne by congruence. apply Hothers, Hk.
    - intros s0 Hs0. unfold closeContext, bind, get, lift.
      destruct (activeContexts s0 !! _); [destruct (closed e) as [[]|msg]|];
        exact Hs0.
    - apply body_ok, job_running_robust.
    - split; [exact Hinv | reflexivity]. }
  destruct (job_flow _ _ _ _ _ _ _ _ _ s) as [[[job l]|msg] s'];
    [exact (proj2 Hrun) | exact Hrun].
Qed.

End FlowJobs.

Lemma job_of_state {L} (r : res (option ScrapeJob * L) * Sys) : (job_of r).2 = r.2.
Proof. destruct r as [[[job l]|msg] s]; reflexivity. Qed.

(** Every operation, started with a job id that is not in the store,
    leaves its job in a terminal state and every other job alone, whether
    it returns or throws; every write it makes to the store respects the
    terminal jobs. *)
Lemma exec_jobs e op s :
  job_inv s -> jobs s !! jobId e = None ->
  let s' := (exec e op s).2 in
  exists job,
    jobs s' !! jobId e = Some job /\
    terminal job = true /\ job_inv s' /\
    forall k, k <> jobId e -> jobs s' !! k = jobs s !! k.
Proof.
  intros Hinv Hfresh s'.
  assert (job_finished (jobId e) (jobs s) s') as (H3 & (job' & H4 & H5) & H6).
  { subst s'.
    destruct op; unfold exec; rewrite job_of_state;
      unfold scrapeProfile, scrapeHashtag, scrapePost, scrapeComments,
        scrapeReels, searchPostsByCaption, scrapeDirectUrls;
      (apply job_flow_jobs; [|exact Hinv|exact Hfresh]); intros I HI; flow_body HI. }
  exists job'. auto.
Qed.

Lemma exec_all_jobs ops s :
  job_inv s ->
  NoDup (List.map (fun o => jobId o.1) ops) ->
  Forall (fun o => jobs s !! jobId o.1 = None) ops ->
  job_inv (exec_all ops s).
Proof.
  revert s. induction ops as [|[e op] ops IH]; intros s Hinv Hnd Hfresh; simpl;
    [exact Hinv|].
  simpl in Hnd. apply NoDup_cons in Hnd as [Hnotin Hnd].
  inversion Hfresh as [|? ? Hfe Hfo]; subst. simpl in Hfe.
  destruct (exec_jobs e op s Hinv Hfe) as (job & _ & _ & Hinv' & Hothers).
  apply IH; [exact Hinv' | exact Hnd |].
  apply Forall_forall. intros o Ho.
  rewrite Forall_forall in Hfo. rewrite Hothers; [apply Hfo, Ho|].
  intros Heq. apply Hnotin. apply list_elem_of_In, in_map_iff.
  exists o. split; [exact Heq | apply list_elem_of_In, Ho].
Qed.

(** C8.  Start the process and run any operations one after the other,
    their generated job ids being pairwise distinct.  In the record of
    every write made to the job store, a job that is terminal (completed
    or failed) at some point is the same record, field for field, at
    every later point: no step of any flow changes its status or any
    other of its fields. *)
Theorem terminal_jobs_never_change
    (p : Proxy.ProxyService) (ops : list (Common * Operation)) :
  NoDup (List.map (fun o => jobId o.1) ops) ->
  stable_history (history (exec_all ops (boot p))).
Proof.
  intros Hnd. apply chained_stable.
  apply (exec_all_jobs ops (boot p)); [|exact Hnd|].
  - split; [|reflexivity]. intros i m m' Hi Hsi. destruct i; discriminate.
  - apply Forall_forall. intros o _. apply lookup_empty.
Qed.

Lemma terminal_jobs_never_change_witness :
  let p := ProxyExamples.two_hosts in
  NoDup (List.map (fun o => jobId o.1) two_operations) /\
  stable_history (history (exec_all two_operations (boot p))).
Proof.
  intros p.
  assert (NoDup (List.map (fun o => jobId o.1) two_operations)) as H.
  { simpl. apply NoDup_cons. split; [|apply NoDup_singleton].
    intros Hin. apply list_elem_of_singleton in Hin. discriminate. }
  split; [exact H|].
  exact (terminal_jobs_never_change p two_operations H).
Defined.

End LogicFacts.

Module SearchFacts.

Import Eff Eff.Notations Service Logic LogicFacts.

(** *** The merge loop *)

Section Merge.

Variables (keep : PostData -> bool) (resultLimit : Q).

Lemma merge_tidy posts found :
  tidy resultLimit found -> tidy resultLimit (merge keep posts resultLimit found).
Proof.
  revert found. induction posts as [|p rest IH]; intros found H; simpl; [exact H|].
  destruct (Js.at_least (count found.1) resultLimit) eqn:El; [exact H|].
  destruct (bool_decide _) eqn:Es; [auto|].
  destruct (keep p); [|auto].
  apply IH. destruct H as (Hnd & Hseen & Hcap).
  apply bool_decide_eq_false in Es.
  rewrite JsFacts.at_least_ceil in El. apply Z.leb_gt in El.
  split; [|split]; simpl.
  - rewrite fmap_app. apply NoDup_app. split; [exact Hnd|].
    split; [|apply NoDup_singleton].
    intros sc Hsc Hsc'. simpl in Hsc'. apply list_elem_of_singleton in Hsc'. subst sc.
    apply Es, Hseen, Hsc.
  - intros sc. rewrite fmap_app, elem_of_app, elem_of_union, elem_of_singleton.
    simpl. rewrite list_elem_of_singleton, Hseen. tauto.
  - unfold count in *. rewrite length_app. simpl. lia.
Qed.




End Merge.

(** *** The hashtag expansion *)

Section Phase.

Variables (a : SearchAnswers) (perTerm : Z) (resultLimit : Q).

Lemma hashtag_phase_step k term found :
  match chain_posts (term_driver a k) term perTerm with
  | Some ps => merge (fun _ => true) ps resultLimit found
  | None => found
  end
  = merge (fun _ => true) (default [] (chain_posts (term_driver a k) term perTerm))
          resultLimit found.
Proof. destruct (chain_posts _ _ _); reflexivity. Qed.

Lemma hashtag_phase_tidy k terms found :
  tidy resultLimit found ->
  tidy resultLimit (hashtag_phase a perTerm resultLimit k terms found).
Proof.
  revert k found. induction terms as [|term rest IH]; intros k found H; simpl;
    [exact H|].
  destruct (Js.at_least (count found.1) resultLimit); [exact H|].
  apply IH. rewrite hashtag_phase_step. apply merge_tidy, H.
Qed.



End Phase.

Lemma tidy_start resultLimit : tidy resultLimit ([], ∅).
Proof.
  split; [constructor|]. split; [|unfold count; simpl; lia].
  intros sc. simpl. set_solver.
Qed.


(** *** What the summary guarantees *)

Lemma search_trace_tidy e a keyword searchLimit resultLimit :
  tidy resultLimit (final (search_trace e a keyword searchLimit resultLimit)).
Proof.
  unfold search_trace. destruct (setup_ok e a); simpl; [|apply tidy_start].
  apply merge_tidy, merge_tidy, hashtag_phase_tidy, tidy_start.
Qed.


(** *** The flow computes the summary *)

Section FlowLocals.

Context {L : Type}.
Variables (e : Common) (kind : JobType) (prefix : string) (job_input : JobInput)
          (total : Q) (acquire_first : bool) (init : L)
          (body : M (Sys * L) unit) (summary : L -> option Z * option Z).

Variable after_body : L.

Hypothesis body_locals : forall s, (body (s, init)).2.2 = after_body.
Hypothesis closed_ok : closed e = Ok tt.

Let cid := prefix +:+ "_" +:+ jobId e.

Let at_end : L :=
  if is_ok (launched e) && is_ok (scripted e) && is_ok (opened e)
  then after_body else init.

Lemma shared_keeps_locals {A} (R : L -> Prop) (m : M Sys A) :
  triple (fun st : Sys * L => R st.2) (shared m)
         (fun _ st => R st.2) (fun _ st => R st.2).
Proof.
  intros [s l] H. unfold shared. simpl in *. destruct (m s) as [[a|msg] s']; exact H.
Qed.

Lemma shared_total_keeps_locals {A} (R : L -> Prop) (m : M Sys A)
    (E : string -> Sys * L -> Prop) :
  (forall s, exists a, (m s).1 = Ok a) ->
  triple (fun st : Sys * L => R st.2) (shared m) (fun _ st => R st.2) E.
Proof.
  intros Hm [s l] H. unfold shared. simpl in *. destruct (Hm s) as [a Ha].
  destruct (m s) as [r s']. simpl in *. subst r. exact H.
Qed.

(** When its context closes, the flow returns, and its locals are those
    the body left, or the initial ones when the context or the page could
    not be created. *)
Lemma job_flow_locals s :
  exists job s',
    job_flow e kind prefix job_input total acquire_first init body summary s
    = (Ok (job, at_end), s').
Proof.
  unfold job_flow. fold cid.
  match goal with
  | |- context [match ?flow (s, init) with _ => _ end] => set (run := flow)
  end.
  set (At := fun l : L => l = at_end).
  assert (triple (fun st : Sys * L => st.2 = init) run
                 (fun _ st => At st.2) (fun _ _ => False)) as Hrun.
  { subst run. eapply triple_bind with (Q1 := fun _ st => st.2 = init).
    { apply (shared_total_keeps_locals (fun l => l = init)). intros s0. exists tt. reflexivity. }
    intros _. eapply triple_finally
      with (Q1 := fun _ st => At st.2) (E1 := fun _ _ => False).
    - eapply triple_try_catch with (E1 := fun _ st => At st.2).
      + eapply triple_bind with (Q1 := fun _ st => st.2 = init).
        { destruct acquire_first; intros [s0 l0] H; exact H. }
        intros _. eapply triple_bind with (Q1 := fun _ st => st.2 = init).
        { apply (shared_total_keeps_locals (fun l => l = init)). intros s0. unfold getNextProxy.
          destruct (Proxy.getNextProxy _ _) as [proxy p']. simpl. eauto. }
        intros proxy. eapply triple_bind with
          (Q1 := fun _ st => st.2 = init /\ is_Some (activeContexts st.1 !! cid)
                             /\ is_ok (launched e) && is_ok (scripted e) = true).
        { intros [s0 l0] H. unfold shared, createContext, bind, lift, modify.
          simpl in *. subst At at_end.
          destruct (launched e) as [[]|msg]; simpl; [|exact H].
          destruct (scripted e) as [[]|msg]; simpl; [|exact H].
          rewrite lookup_insert_eq. eauto. }
        intros _. eapply triple_bind with
          (Q1 := fun _ st => st.2 = init
                             /\ is_ok (launched e) && is_ok (scripted e) = true
                             /\ is_ok (opened e) = true).
        { intros [s0 l0] (H & [ctx Hctx] & Hl). unfold shared, createPage, bind, get.
          simpl in *. rewrite Hctx. subst At at_end. rewrite Hl. unfold lift.
          destruct (opened e) as [[]|msg]; simpl; auto. }
        intros _. eapply triple_bind with (Q1 := fun _ st => At st.2).
        { intros [s0 l0] (H & Hl & Ho). simpl in H. subst l0.
          pose proof (body_locals s0) as Hb. subst At at_end. rewrite Hl, Ho. simpl.
          destruct (body (s0, init)) as [[[]|msg] [s1 l1]]; simpl in *; auto. }
        intros _. eapply triple_bind with (Q1 := fun _ st => At st.2).
        { apply (shared_keeps_locals At). }
        intros _. eapply triple_bind with (Q1 := fun _ st => At st.2).
        { apply (shared_keeps_locals At). }
        intros _. eapply triple_bind with (Q1 := fun _ st => At st.2).
        { intros [s0 l0] H. exact H. }
        intros l. apply (shared_keeps_locals At).
      + intros msg. eapply triple_bind with (Q1 := fun _ st => At st.2).
        { apply (shared_total_keeps_locals At). intros s0. exists tt. reflexivity. }
        intros _. apply (shared_total_keeps_locals At). intros s0. exists tt. reflexivity.
    - intros _. apply (shared_total_keeps_locals At). intros s0.
      unfold closeContext, bind, get, lift. rewrite closed_ok.
      destruct (activeContexts s0 !! cid); simpl; eauto.
    - intros msg st []. }
  specialize (Hrun (s, init) eq_refl).
  destruct (run (s, init)) as [[[]|msg] [s' l]]; [|destruct Hrun].
  simpl in Hrun. unfold At in Hrun. subst l. eauto.
Qed.

End FlowLocals.

(** The loop over the terms never throws, and leaves in the locals what
    [hashtag_phase] computes. *)
Lemma term_loop_locals e a perTerm resultLimit k terms st :
  exists s',
    term_loop e a perTerm resultLimit k terms st
    = (Ok tt, (s', hashtag_phase a perTerm resultLimit k terms st.2)).
Proof.
  revert k st. induction terms as [|term rest IH]; intros k [s found]; simpl.
  - eexists. reflexivity.
  - unfold bind at 1. unfold locals at 1. simpl.
    destruct (Js.at_least (count found.1) resultLimit); [eexists; reflexivity|].
    unfold bind at 1. unfold shared at 1. simpl.
    unfold bind at 1. unfold try_catch, bind, shared, run_chain, assign_locals, locals.
    simpl. unfold chain_posts.
    rewrite <- (HashtagFacts.scrapeHashtag_log_free (term_driver a k) term
                  (Js.whole perTerm) (strategy_log s)).
    destruct (Hashtag.scrapeHashtag (term_driver a k) term (Js.whole perTerm)
                (strategy_log s))
      as [[r|msg] log]; simpl; apply IH.
Qed.

Lemma search_body_locals (e : Common) (a : SearchAnswers)
    (keyword : string) (searchLimit resultLimit : Q) (body : M (Sys * Found) unit) s :
  let terms := searchTerms keyword in
  body =
    ((if has_credentials a then let* _ := lift (logged_in a) in ret tt else ret tt) >>
     term_loop e a (Js.ceil (searchLimit / Js.whole (count terms))) resultLimit 0 terms >>
     (let* found := locals in
      if Js.below (count found.1) resultLimit then
        shared acquireToken >>
        try_catch
          (assign_locals (merge (matches terms)
                                (searchViaExplore (explore_links a) searchLimit)
                                resultLimit))
          (fun _ => ret tt)
      else ret tt) >>
     (let* found := locals in
      if Js.below (count found.1) resultLimit then
        shared acquireToken >>
        try_catch
          (assign_locals (merge (fun _ => true)
                                (searchReelsViaExplore (reels_page_links a) keyword
                                                       searchLimit)
                                resultLimit))
          (fun _ => ret tt)
      else ret tt)) ->
  (body (s, ([], ∅))).2.2 =
  if negb (has_credentials a) || is_ok (logged_in a) then
    let found1 := hashtag_phase a (Js.ceil (searchLimit / Js.whole (count terms)))
                                resultLimit 0 terms ([], ∅) in
    let explored :=
      if Js.below (count found1.1) resultLimit
      then searchViaExplore (explore_links a) searchLimit else [] in
    let found2 := merge (matches terms) explored resultLimit found1 in
    let reeled :=
      if Js.below (count found2.1) resultLimit
      then searchReelsViaExplore (reels_page_links a) keyword searchLimit else [] in
    merge (fun _ => true) reeled resultLimit found2
  else ([], ∅).
Proof.
  intros terms ->. fold terms.
  set (perTerm := Js.ceil (searchLimit / Js.whole (count terms))).
  unfold bind at 1.
  set (login := if has_credentials a then _ else _).
  match goal with
  | |- context [login ?st] =>
      assert (exists r, login st = (r, st)
                        /\ is_ok r = negb (has_credentials a) || is_ok (logged_in a))
        as (r & Hlogin & Hr)
  end.
  { subst login. destruct (has_credentials a); simpl; [|eexists; split; reflexivity].
    unfold bind, lift. destruct (logged_in a); eexists; split; reflexivity. }
  rewrite Hlogin.
  rewrite <- Hr. destruct r as [[]|msg]; [|reflexivity].
  cbv beta iota. cbn [is_ok]. unfold bind at 1.
  match goal with
  | |- context [term_loop e a perTerm resultLimit 0 terms ?st] =>
      destruct (term_loop_locals e a perTerm resultLimit 0 terms st) as [s1 Hloop]
  end.
  rewrite Hloop. cbn [snd].
  set (found1 := hashtag_phase a perTerm resultLimit 0 terms ([], ∅)).
  unfold bind at 1. unfold bind at 1. unfold locals at 1. simpl.
  destruct (Js.below (count found1.1) resultLimit); simpl.
  - unfold bind, shared, try_catch, assign_locals, locals. simpl.
    destruct (Js.below (count _) resultLimit); reflexivity.
  - unfold bind, locals. simpl.
    destruct (Js.below (count found1.1) resultLimit); reflexivity.
Qed.

Lemma searchPostsByCaption_locals e a keyword searchLimit resultLimit s :
  closed e = Ok tt ->
  exists job s',
    searchPostsByCaption e a keyword searchLimit resultLimit s
    = (Ok (job, final (search_trace e a keyword searchLimit resultLimit)), s').
Proof.
  intros Hclosed. unfold searchPostsByCaption.
  match goal with
  | |- context [@job_flow ?L ?e0 ?k ?p ?ji ?t ?af ?init ?b ?sm] =>
      pose proof (fun s0 => search_body_locals e a keyword searchLimit resultLimit
                              b s0 eq_refl) as Hb;
      cbv zeta in Hb;
      destruct (@job_flow_locals L e0 k p ji t af init b sm _ Hb Hclosed s)
        as (job & s' & Hrun)
  end.
  exists job, s'. rewrite Hrun. do 2 f_equal.
  unfold search_trace, setup_ok.
  destruct (is_ok (launched e)), (is_ok (scripted e)), (is_ok (opened e)); simpl;
    try reflexivity.
  destruct (negb (has_credentials a) || is_ok (logged_in a)); reflexivity.
Qed.



(** *** The claim *)



(** For any result limit, fractions included, the result holds no
    shortcode twice and no more posts than the limit rounded up. *)
Lemma search_result_bounded_by_ceiling
    (e : Common) (a : SearchAnswers) (keyword : string) (searchLimit resultLimit : Q) :
  let t := search_trace e a keyword searchLimit resultLimit in
  NoDup (Hashtag.shortcode <$> (final t).1) /\
  count (final t).1 <= Z.max 0 (Js.ceil resultLimit).
Proof.
  intros t. pose proof (search_trace_tidy e a keyword searchLimit resultLimit)
    as (Hnd & _ & Hcap).
  split; assumption.
Qed.

(** With the result limit 2.5, which the request validation lets
    through, the search returns three posts: every merge loop stops at
    [matchingPosts.length >= resultLimit] and nothing slices the result. *)
Lemma fractional_result_limit_is_exceeded :
  let resultLimit := 5 # 2 in
  exists job found s',
    searchPostsByCaption SearchExamples.answers SearchExamples.four_reels "cat" 10
                         resultLimit (boot ProxyExamples.two_hosts)
    = (Ok (job, found), s') /\
    Hashtag.shortcode <$> found.1 = [Some "AAA111"; Some "BBB222"; Some "CCC333"] /\
    ~ (inject_Z (count found.1) <= resultLimit)%Q.
Proof.
  intros resultLimit.
  destruct (searchPostsByCaption_locals SearchExamples.answers SearchExamples.four_reels
              "cat" 10 resultLimit (boot ProxyExamples.two_hosts) eq_refl)
    as (job & s' & Hrun).
  eexists _, _, _. split; [exact Hrun|].
  split; [vm_compute; reflexivity|].
  vm_compute. intros H. apply H. reflexivity.
Qed.



End SearchFacts.

(* ===================================================================== *)
(** * Further properties of the code *)
(* ===================================================================== *)

Module FlowFacts.

Import Eff Eff.Notations Service Logic LogicFacts SearchFacts Outcome.

Lemma in_progress_robust e kind job_input total :
  robust (jobId e) (in_progress e kind job_input total).
Proof.
  split; try (intros; assumption).
  intros s u Hu (job & Hj & Hst & Hc). unfold updateJob, modify. simpl. rewrite Hj.
  exists (assign job u). simpl. rewrite lookup_insert_eq. split; [reflexivity|].
  rewrite Hu. simpl. split; [exact Hst | exact Hc].
Qed.

Section Skeleton.

Context {L : Type}.
Variables (e : Common) (kind : JobType) (prefix : string) (job_input : JobInput)
          (total : Q) (acquire_first : bool) (init : L)
          (body : M (Sys * L) unit) (summary : L -> option Z * option Z).

(** [R] is what the body guarantees about the locals, [B] what is known
    about its returning ([true]) or throwing ([false]). *)
Variables (R : L -> Prop) (B : bool -> Prop).

Hypothesis body_ok : forall I, robust (jobId e) I -> preserves (on_shared I) body.
Hypothesis body_locals : forall s, R (body (s, init)).2.2.
Hypothesis body_result : forall s, B (is_ok (body (s, init)).1).
Hypothesis closed_ok : closed e = Ok tt.

Let cid := prefix +:+ "_" +:+ jobId e.
Let setup := is_ok (launched e) && is_ok (scripted e) && is_ok (opened e).
Let Mid := in_progress e kind job_input total.
Let kept (l : L) : Prop := if setup then R l else l = init.

Let Thrown (st : Sys * L) : Prop :=
  Mid st.1 /\ (if setup then R st.2 /\ B false else st.2 = init).

Let Done (st : Sys * L) : Prop :=
  exists job, jobs st.1 !! jobId e = Some job /\
    created_as e kind job_input total job /\
    completedAt job = Some (finished_at e) /\
    kept st.2 /\
    ((status job = completed /\ setup = true /\ B true /\ reports (summary st.2) job)
     \/ (status job = failed /\ is_Some (error job) /\ (setup = false \/ B false))).

(** When its context closes, the flow returns its job, created as
    requested and finished either as completed, with the counts of the
    result, or as failed, with an error message. *)
Lemma job_flow_outcome s :
  exists job l s',
    job_flow e kind prefix job_input total acquire_first init body summary s
    = (Ok (Some job, l), s') /\
    jobs s' !! jobId e = Some job /\
    created_as e kind job_input total job /\
    completedAt job = Some (finished_at e) /\
    (if is_ok (launched e) && is_ok (scripted e) && is_ok (opened e)
     then R l else l = init) /\
    ((status job = completed /\
      is_ok (launched e) && is_ok (scripted e) && is_ok (opened e) = true /\
      B true /\ reports (summary l) job)
     \/ (status job = failed /\ is_Some (error job) /\
         (is_ok (launched e) && is_ok (scripted e) && is_ok (opened e) = false
          \/ B false))).
Proof.
  unfold job_flow. fold cid.
  match goal with
  | |- context [match ?flow (s, init) with _ => _ end] => set (run := flow)
  end.
  assert (triple (fun st : Sys * L => st.2 = init) run
                 (fun _ => Done) (fun _ _ => False)) as Hrun.
  { subst run.
    eapply triple_bind with (Q1 := fun _ st => Mid st.1 /\ st.2 = init).
    { intros [s0 l0] Hl. unfold shared, createJob, modify. simpl in *.
      split; [|exact Hl]. subst Mid. unfold in_progress. simpl.
      eexists. rewrite lookup_insert_eq.
      split; [reflexivity|]. repeat split. }
    intros _. eapply triple_finally
      with (Q1 := fun _ => Done) (E1 := fun _ _ => False).
    - eapply triple_try_catch with (E1 := fun _ => Thrown).
      + eapply triple_bind with (Q1 := fun _ st => Mid st.1 /\ st.2 = init).
        { destruct acquire_first; intros [s0 l0] H; exact H. }
        intros _.
        eapply triple_bind with (Q1 := fun _ st => Mid st.1 /\ st.2 = init).
        { intros [s0 l0] H. unfold shared, getNextProxy. simpl.
          destruct (Proxy.getNextProxy _ _) as [proxy p']. exact H. }
        intros proxy. eapply triple_bind with
          (Q1 := fun _ st => (Mid st.1 /\ st.2 = init)
                             /\ is_Some (activeContexts st.1 !! cid)
                             /\ is_ok (launched e) && is_ok (scripted e) = true).
        { intros [s0 l0] H. unfold shared, createContext, bind, lift, modify.
          simpl in *. subst Thrown setup. simpl.
          destruct (launched e) as [[]|msg]; simpl; [|exact H].
          destruct (scripted e) as [[]|msg]; simpl; [|exact H].
          split; [exact H|]. rewrite lookup_insert_eq. eauto. }
        intros _. eapply triple_bind with
          (Q1 := fun _ st => (Mid st.1 /\ st.2 = init) /\ setup = true).
        { intros [s0 l0] (H & [ctx Hctx] & Hl). unfold shared, createPage, bind, get.
          simpl in *. rewrite Hctx. subst Thrown setup. simpl. rewrite Hl.
          unfold lift. destruct (opened e) as [[]|msg]; simpl; auto. }
        intros _. eapply triple_bind with
          (Q1 := fun _ st => Mid st.1 /\ R st.2 /\ B true /\ setup = true).
        { intros [s0 l0] ([Hm Hl] & Hs). simpl in Hl. subst l0.
          pose proof (body_ok Mid (in_progress_robust _ _ _ _) (s0, init) Hm) as Hb.
          pose proof (body_locals s0) as Hr. pose proof (body_result s0) as Hk.
          subst Thrown. simpl. rewrite Hs.
          destruct (body (s0, init)) as [[[]|msg] [s1 l1]]; simpl in *; auto. }
        intros _. eapply triple_bind with
          (Q1 := fun _ st => Mid st.1 /\ R st.2 /\ B true /\ setup = true).
        { intros [s0 l0] H. unfold shared, reportSuccess, modify. simpl.
          destruct ((0 <? consecutiveWarnings s0) && lucky e); exact H. }
        intros _. eapply triple_bind with
          (Q1 := fun _ st => Mid st.1 /\ R st.2 /\ B true /\ setup = true).
        { intros [s0 l0] H. destruct proxy; exact H. }
        intros _. eapply triple_bind with
          (Q1 := fun l st => (Mid st.1 /\ R st.2 /\ B true /\ setup = true)
                             /\ l = st.2).
        { intros [s0 l0] H. simpl. auto. }
        intros l [s0 l0] (((job & Hj & Hst & Hc) & Hr & Hk & Hs) & Hl).
        simpl in *. subst l. unfold shared, updateJob, modify. simpl. rewrite Hj.
        simpl. exists (assign job (completed_update (summary l0).1 (summary l0).2 e)).
        cbn [fst snd jobs set_jobs]. rewrite lookup_insert_eq. split; [reflexivity|].
        split; [exact Hc|]. split; [reflexivity|].
        split; [subst kept; simpl; rewrite Hs; exact Hr|].
        left. repeat split; auto.
        * intros n Hn. simpl. rewrite Hn. reflexivity.
        * intros n Hn. simpl. rewrite Hn. reflexivity.
      + intros msg. eapply triple_bind with (Q1 := fun _ => Thrown).
        { intros [s0 l0] H. exact H. }
        intros _ [s0 l0] ((job & Hj & Hst & Hc) & Hl).
        simpl in *. unfold shared, updateJob, modify. simpl. rewrite Hj. simpl.
        exists (assign job (failed_update msg e)).
        cbn [fst snd jobs set_jobs]. rewrite lookup_insert_eq. split; [reflexivity|].
        split; [exact Hc|]. split; [reflexivity|].
        split; [subst kept; simpl; destruct setup; tauto|].
        right. split; [reflexivity|]. split; [simpl; eauto|].
        destruct setup; tauto.
    - intros _ [s0 l0] H. unfold shared, closeContext, bind, get, lift. simpl.
      rewrite closed_ok.
      destruct (activeContexts s0 !! cid); exact H.
    - intros msg st []. }
  specialize (Hrun (s, init) eq_refl).
  destruct (run (s, init)) as [[[]|msg] [s' l]]; [|destruct Hrun].
  destruct Hrun as (job & Hj & Hc & Ht & Hk & Hout). simpl in *.
  exists job, l, s'. rewrite Hj.
  split; [reflexivity|]. split; [reflexivity|]. split; [exact Hc|].
  split; [exact Ht|]. split; [exact Hk | exact Hout].
Qed.

End Skeleton.

(** A flow leaves its job finished in the store, whatever is answered;
    it returns that job, unless the close of its context throws. *)
Lemma job_flow_finishes {L} (e : Common) kind prefix job_input total
    acquire_first (init : L) body summary s :
  (forall I, robust (jobId e) I -> preserves (on_shared I) body) ->
  let cid := prefix +:+ "_" +:+ jobId e in
  let out := job_flow e kind prefix job_input total acquire_first init body summary s in
  exists job,
    settled e job /\ jobs out.2 !! jobId e = Some job /\
    ((exists l, out.1 = Ok (Some job, l))
     \/ (exists msg, closed e = Throw msg /\ out.1 = Throw msg /\
                     is_Some (activeContexts out.2 !! cid))) /\
    (closed e = Ok tt -> exists l, out.1 = Ok (Some job, l)).
Proof.
  intros Hok cid out. subst out.
  set (Mid := fun s : Sys => exists job, jobs s !! jobId e = Some job
                                        /\ id job = jobId e).
  set (Done := fun s : Sys => exists job, jobs s !! jobId e = Some job
                                         /\ settled e job).
  assert (robust (jobId e) Mid) as Hrobust.
  { split; try (intros; assumption).
    intros s0 u _ (job & Hj & Hid). unfold updateJob, modify. simpl. rewrite Hj.
    exists (assign job u). simpl. rewrite lookup_insert_eq. auto. }
  assert (match job_flow e kind prefix job_input total acquire_first init body
                 summary s with
          | (Ok (job, l), s') => job = jobs s' !! jobId e /\ Done s'
          | (Throw msg, s') =>
              Done s' /\ closed e = Throw msg /\ is_Some (activeContexts s' !! cid)
          end) as Hrun.
  { apply (job_flow_spec e kind prefix job_input total acquire_first init body
             summary (fun _ => True) Mid Mid Done Done
             (fun msg s' => Done s' /\ closed e = Throw msg
                            /\ is_Some (activeContexts s' !! cid))).
    - exact Hrobust.
    - intros s0 _. unfold Mid, createJob, modify. simpl. eexists.
      rewrite lookup_insert_eq. split; reflexivity.
    - intros s0 p H0. exact H0.
    - intros s0 proxy H0. unfold createContext, bind, lift, modify.
      destruct (launched e) as [[]|m1]; simpl; [|exact H0].
      destruct (scripted e) as [[]|m2]; exact H0.
    - intros s0 u Hu (job & Hj & Hid). unfold Done, updateJob, modify. simpl.
      rewrite Hj.
      exists (assign job u). simpl. rewrite lookup_insert_eq. split; [reflexivity|].
      unfold settled.
      destruct Hu as [(a & b & ->) | (msg & ->)]; simpl; repeat split; eauto.
    - intros s0 H0. fold cid. unfold closeContext, bind, get, lift.
      destruct (activeContexts s0 !! cid) as [ctx|] eqn:Ectx; [|exact H0].
      destruct (closed e) as [[]|msg]; simpl; [exact H0|].
      split; [exact H0|]. split; [reflexivity|]. rewrite Ectx. eauto.
    - apply Hok, Hrobust.
    - exact I. }
  destruct (job_flow _ _ _ _ _ _ _ _ _ s) as [[[read l]|msg] s']; simpl.
  - destruct Hrun as (-> & job & Hj & Hs). exists job. rewrite Hj.
    split; [exact Hs|]. split; [reflexivity|]. split; [left; eauto | eauto].
  - destruct Hrun as ((job & Hj & Hs) & Hc & Hreg). exists job.
    split; [exact Hs|]. split; [exact Hj|].
    split; [right; exists msg; auto | intros H; congruence].
Qed.

(** X1.  Each of the seven operations leaves, whatever the browser and
    the strategies answer, the job it created finished in the store: the
    job is in the store under the generated id, carries that id and a
    completion time, and its status is completed or failed, never pending
    or processing; a failed job carries an error message.  The operation
    returns that job, unless the close of its context throws: then the
    operation throws that error and the context stays registered. *)
Theorem operation_finishes_its_job (e : Common) (op : Operation) (s : Sys) :
  let out := exec e op s in
  exists job,
    jobs out.2 !! jobId e = Some job /\
    id job = jobId e /\
    completedAt job = Some (finished_at e) /\
    (status job = completed \/ (status job = failed /\ is_Some (error job))) /\
    (out.1 = Ok (Some job)
     \/ (exists msg, closed e = Throw msg /\ out.1 = Throw msg /\
                     is_Some (activeContexts out.2 !! contextId e op))) /\
    (closed e = Ok tt -> out.1 = Ok (Some job)).
Proof.
  intros out. subst out.
  destruct op; unfold exec, contextId; cbn [prefix_of];
    unfold scrapeProfile, scrapeHashtag, scrapePost, scrapeComments,
      scrapeReels, searchPostsByCaption, scrapeDirectUrls;
    match goal with
    | |- context [job_of (@job_flow ?L ?e0 ?k ?p ?ji ?t ?af ?init ?b ?sm s)] =>
        assert (forall Inv, robust (jobId e) Inv -> preserves (on_shared Inv) b)
          as Hok by (intros Inv HI; flow_body HI);
        destruct (@job_flow_finishes L e0 k p ji t af init b sm s Hok)
          as (job & (Hid & Ht & Hst) & Hj & Hout & Hret);
        destruct (@job_flow L e0 k p ji t af init b sm s) as [[[j l]|m] s'] eqn:Erun
    end; cbn [job_of fst snd] in *; exists job;
    (split; [exact Hj|]); (split; [exact Hid|]); (split; [exact Ht|]);
    (split; [exact Hst|]); split.
  all: try (destruct Hout as [[l0 [= -> _]] | (msg & Hc & [=] & _)]; left; reflexivity).
  all: try (destruct Hout as [[l0 [=]] | (msg & Hc & [= ->] & Hreg)];
            right; exists msg; auto).
  all: try (intros Hc; destruct (Hret Hc) as [l0 [= -> _]]; reflexivity).
  all: try (intros Hc; destruct (Hret Hc) as [l0 [=]]).
Qed.

(** When the context or the page cannot be created, the flow never
    reaches its body: it returns the initial result and the job as failed,
    with the message of the exception. *)
Lemma job_flow_setup_fails {L} (e : Common) kind prefix job_input total
    acquire_first (init : L) body summary s msg :
  launched e = Throw msg
  \/ (launched e = Ok tt /\ scripted e = Throw msg)
  \/ (launched e = Ok tt /\ scripted e = Ok tt /\ opened e = Throw msg) ->
  closed e = Ok tt ->
  exists job s',
    job_flow e kind prefix job_input total acquire_first init body summary s
    = (Ok (Some job, init), s') /\
    status job = failed /\ error job = Some msg /\
    scrapedItems job = 0 /\ progress job = 0.
Proof.
  intros H Hc. unfold job_flow.
  destruct acquire_first;
    unfold bind, finally, try_catch, shared, createJob, modify, acquireToken, ret,
      getNextProxy;
    cbn [fst snd pool set_jobs];
    destruct (Proxy.getNextProxy (proxy_used_at e) (pool s)) as [proxy p'];
    unfold createContext, createPage, bind, lift, modify, get, throw, reportWarning,
      updateJob, closeContext, ret;
    rewrite Hc;
    (destruct H as [Hl | [[Hl Hs] | (Hl & Hs & Ho)]]; rewrite Hl; try rewrite Hs;
     cbn -[insert lookup delete]);
    repeat first [ rewrite lookup_insert_eq | rewrite Ho
                 | progress cbn -[insert lookup delete] ];
    try (destruct (activeContexts s !! _); cbn -[insert lookup delete]);
    repeat first [ rewrite lookup_insert_eq | progress cbn -[insert lookup delete] ];
    eexists _, _; (split; [reflexivity|]); repeat split.
Qed.

(** X2.  When the creation of the browser context (the opening of the
    context or the installation of its scripts), or after it the creation
    of the page, throws, each of the seven operations returns its job as
    failed with the message of that exception, nothing scraped and no
    progress; no strategy is asked anything.  The close of a context that
    is registered under the id is taken to succeed. *)
Theorem setup_failure_fails_job (e : Common) (op : Operation) (s : Sys) (msg : string) :
  launched e = Throw msg
  \/ (launched e = Ok tt /\ scripted e = Throw msg)
  \/ (launched e = Ok tt /\ scripted e = Ok tt /\ opened e = Throw msg) ->
  closed e = Ok tt ->
  exists job s',
    exec e op s = (Ok (Some job), s') /\
    status job = failed /\ error job = Some msg /\
    scrapedItems job = 0 /\ progress job = 0.
Proof.
  intros H Hc.
  destruct op; unfold exec, scrapeProfile, scrapeHashtag, scrapePost, scrapeComments,
    scrapeReels, searchPostsByCaption, scrapeDirectUrls;
    match goal with
    | |- context [job_of (@job_flow ?L ?e0 ?k ?p ?ji ?t ?af ?init ?b ?sm s)] =>
        destruct (@job_flow_setup_fails L e0 k p ji t af init b sm s msg H Hc)
          as (job & s' & Hrun & Hrest);
        rewrite Hrun
    end; simpl; exists job, s'; (split; [reflexivity | exact Hrest]).
Qed.

Lemma setup_failure_fails_job_witness :
  let e := answers_at "job_1700000000001_xyz9876" (Throw "Target closed") in
  let op := Comments (Ok []) "CxYz123ABC" 50 in
  let s := boot ProxyExamples.two_hosts in
  ((launched e = Throw "Target closed"
    \/ (launched e = Ok tt /\ scripted e = Throw "Target closed")
    \/ (launched e = Ok tt /\ scripted e = Ok tt /\ opened e = Throw "Target closed"))
   /\ closed e = Ok tt) /\
  exists job s',
    exec e op s = (Ok (Some job), s') /\
    status job = failed /\ error job = Some "Target closed" /\
    scrapedItems job = 0 /\ progress job = 0.
Proof.
  intros e op s.
  assert (launched e = Throw "Target closed"
          \/ (launched e = Ok tt /\ scripted e = Throw "Target closed")
          \/ (launched e = Ok tt /\ scripted e = Ok tt
              /\ opened e = Throw "Target closed")) as H
      by (right; right; repeat split; reflexivity).
  assert (closed e = Ok tt) as Hc by reflexivity.
  split; [split; assumption|].
  exact (setup_failure_fails_job e op s "Target closed" H Hc).
Defined.

(** *** The hashtag operation *)

Lemma slice_sublist {A} (l : list A) (start stop : Z) :
  Js.slice l start stop `sublist_of` l.
Proof.
  unfold Js.slice. etrans; [apply sublist_take | apply sublist_drop].
Qed.

Lemma sublist_fmap_NoDup {A B} (f : A -> B) (l1 l2 : list A) :
  l1 `sublist_of` l2 -> NoDup (f <$> l2) -> NoDup (f <$> l1).
Proof.
  intros Hs Hnd. apply (sublist_NoDup _ (f <$> l2)); [exact Hnd|]. clear Hnd.
  induction Hs; simpl; [constructor | apply sublist_skip | apply sublist_cons];
    assumption.
Qed.

Lemma slice_window_count {A} (l : list A) (start n : Z) :
  0 <= start -> 0 <= n -> count (Js.slice l start (start + n)) <= n.
Proof.
  intros Hs Hn. unfold Js.slice, Js.clamp_index, count.
  rewrite length_take.
  destruct (start <? 0) eqn:E1; [apply Z.ltb_lt in E1; lia|].
  destruct (start + n <? 0) eqn:E2; [apply Z.ltb_lt in E2; lia|].
  lia.
Qed.

Lemma run_chain_result d tag limit s :
  (run_chain d tag limit s).1 = (Hashtag.scrapeHashtag d tag limit []).1.
Proof.
  unfold run_chain.
  rewrite <- (HashtagFacts.scrapeHashtag_log_free d tag limit (strategy_log s)).
  destruct (Hashtag.scrapeHashtag d tag limit (strategy_log s)). reflexivity.
Qed.

(** The hashtag operation, for any limit and page: what it returns is
    the window of the chain's result, and its job is completed exactly
    when the setup and the chain did not throw. *)
Lemma hashtag_flow_window (e : Common) (d : Hashtag.Driver) (tag : string)
    (limit page : Q) (s : Sys) :
  closed e = Ok tt ->
  let offset := ((page - 1) * limit)%Q in
  let chain := (Hashtag.scrapeHashtag d tag (offset + limit) []).1 in
  let window :=
    match chain with
    | Ok r => (Hashtag.hashtagData r,
               Js.slice (Hashtag.posts r) (Js.trunc offset) (Js.trunc (offset + limit)))
    | Throw _ => (None, [])
    end in
  let setup := is_ok (launched e) && is_ok (scripted e) && is_ok (opened e) in
  exists job result s',
    scrapeHashtag e d tag limit page s = (Ok (Some job, result), s') /\
    result = (if setup then window else (None, [])) /\
    ((status job = completed /\ setup && is_ok chain = true /\
      scrapedItems job = count result.2 /\ progress job = 100)
     \/ (status job = failed /\ setup && is_ok chain = false)).
Proof.
  intros Hclosed offset chain window setup.
  assert (chain = (Hashtag.scrapeHashtag d tag (offset + limit) []).1)
    as Hchain by reflexivity.
  clearbody chain. unfold scrapeHashtag. fold offset.
  set (R := fun l : option Hashtag.HashtagData * list PostData => l = window).
  set (B := fun ok : bool => ok = is_ok chain).
  match goal with
  | |- context [@job_flow ?L ?e0 ?k ?p ?ji ?t ?af ?init ?b ?sm s] =>
      assert (forall Inv, robust (jobId e) Inv -> preserves (on_shared Inv) b)
        as Hok by (intros Inv HI; flow_body HI);
      assert (forall s0, R (b (s0, init)).2.2 /\ B (is_ok (b (s0, init)).1)) as Hb;
      [| destruct (@job_flow_outcome L e0 k p ji t af init b sm R B Hok
                     (fun s0 => proj1 (Hb s0)) (fun s0 => proj2 (Hb s0)) Hclosed s)
           as (job & result & s' & Hrun & Hj & Hc & Ht & Hkept & Hout) ]
  end.
  { intros s0. unfold bind, shared, assign_locals. cbn [fst snd].
    pose proof (run_chain_result d tag (offset + limit)%Q s0) as Hr.
    rewrite <- Hchain in Hr.
    destruct (run_chain d tag (offset + limit)%Q s0) as [r s1].
    simpl in Hr. subst r. subst R B window. simpl. destruct chain; simpl; auto. }
  clear Hb. fold setup in Hkept, Hout. subst R B. cbn beta in *.
  exists job, result, s'. split; [exact Hrun|]. split.
  { destruct setup; exact Hkept. }
  destruct Hout as [(Hst & Hs & Hk & H1 & H2) | (Hst & _ & [Hs | Hk])].
  - left. split; [exact Hst|]. rewrite Hs, <- Hk.
    split; [reflexivity|]. simpl in *.
    split; [apply H1 | apply H2]; reflexivity.
  - right. split; [exact Hst|]. rewrite Hs. reflexivity.
  - right. split; [exact Hst|]. rewrite <- Hk. apply andb_false_r.
Qed.

(** On whole numbers the offset and the total of a page are computed
    without a fraction. *)
Lemma whole_window (limit page : Z) :
  ((Js.whole page - 1) * Js.whole limit)%Q = Js.whole ((page - 1) * limit) /\
  ((Js.whole page - 1) * Js.whole limit + Js.whole limit)%Q
  = Js.whole ((page - 1) * limit + limit).
Proof.
  unfold Js.whole, inject_Z, Qminus, Qplus, Qmult, Qopp. simpl.
  split; f_equal; lia.
Qed.

(** X3.  For a whole limit that is not negative and a whole page number
    of at least 1, the hashtag operation whose context closes returns at
    most [limit] posts with pairwise distinct shortcodes.  Its job is
    completed exactly when the context, the page and the strategy chain
    did not throw; it then reports as scraped the number of posts
    returned, with progress 100, and the posts are the window from
    [(page - 1) * limit] to [page * limit] of what the chain returned when
    asked for [page * limit] posts. *)
Theorem hashtag_page_is_a_window
    (e : Common) (d : Hashtag.Driver) (tag : string) (limit page : Z) (s : Sys) :
  0 <= limit -> 1 <= page ->
  closed e = Ok tt ->
  let offset := (page - 1) * limit in
  let chain := (Hashtag.scrapeHashtag d tag (Js.whole (offset + limit)) []).1 in
  exists job hd posts s',
    scrapeHashtag e d tag (Js.whole limit) (Js.whole page) s
    = (Ok (Some job, (hd, posts)), s') /\
    count posts <= limit /\
    NoDup (Hashtag.shortcode <$> posts) /\
    (status job = completed <->
     is_ok (launched e) && is_ok (scripted e) && is_ok (opened e) && is_ok chain
     = true) /\
    (status job = completed ->
     scrapedItems job = count posts /\ progress job = 100 /\
     exists r, chain = Ok r /\ hd = Hashtag.hashtagData r /\
               posts = Js.slice (Hashtag.posts r) offset (offset + limit)).
Proof.
  intros Hlimit Hpage Hclosed offset chain.
  destruct (hashtag_flow_window e d tag (Js.whole limit) (Js.whole page) s Hclosed)
    as (job & [hd posts] & s' & Hrun & Hres & Hout).
  revert Hres Hout. cbv zeta.
  destruct (whole_window limit page) as [-> ->]. fold offset. fold chain.
  rewrite !JsFacts.trunc_whole.
  set (setup := is_ok (launched e) && is_ok (scripted e) && is_ok (opened e)).
  intros Hres Hout. cbn [snd] in Hout.
  assert (count posts <= limit /\ NoDup (Hashtag.shortcode <$> posts)) as [Hcount Hnd].
  { destruct setup;
      [|injection Hres as -> ->; split; [unfold count; simpl; lia | constructor]].
    subst chain.
    destruct (Hashtag.scrapeHashtag d tag (Js.whole (offset + limit)) [])
      as [c log] eqn:E.
    simpl in Hres. destruct c as [r|msg]; injection Hres as -> ->.
    - split; [apply slice_window_count; subst offset; nia|].
      apply (sublist_fmap_NoDup _ _ (Hashtag.posts r)); [apply slice_sublist|].
      apply (HashtagFacts.scrapeHashtag_good _ _ _ _ _ _ E).
    - split; [unfold count; simpl; lia | constructor]. }
  exists job, hd, posts, s'. split; [exact Hrun|].
  split; [exact Hcount|]. split; [exact Hnd|]. split.
  - destruct Hout as [(Hst & Hall & _) | (Hst & Hno)]; rewrite Hst.
    + split; [intros _; exact Hall | reflexivity].
    + rewrite Hno. split; discriminate.
  - intros Hst. destruct Hout as [(_ & Hall & H1 & H2) | (Hf & _)]; [|congruence].
    split; [exact H1|]. split; [exact H2|].
    apply andb_true_iff in Hall as [Hs Hk]. rewrite Hs in Hres.
    destruct chain as [r|msg]; [|discriminate].
    injection Hres as -> ->. eauto.
Qed.

(** With the limit 1.5, which the request validation lets through, the
    second page is [slice(1.5, 3)] of three posts: two posts, more than
    the limit. *)
Lemma fractional_window_is_exceeded :
  let e := answers_at "job_1700000000000_abc1234" (Ok tt) in
  let limit := 3 # 2 in
  exists job hd posts s',
    scrapeHashtag e Hashtag.docid_driver "travel" limit 2
                  (boot ProxyExamples.two_hosts)
    = (Ok (Some job, (hd, posts)), s') /\
    status job = completed /\
    Hashtag.shortcode <$> posts = [Some "DaBc456DEF"; Some "EfGh789GHI"] /\
    ~ (inject_Z (count posts) <= limit)%Q.
Proof.
  intros e limit.
  destruct (hashtag_flow_window e Hashtag.docid_driver "travel" limit 2
              (boot ProxyExamples.two_hosts) eq_refl)
    as (job & [hd posts] & s' & Hrun & Hres & Hout).
  assert (Hashtag.shortcode <$> posts = [Some "DaBc456DEF"; Some "EfGh789GHI"])
    as Hposts.
  { apply (f_equal snd) in Hres. cbn [snd] in Hres. rewrite Hres.
    vm_compute. reflexivity. }
  exists job, hd, posts, s'. split; [exact Hrun|]. split.
  { destruct Hout as [(Hst & _) | (_ & Hno)]; [exact Hst|].
    vm_compute in Hno. discriminate. }
  split; [exact Hposts|].
  assert (count posts = 2) as ->.
  { unfold count. rewrite <- (length_fmap Hashtag.shortcode), Hposts. reflexivity. }
  vm_compute. intros H. apply H. reflexivity.
Qed.

Lemma hashtag_page_is_a_window_witness :
  let e := answers_at "job_1700000000000_abc1234" (Ok tt) in
  let s := boot ProxyExamples.two_hosts in
  (0 <= 1 /\ 1 <= 2 /\ closed e = Ok tt) /\
  exists job hd posts s',
    scrapeHashtag e Hashtag.stub_driver "travel" (Js.whole 1) (Js.whole 2) s
    = (Ok (Some job, (hd, posts)), s') /\
    count posts <= 1 /\
    NoDup (Hashtag.shortcode <$> posts) /\
    (status job = completed <->
     is_ok (launched e) && is_ok (scripted e) && is_ok (opened e)
     && is_ok (Hashtag.scrapeHashtag Hashtag.stub_driver "travel"
                 (Js.whole (1 + 1)) []).1 = true) /\
    (status job = completed ->
     scrapedItems job = count posts /\ progress job = 100 /\
     exists r, (Hashtag.scrapeHashtag Hashtag.stub_driver "travel"
                  (Js.whole (1 + 1)) []).1 = Ok r /\
               hd = Hashtag.hashtagData r /\
               posts = Js.slice (Hashtag.posts r) 1 (1 + 1)).
Proof.
  intros e s.
  assert (0 <= 1) as H1 by lia.
  assert (1 <= 2) as H2 by lia.
  assert (closed e = Ok tt) as H3 by reflexivity.
  split; [repeat split; assumption|].
  exact (hashtag_page_is_a_window e Hashtag.stub_driver "travel" 1 2 s H1 H2 H3).
Defined.

(** *** The search operation *)

(** The body of the search throws only when the login does. *)
Lemma search_body_returns (e : Common) (a : SearchAnswers)
    (keyword : string) (searchLimit resultLimit : Q) (body : M (Sys * Found) unit) s :
  let terms := searchTerms keyword in
  body =
    ((if has_credentials a then let* _ := lift (logged_in a) in ret tt else ret tt) >>
     term_loop e a (Js.ceil (searchLimit / Js.whole (count terms))) resultLimit 0 terms >>
     (let* found := locals in
      if Js.below (count found.1) resultLimit then
        shared acquireToken >>
        try_catch
          (assign_locals (merge (matches terms)
                                (searchViaExplore (explore_links a) searchLimit)
                                resultLimit))
          (fun _ => ret tt)
      else ret tt) >>
     (let* found := locals in
      if Js.below (count found.1) resultLimit then
        shared acquireToken >>
        try_catch
          (assign_locals (merge (fun _ => true)
                                (searchReelsViaExplore (reels_page_links a) keyword
                                                       searchLimit)
                                resultLimit))
          (fun _ => ret tt)
      else ret tt)) ->
  is_ok (body (s, ([], ∅))).1 = negb (has_credentials a) || is_ok (logged_in a).
Proof.
  intros terms ->. fold terms.
  set (perTerm := Js.ceil (searchLimit / Js.whole (count terms))).
  unfold bind at 1.
  set (login := if has_credentials a then _ else _).
  match goal with
  | |- context [login ?st] =>
      assert (exists r, login st = (r, st)
                        /\ is_ok r = negb (has_credentials a) || is_ok (logged_in a))
        as (r & Hlogin & Hr)
  end.
  { subst login. destruct (has_credentials a); simpl; [|eexists; split; reflexivity].
    unfold bind, lift. destruct (logged_in a); eexists; split; reflexivity. }
  rewrite Hlogin.
  rewrite <- Hr. destruct r as [[]|msg]; [|reflexivity].
  cbv beta iota. cbn [is_ok]. unfold bind at 1.
  match goal with
  | |- context [term_loop e a perTerm resultLimit 0 terms ?st] =>
      destruct (term_loop_locals e a perTerm resultLimit 0 terms st) as [s1 Hloop]
  end.
  rewrite Hloop. cbn [snd].
  set (found1 := hashtag_phase a perTerm resultLimit 0 terms ([], ∅)).
  unfold bind at 1. unfold bind at 1. unfold locals at 1. simpl.
  destruct (Js.below (count found1.1) resultLimit); simpl.
  - unfold bind, shared, try_catch, assign_locals, locals. simpl.
    destruct (Js.below (count _) resultLimit); reflexivity.
  - unfold bind, locals. simpl.
    destruct (Js.below (count found1.1) resultLimit); reflexivity.
Qed.

(** X4.  The global search whose context closes fails only when its
    context, its page or its login throws: a hashtag chain that throws for
    a term, an explore page or a reels page that does not load are
    absorbed, and the job is completed.  A completed search reports as
    scraped the number of posts it returns, with progress 100; a failed
    search returns no post. *)
Theorem search_fails_only_at_setup
    (e : Common) (a : SearchAnswers) (keyword : string)
    (searchLimit resultLimit : Q) (s : Sys) :
  closed e = Ok tt ->
  exists job posts seen s',
    searchPostsByCaption e a keyword searchLimit resultLimit s
    = (Ok (Some job, (posts, seen)), s') /\
    (status job = completed <-> setup_ok e a = true) /\
    (status job = completed -> scrapedItems job = count posts /\ progress job = 100) /\
    (status job = failed -> posts = []).
Proof.
  intros Hclosed.
  destruct (searchPostsByCaption_locals e a keyword searchLimit resultLimit s Hclosed)
    as (job0 & s0 & Hrun0).
  revert Hrun0. unfold searchPostsByCaption.
  set (B := fun ok : bool => ok = negb (has_credentials a) || is_ok (logged_in a)).
  match goal with
  | |- context [@job_flow ?L ?e0 ?k ?p ?ji ?t ?af ?init ?b ?sm s] =>
      assert (forall Inv, robust (jobId e) Inv -> preserves (on_shared Inv) b)
        as Hok by (intros Inv HI; flow_body HI);
      pose proof (fun s1 => search_body_returns e a keyword searchLimit resultLimit
                              b s1 eq_refl) as Hb;
      cbv zeta in Hb;
      destruct (@job_flow_outcome L e0 k p ji t af init b sm (fun _ => True) B Hok
                  (fun _ => I) Hb Hclosed s)
        as (job & [posts seen] & s' & Hrun & Hj & Hc & Ht & _ & Hout)
  end.
  rewrite Hrun. intros [= _ Hfinal _].
  exists job, posts, seen, s'. split; [reflexivity|].
  assert (setup_ok e a = false -> posts = []) as Hempty.
  { intros Hno. assert ((posts, seen).1 = []) as H; [|exact H].
    rewrite Hfinal. unfold search_trace. rewrite Hno. reflexivity. }
  unfold setup_ok. unfold setup_ok in Hempty. subst B. simpl in Hout.
  destruct Hout as [(Hst & Hs & Hk & Hrep) | (Hst & _ & Hwhy)]; rewrite Hst.
  - split; [split; [intros _; rewrite Hs, <- Hk; reflexivity | reflexivity]|].
    split; [|discriminate]. intros _. destruct Hrep as [H1 H2]. simpl in *.
    split; [apply H1 | apply H2]; reflexivity.
  - assert (is_ok (launched e) && is_ok (scripted e) && is_ok (opened e)
            && (negb (has_credentials a) || is_ok (logged_in a)) = false) as Hno.
    { destruct Hwhy as [-> | <-]; [reflexivity | apply andb_false_r]. }
    split; [split; [discriminate | rewrite Hno; discriminate]|].
    split; [discriminate|]. intros _. apply Hempty, Hno.
Qed.

Lemma search_fails_only_at_setup_witness :
  let e := answers_at "job_1700000000002_srch123" (Ok tt) in
  let a := SearchExamples.four_reels in
  let s := boot ProxyExamples.two_hosts in
  closed e = Ok tt /\
  exists job posts seen s',
    searchPostsByCaption e a "cat" 10 (5 # 2) s
    = (Ok (Some job, (posts, seen)), s') /\
    (status job = completed <-> setup_ok e a = true) /\
    (status job = completed -> scrapedItems job = count posts /\ progress job = 100) /\
    (status job = failed -> posts = []).
Proof.
  intros e a s.
  assert (closed e = Ok tt) as H by reflexivity.
  split; [exact H|].
  exact (search_fails_only_at_setup e a "cat" 10 (5 # 2) s H).
Defined.

(** *** The direct-URL operation *)

(** One turn of the loop never throws and appends at most one entry, for
    the URL of the turn. *)
Lemma url_turn (e : Common) (a : UrlAnswers) (postsLimit : Q)
    (includeComments : bool) (total : Z) (i : nat) (url : string)
    (rest : list string) (st : Sys * list UrlResult) :
  exists s1 l1,
    url_loop e a postsLimit includeComments total i (url :: rest) st
    = url_loop e a postsLimit includeComments total (S i) rest (s1, l1) /\
    (l1 = st.2 \/ exists r, l1 = st.2 ++ [r] /\ url_of r = url).
Proof.
  destruct st as [s0 l0]. cbn [url_loop].
  unfold bind at 1. unfold shared at 1, acquireToken at 1, ret at 1. cbn [fst snd].
  unfold bind at 1.
  match goal with
  | |- context [try_catch ?b ?h (s0, l0)] =>
      assert (exists s1 l1, try_catch b h (s0, l0) = (Ok tt, (s1, l1)) /\
                (l1 = l0 \/ exists r, l1 = l0 ++ [r] /\ url_of r = url))
        as (s1 & l1 & -> & Hl)
  end.
  { unfold try_catch, bind, shared, lift, push_result, assign_locals, updateJob,
      modify, run_chain, ret.
    cbn [fst snd].
    repeat (cbn [fst snd];
            match goal with
            | |- context [if Str.includes ?u ?p || Str.includes ?u ?q then _ else _] =>
                destruct (Str.includes u p || Str.includes u q)
            | |- context [if profile_like ?u then _ else _] => destruct (profile_like u)
            | |- context [if Str.includes ?u ?p then _ else _] =>
                destruct (Str.includes u p)
            | |- context [if includeComments then _ else _] => destruct includeComments
            | |- context [match Str.group_after ?p ?c ?u with _ => _ end] =>
                destruct (Str.group_after p c u)
            | |- context [match url_post ?x ?k with _ => _ end] =>
                destruct (url_post x k) as [[?|]|?]
            | |- context [match url_comments ?x ?k with _ => _ end] =>
                destruct (url_comments x k)
            | |- context [match url_profile ?x ?k with _ => _ end] =>
                destruct (url_profile x k)
            | |- context [match url_profile_posts ?x ?k with _ => _ end] =>
                destruct (url_profile_posts x k)
            | |- context [Hashtag.scrapeHashtag ?d ?t ?l ?log] =>
                destruct (Hashtag.scrapeHashtag d t l log) as [[?|?] ?]
            | |- context [jobs ?s !! ?k] => destruct (jobs s !! k)
            end);
      cbn [fst snd]; eexists _, _; (split; [reflexivity|]);
      first [ left; reflexivity | right; eexists; split; reflexivity ]. }
  exists s1, l1. split; [reflexivity | exact Hl].
Qed.

Lemma url_loop_run (e : Common) (a : UrlAnswers) (postsLimit : Q)
    (includeComments : bool) (total : Z) (urls : list string) :
  forall (i : nat) (st : Sys * list UrlResult),
  exists s' extra,
    url_loop e a postsLimit includeComments total i urls st
    = (Ok tt, (s', st.2 ++ extra)) /\
    (url_of <$> extra) `sublist_of` urls.
Proof.
  induction urls as [|url rest IH]; intros i st.
  - exists st.1, []. rewrite app_nil_r. destruct st. split; [reflexivity|constructor].
  - destruct (url_turn e a postsLimit includeComments total i url rest st)
      as (s1 & l1 & -> & Hl).
    destruct (IH (S i) (s1, l1)) as (s' & extra & -> & Hsub). cbn [snd].
    destruct Hl as [-> | (r & -> & Hr)].
    + exists s', extra. split; [reflexivity|]. apply sublist_cons, Hsub.
    + exists s', (r :: extra). rewrite <- app_assoc. split; [reflexivity|].
      simpl. rewrite Hr. apply sublist_skip, Hsub.
Qed.

(** X5.  The direct-URL operation whose context closes returns its
    entries in the order of the URLs, at most one for each URL.  A URL
    whose scrape throws yields an entry of its own and does not stop the
    loop: the job is completed exactly when the context and the page were
    created.  A completed job reports as scraped the number of entries,
    with progress 100, and the number of URLs as its total. *)
Theorem direct_urls_entries_follow_urls
    (e : Common) (a : UrlAnswers) (urls : list string) (postsLimit : Q)
    (includeComments : bool) (s : Sys) :
  closed e = Ok tt ->
  exists job results s',
    scrapeDirectUrls e a urls postsLimit includeComments s
    = (Ok (Some job, results), s') /\
    (url_of <$> results) `sublist_of` urls /\
    count results <= count urls /\
    totalItems job = Js.whole (count urls) /\
    (status job = completed <->
     is_ok (launched e) && is_ok (scripted e) && is_ok (opened e) = true) /\
    (status job = completed -> scrapedItems job = count results /\ progress job = 100).
Proof.
  intros Hclosed. unfold scrapeDirectUrls.
  set (R := fun l : list UrlResult => (url_of <$> l) `sublist_of` urls).
  set (B := fun ok : bool => ok = true).
  match goal with
  | |- context [@job_flow ?L ?e0 ?k ?p ?ji ?t ?af ?init ?b ?sm s] =>
      assert (forall Inv, robust (jobId e) Inv -> preserves (on_shared Inv) b)
        as Hok by (intros Inv HI; flow_body HI);
      assert (forall s0, R (b (s0, init)).2.2 /\ B (is_ok (b (s0, init)).1)) as Hb;
      [| destruct (@job_flow_outcome L e0 k p ji t af init b sm R B Hok
                     (fun s0 => proj1 (Hb s0)) (fun s0 => proj2 (Hb s0)) Hclosed s)
           as (job & results & s' & Hrun & Hj & Hc & Ht & Hkept & Hout) ]
  end.
  { intros s0.
    destruct (url_loop_run e a postsLimit includeComments (count urls) urls 0%nat
                (s0, [])) as (s1 & extra & -> & Hsub).
    split; [exact Hsub | reflexivity]. }
  clear Hb. exists job, results, s'. split; [exact Hrun|].
  assert (R results) as Hsub.
  { destruct (is_ok (launched e) && is_ok (scripted e) && is_ok (opened e));
      [exact Hkept|].
    subst results. apply sublist_nil_l. }
  split; [exact Hsub|]. split.
  { apply sublist_length in Hsub. rewrite length_fmap in Hsub. unfold count. lia. }
  split; [apply Hc|]. subst B. simpl in Hout.
  destruct Hout as [(Hst & Hs & _ & Hrep) | (Hst & _ & [Hs | Hk])]; rewrite Hst.
  - split; [split; [intros _; exact Hs | reflexivity]|].
    intros _. destruct Hrep as [H1 H2]. simpl in *.
    split; [apply H1 | apply H2]; reflexivity.
  - rewrite Hs. split; [split; discriminate | discriminate].
  - discriminate.
Qed.

Lemma direct_urls_entries_follow_urls_witness :
  let e := answers_at "job_1700000000003_urls123" (Ok tt) in
  let a := {| url_post := fun _ => Throw "Timeout 30000ms exceeded";
              url_comments := fun _ => Ok [];
              url_profile := fun _ => Ok None;
              url_profile_posts := fun _ => Ok [];
              url_driver := fun _ => Hashtag.stub_driver |} in
  let urls := ["https://www.instagram.com/p/Cabc123/";
               "https://www.instagram.com/explore/tags/travel/"] in
  let s := boot ProxyExamples.two_hosts in
  closed e = Ok tt /\
  exists job results s',
    scrapeDirectUrls e a urls (5 # 2) true s = (Ok (Some job, results), s') /\
    (url_of <$> results) `sublist_of` urls /\
    count results <= count urls /\
    totalItems job = Js.whole (count urls) /\
    (status job = completed <->
     is_ok (launched e) && is_ok (scripted e) && is_ok (opened e) = true) /\
    (status job = completed -> scrapedItems job = count results /\ progress job = 100).
Proof.
  intros e a urls s.
  assert (closed e = Ok tt) as H by reflexivity.
  split; [exact H|].
  exact (direct_urls_entries_follow_urls e a urls (5 # 2) true s H).
Defined.

(** *** The reels operation *)

(** The detail pass replaces reels in place. *)
Lemma detail_loop_keeps_length (e : Common) (a : ReelAnswers) (n : nat)
    (indices : list nat) :
  preserves (fun st : Sys * list ReelData => length st.2 = n)
            (detail_loop e a indices).
Proof.
  induction indices as [|i rest IH]; cbn [detail_loop]; [apply preserves_ret|].
  apply preserves_bind;
    [apply (shared_keeps_locals (fun l : list ReelData => length l = n)) | intros _].
  apply preserves_bind; [intros st H; exact H | intros rs].
  destruct (rs !! i) as [reel|]; [|apply preserves_throw].
  apply preserves_bind; [apply preserves_lift | intros details].
  apply preserves_bind.
  { destruct details as [detailed|]; [|apply preserves_ret].
    intros [s0 l0] H. simpl in *. rewrite length_insert. exact H. }
  intros _. apply preserves_bind; [|intros _; exact IH].
  apply (shared_keeps_locals (fun l : list ReelData => length l = n)).
Qed.

Lemma detail_loop_length (e : Common) (a : ReelAnswers) (indices : list nat)
    (st : Sys * list ReelData) :
  length (detail_loop e a indices st).2.2 = length st.2.
Proof.
  pose proof (detail_loop_keeps_length e a (length st.2) indices st eq_refl) as H.
  destruct (detail_loop e a indices st) as [[[]|msg] [s1 l1]]; exact H.
Qed.

(** X6.  When the reels of a profile are harvested, the context and the
    page were created and the context closes, the reels operation returns
    as many reels as were harvested, whether or not the detail pass runs
    and whatever it finds or throws; without the detail pass it returns
    the harvest itself and the job is completed. *)
Theorem reel_details_keep_the_harvest
    (e : Common) (a : ReelAnswers) (username : string) (limit : Z)
    (includeDetails : bool) (found : list ReelData) (s : Sys) :
  reels_found a = Ok found ->
  is_ok (launched e) && is_ok (scripted e) && is_ok (opened e) = true ->
  closed e = Ok tt ->
  exists job reels s',
    scrapeReels e a username limit includeDetails s = (Ok (Some job, reels), s') /\
    length reels = length found /\
    (includeDetails = false -> reels = found /\ status job = completed) /\
    (status job = completed -> scrapedItems job = count reels /\ progress job = 100).
Proof.
  intros Hfound Hsetup Hclosed. unfold scrapeReels.
  set (R := fun l : list ReelData =>
              length l = length found /\ (includeDetails = false -> l = found)).
  set (B := fun ok : bool => includeDetails = false -> ok = true).
  match goal with
  | |- context [@job_flow ?L ?e0 ?k ?p ?ji ?t ?af ?init ?b ?sm s] =>
      assert (forall Inv, robust (jobId e) Inv -> preserves (on_shared Inv) b)
        as Hok by (intros Inv HI; flow_body HI);
      assert (forall s0, R (b (s0, init)).2.2 /\ B (is_ok (b (s0, init)).1)) as Hb;
      [| destruct (@job_flow_outcome L e0 k p ji t af init b sm R B Hok
                     (fun s0 => proj1 (Hb s0)) (fun s0 => proj2 (Hb s0)) Hclosed s)
           as (job & reels & s' & Hrun & Hj & Hc & Ht & Hkept & Hout) ]
  end.
  { intros s0. rewrite Hfound. unfold bind at 1 3. unfold lift. cbn [fst snd].
    unfold bind at 1 2. unfold assign_locals. cbn [fst snd].
    subst R B. cbn beta.
    destruct includeDetails; cbn [andb].
    - destruct (0 <? count found).
      + rewrite detail_loop_length. cbn [snd].
        split; [split; [reflexivity | discriminate] | discriminate].
      + split; [split; [reflexivity | discriminate] | discriminate].
    - split; [split; reflexivity | reflexivity]. }
  clear Hb. rewrite Hsetup in Hkept. destruct Hkept as [Hlen Hsame].
  exists job, reels, s'. split; [exact Hrun|]. split; [exact Hlen|].
  subst B. simpl in Hout. split.
  - intros Hno. split; [apply Hsame, Hno|].
    destruct Hout as [(Hst & _) | (_ & _ & [Hs | Hk])]; [exact Hst | congruence|].
    specialize (Hk Hno). discriminate.
  - intros Hst. destruct Hout as [(_ & _ & _ & H1 & H2) | (Hf & _)]; [|congruence].
    simpl in *. split; [apply H1 | apply H2]; reflexivity.
Qed.

Lemma reel_details_keep_the_harvest_witness :
  let e := answers_at "job_1700000000004_reel123" (Ok tt) in
  let reel := {| reel_shortcode := "Cabc123"; reel_caption := "";
                 viewsCount := Js.Num 1500 |} in
  let a := {| reels_found := Ok [reel];
              reel_details := fun _ _ => Throw "Timeout 30000ms exceeded" |} in
  let s := boot ProxyExamples.two_hosts in
  (reels_found a = Ok [reel] /\
   is_ok (launched e) && is_ok (scripted e) && is_ok (opened e) = true /\
   closed e = Ok tt) /\
  exists job reels s',
    scrapeReels e a "natgeo" 12 true s = (Ok (Some job, reels), s') /\
    length reels = length [reel] /\
    (true = false -> reels = [reel] /\ status job = completed) /\
    (status job = completed -> scrapedItems job = count reels /\ progress job = 100).
Proof.
  intros e reel a s.
  assert (reels_found a = Ok [reel]) as H1 by reflexivity.
  assert (is_ok (launched e) && is_ok (scripted e) && is_ok (opened e) = true)
    as H2 by reflexivity.
  assert (closed e = Ok tt) as H3 by reflexivity.
  split; [repeat split; assumption|].
  exact (reel_details_keep_the_harvest e a "natgeo" 12 true [reel] s H1 H2 H3).
Defined.

(** *** The profile operation *)

(** X7.  When the profile page was read without an exception and no posts
    are to be scraped (they were not asked for, the profile was not found,
    or it is private), the profile operation with its context and page
    created, and its context closing, returns what it found with no
    posts, and its job is completed with one item scraped and progress 10:
    a missing or private profile is not a failure. *)
Theorem profile_without_posts_completes
    (e : Common) (a : ProfileAnswers) (username : string) (includePosts : bool)
    (postsLimit : Z) (found : option ProfileData) (s : Sys) :
  launched e = Ok tt -> scripted e = Ok tt -> opened e = Ok tt ->
  closed e = Ok tt ->
  profile_found a = Ok found ->
  (includePosts = false \/ found = None \/
   exists p, found = Some p /\ isPrivate p = true) ->
  exists job s',
    scrapeProfile e a username includePosts postsLimit s
    = (Ok (Some job, (found, [])), s') /\
    status job = completed /\ scrapedItems job = 1 /\ progress job = 10 /\
    error job = None.
Proof.
  intros Hl Hi Ho Hc Hf Hwhy. unfold scrapeProfile, job_flow.
  unfold bind, finally, try_catch, shared, createJob, modify, acquireToken, ret,
    getNextProxy.
  cbn [fst snd pool set_jobs].
  destruct (Proxy.getNextProxy (proxy_used_at e) (pool s)) as [proxy p'].
  unfold createContext, createPage, bind, lift, modify, get, throw, reportWarning,
    updateJob, closeContext, ret, assign_locals, locals, markProxySuccess,
    reportSuccess.
  rewrite Hl, Hi, Ho, Hc, Hf. cbn -[insert lookup delete].
  repeat first [ rewrite lookup_insert_eq | progress cbn -[insert lookup delete] ].
  assert (match found with
          | Some p => includePosts && negb (isPrivate p)
          | None => false
          end = false) as Hskip.
  { destruct Hwhy as [-> | [-> | (p & -> & Hp)]];
      [destruct found; reflexivity | reflexivity | rewrite Hp; apply andb_false_r]. }
  destruct found as [p|]; [rewrite Hskip|];
    repeat first [ rewrite lookup_insert_eq | progress cbn -[insert lookup delete] ];
    destruct ((0 <? consecutiveWarnings s) && lucky e);
    destruct proxy;
    repeat first [ rewrite lookup_insert_eq | progress cbn -[insert lookup delete]
                 | progress unfold modify, ret ];
    eexists _, _; (split; [reflexivity|]); repeat split.
Qed.

Lemma profile_without_posts_completes_witness :
  let e := answers_at "job_1700000000005_prof123" (Ok tt) in
  let p := {| profile_username := "natgeo"; followersCount := Js.Num 1500;
              isPrivate := true |} in
  let a := {| profile_found := Ok (Some p);
              profile_posts := Throw "never asked" |} in
  let s := boot ProxyExamples.two_hosts in
  (launched e = Ok tt /\ scripted e = Ok tt /\ opened e = Ok tt /\
   closed e = Ok tt /\ profile_found a = Ok (Some p) /\
   (true = false \/ Some p = None \/
    exists q, Some p = Some q /\ isPrivate q = true)) /\
  exists job s',
    scrapeProfile e a "natgeo" true 12 s = (Ok (Some job, (Some p, [])), s') /\
    status job = completed /\ scrapedItems job = 1 /\ progress job = 10 /\
    error job = None.
Proof.
  intros e p a s.
  assert (launched e = Ok tt) as H1 by reflexivity.
  assert (scripted e = Ok tt) as H5 by reflexivity.
  assert (opened e = Ok tt) as H2 by reflexivity.
  assert (closed e = Ok tt) as H6 by reflexivity.
  assert (profile_found a = Ok (Some p)) as H3 by reflexivity.
  assert (true = false \/ Some p = None \/
          exists q, Some p = Some q /\ isPrivate q = true) as H4
      by (right; right; exists p; split; reflexivity).
  split; [tauto|].
  exact (profile_without_posts_completes e a "natgeo" true 12 (Some p) s
           H1 H5 H2 H6 H3 H4).
Defined.

(** X18.  A hashtag of ASCII characters that [sanitizeHashtag] rejects
    fails the hashtag job before any strategy is tried: with context and
    page created, and the context closing, the operation returns no
    summary and no posts, its job is failed with the message of the
    [BadRequestException] as its error and nothing counted, and the
    strategy writes one line to its logger, the rejection. *)
Theorem invalid_hashtag_fails_job
    (e : Common) (d : Hashtag.Driver) (tag : string) (limit page : Q)
    (msg : string) (s : Sys) :
  launched e = Ok tt -> scripted e = Ok tt -> opened e = Ok tt ->
  closed e = Ok tt ->
  ascii_only tag = true ->
  Hashtag.sanitizeHashtag tag = Throw msg ->
  exists job s',
    scrapeHashtag e d tag limit page s = (Ok (Some job, (None, [])), s') /\
    status job = failed /\ error job = Some msg /\
    msg = Hashtag.invalid_format /\
    scrapedItems job = 0 /\ progress job = 0 /\
    completedAt job = Some (finished_at e) /\
    strategy_log s' = strategy_log s ++ [Hashtag.Rejected tag] /\
    Hashtag.invoked (strategy_log s') = Hashtag.invoked (strategy_log s).
Proof.
  intros Hl Hi Ho Hc _ Hs. unfold scrapeHashtag, job_flow.
  unfold bind, finally, try_catch, shared, createJob, modify, acquireToken, ret,
    getNextProxy.
  cbn [fst snd pool set_jobs].
  destruct (Proxy.getNextProxy (proxy_used_at e) (pool s)) as [proxy p'].
  unfold createContext, createPage, bind, lift, modify, get, throw, reportWarning,
    updateJob, closeContext, ret, assign_locals, locals, markProxySuccess,
    reportSuccess, run_chain.
  rewrite Hl, Hi, Ho, Hc.
  repeat first [ rewrite lookup_insert_eq
               | progress cbn -[insert lookup delete Hashtag.scrapeHashtag
                                Qplus Qmult Qminus Js.trunc] ].
  rewrite (HashtagFacts.scrapeHashtag_rejected d tag _ (strategy_log s) msg Hs).
  assert (Hmsg : msg = Hashtag.invalid_format).
  { unfold Hashtag.sanitizeHashtag in Hs.
    destruct (_ && _) in Hs; [discriminate | congruence]. }
  repeat first [ rewrite lookup_insert_eq | progress cbn -[insert lookup delete] ].
  eexists _, _. split; [reflexivity|].
  cbn. repeat split; auto.
  unfold Hashtag.invoked. rewrite omap_app. cbn. apply app_nil_r.
Qed.

Lemma invalid_hashtag_fails_job_witness :
  let e := answers_at "job_1700000000006_tag4567" (Ok tt) in
  let s := boot ProxyExamples.two_hosts in
  (launched e = Ok tt /\ scripted e = Ok tt /\ opened e = Ok tt /\
   closed e = Ok tt /\ ascii_only "street food" = true /\
   Hashtag.sanitizeHashtag "street food" = Throw Hashtag.invalid_format) /\
  exists job s',
    scrapeHashtag e Hashtag.stub_driver "street food" 10 1 s
    = (Ok (Some job, (None, [])), s') /\
    status job = failed /\ error job = Some Hashtag.invalid_format /\
    Hashtag.invalid_format = Hashtag.invalid_format /\
    scrapedItems job = 0 /\ progress job = 0 /\
    completedAt job = Some (finished_at e) /\
    strategy_log s' = strategy_log s ++ [Hashtag.Rejected "street food"] /\
    Hashtag.invoked (strategy_log s') = Hashtag.invoked (strategy_log s).
Proof.
  intros e s.
  assert (launched e = Ok tt) as H1 by reflexivity.
  assert (scripted e = Ok tt) as H2 by reflexivity.
  assert (opened e = Ok tt) as H3 by reflexivity.
  assert (closed e = Ok tt) as H4 by reflexivity.
  assert (ascii_only "street food" = true) as H5 by reflexivity.
  assert (Hashtag.sanitizeHashtag "street food" = Throw Hashtag.invalid_format)
    as H6 by reflexivity.
  split; [repeat split; assumption|].
  exact (invalid_hashtag_fails_job e Hashtag.stub_driver "street food" 10 1
           Hashtag.invalid_format s H1 H2 H3 H4 H5 H6).
Defined.

End FlowFacts.

Module DataFacts.

Import Eff Service DataService Logic LogicFacts.

#[local] Instance JobStatus_eq_dec : EqDecision JobStatus.
Proof. solve_decision. Defined.

(** *** [deduplicatePosts] *)

Lemma dedup_from_spec seen posts :
  NoDup (Hashtag.id <$> dedup_from seen posts) /\
  dedup_from seen posts `sublist_of` posts /\
  (forall x, x ∈ Hashtag.id <$> dedup_from seen posts <->
             x ∈ Hashtag.id <$> posts /\ x ∉ seen).
Proof.
  revert seen. induction posts as [|p rest IH]; intros seen; simpl.
  - split; [constructor|]. split; [constructor|]. intros x. set_solver.
  - destruct (IH seen) as (Hnd & Hsub & Hin).
    destruct (IH ({[Hashtag.id p]} ∪ seen)) as (Hnd' & Hsub' & Hin').
    destruct (bool_decide (Hashtag.id p ∈ seen)) eqn:E.
    + apply bool_decide_eq_true in E.
      split; [exact Hnd|]. split; [apply sublist_cons, Hsub|].
      intros x. rewrite Hin, elem_of_cons. split; [tauto|].
      intros [[-> | Hx] Hno]; [contradiction | tauto].
    + apply bool_decide_eq_false in E. simpl.
      split; [|split; [apply sublist_skip, Hsub'|]].
      * apply NoDup_cons. split; [|exact Hnd'].
        rewrite Hin'. set_solver.
      * intros x. rewrite !elem_of_cons, Hin'.
        destruct (decide (x = Hashtag.id p)) as [->|Hne]; [tauto|]. set_solver.
Qed.

Lemma dedup_from_fixed seen posts :
  NoDup (Hashtag.id <$> posts) ->
  (forall x, x ∈ Hashtag.id <$> posts -> x ∉ seen) ->
  dedup_from seen posts = posts.
Proof.
  revert seen. induction posts as [|p rest IH]; intros seen Hnd Hseen; simpl;
    [reflexivity|].
  simpl in Hnd. apply NoDup_cons in Hnd as [Hp Hnd].
  rewrite bool_decide_eq_false_2 by (apply Hseen; simpl; left).
  f_equal. apply IH; [exact Hnd|].
  intros x Hx. rewrite elem_of_union, elem_of_singleton.
  intros [-> | Hs]; [contradiction|].
  revert Hs. apply Hseen. simpl. right. exact Hx.
Qed.

(** X8.  [deduplicatePosts] returns its argument with, for each post id,
    every post after the first one removed: the ids of the result are
    pairwise distinct, the result is a sublist of the argument (nothing is
    reordered or invented), no id is lost, and a list that has no repeated
    id, the result itself in particular, comes back unchanged. *)
Theorem deduplicatePosts_keeps_first_of_each_id (posts : list PostData) :
  NoDup (Hashtag.id <$> deduplicatePosts posts) /\
  deduplicatePosts posts `sublist_of` posts /\
  (forall x, x ∈ Hashtag.id <$> deduplicatePosts posts <-> x ∈ Hashtag.id <$> posts) /\
  (NoDup (Hashtag.id <$> posts) -> deduplicatePosts posts = posts) /\
  deduplicatePosts (deduplicatePosts posts) = deduplicatePosts posts.
Proof.
  unfold deduplicatePosts.
  destruct (dedup_from_spec ∅ posts) as (Hnd & Hsub & Hin).
  split; [exact Hnd|]. split; [exact Hsub|]. split.
  { intros x. rewrite Hin. set_solver. }
  split; intros; apply dedup_from_fixed; auto; set_solver.
Qed.

(** *** [getJobStats] *)

Lemma status_partition (jobs : list ScrapeJob) :
  length jobs =
  (length (List.filter (has_status pending) jobs)
   + length (List.filter (has_status processing) jobs)
   + length (List.filter (has_status completed) jobs)
   + length (List.filter (has_status failed) jobs))%nat.
Proof.
  induction jobs as [|j rest IH]; [reflexivity|].
  cbn [List.filter length].
  assert (forall st, has_status st j = bool_decide (status j = st)) as Hst.
  { intros st. unfold has_status. destruct st, (status j); reflexivity. }
  rewrite !Hst. rewrite IH.
  destruct (status j); simpl; lia.
Qed.

Lemma filter_length_perm {A} (f : A -> bool) (l l' : list A) :
  l ≡ₚ l' -> length (List.filter f l) = length (List.filter f l').
Proof.
  induction 1 as [|x l l' _ IH|x y l|l l' l'' _ IH1 _ IH2]; simpl.
  - reflexivity.
  - destruct (f x); simpl; congruence.
  - destruct (f x), (f y); reflexivity.
  - congruence.
Qed.

Lemma values_insert (m : gmap string ScrapeJob) k job :
  m !! k = None -> values (<[k := job]> m) ≡ₚ job :: values m.
Proof.
  intros Hk. unfold values. rewrite (map_to_list_insert m k job Hk). reflexivity.
Qed.

Lemma getJobStats_total (m : gmap string ScrapeJob) :
  stat_total (getJobStats m) = size m /\
  stat_total (getJobStats m)
  = (stat_pending (getJobStats m) + stat_processing (getJobStats m)
     + stat_completed (getJobStats m) + stat_failed (getJobStats m))%nat.
Proof.
  simpl. split; [|apply status_partition].
  unfold values. rewrite length_fmap. apply length_map_to_list.
Qed.

(** X9.  The job statistics partition the store: every job is counted
    under exactly one of the four statuses, so the four counts add up to
    the total, which is the number of jobs in the store. *)
Theorem getJobStats_partitions_the_store (m : gmap string ScrapeJob) :
  let st := getJobStats m in
  stat_total st = size m /\
  stat_total st
  = (stat_pending st + stat_processing st + stat_completed st + stat_failed st)%nat.
Proof. apply getJobStats_total. Qed.

(** *** [cleanupOldJobs] *)

Lemma cleanup_count now (m : gmap string ScrapeJob) :
  (length (List.filter (stale now) (values m))
   + size (filter (fun kv : string * ScrapeJob => stale now kv.2 = false) m))%nat
  = size m.
Proof.
  induction m as [|k job m Hk IH] using map_ind.
  - rewrite map_filter_empty, map_size_empty. reflexivity.
  - rewrite (filter_length_perm _ _ _ (values_insert m k job Hk)).
    rewrite map_filter_insert. rewrite (map_size_insert_None _ _ _ Hk).
    simpl. destruct (stale now job) eqn:E.
    + rewrite decide_False by (simpl; congruence).
      rewrite delete_id by exact Hk. simpl. lia.
    + rewrite decide_True by reflexivity.
      rewrite map_size_insert_None
        by (apply map_lookup_filter_None; left; exact Hk).
      lia.
Qed.

(** X10.  [cleanupOldJobs] deletes exactly the jobs that were created
    more than 24 hours before and are not processing: a job that is
    processing, or that is not older than a day, stays in the store as it
    is; every job that stays is one of those; nothing is added or changed;
    and the number returned is the number of jobs deleted. *)
Theorem cleanupOldJobs_removes_only_old_idle_jobs
    (now : Z) (m : gmap string ScrapeJob) :
  let cleaned := (cleanupOldJobs now m).1 in
  let m' := (cleanupOldJobs now m).2 in
  (forall k job, m' !! k = Some job <->
     m !! k = Some job /\
     (status job = processing \/ now - 86400000 <= createdAt job)) /\
  (cleaned + size m')%nat = size m /\
  (cleanupOldJobs now m').1 = 0%nat /\ (cleanupOldJobs now m').2 = m'.
Proof.
  simpl.
  assert (forall job, stale now job = false <->
            (status job = processing \/ now - 86400000 <= createdAt job)) as Hstale.
  { intros job. unfold stale, has_status.
    destruct (createdAt job <? now - 24 * 60 * 60 * 1000) eqn:E;
      [apply Z.ltb_lt in E | apply Z.ltb_ge in E];
      destruct (status job); simpl; split; intros H;
      try reflexivity; try discriminate; try (left; reflexivity);
      try (right; lia); try (destruct H as [H|H]; [discriminate | lia]). }
  assert (forall k job,
            filter (fun kv : string * ScrapeJob => stale now kv.2 = false) m !! k
            = Some job <->
            m !! k = Some job /\
            (status job = processing \/ now - 86400000 <= createdAt job)) as Hlook.
  { intros k job. rewrite map_lookup_filter_Some. simpl. rewrite Hstale. tauto. }
  split; [exact Hlook|]. split; [apply cleanup_count|].
  assert (filter (fun kv : string * ScrapeJob => stale now kv.2 = false)
            (filter (fun kv : string * ScrapeJob => stale now kv.2 = false) m)
          = filter (fun kv : string * ScrapeJob => stale now kv.2 = false) m) as Hid.
  { apply map_filter_id. intros k job Hk.
    apply map_lookup_filter_Some in Hk as [_ Hk]. exact Hk. }
  split; [|exact Hid].
  pose proof (cleanup_count now
                (filter (fun kv : string * ScrapeJob => stale now kv.2 = false) m))
    as Hc.
  rewrite Hid in Hc. lia.
Qed.

(** *** The statistics after a run of operations *)

Lemma filter_none {A} (f : A -> bool) (l : list A) :
  Forall (fun x => f x = false) l -> List.filter f l = [].
Proof.
  induction 1 as [|x l Hx _ IH]; simpl; [reflexivity|]. rewrite Hx. exact IH.
Qed.

Lemma exec_all_store ops s :
  job_inv s ->
  NoDup (List.map (fun o => jobId o.1) ops) ->
  Forall (fun o => jobs s !! jobId o.1 = None) ops ->
  map_Forall (fun _ job => terminal job = true) (jobs s) ->
  size (jobs (exec_all ops s)) = (size (jobs s) + length ops)%nat /\
  map_Forall (fun _ job => terminal job = true) (jobs (exec_all ops s)).
Proof.
  revert s. induction ops as [|[e op] ops IH]; intros s Hinv Hnd Hfresh Hall; simpl.
  - split; [lia | exact Hall].
  - simpl in Hnd. apply NoDup_cons in Hnd as [Hnotin Hnd].
    inversion Hfresh as [|? ? Hfe Hfo]; subst. simpl in Hfe.
    destruct (exec_jobs e op s Hinv Hfe) as (job & Hjob & Hterm & Hinv' & Hothers).
    set (s' := (exec e op s).2) in *.
    assert (jobs s' = <[jobId e := job]> (jobs s)) as Hstore.
    { apply map_eq. intros k. destruct (decide (k = jobId e)) as [->|Hne].
      - rewrite lookup_insert_eq. exact Hjob.
      - rewrite lookup_insert_ne by congruence. apply Hothers, Hne. }
    destruct (IH s') as [Hsize Hall']; [exact Hinv' | exact Hnd | |  |].
    + apply Forall_forall. intros o Ho. rewrite Forall_forall in Hfo.
      rewrite Hothers; [apply Hfo, Ho|].
      intros Heq. apply Hnotin. apply list_elem_of_In, in_map_iff.
      exists o. split; [exact Heq | apply list_elem_of_In, Ho].
    + rewrite Hstore. apply map_Forall_insert_2; assumption.
    + split; [|exact Hall'].
      rewrite Hsize, Hstore, (map_size_insert_None _ _ _ Hfe). lia.
Qed.

(** X11.  After any number of operations run one after the other from
    the start of the process, their generated job ids being pairwise
    distinct, the job statistics count one job for each operation, none of
    them pending or processing: the completed and the failed jobs add up
    to the number of operations. *)
Theorem stats_after_operations
    (p : Proxy.ProxyService) (ops : list (Common * Operation)) :
  NoDup (List.map (fun o => jobId o.1) ops) ->
  let st := getJobStats (jobs (exec_all ops (boot p))) in
  stat_total st = length ops /\
  stat_pending st = 0%nat /\ stat_processing st = 0%nat /\
  (stat_completed st + stat_failed st)%nat = length ops.
Proof.
  intros Hnd.
  destruct (exec_all_store ops (boot p)) as [Hsize Hall].
  - split; [|reflexivity]. intros i m m' Hi Hsi. destruct i; discriminate.
  - exact Hnd.
  - apply Forall_forall. intros o _. apply lookup_empty.
  - apply map_Forall_empty.
  - set (m := jobs (exec_all ops (boot p))) in *.
    destruct (getJobStats_total m) as [Htotal Hsum].
    assert (Forall (fun job => terminal job = true) (values m)) as Hterm.
    { apply Forall_forall. intros job Hjob. unfold values in Hjob.
      apply list_elem_of_fmap in Hjob as ([k j] & -> & Hkj).
      apply elem_of_map_to_list in Hkj. exact (Hall k j Hkj). }
    assert (List.filter (has_status pending) (values m) = []) as Hp.
    { apply filter_none. eapply Forall_impl; [exact Hterm|].
      intros job Hj. unfold terminal in Hj. unfold has_status.
      destruct (status job); [discriminate | reflexivity..]. }
    assert (List.filter (has_status processing) (values m) = []) as Hq.
    { apply filter_none. eapply Forall_impl; [exact Hterm|].
      intros job Hj. unfold terminal in Hj. unfold has_status.
      destruct (status job); [reflexivity | discriminate | reflexivity..]. }
    simpl in *. rewrite Hp, Hq in *. simpl in *.
    rewrite map_size_empty in Hsize. simpl in Hsize.
    split; [lia|]. split; [reflexivity|]. split; [reflexivity | lia].
Qed.

Lemma stats_after_operations_witness :
  let p := ProxyExamples.two_hosts in
  let st := getJobStats (jobs (exec_all two_operations (boot p))) in
  NoDup (List.map (fun o => jobId o.1) two_operations) /\
  stat_total st = length two_operations /\
  stat_pending st = 0%nat /\ stat_processing st = 0%nat /\
  (stat_completed st + stat_failed st)%nat = length two_operations.
Proof.
  intros p st.
  assert (NoDup (List.map (fun o => jobId o.1) two_operations)) as H.
  { simpl. apply NoDup_cons. split; [|apply NoDup_singleton].
    intros Hin. apply list_elem_of_singleton in Hin. discriminate. }
  split; [exact H|].
  exact (stats_after_operations p two_operations H).
Defined.

End DataFacts.

Module ProxyStatusFacts.

Import Proxy ProxyStatus ProxyFacts.

(** *** [getNextProxy] and [hasProxies] *)

Lemma hasProxies_filter s :
  hasProxies s = true <-> List.filter isActive (proxies s) <> [].
Proof.
  unfold hasProxies. induction (proxies s) as [|p l IH]; simpl.
  - split; [discriminate | congruence].
  - destruct (isActive p); simpl; [split; [discriminate | reflexivity] | exact IH].
Qed.

Lemma getNextProxy_idle now s :
  List.filter isActive (proxies s) = [] -> getNextProxy now s = (None, s).
Proof. intros H. unfold getNextProxy. rewrite H. reflexivity. Qed.

Lemma getNextProxy_serves now s :
  List.filter isActive (proxies s) <> [] -> is_Some (getNextProxy now s).1.
Proof.
  intros H. unfold getNextProxy.
  destruct (List.filter isActive (proxies s)) as [|first rest] eqn:E; [congruence|].
  set (n := length (first :: rest)).
  destruct (List.find _ (seq 0 n)) as [i|]; [|simpl; eauto].
  destruct (lookup_lt_is_Some_2 (first :: rest) ((currentIndex s + i) mod n)%nat)
    as [proxy Hp].
  { apply Nat.mod_upper_bound. subst n. simpl. lia. }
  rewrite Hp. simpl. eauto.
Qed.

(** X12.  [getNextProxy] returns a proxy exactly when [hasProxies] holds,
    which is when the statistics count an active proxy; without one it
    returns null and changes nothing.  A proxy it returns is an active
    entry of the pool, stamped with the current time.  The statistics
    count every entry as active or disabled. *)
Theorem getNextProxy_serves_iff_active (now : Z) (s : ProxyService) :
  (hasProxies s = true <-> is_Some (getNextProxy now s).1) /\
  (hasProxies s = true <-> 0 < active (getStats s)) /\
  (hasProxies s = false -> getNextProxy now s = (None, s)) /\
  (forall p, (getNextProxy now s).1 = Some p ->
     isActive p = true /\ lastUsed p = Some now /\
     exists q, q ∈ proxies s /\ isActive q = true /\ p = touch now q) /\
  active (getStats s) + disabled (getStats s) = total (getStats s) /\
  0 <= disabled (getStats s).
Proof.
  assert (hasProxies s = false -> List.filter isActive (proxies s) = []) as Hnone.
  { intros H. destruct (List.filter isActive (proxies s)) eqn:E; [reflexivity|].
    assert (hasProxies s = true) by (apply hasProxies_filter; congruence).
    congruence. }
  split; [|split; [|split; [|split; [|split]]]].
  - split.
    + intros H. apply getNextProxy_serves, hasProxies_filter, H.
    + intros [p Hp]. destruct (hasProxies s) eqn:E; [reflexivity|].
      rewrite (getNextProxy_idle now s (Hnone eq_refl)) in Hp. discriminate.
  - rewrite hasProxies_filter. simpl.
    destruct (List.filter isActive (proxies s)); simpl; split; try congruence; lia.
  - intros H. apply getNextProxy_idle, Hnone, H.
  - intros p Hp. apply getNextProxy_active in Hp as (q & Hq & Ha & ->).
    split; [exact Ha|]. split; [reflexivity|].
    exists q. split; [apply list_elem_of_In, Hq|]. split; [exact Ha | reflexivity].
  - simpl. lia.
  - simpl. pose proof (filter_length isActive (proxies s)). lia.
Qed.

(** *** The per-proxy request counters *)

Lemma getNextProxy_limit now s : requestsPerProxy (getNextProxy now s).2 = requestsPerProxy s.
Proof.
  unfold getNextProxy.
  destruct (List.filter isActive (proxies s)) as [|first rest]; [reflexivity|].
  destruct (List.find _ _) as [i|]; [|reflexivity].
  destruct (_ !! _); reflexivity.
Qed.

Lemma getNextProxy_within_limit now s :
  1 <= requestsPerProxy s -> within_limit s -> within_limit (getNextProxy now s).2.
Proof.
  intros Hrpp Hs. unfold getNextProxy.
  destruct (List.filter isActive (proxies s)) as [|first rest]; [exact Hs|].
  set (n := length (first :: rest)).
  destruct (List.find _ (seq 0 n)) as [i|] eqn:Ef.
  - apply find_some in Ef as [_ Hbelow].
    destruct ((first :: rest) !! _) as [proxy|]; [|exact Hs].
    apply Z.ltb_lt in Hbelow.
    intros key c. simpl. destruct (decide (key = proxyKey proxy)) as [->|Hne].
    + rewrite lookup_insert_eq. intros [= <-]. split; [|lia].
      unfold requestCount. destruct (requestCounts s !! proxyKey proxy) as [c0|] eqn:E;
        simpl; [destruct (Hs _ _ E)|]; lia.
    + rewrite lookup_insert_ne by congruence. apply Hs.
  - intros key c. simpl. intros Hk.
    apply lookup_singleton_Some in Hk as [_ <-]. lia.
Qed.

Lemma step_within_limit c s :
  1 <= requestsPerProxy s -> within_limit s ->
  within_limit (step c s).1 /\ requestsPerProxy (step c s).1 = requestsPerProxy s.
Proof.
  intros Hrpp Hs. destruct c as [now|h pt|h pt|h pt|parsed]; simpl;
    try (split; [exact Hs | reflexivity]).
  - pose proof (getNextProxy_within_limit now s Hrpp Hs).
    pose proof (getNextProxy_limit now s).
    destruct (getNextProxy now s). auto.
  - unfold addProxy. destruct (parseProxyString parsed); simpl;
      (split; [exact Hs | reflexivity]).
Qed.

Lemma run_within_limit cs s :
  1 <= requestsPerProxy s -> within_limit s ->
  within_limit (run cs s).1 /\ requestsPerProxy (run cs s).1 = requestsPerProxy s.
Proof.
  revert s. induction cs as [|c cs IH]; intros s Hrpp Hs; [split; [exact Hs|reflexivity]|].
  rewrite run_cons. cbn [fst].
  destruct (step_within_limit c s Hrpp Hs) as [Hs' Hrpp'].
  destruct (IH (step c s).1) as [H1 H2]; [lia | exact Hs' |].
  split; [exact H1 | lia].
Qed.

(** X13.  With a request limit of at least 1, whatever calls are made on
    a pool loaded from the configuration, no counter of the pool ever
    exceeds the limit (nor is one ever below 1): between two clearings of
    the counters, no endpoint is handed out more often than
    [requestsPerProxy] times. *)
Theorem request_counts_stay_within_limit
    (proxyList : list (option Url)) (limit : Z) (cs : list call) :
  1 <= limit ->
  let s := (run cs (loadProxies proxyList limit)).1 in
  requestsPerProxy s = limit /\
  forall key c, requestCounts s !! key = Some c -> 1 <= c <= limit.
Proof.
  intros Hlimit.
  destruct (run_within_limit cs (loadProxies proxyList limit)) as [H1 H2].
  - exact Hlimit.
  - intros key c Hk. simpl in Hk. rewrite lookup_empty in Hk. discriminate.
  - simpl in *. split; [exact H2|]. intros key c Hk. rewrite <- H2. apply (H1 key c Hk).
Qed.

Lemma request_counts_stay_within_limit_witness :
  let proxyList := [Some (ProxyExamples.url "" "10.0.0.1" "8080")] in
  let cs := [GetNext 1; GetNext 2; GetNext 3] in
  let s := (run cs (loadProxies proxyList 2)).1 in
  1 <= 2 /\
  requestsPerProxy s = 2 /\
  forall key c, requestCounts s !! key = Some c -> 1 <= c <= 2.
Proof.
  intros proxyList cs s.
  assert (1 <= 2) as H by lia.
  split; [exact H|].
  exact (request_counts_stay_within_limit proxyList 2 cs H).
Defined.

(** *** What cannot bring an endpoint back *)

Lemma same_place_refl x : same_place x x.
Proof. repeat split; auto. Qed.

Lemma same_place_trans x y z : same_place x y -> same_place y z -> same_place x z.
Proof.
  intros (H1 & H2 & H3 & H4 & H5 & H6) (G1 & G2 & G3 & G4 & G5 & G6).
  repeat split; try congruence. auto.
Qed.

Lemma Forall2_same_place_trans l1 l2 l3 :
  Forall2 same_place l1 l2 -> Forall2 same_place l2 l3 -> Forall2 same_place l1 l3.
Proof.
  intros H. revert l3. induction H as [|x y l1 l2 Hxy _ IH]; intros l3 H3.
  - inversion H3. constructor.
  - inversion H3 as [|? z ? l3' Hyz Hrest]; subst.
    constructor; [eapply same_place_trans; eauto | apply IH, Hrest].
Qed.

Lemma step_same_place c s :
  brings_back c = false -> Forall2 same_place (proxies s) (proxies (step c s).1).
Proof.
  destruct c as [now|h pt|h pt|h pt|parsed]; simpl; try discriminate; intros _.
  - destruct (getNextProxy_proxies now s) as [k [Hk|Hk]];
      destruct (getNextProxy now s) as [r s']; simpl in *; rewrite Hk.
    + apply update_active_pointwise; [apply same_place_refl|].
      intros x _. repeat split; auto.
    + apply Forall_Forall2_diag, Forall_forall. intros x _. apply same_place_refl.
  - apply update_first_pointwise; [apply same_place_refl|].
    intros x _. repeat split; auto. simpl. intros ->. destruct (3 <=? _); reflexivity.
  - apply update_first_pointwise; [apply same_place_refl|].
    intros x _. repeat split; auto.
Qed.

(** X14.  Only [resetProxy] and [addProxy] make an endpoint available
    again.  Under any other calls ([getNextProxy], [markProxyFailed],
    [markProxySuccess]) the pool keeps its entries in place, each with its
    endpoint and credentials, and an entry that is out of service stays
    out of service: a success reported for it clears its failure count but
    does not reactivate it. *)
Theorem only_reset_brings_a_proxy_back (cs : list call) (s : ProxyService) :
  Forall (fun c => brings_back c = false) cs ->
  Forall2 same_place (proxies s) (proxies (run cs s).1).
Proof.
  revert s. induction cs as [|c cs IH]; intros s Hcs.
  - apply Forall_Forall2_diag, Forall_forall. intros x _. apply same_place_refl.
  - inversion Hcs as [|? ? Hc Hrest]; subst. rewrite run_cons. cbn [fst].
    eapply Forall2_same_place_trans; [apply step_same_place, Hc | apply IH, Hrest].
Qed.

Lemma only_reset_brings_a_proxy_back_witness :
  let s := ProxyExamples.two_hosts in
  let cs := ProxyExamples.three_failures "10.0.0.1" (Js.Num 8080)
            ++ [Success "10.0.0.1" (Js.Num 8080); GetNext 5] in
  Forall (fun c => brings_back c = false) cs /\
  Forall2 same_place (proxies s) (proxies (run cs s).1).
Proof.
  intros s cs.
  assert (Forall (fun c => brings_back c = false) cs) as H by (repeat constructor).
  split; [exact H|].
  exact (only_reset_brings_a_proxy_back cs s H).
Defined.

(** *** Round robin *)

Lemma filter_all_active l :
  Forall (fun p => isActive p = true) l -> List.filter isActive l = l.
Proof.
  induction 1 as [|p l Hp _ IH]; simpl; [reflexivity|]. rewrite Hp, IH. reflexivity.
Qed.

Lemma update_active_alter k g l :
  Forall (fun p => isActive p = true) l -> update_active k g l = alter g k l.
Proof.
  intros H. revert k. induction H as [|p l Hp _ IH]; intros k; simpl; [reflexivity|].
  rewrite Hp. destruct k; simpl; [reflexivity|]. rewrite IH. reflexivity.
Qed.

(** When the active proxy that the pointer designates is below its
    limit, it is the one returned, and the pointer moves to the next. *)
Lemma getNextProxy_at now s p :
  let act := List.filter isActive (proxies s) in
  let k := (currentIndex s mod length act)%nat in
  act !! k = Some p ->
  requestCount s p < requestsPerProxy s ->
  getNextProxy now s =
  (Some (touch now p),
   {| proxies := update_active k (touch now) (proxies s);
      currentIndex := ((k + 1) mod length act)%nat;
      requestCounts := <[proxyKey p := requestCount s p + 1]> (requestCounts s);
      requestsPerProxy := requestsPerProxy s |}).
Proof.
  intros act k Hp Hbelow. unfold getNextProxy. fold act.
  destruct act as [|first rest] eqn:E; [discriminate|].
  set (n := length (first :: rest)) in *.
  assert (seq 0 n = 0%nat :: seq 1 (length rest)) as -> by reflexivity.
  cbn [List.find]. rewrite Nat.add_0_r. fold k. rewrite Hp.
  apply Z.ltb_lt in Hbelow. rewrite Hbelow.
  cbv beta zeta. rewrite ?Nat.add_0_r. fold k. rewrite Hp. reflexivity.
Qed.

Section RoundRobin.

Variables (ps : list ProxyConfig) (limit : Z).

Hypothesis keys_distinct : NoDup (proxyKey <$> ps).
Hypothesis limit_positive : 1 <= limit.

Let n := length ps.

(** The pool after [j] turns: the entries from the [j]-th on are
    untouched and not yet counted. *)
Let turn (j : nat) (s : ProxyService) : Prop :=
  length (proxies s) = n /\
  Forall (fun p => isActive p = true) (proxies s) /\
  currentIndex s = (j mod n)%nat /\
  requestsPerProxy s = limit /\
  (forall i, (j <= i)%nat -> proxies s !! i = ps !! i) /\
  (forall i p, (j <= i)%nat -> ps !! i = Some p ->
               requestCounts s !! proxyKey p = None).

Lemma round_robin_from nows :
  forall j s,
    turn j s -> (j + length nows <= n)%nat ->
    (run (GetNext <$> nows) s).2
    = zip_with (fun now p => Some (touch now p)) nows (drop j ps).
Proof.
  induction nows as [|now rest IH]; intros j s Hturn Hlen; [reflexivity|].
  destruct Hturn as (Hn & Hact & Hidx & Hlim & Hsame & Hfresh).
  simpl in Hlen. assert (j < n)%nat as Hj by lia.
  destruct (lookup_lt_is_Some_2 ps j Hj) as [p Hp].
  assert (proxies s !! j = Some p) as Hsp by (rewrite Hsame; [exact Hp | lia]).
  pose proof (getNextProxy_at now s p) as Hstep. cbv zeta in Hstep.
  rewrite (filter_all_active _ Hact), Hn, Hidx in Hstep.
  rewrite Nat.Div0.mod_mod in Hstep. rewrite (Nat.mod_small j n Hj) in Hstep.
  assert (requestCount s p = 0) as Hzero.
  { unfold requestCount. rewrite (Hfresh j p); [reflexivity | lia | exact Hp]. }
  specialize (Hstep Hsp). rewrite Hzero, Hlim in Hstep.
  specialize (Hstep ltac:(lia)).
  rewrite fmap_cons, run_cons. cbn [step fst snd]. rewrite Hstep. cbn [fst snd].
  rewrite (drop_S ps p j Hp). cbn [zip_with app]. f_equal.
  apply IH; [|lia].
  unfold turn. cbn [proxies currentIndex requestCounts requestsPerProxy].
  rewrite (update_active_alter _ _ _ Hact).
  split; [rewrite length_alter; exact Hn|]. split.
  { apply Forall_forall. intros x Hx.
    apply list_elem_of_lookup in Hx as [i Hi].
    destruct (decide (i = j)) as [->|Hne].
    - rewrite list_lookup_alter_eq, Hsp in Hi. simpl in Hi. injection Hi as <-.
      rewrite Forall_forall in Hact. simpl.
      apply Hact. apply list_elem_of_lookup. eauto.
    - rewrite list_lookup_alter_ne in Hi by congruence.
      rewrite Forall_forall in Hact. apply Hact, list_elem_of_lookup. eauto. }
  split; [f_equal; lia|]. split; [reflexivity|]. split.
  - intros i Hi. rewrite list_lookup_alter_ne by lia. apply Hsame. lia.
  - intros i q Hi Hq. rewrite lookup_insert_ne; [apply (Hfresh i q); [lia | exact Hq]|].
    intros Hkey. assert (j = i); [|lia].
    eapply NoDup_lookup; [exact keys_distinct | |].
    + rewrite list_lookup_fmap, Hp. reflexivity.
    + rewrite list_lookup_fmap, Hq. simpl. congruence.
Qed.

End RoundRobin.

Lemma loadProxies_active proxyList limit :
  Forall (fun p => isActive p = true) (proxies (loadProxies proxyList limit)).
Proof.
  simpl. induction proxyList as [|[url|] l IH]; simpl; [constructor| |exact IH].
  constructor; [reflexivity | exact IH].
Qed.

(** X15.  Round robin.  On a pool just loaded from the configuration,
    with pairwise distinct endpoints and a request limit of at least 1,
    the first calls of [getNextProxy], as many as there are proxies at
    most, return the proxies one after the other in the order of the
    configuration, each stamped with the time of its call. *)
Theorem fresh_pool_serves_in_turn
    (proxyList : list (option Url)) (limit : Z) (nows : list Z) :
  let s := loadProxies proxyList limit in
  NoDup (proxyKey <$> proxies s) ->
  1 <= limit ->
  (length nows <= length (proxies s))%nat ->
  (run (GetNext <$> nows) s).2
  = zip_with (fun now p => Some (touch now p)) nows (proxies s).
Proof.
  intros s Hkeys Hlimit Hlen.
  rewrite (round_robin_from (proxies s) limit Hkeys Hlimit nows 0 s); [reflexivity| |lia].
  split; [reflexivity|]. split; [apply loadProxies_active|].
  split; [simpl; symmetry; apply Nat.Div0.mod_0_l|].
  split; [reflexivity|]. split; [reflexivity|].
  intros i p _ _. apply lookup_empty.
Qed.

Lemma fresh_pool_serves_in_turn_witness :
  let proxyList := [Some (ProxyExamples.url "" "10.0.0.1" "8080");
                    Some (ProxyExamples.url "" "10.0.0.2" "8080")] in
  let s := loadProxies proxyList 50 in
  let nows := [1; 2] in
  (NoDup (proxyKey <$> proxies s) /\ 1 <= 50 /\
   (length nows <= length (proxies s))%nat) /\
  (run (GetNext <$> nows) s).2
  = zip_with (fun now p => Some (touch now p)) nows (proxies s).
Proof.
  intros proxyList s nows.
  assert (NoDup (proxyKey <$> proxies s)) as H1.
  { apply NoDup_cons. split; [|apply NoDup_singleton].
    intros Hin. apply list_elem_of_singleton in Hin. vm_compute in Hin. discriminate. }
  assert (1 <= 50) as H2 by lia.
  assert (length nows <= length (proxies s))%nat as H3 by (simpl; lia).
  split; [tauto|].
  exact (fresh_pool_serves_in_turn proxyList 50 nows H1 H2 H3).
Defined.

End ProxyStatusFacts.
Module LimiterFacts.

Import RateLimiter LimiterStatus RateLimiterFacts.





Section Limits.

Variable cfg : Config.
Hypothesis minute_limit : 1 <= requestsPerMinute cfg.
Hypothesis session_limit : 1 <= maxRequestsPerSession cfg.







End Limits.





Section Cooldown.

Variable cfg : Config.
Variable before : list Z.
Variable until : Z.



End Cooldown.



End LimiterFacts.
Module TokenBucketFacts.

Import TokenBucket.

Section Waiting.

Variable scaled : Z -> Z -> Z -> Z.
Variable cfg : Config.
Variable clock : nat -> Z.

Hypothesis minute_rate : 1 <= requestsPerMinute cfg.
Hypothesis hour_rate : 1 <= requestsPerHour cfg.
Hypothesis waits_last : forall k, clock k + 1000 <= clock (S k).

Lemma clock_advances k : clock 0%nat + 1000 * Z.of_nat k <= clock k.
Proof.
  induction k as [|k IH]; [lia|]. pose proof (waits_last k). lia.
Qed.

Lemma refill_settled window rate now b :
  1 <= rate -> clock 0%nat <= now ->
  0 <= tokens b <= rate ->
  lastRefill b <= now ->
  (tokens b <= 0 -> lastRefill b <= clock 0%nat) ->
  settled clock window rate now (refill scaled window rate now b).
Proof.
  intros Hrate Hnow Hb Hlast Hempty. unfold refill, settled.
  destruct (window <=? now - lastRefill b) eqn:Ew; simpl.
  - repeat split; lia.
  - apply Z.leb_gt in Ew.
    destruct (0 <? scaled (now - lastRefill b) window rate) eqn:Ea; simpl.
    + apply Z.ltb_lt in Ea. repeat split; lia.
    + repeat split; try lia; apply Hempty; assumption.
Qed.

Lemma waiting_next k s :
  waiting cfg clock k s ->
  waiting cfg clock (S k) (refillBuckets scaled cfg (clock (S k)) s).
Proof.
  intros [(Hm & Hml & Hme) (Hh & Hhl & Hhe)].
  pose proof (waits_last k). pose proof (clock_advances (S k)).
  split; simpl; apply refill_settled; lia.
Qed.

Lemma throttled_early k s :
  waiting cfg clock k s -> isThrottled s = true -> (k < 3600)%nat.
Proof.
  intros [(Hm & Hml & Hme) (Hh & Hhl & Hhe)] Ht.
  pose proof (clock_advances k).
  unfold isThrottled in Ht. apply orb_true_iff in Ht as [Ht | Ht];
    apply Z.leb_le in Ht.
  - destruct (Hme Ht). lia.
  - destruct (Hhe Ht). lia.
Qed.

Lemma wait_loop_returns fuel k s :
  waiting cfg clock k s -> (3600 <= k + fuel)%nat ->
  exists waits s',
    wait_loop scaled cfg clock fuel k s = Some (waits, s') /\
    (k <= waits)%nat /\ (waits <= Nat.max k 3600)%nat /\
    waiting cfg clock waits s' /\ isThrottled s' = false /\
    (isThrottled s = false -> waits = k /\ s' = s).
Proof.
  revert k s. induction fuel as [|fuel IH]; intros k s Hw Hfuel; cbn [wait_loop].
  - destruct (isThrottled s) eqn:Ht.
    + pose proof (throttled_early k s Hw Ht). lia.
    + exists k, s. split; [reflexivity|]. split; [lia|]. split; [lia|].
      split; [exact Hw|]. split; [exact Ht|]. intros _. split; reflexivity.
  - destruct (isThrottled s) eqn:Ht.
    + pose proof (throttled_early k s Hw Ht) as Hk.
      destruct (IH (S k) _ (waiting_next k s Hw) ltac:(lia))
        as (waits & s' & Hrun & Hle & Hmax & Hw' & Ht' & _).
      exists waits, s'. split; [exact Hrun|]. split; [lia|]. split; [lia|].
      split; [exact Hw'|]. split; [exact Ht'|]. discriminate.
    + exists k, s. split; [reflexivity|]. split; [lia|]. split; [lia|].
      split; [exact Hw|]. split; [exact Ht|]. intros _. split; reflexivity.
Qed.

End Waiting.

(** X28.  [acquireToken] returns.  With both rates at least 1, buckets
    in range and every wait of the loop lasting at least the second that
    [getWaitTime] asks for, the loop ends after at most 3600 waits (none
    when both buckets hold a token after the first refill), whatever the
    partial refills compute; each bucket then gives one token, and
    [getStatus()] reports between 0 and capacity - 1 tokens in each. *)
Theorem acquireToken_returns
    (scaled : Z -> Z -> Z -> Z) (cfg : Config) (clock : nat -> Z)
    (decay_at : Z) (fuel : nat) (s : State) :
  1 <= requestsPerMinute cfg -> 1 <= requestsPerHour cfg ->
  (forall k, clock k + 1000 <= clock (S k)) ->
  in_range cfg (clock 0%nat) s ->
  (3600 <= fuel)%nat ->
  exists waits s',
    acquireToken scaled cfg clock decay_at fuel s = Some (waits, s') /\
    (waits <= 3600)%nat /\
    in_range cfg (clock waits) s' /\
    minuteTokens (getStatus s') <= requestsPerMinute cfg - 1 /\
    hourTokens (getStatus s') <= requestsPerHour cfg - 1 /\
    (isThrottled (refillBuckets scaled cfg (clock 0%nat) s) = false -> waits = 0%nat).
Proof.
  intros Hm Hh Hclock (Hmt & Hht & Hml & Hhl) Hfuel.
  assert (H0 : waiting cfg clock 0%nat (refillBuckets scaled cfg (clock 0%nat) s)).
  { split; simpl; apply refill_settled; try lia. }
  destruct (wait_loop_returns scaled cfg clock Hm Hh Hclock fuel 0%nat _ H0 ltac:(lia))
    as (waits & s1 & Hrun & _ & Hmax & Hw & Ht & Hnow).
  unfold acquireToken. rewrite Hrun.
  exists waits, (decay decay_at (consume s1)).
  split; [reflexivity|]. split; [lia|].
  destruct Hw as [(Hm1 & Hml1 & _) (Hh1 & Hhl1 & _)].
  unfold isThrottled in Ht. apply orb_false_iff in Ht as [Ht1 Ht2].
  apply Z.leb_gt in Ht1, Ht2.
  assert (Hsame : minuteBucket (decay decay_at (consume s1)) = minuteBucket (consume s1) /\
                  hourBucket (decay decay_at (consume s1)) = hourBucket (consume s1)).
  { unfold decay. destruct (300000 <? _); split; reflexivity. }
  destruct Hsame as [E1 E2].
  unfold in_range, getStatus. cbn [minuteTokens hourTokens]. rewrite E1, E2. simpl.
  split; [repeat split; lia|]. split; [lia|]. split; [lia|].
  intros Hfree. apply Hnow, Hfree.
Qed.

Lemma acquireToken_returns_witness :
  let cfg := {| requestsPerMinute := 7; requestsPerHour := 300 |} in
  let clock := fun k : nat => 5000 + 1500 * Z.of_nat k in
  let s := {| minuteBucket := {| tokens := 0; lastRefill := 4000 |};
              hourBucket := {| tokens := 120; lastRefill := 1000 |};
              consecutiveWarnings := 1; lastWarningTime := 2000 |} in
  exists waits s',
    acquireToken (fun elapsed window rate => elapsed * rate / window)
                 cfg clock 9000 3600 s = Some (waits, s') /\
    (waits <= 3600)%nat /\
    in_range cfg (clock waits) s' /\
    minuteTokens (getStatus s') <= 6 /\
    hourTokens (getStatus s') <= 299 /\
    (isThrottled (refillBuckets (fun elapsed window rate => elapsed * rate / window)
                                cfg (clock 0%nat) s) = false -> waits = 0%nat).
Proof.
  intros cfg clock s.
  apply (acquireToken_returns (fun elapsed window rate => elapsed * rate / window)
           cfg clock 9000 3600 s).
  - simpl. lia.
  - simpl. lia.
  - intros k. unfold clock. cbv beta. lia.
  - unfold in_range, s, cfg, clock.
    cbn [tokens lastRefill minuteBucket hourBucket requestsPerMinute requestsPerHour].
    lia.
  - lia.
Defined.

End TokenBucketFacts.
Module ReelFacts.

Import Eff Eff.Notations Service Logic LogicFacts Outcome FlowFacts Reels.

(** *** Captured groups *)

Lemma take_while_forallb cls s : Str.forallb cls (Str.take_while cls s) = true.
Proof.
  induction s as [|c s IH]; simpl; [reflexivity|].
  destruct (cls c) eqn:E; simpl; [rewrite E; exact IH | reflexivity].
Qed.

Lemma nonempty_run_spec cls s r :
  Str.nonempty_run cls s = Some r -> r <> EmptyString /\ Str.forallb cls r = true.
Proof.
  unfold Str.nonempty_run. pose proof (take_while_forallb cls s) as H.
  destruct (Str.take_while cls s) as [|c t]; [discriminate|].
  intros [= <-]. split; [discriminate | exact H].
Qed.

Lemma group_here_spec prefixes cls s r :
  Str.group_here prefixes cls s = Some r ->
  r <> EmptyString /\ Str.forallb cls r = true.
Proof.
  induction prefixes as [|p ps IH]; simpl; [discriminate|].
  destruct (String.prefix p s).
  - destruct (Str.nonempty_run cls _) as [run|] eqn:E.
    + intros [= <-]. eapply nonempty_run_spec, E.
    + exact IH.
  - exact IH.
Qed.

(** A captured group is a non-empty run of the class. *)
Lemma group_after_spec prefixes cls s r :
  Str.group_after prefixes cls s = Some r ->
  r <> EmptyString /\ Str.forallb cls r = true.
Proof.
  induction s as [|c s IH]; simpl.
  - destruct (Str.group_here prefixes cls EmptyString) as [run|] eqn:E;
      [|discriminate].
    intros [= <-]. eapply group_here_spec, E.
  - destruct (Str.group_here prefixes cls (String c s)) as [run|] eqn:E.
    + intros [= <-]. eapply group_here_spec, E.
    + exact IH.
Qed.

(** *** The harvest *)

Lemma has_reel_false rs sc :
  has_reel rs sc = false -> sc ∉ reel_shortcode <$> rs.
Proof.
  unfold has_reel. intros H Hin.
  apply list_elem_of_fmap in Hin as (r & -> & Hr).
  apply list_elem_of_In in Hr.
  assert (existsb (fun r0 => String.eqb (reel_shortcode r0) (reel_shortcode r)) rs = true)
    as Hex by (apply existsb_exists; exists r; split; [exact Hr | apply String.eqb_refl]).
  congruence.
Qed.

Section Harvest.

Variables (page : ReelsPage) (limit : Z).

Lemma gathered_nil : gathered page limit [].
Proof. unfold gathered, count. simpl. split; [constructor|]. split; [lia|constructor]. Qed.

Lemma push_links_gathered k all links rs :
  reel_links page k = Ok all -> (forall l, In l links -> In l all) ->
  gathered page limit rs -> gathered page limit (push_links links rs limit).
Proof.
  intros Hk. revert rs. induction links as [|link rest IH]; intros rs Hsub Hg;
    simpl; [exact Hg|].
  destruct (limit <=? count rs) eqn:E; [exact Hg|].
  assert (Hrest : forall l, In l rest -> In l all) by (intros l Hl; apply Hsub; right; exact Hl).
  destruct (Str.group_after ["/reel/"] not_slash (reel_href link)) as [sc|] eqn:Hsc;
    [|apply IH; assumption].
  destruct (has_reel rs sc) eqn:Hhas; [apply IH; assumption|].
  apply IH; [exact Hrest|].
  destruct Hg as (Hnd & Hc & Hshown). apply Z.leb_gt in E.
  split; [|split].
  - rewrite fmap_app. simpl. apply NoDup_app. split; [exact Hnd|]. split.
    + intros x Hx Hx'. apply list_elem_of_singleton in Hx'. subst x.
      exact (has_reel_false _ _ Hhas Hx).
    + apply NoDup_singleton.
  - unfold count in *. rewrite length_app. simpl. lia.
  - apply Forall_app. split; [exact Hshown|]. constructor; [|constructor].
    exists k, all, link. simpl. repeat split; auto. apply Hsub. left. reflexivity.
Qed.

Lemma harvest_gathered attempts k :
  preserves (gathered page limit) (harvest page limit attempts k).
Proof.
  revert k. induction attempts as [|n IH]; intros k; cbn [harvest];
    [apply preserves_ret|].
  apply preserves_bind; [intros s Hs; exact Hs | intros rs].
  destruct (limit <=? count rs); [apply preserves_ret|].
  intros s Hs. unfold bind at 1. unfold lift at 1.
  destruct (reel_links page k) as [links|msg] eqn:Hk; [|exact Hs].
  unfold bind at 1. unfold modify at 1.
  unfold bind at 1. unfold get at 1.
  pose proof (push_links_gathered k links links s Hk (fun l H => H) Hs) as Hg.
  destruct (limit <=? count (push_links links s limit)); [exact Hg|].
  unfold bind. unfold lift.
  destruct (reels_scroll page k) as [[]|msg]; [|exact Hg].
  apply (IH (S k) _ Hg).
Qed.

End Harvest.

Lemma scrapeProfileReels_gathered page username limit :
  gathered page limit (scrapeProfileReels page username limit).
Proof.
  unfold scrapeProfileReels. unfold bind at 1. unfold lift at 1.
  destruct (reels_goto page) as [[]|msg]; [|apply gathered_nil].
  unfold bind at 1. unfold lift at 1.
  destruct (reels_missing page) as [[|]|msg]; try apply gathered_nil.
  unfold bind.
  pose proof (harvest_gathered page limit (Z.to_nat (maxScrollAttempts limit)) 0 []
                (gathered_nil page limit)) as Hg.
  destruct (harvest page limit _ 0 []) as [[[]|msg] rs]; [|exact Hg].
  unfold ret. destruct Hg as (Hnd & Hc & Hshown).
  pose proof (slice_sublist rs 0 limit) as Hsub.
  split; [|split].
  - eapply sublist_fmap_NoDup; eassumption.
  - pose proof (sublist_length _ _ Hsub). unfold count in *. lia.
  - unfold Js.slice. apply Forall_take, Forall_drop, Hshown.
Qed.

(** X19.  Whatever the browser answers, [scrapeProfileReels] returns at
    most [limit] reels (none for a limit of zero or less) with pairwise
    distinct shortcodes; each one was built from an anchor that the grid
    showed, with an empty caption and a non-empty shortcode free of
    slashes.  When the navigation fails or the page has no reels the
    result is empty; no exception leaves the function. *)
Theorem reel_harvest_is_bounded_and_distinct
    (page : ReelsPage) (username : string) (limit : Z) :
  let rs := scrapeProfileReels page username limit in
  NoDup (reel_shortcode <$> rs) /\
  count rs <= Z.max 0 limit /\
  Forall (fun r => shown page r /\ reel_caption r = "" /\
                   reel_shortcode r <> "" /\
                   Str.forallb not_slash (reel_shortcode r) = true) rs /\
  (reels_goto page <> Ok tt \/ reels_missing page <> Ok false -> rs = []).
Proof.
  intros rs. destruct (scrapeProfileReels_gathered page username limit)
    as (Hnd & Hc & Hshown). fold rs in Hnd, Hc, Hshown.
  split; [exact Hnd|]. split; [exact Hc|]. split.
  - eapply Forall_impl; [exact Hshown|]. intros r Hr. split; [exact Hr|].
    destruct Hr as (k & links & link & _ & _ & Hsc & Hr).
    apply group_after_spec in Hsc as [Hne Hcls].
    split; [rewrite Hr; reflexivity|]. split; assumption.
  - subst rs. unfold scrapeProfileReels. unfold bind at 1. unfold lift at 1.
    destruct (reels_goto page) as [[]|msg]; [|reflexivity].
    unfold bind at 1. unfold lift at 1.
    destruct (reels_missing page) as [[|]|msg]; try reflexivity.
    intros [H | H]; congruence.
Qed.

(** *** The reels operation on top of the strategy *)

Lemma detail_loop_with_strategy (e : Common) (a : ReelAnswers) (indices : list nat)
    (st : Sys * list ReelData) :
  (forall i sc, exists r, reel_details a i sc = Ok r /\
                          forall d, r = Some d -> reel_shortcode d = sc) ->
  Forall (fun i => (i < length st.2)%nat) indices ->
  exists s' l',
    detail_loop e a indices st = (Ok tt, (s', l')) /\
    reel_shortcode <$> l' = reel_shortcode <$> st.2.
Proof.
  intros Ha. revert st. induction indices as [|i rest IH]; intros [s0 l0] Hi;
    cbn [detail_loop].
  - eexists _, _. split; reflexivity.
  - apply Forall_cons in Hi as [Hlt Hrest]. cbn [snd] in *.
    destruct (lookup_lt_is_Some_2 l0 i Hlt) as [reel Hreel].
    destruct (Ha i (reel_shortcode reel)) as (r & Hr & Hsame).
    unfold bind at 1. unfold shared at 1, acquireToken, ret. cbn [fst snd].
    unfold bind at 1. unfold locals at 1. cbn [fst snd].
    rewrite Hreel. unfold bind at 1. unfold bind at 1. unfold lift at 1.
    rewrite Hr.
    set (l1 := match r with Some detailed => <[i := detailed]> l0 | None => l0 end).
    assert (Hl1 : reel_shortcode <$> l1 = reel_shortcode <$> l0).
    { subst l1. destruct r as [d|]; [|reflexivity].
      rewrite list_fmap_insert. apply list_insert_id.
      rewrite list_lookup_fmap, Hreel. simpl. f_equal. symmetry. apply Hsame.
      reflexivity. }
    assert (Hlen : length l1 = length l0).
    { subst l1. destruct r; [apply length_insert | reflexivity]. }
    assert (Hstep : (match r with
                     | Some detailed => assign_locals (fun rs => <[i := detailed]> rs)
                     | None => fun s : Sys * list ReelData => (Ok tt, s)
                     end) (s0, l0) = (Ok tt, (s0, l1))).
    { subst l1. destruct r; reflexivity. }
    rewrite Hstep. cbv iota beta. unfold bind at 1. unfold shared at 1.
    cbn [fst snd].
    match goal with
    | |- context [updateJob ?j ?u s0] =>
        destruct (updateJob j u s0) as [[[]|msg] s1] eqn:Hup
    end.
    + cbn [fst snd].
      destruct (IH (s1, l1)) as (s' & l' & Hrun & Hl').
      { cbn [snd]. rewrite Hlen. exact Hrest. }
      exists s', l'. split; [exact Hrun|]. rewrite Hl'. exact Hl1.
    + exfalso. revert Hup. unfold updateJob, modify. discriminate.
Qed.

(** X20.  With the reel strategy answering and the context closing, the
    reels operation fails only when its context or its page cannot be
    created: the strategy turns every browser error into an empty or
    partial harvest, so the job is completed exactly when the setup
    succeeded.  The operation returns
    at most [limit] reels with pairwise distinct shortcodes; a completed
    job returns the shortcodes of the harvest, in order, whether or not
    details were fetched, and counts them; a failed job returns none. *)
Theorem reels_job_fails_only_at_setup
    (e : Common) (page : ReelsPage) (details : nat -> res (option DetailPage))
    (username : string) (limit : Z) (includeDetails : bool) (s : Sys) :
  closed e = Ok tt ->
  exists job rs s',
    scrapeReels e (answers page details username limit) username limit
                includeDetails s
    = (Ok (Some job, rs), s') /\
    (status job = completed \/ status job = failed) /\
    (status job = completed <->
     is_ok (launched e) && is_ok (scripted e) && is_ok (opened e) = true) /\
    NoDup (reel_shortcode <$> rs) /\ count rs <= Z.max 0 limit /\
    (status job = completed ->
       reel_shortcode <$> rs
       = reel_shortcode <$> scrapeProfileReels page username limit /\
       scrapedItems job = count rs /\ progress job = 100) /\
    (status job = failed -> rs = []).
Proof.
  intros Hclosed. unfold scrapeReels.
  set (a := answers page details username limit).
  set (found := scrapeProfileReels page username limit).
  set (R := fun l : list ReelData => reel_shortcode <$> l = reel_shortcode <$> found).
  set (B := fun ok : bool => ok = true).
  assert (Ha : forall i sc, exists r, reel_details a i sc = Ok r /\
                                      forall d, r = Some d -> reel_shortcode d = sc).
  { intros i sc. eexists. split; [reflexivity|].
    intros d. unfold scrapeReelDetails.
    destruct (details i) as [[pg|]|msg]; try discriminate.
    intros [= <-]. reflexivity. }
  match goal with
  | |- context [@job_flow ?L ?e0 ?k ?p ?ji ?t ?af ?init ?b ?sm s] =>
      assert (forall Inv, robust (jobId e) Inv -> preserves (on_shared Inv) b)
        as Hok by (intros Inv HI; flow_body HI);
      assert (forall s0, R (b (s0, init)).2.2 /\ B (is_ok (b (s0, init)).1)) as Hb;
      [| destruct (@job_flow_outcome L e0 k p ji t af init b sm R B Hok
                     (fun s0 => proj1 (Hb s0)) (fun s0 => proj2 (Hb s0)) Hclosed s)
           as (job & rs & s' & Hrun & Hj & Hc & Ht & Hkept & Hout) ]
  end.
  { intros s0. change (reels_found a) with (Ok (A := list ReelData) found).
    unfold bind at 1 3. unfold lift. cbn [fst snd].
    unfold bind at 1 2. unfold assign_locals. cbn [fst snd].
    subst R B. cbn beta.
    destruct (includeDetails && (0 <? count found)).
    - destruct (detail_loop_with_strategy e a (seq 0 (length found)) (s0, found) Ha)
        as (s1 & l1 & Hrun & Hl1).
      { cbn [snd]. apply List.Forall_forall. intros i Hi. apply in_seq in Hi. lia. }
      rewrite Hrun. split; [exact Hl1 | reflexivity].
    - split; reflexivity. }
  clear Hb. subst R B. cbn beta in *.
  destruct (scrapeProfileReels_gathered page username limit) as (Hnd & Hcount & _).
  fold found in Hnd, Hcount.
  exists job, rs, s'. split; [exact Hrun|].
  destruct (is_ok (launched e) && is_ok (scripted e) && is_ok (opened e)) eqn:Hsetup.
  - destruct Hout as [(Hst & _ & _ & H1 & H2) | (_ & _ & [Hs | Hk])];
      try discriminate.
    split; [left; exact Hst|]. split; [tauto|].
    rewrite Hkept. split; [exact Hnd|]. split.
    + assert (length rs = length found) as Hlen
        by (rewrite <- (length_fmap reel_shortcode rs), Hkept; apply length_fmap).
      unfold count in *. lia.
    + split; [|congruence].
      intros _. split; [reflexivity|]. simpl in *.
      split; [apply H1 | apply H2]; reflexivity.
  - destruct Hout as [(_ & Hs & _) | (Hst & _)]; [discriminate|].
    subst rs. split; [right; exact Hst|].
    split; [split; [congruence | discriminate]|].
    split; [constructor|]. split; [unfold count; simpl; lia|].
    split; [congruence | reflexivity].
Qed.

Lemma reels_job_fails_only_at_setup_witness :
  let e := answers_at "job_1700000000007_reel456" (Ok tt) in
  let details := fun _ : nat => Throw (A := option DetailPage) "Target closed" in
  let s := boot ProxyExamples.two_hosts in
  closed e = Ok tt /\
  exists job rs s',
    scrapeReels e (answers sample_page details "natgeo" 2) "natgeo" 2 true s
    = (Ok (Some job, rs), s') /\
    (status job = completed \/ status job = failed) /\
    (status job = completed <->
     is_ok (launched e) && is_ok (scripted e) && is_ok (opened e) = true) /\
    NoDup (reel_shortcode <$> rs) /\ count rs <= Z.max 0 2 /\
    (status job = completed ->
       reel_shortcode <$> rs
       = reel_shortcode <$> scrapeProfileReels sample_page "natgeo" 2 /\
       scrapedItems job = count rs /\ progress job = 100) /\
    (status job = failed -> rs = []).
Proof.
  intros e details s.
  assert (closed e = Ok tt) as H by reflexivity.
  split; [exact H|].
  exact (reels_job_fails_only_at_setup e sample_page details "natgeo" 2 true s H).
Defined.

End ReelFacts.
Module PostFacts.

Import Eff Service Posts.

(** *** The type of a scraped post *)

Lemma append_cons c s t : String c s +:+ t = String c (s +:+ t).
Proof. reflexivity. Qed.

Lemma append_nil t : "" +:+ t = t.
Proof. reflexivity. Qed.

Lemma prefix_slash_cons c s t :
  c <> "/"%char -> String.prefix (String "/" t) (String c s) = false.
Proof.
  intros Hc. cbn [String.prefix]. destruct (ascii_dec "/" c) as [E|E]; [congruence | reflexivity].
Qed.

Lemma not_slash_or_query_slash c : not_slash_or_query c = true -> c <> "/"%char.
Proof.
  unfold not_slash_or_query. intros H ->. discriminate.
Qed.

(** A shortcode without a slash, followed by a slash, holds no [/reel/]. *)
Lemma includes_reel_in_code sc :
  Str.forallb not_slash_or_query sc = true ->
  Str.includes (sc +:+ "/") "/reel/" = false.
Proof.
  induction sc as [|c sc IH]; [reflexivity|].
  cbn [Str.forallb]. intros H. apply andb_true_iff in H as [Hc Hsc].
  rewrite append_cons. cbn [Str.includes].
  rewrite prefix_slash_cons by (apply not_slash_or_query_slash, Hc).
  apply IH, Hsc.
Qed.

Lemma prefix_reel_code sc :
  Str.forallb not_slash_or_query sc = true ->
  String.prefix "reel/" (sc +:+ "/") = true -> sc = "reel".
Proof.
  intros Hsc H.
  destruct sc as [|c1 sc]; [discriminate|].
  rewrite ?append_cons, ?append_nil in H; cbn [String.prefix] in H.
  destruct (ascii_dec "r" c1) as [<-|]; [|discriminate].
  destruct sc as [|c2 sc]; [discriminate|].
  rewrite ?append_cons, ?append_nil in H; cbn [String.prefix] in H.
  destruct (ascii_dec "e" c2) as [<-|]; [|discriminate].
  destruct sc as [|c3 sc]; [discriminate|].
  rewrite ?append_cons, ?append_nil in H; cbn [String.prefix] in H.
  destruct (ascii_dec "e" c3) as [<-|]; [|discriminate].
  destruct sc as [|c4 sc]; [discriminate|].
  rewrite ?append_cons, ?append_nil in H; cbn [String.prefix] in H.
  destruct (ascii_dec "l" c4) as [<-|]; [|discriminate].
  destruct sc as [|c5 sc]; [reflexivity|].
  exfalso. rewrite ?append_cons, ?append_nil in H; cbn [String.prefix] in H.
  destruct (ascii_dec "/" c5) as [<-|]; [|discriminate].
  cbn [Str.forallb] in Hsc. do 4 (apply andb_true_iff in Hsc as [_ Hsc]).
  apply andb_true_iff in Hsc as [Hsc _]. discriminate.
Qed.

(** The URL that [scrapePost] visits holds [/reel/] only for the
    shortcode [reel]. *)
Lemma visited_url_has_no_reel sc :
  Str.forallb not_slash_or_query sc = true -> sc <> "reel" ->
  Str.includes ("https://www.instagram.com/p/" +:+ sc +:+ "/") "/reel/" = false.
Proof.
  intros Hsc Hne.
  rewrite ?append_cons, ?append_nil. cbn [Str.includes String.prefix].
  repeat match goal with
         | |- context [ascii_dec ?a ?b] =>
             lazymatch b with
             | Ascii _ _ _ _ _ _ _ _ =>
                 destruct (ascii_dec a b); [try discriminate | try congruence]
             end
         end.
  all: cbn [orb andb].
  all: try (rewrite includes_reel_in_code by exact Hsc).
  all: try reflexivity.
  all: destruct (String.prefix "reel/" (sc +:+ "/")) eqn:E;
    [apply prefix_reel_code in E; [congruence | exact Hsc] | reflexivity].
Qed.

(** X22.  [PostStrategy.scrapePost] never labels the post of a URL as a
    reel: for a string that includes [instagram.com] and holds a [/p/] or
    [/reel/] segment with shortcode [sc] (other than the word [reel]), a
    post that comes back has [sc] as id and shortcode, the [/p/] URL, and
    a type among image, video and carousel, carousel exactly when the
    page has a Next button and is not a video.  The test for [/reel/] is
    made on the URL that the function builds, which always has [/p/]. *)
Theorem post_of_a_url_is_never_a_reel
    (page : res (option PostPage)) (shortcodeOrUrl sc : string) (found : PostData) :
  Str.includes shortcodeOrUrl "instagram.com" = true ->
  Str.group_after ["/p/"; "/reel/"] not_slash_or_query shortcodeOrUrl = Some sc ->
  sc <> "reel" ->
  scrapePost page shortcodeOrUrl = Some found ->
  Hashtag.type found <> Hashtag.Reel /\
  Hashtag.url found = Hashtag.post_url (Some sc) /\
  Hashtag.shortcode found = Some sc /\ Hashtag.id found = Some sc /\
  exists pg, page = Ok (Some pg) /\
    Hashtag.type found
    = (if String.eqb (page_type pg) "video" then Hashtag.Video
       else if hasMultipleMedia pg then Hashtag.Carousel else Hashtag.Image).
Proof.
  intros Hinc Hsc Hne. unfold scrapePost, shortcode_of. rewrite Hinc, Hsc.
  destruct page as [[pg|]|msg]; try discriminate.
  apply ReelFacts.group_after_spec in Hsc as [_ Hcls].
  rewrite (visited_url_has_no_reel sc Hcls Hne).
  intros [= <-]. cbn [Hashtag.type Hashtag.url Hashtag.shortcode Hashtag.id].
  assert (Hty : (if hasMultipleMedia pg
                    && is_image (if String.eqb (page_type pg) "video"
                                 then Hashtag.Video else Hashtag.Image)
                 then Hashtag.Carousel
                 else if String.eqb (page_type pg) "video"
                      then Hashtag.Video else Hashtag.Image)
                = (if String.eqb (page_type pg) "video" then Hashtag.Video
                   else if hasMultipleMedia pg then Hashtag.Carousel
                        else Hashtag.Image)).
  { destruct (String.eqb (page_type pg) "video"), (hasMultipleMedia pg); reflexivity. }
  rewrite Hty.
  split; [destruct (String.eqb (page_type pg) "video"), (hasMultipleMedia pg);
          discriminate|].
  split.
  { destruct (String.eqb (page_type pg) "video"), (hasMultipleMedia pg); reflexivity. }
  split; [reflexivity|]. split; [reflexivity|].
  exists pg. split; reflexivity.
Qed.

Lemma post_of_a_url_is_never_a_reel_witness :
  let pg := {| page_type := "video"; page_caption := "Sunset #travel";
               page_author := "natgeo"; hasMultipleMedia := false |} in
  let reel_address := "https://www.instagram.com/reel/Cxyz123AbC/?igsh=1" in
  exists found,
    scrapePost (Ok (Some pg)) reel_address = Some found /\
    Hashtag.type found <> Hashtag.Reel /\
    Hashtag.url found = Hashtag.post_url (Some "Cxyz123AbC") /\
    Hashtag.shortcode found = Some "Cxyz123AbC" /\
    Hashtag.id found = Some "Cxyz123AbC" /\
    exists pg', Ok (Some pg) = Ok (Some pg') /\
      Hashtag.type found
      = (if String.eqb (page_type pg') "video" then Hashtag.Video
         else if hasMultipleMedia pg' then Hashtag.Carousel else Hashtag.Image).
Proof.
  intros pg reel_address.
  eexists. split; [vm_compute; reflexivity|].
  apply (post_of_a_url_is_never_a_reel (Ok (Some pg)) reel_address "Cxyz123AbC").
  - vm_compute. reflexivity.
  - vm_compute. reflexivity.
  - discriminate.
  - vm_compute. reflexivity.
Defined.

(** *** Carousel media *)

Lemma existsb_eqb_false m l : existsb (String.eqb m) l = false -> m ∉ l.
Proof.
  intros H Hin. apply list_elem_of_In in Hin.
  assert (existsb (String.eqb m) l = true) as Hex; [|congruence].
  apply existsb_exists. exists m. split; [exact Hin | apply String.eqb_refl].
Qed.

Lemma push_medium_tidy c n mediaUrls :
  tidy_media c n mediaUrls ->
  tidy_media c (S n) (push_medium (media c (S n)) mediaUrls).
Proof.
  intros (Hnd & Hlen & Hall). unfold push_medium.
  assert (Hweak : tidy_media c (S n) mediaUrls).
  { split; [exact Hnd|]. split; [lia|].
    eapply Forall_impl; [exact Hall|]. intros m (Hm & k & Hk & ->).
    split; [exact Hm|]. exists k. split; [lia | reflexivity]. }
  destruct (String.eqb (media c (S n)) "") eqn:E1; [exact Hweak|].
  destruct (existsb (String.eqb (media c (S n))) mediaUrls) eqn:E2; [exact Hweak|].
  cbn [negb andb]. destruct Hweak as (_ & _ & Hall').
  split; [|split].
  - apply NoDup_app. split; [exact Hnd|]. split; [|apply NoDup_singleton].
    intros x Hx Hx'. apply list_elem_of_singleton in Hx'. subst x.
    exact (existsb_eqb_false _ _ E2 Hx).
  - rewrite length_app. simpl. lia.
  - apply Forall_app. split; [exact Hall'|]. constructor; [|constructor].
    split; [apply String.eqb_neq, E1|]. exists (S n). split; [lia | reflexivity].
Qed.

Lemma tidy_media_later c n n' mediaUrls :
  (n <= n')%nat -> tidy_media c n mediaUrls -> tidy_media c n' mediaUrls.
Proof.
  intros Hle (Hnd & Hlen & Hall). split; [exact Hnd|]. split; [lia|].
  eapply Forall_impl; [exact Hall|]. intros m (Hm & k & Hk & ->).
  split; [exact Hm|]. exists k. split; [lia | reflexivity].
Qed.

Lemma click_through_tidy c maxClicks k mediaUrls :
  tidy_media c k mediaUrls ->
  tidy_media c (k + maxClicks) (click_through c maxClicks k mediaUrls).
Proof.
  revert k mediaUrls. induction maxClicks as [|n IH]; intros k mediaUrls Ht;
    cbn [click_through].
  - rewrite Nat.add_0_r. exact Ht.
  - destruct (click c k) as [[]|msg];
      [|apply (tidy_media_later c k); [lia | exact Ht]].
    pose proof (push_medium_tidy c k mediaUrls Ht) as Hp.
    destruct (has_next c k) as [[|]|msg];
      try (apply (tidy_media_later c (S k)); [lia | exact Hp]).
    replace (k + S n)%nat with (S k + n)%nat by lia. apply IH, Hp.
Qed.

(** X23.  [scrapeCarouselMedia] returns at most 21 media URLs, none of
    them empty and no two equal, each one read from the page at the start
    or after one of at most 20 clicks; without a Next button it returns at
    most the one medium on display, and nothing when the probe for the
    button throws.  A click or a probe that throws ends the walk with
    what was collected. *)
Theorem carousel_media_are_distinct_and_bounded (c : Carousel) :
  let mediaUrls := scrapeCarouselMedia c in
  NoDup mediaUrls /\ (length mediaUrls <= 21)%nat /\
  Forall (fun m => m <> "" /\ exists k, (k <= 20)%nat /\ m = media c k) mediaUrls /\
  (next_button c = Ok false -> (length mediaUrls <= 1)%nat) /\
  (is_ok (next_button c) = false -> mediaUrls = []).
Proof.
  intros mediaUrls.
  assert (Hfirst : tidy_media c 0 (if String.eqb (media c 0) "" then [] else [media c 0])).
  { destruct (String.eqb (media c 0) "") eqn:E.
    - split; [constructor|]. split; [simpl; lia | constructor].
    - split; [apply NoDup_singleton|]. split; [simpl; lia|].
      constructor; [|constructor]. split; [apply String.eqb_neq, E|].
      exists 0%nat. split; [lia | reflexivity]. }
  assert (Hall : tidy_media c 20 mediaUrls).
  { subst mediaUrls. unfold scrapeCarouselMedia.
    destruct (next_button c) as [[|]|msg].
    - apply (click_through_tidy c 20 0), Hfirst.
    - apply (tidy_media_later c 0); [lia | exact Hfirst].
    - split; [constructor|]. split; [simpl; lia | constructor]. }
  destruct Hall as (Hnd & Hlen & Hm).
  split; [exact Hnd|]. split; [exact Hlen|]. split; [exact Hm|].
  subst mediaUrls. unfold scrapeCarouselMedia. split.
  - intros ->. destruct (String.eqb (media c 0) ""); simpl; lia.
  - destruct (next_button c) as [b|msg]; [discriminate | reflexivity].
Qed.

End PostFacts.
Module CommentFacts.

Import Eff Service Logic LogicFacts Outcome FlowFacts Comments.

Lemma same_comment_false raw found :
  existsb (same_comment raw) found = false -> raw_pair raw ∉ pair_of <$> found.
Proof.
  intros H Hin. apply list_elem_of_fmap in Hin as (c & Hc & Hin).
  apply list_elem_of_In in Hin.
  assert (existsb (same_comment raw) found = true) as Hex; [|congruence].
  apply existsb_exists. exists c. split; [exact Hin|].
  unfold same_comment, raw_pair, pair_of in *. injection Hc as -> ->.
  rewrite !String.eqb_refl. reflexivity.
Qed.


Section Convert.

Variables (shortcode : string) (limit : Z).

Lemma numbered_nil : numbered shortcode limit [].
Proof.
  split; [constructor|]. split; [unfold count; simpl; lia|].
  intros k c H. rewrite lookup_nil in H. discriminate.
Qed.

Lemma convert_numbered raws found :
  numbered shortcode limit found -> numbered shortcode limit (convert shortcode raws found limit).
Proof.
  revert found. induction raws as [|raw rest IH]; intros found Hn; simpl;
    [exact Hn|].
  destruct (limit <=? count found) eqn:E; [exact Hn|].
  destruct (existsb (same_comment raw) found) eqn:Hex; [apply IH, Hn|].
  apply IH. destruct Hn as (Hnd & Hc & Hid). apply Z.leb_gt in E.
  split; [|split].
  - rewrite fmap_app. simpl. apply NoDup_app. split; [exact Hnd|]. split.
    + intros x Hx Hx'. apply list_elem_of_singleton in Hx'. subst x.
      exact (same_comment_false _ _ Hex Hx).
    + apply NoDup_singleton.
  - unfold count in *. rewrite length_app. simpl. lia.
  - intros k c Hk. apply lookup_app_Some in Hk as [Hk | [Hge Hk]]; [apply Hid, Hk|].
    apply list_lookup_singleton_Some in Hk as [Hk <-].
    assert (k = length found) as -> by lia. split; reflexivity.
Qed.



End Convert.

Lemma slice_all {A} (l : list A) (limit : Z) :
  count l <= Z.max 0 limit -> Js.slice l 0 limit = l.
Proof.
  intros H. rewrite HashtagFacts.slice_from_start. unfold Js.clamp_index, count in *.
  destruct (limit <? 0) eqn:E.
  - apply Z.ltb_lt in E. destruct l; [apply take_nil | simpl in H; lia].
  - apply Z.ltb_ge in E. apply take_ge. lia.
Qed.

Lemma scrapeComments_numbered page shortcodeOrUrl limit :
  numbered (shortcode_of shortcodeOrUrl) limit
           (scrapeComments page shortcodeOrUrl limit).
Proof.
  unfold scrapeComments. destruct page as [[raws|]|msg]; try apply numbered_nil.
  pose proof (convert_numbered (shortcode_of shortcodeOrUrl) limit raws []
                (numbered_nil _ _)) as Hn.
  rewrite slice_all; [exact Hn | apply Hn].
Qed.


(** *** The comments and post operations on top of the strategies *)

(** X24.  With [CommentStrategy] answering and the context closing, the
    comments operation fails only when its context or its page cannot be
    created: the job is completed exactly when both were, also when the
    post page is missing or a browser call throws, in which case it
    reports zero comments.  A
    completed job returns the comments of the strategy, at most [limit]
    and pairwise distinct in author and text, and counts them; a failed
    job returns none. *)
Theorem comments_job_fails_only_at_setup
    (e : Common) (page : res (option (list RawComment)))
    (postUrl : string) (limit : Z) (s : Sys) :
  closed e = Ok tt ->
  let answer := bodies (Comments.scrapeComments page postUrl limit) in
  exists job cs s',
    Service.scrapeComments e (Ok answer) postUrl limit s = (Ok (Some job, cs), s') /\
    (status job = completed \/ status job = failed) /\
    (status job = completed <->
     is_ok (launched e) && is_ok (scripted e) && is_ok (opened e) = true) /\
    count cs <= Z.max 0 limit /\
    NoDup ((fun c => (comment_author c, comment_text c)) <$> cs) /\
    (status job = completed ->
       cs = answer /\ scrapedItems job = count cs /\ progress job = 100 /\
       ((forall raws, page <> Ok (Some raws)) -> scrapedItems job = 0)) /\
    (status job = failed -> cs = []).
Proof.
  intros Hclosed answer. unfold Service.scrapeComments.
  set (R := fun l : list CommentData => l = answer).
  set (B := fun ok : bool => ok = true).
  match goal with
  | |- context [@job_flow ?L ?e0 ?k ?p ?ji ?t ?af ?init ?b ?sm s] =>
      assert (forall Inv, robust (jobId e) Inv -> preserves (on_shared Inv) b)
        as Hok by (intros Inv HI; flow_body HI);
      destruct (@job_flow_outcome L e0 k p ji t af init b sm R B Hok
                  (fun s0 => eq_refl) (fun s0 => eq_refl) Hclosed s)
        as (job & cs & s' & Hrun & Hj & Hc & Ht & Hkept & Hout)
  end.
  subst R B. cbn beta in *.
  destruct (scrapeComments_numbered page postUrl limit) as (Hnd & Hcount & _).
  assert (Hpairs : (fun c => (comment_author c, comment_text c)) <$> answer
                   = pair_of <$> Comments.scrapeComments page postUrl limit).
  { subst answer. unfold bodies. rewrite <- list_fmap_compose. reflexivity. }
  assert (Hlen : count answer = count (Comments.scrapeComments page postUrl limit)).
  { subst answer. unfold bodies, count. rewrite length_fmap. reflexivity. }
  exists job, cs, s'. split; [exact Hrun|].
  destruct (is_ok (launched e) && is_ok (scripted e) && is_ok (opened e)) eqn:Hsetup.
  - destruct Hout as [(Hst & _ & _ & H1 & H2) | (_ & _ & [Hs | Hk])];
      try discriminate.
    subst cs. split; [left; exact Hst|]. split; [tauto|].
    split; [lia|]. split; [rewrite Hpairs; exact Hnd|].
    split; [|congruence].
    intros _. simpl in *. split; [reflexivity|].
    split; [apply H1; reflexivity|]. split; [apply H2; reflexivity|].
    intros Hno. rewrite (H1 _ eq_refl), Hlen.
    unfold Comments.scrapeComments.
    destruct page as [[raws|]|msg]; try reflexivity.
    exfalso. apply (Hno raws). reflexivity.
  - destruct Hout as [(_ & Hs & _) | (Hst & _)]; [discriminate|].
    subst cs. split; [right; exact Hst|].
    split; [split; [congruence | discriminate]|].
    split; [unfold count; simpl; lia|]. split; [constructor|].
    split; [congruence | reflexivity].
Qed.

Lemma comments_job_fails_only_at_setup_witness :
  let e := answers_at "job_1700000000008_comm123" (Ok tt) in
  let page := Throw (A := option (list RawComment)) "Timeout 30000ms exceeded" in
  let postUrl := "https://www.instagram.com/p/Cabc123/" in
  let s := boot ProxyExamples.two_hosts in
  let answer := bodies (Comments.scrapeComments page postUrl 20) in
  closed e = Ok tt /\
  exists job cs s',
    Service.scrapeComments e (Ok answer) postUrl 20 s = (Ok (Some job, cs), s') /\
    (status job = completed \/ status job = failed) /\
    (status job = completed <->
     is_ok (launched e) && is_ok (scripted e) && is_ok (opened e) = true) /\
    count cs <= Z.max 0 20 /\
    NoDup ((fun c => (comment_author c, comment_text c)) <$> cs) /\
    (status job = completed ->
       cs = answer /\ scrapedItems job = count cs /\ progress job = 100 /\
       ((forall raws, page <> Ok (Some raws)) -> scrapedItems job = 0)) /\
    (status job = failed -> cs = []).
Proof.
  intros e page postUrl s answer.
  assert (closed e = Ok tt) as H by reflexivity.
  split; [exact H|].
  exact (comments_job_fails_only_at_setup e page postUrl 20 s H).
Defined.

(** X25.  With both strategies answering and the context closing, the
    post operation fails only when its context or its page cannot be
    created.  A completed job
    returns the post of the post strategy and, when comments were asked
    for and the post was found, the comments of the comment strategy,
    otherwise none; it reports [1 + comments.length] scraped items, also
    when the post was not found. *)
Theorem post_job_fails_only_at_setup
    (e : Common) (post_page : res (option Posts.PostPage))
    (comments_page : res (option (list RawComment)))
    (postUrl : string) (includeComments : bool) (commentsLimit : Z) (s : Sys) :
  closed e = Ok tt ->
  let a := post_answers post_page comments_page postUrl commentsLimit in
  let found := Posts.scrapePost post_page postUrl in
  let answer := bodies (Comments.scrapeComments comments_page postUrl commentsLimit) in
  exists job result s',
    Service.scrapePost e a postUrl includeComments commentsLimit s
    = (Ok (Some job, result), s') /\
    (status job = completed \/ status job = failed) /\
    (status job = completed <->
     is_ok (launched e) && is_ok (scripted e) && is_ok (opened e) = true) /\
    count result.2 <= Z.max 0 commentsLimit /\
    (status job = completed ->
       result.1 = found /\
       result.2 = (if includeComments && bool_decide (is_Some found)
                   then answer else []) /\
       scrapedItems job = 1 + count result.2 /\ progress job = 100) /\
    (status job = failed -> result = (None, [])).
Proof.
  intros Hclosed a found answer. unfold Service.scrapePost.
  set (R := fun l : option PostData * list CommentData =>
              l.1 = found /\
              l.2 = (if includeComments && bool_decide (is_Some found)
                     then answer else [])).
  set (B := fun ok : bool => ok = true).
  match goal with
  | |- context [@job_flow ?L ?e0 ?k ?p ?ji ?t ?af ?init ?b ?sm s] =>
      assert (forall Inv, robust (jobId e) Inv -> preserves (on_shared Inv) b)
        as Hok by (intros Inv HI; flow_body HI);
      assert (forall s0, R (b (s0, init)).2.2 /\ B (is_ok (b (s0, init)).1)) as Hb;
      [| destruct (@job_flow_outcome L e0 k p ji t af init b sm R B Hok
                     (fun s0 => proj1 (Hb s0)) (fun s0 => proj2 (Hb s0)) Hclosed s)
           as (job & result & s' & Hrun & Hj & Hc & Ht & Hkept & Hout) ]
  end.
  { intros s0. subst R B. cbn beta.
    change (post_found a) with (Ok (A := option PostData) found).
    change (post_comments a) with (Ok (A := list CommentData) answer).
    unfold bind, lift, assign_locals, shared, updateJob, modify, acquireToken, ret.
    cbn [fst snd].
    destruct found as [p|]; [destruct includeComments|]; cbn;
      rewrite ?andb_false_r; repeat split. }
  clear Hb. subst R B. cbn beta in *.
  destruct (scrapeComments_numbered comments_page postUrl commentsLimit)
    as (_ & Hcount & _).
  assert (Hlen : count answer
                 = count (Comments.scrapeComments comments_page postUrl commentsLimit)).
  { subst answer. unfold bodies, count. rewrite length_fmap. reflexivity. }
  exists job, result, s'. split; [exact Hrun|].
  destruct (is_ok (launched e) && is_ok (scripted e) && is_ok (opened e)) eqn:Hsetup.
  - destruct Hout as [(Hst & _ & _ & H1 & H2) | (_ & _ & [Hs | Hk])];
      try discriminate.
    destruct Hkept as [Hk1 Hk2].
    split; [left; exact Hst|]. split; [tauto|]. split.
    { rewrite Hk2. destruct (includeComments && _); [lia|]. unfold count. simpl. lia. }
    split; [|congruence].
    intros _. simpl in *. split; [exact Hk1|]. split; [exact Hk2|].
    split; [apply H1 | apply H2]; reflexivity.
  - destruct Hout as [(_ & Hs & _) | (Hst & _)]; [discriminate|].
    subst result. split; [right; exact Hst|].
    split; [split; [congruence | discriminate]|].
    split; [unfold count; simpl; lia|].
    split; [congruence | reflexivity].
Qed.

Lemma post_job_fails_only_at_setup_witness :
  let e := answers_at "job_1700000000009_post123" (Ok tt) in
  let post_page := Ok (None (A := Posts.PostPage)) in
  let comments_page :=
    Throw (A := option (list RawComment)) "Timeout 30000ms exceeded" in
  let postUrl := "https://www.instagram.com/p/Cabc123/" in
  let s := boot ProxyExamples.two_hosts in
  let a := post_answers post_page comments_page postUrl 20 in
  let found := Posts.scrapePost post_page postUrl in
  let answer := bodies (Comments.scrapeComments comments_page postUrl 20) in
  closed e = Ok tt /\
  exists job result s',
    Service.scrapePost e a postUrl true 20 s = (Ok (Some job, result), s') /\
    (status job = completed \/ status job = failed) /\
    (status job = completed <->
     is_ok (launched e) && is_ok (scripted e) && is_ok (opened e) = true) /\
    count result.2 <= Z.max 0 20 /\
    (status job = completed ->
       result.1 = found /\
       result.2 = (if true && bool_decide (is_Some found) then answer else []) /\
       scrapedItems job = 1 + count result.2 /\ progress job = 100) /\
    (status job = failed -> result = (None, [])).
Proof.
  intros e post_page comments_page postUrl s a found answer.
  assert (closed e = Ok tt) as H by reflexivity.
  split; [exact H|].
  exact (post_job_fails_only_at_setup e post_page comments_page postUrl true 20 s H).
Defined.

End CommentFacts.
Module ProfileFacts.

Import Eff Eff.Notations Service Logic LogicFacts Outcome FlowFacts.
Import Hashtag HashtagFacts.
Import Profiles.

(** *** The posts of a profile *)

Lemma posts_gathered_nil limit : gathered limit [].
Proof. split; [apply good_nil | constructor]. Qed.

Lemma posts_gathered_push limit posts p :
  gathered limit posts ->
  (limit <=? count posts) = false ->
  has_shortcode posts (shortcode p) = false ->
  url p = post_url (shortcode p) ->
  gathered limit (posts ++ [p]).
Proof.
  intros [Hg Ha] Hl Hs Hu. split.
  { apply good_push; [exact Hg | rewrite JsFacts.at_least_whole; exact Hl | exact Hs]. }
  apply Forall_app. split; [exact Ha | repeat constructor; exact Hu].
Qed.

Lemma posts_add_captured_gathered limit edges username posts :
  gathered limit posts -> gathered limit (add_captured edges username posts limit).
Proof.
  revert posts. induction edges as [|edge rest IH]; intros posts Hg; simpl;
    [exact Hg|].
  destruct (limit <=? Service.count posts) eqn:El; [exact Hg|].
  destruct (parseGraphQLPost edge username) as [p|] eqn:Hp; [|apply IH, Hg].
  destruct (has_shortcode posts (shortcode p)) eqn:Hs; [apply IH, Hg|].
  apply IH, posts_gathered_push; auto.
  destruct edge as [node|]; [|discriminate]. injection Hp as <-. reflexivity.
Qed.

Lemma posts_push_links_gathered limit links username posts :
  gathered limit posts -> gathered limit (push_links links username posts limit).
Proof.
  revert posts. induction links as [|link rest IH]; intros posts Hg; simpl;
    [exact Hg|].
  destruct (limit <=? Service.count posts) eqn:El; [exact Hg|].
  destruct (Str.group_after _ _ _) as [sc|]; [|apply IH, Hg].
  destruct (has_shortcode posts (Some sc)) eqn:Hs; [apply IH, Hg|].
  apply IH, posts_gathered_push; auto.
Qed.

Lemma posts_harvest_gathered page username limit attempts k :
  preserves (gathered limit) (harvest page username limit attempts k).
Proof.
  revert k. induction attempts as [|n IH]; intros k; cbn [harvest];
    [apply preserves_ret|].
  apply preserves_bind; [intros s Hs; exact Hs | intros posts].
  destruct (limit <=? Service.count posts); [apply preserves_ret|].
  apply preserves_bind; [apply preserves_lift | intros links].
  apply preserves_bind;
    [intros s Hs; apply posts_push_links_gathered, Hs | intros _].
  apply preserves_bind; [intros s Hs; exact Hs | intros posts'].
  destruct (limit <=? Service.count posts'); [apply preserves_ret|].
  apply preserves_bind; [apply preserves_lift | intros _; apply IH].
Qed.

Lemma scrapeProfilePosts_gathered page username limit :
  gathered limit (scrapeProfilePosts page username limit).
Proof.
  unfold scrapeProfilePosts. unfold bind at 1. unfold lift at 1.
  destruct (posts_goto page) as [[]|msg]; [|apply posts_gathered_nil].
  unfold bind at 1. unfold lift at 1.
  destruct (posts_private page) as [[|]|msg]; try apply posts_gathered_nil.
  unfold bind at 1. unfold modify at 1.
  pose proof (posts_add_captured_gathered limit (captured_edges page) username []
                (posts_gathered_nil limit)) as H0.
  set (posts0 := add_captured _ _ _ _) in *.
  unfold bind.
  pose proof (posts_harvest_gathered page username limit
                (Z.to_nat (Js.ceil_div limit 12 + 5)) 0 posts0 H0) as Hg.
  destruct (harvest page username limit _ 0 posts0) as [[[]|msg] posts]; [|exact Hg].
  unfold ret. destruct Hg as [Hgood Haddr]. split.
  - pose proof (slice_good _ _ Hgood) as H. rewrite JsFacts.trunc_whole in H. exact H.
  - unfold Js.slice. apply Forall_take, Forall_drop, Haddr.
Qed.

(** X26.  Whatever the browser answers, [scrapeProfilePosts] returns at
    most [limit] posts (none for a limit of zero or less) with pairwise
    distinct shortcodes, captured GraphQL posts first and grid anchors
    after them; every post, a reel included, has the [/p/] address of its
    shortcode.  The result is empty when the navigation throws or the
    account is private; browser errors never leave the function. *)
Theorem profile_posts_are_bounded_and_distinct
    (page : PostsPage) (username : string) (limit : Z) :
  let posts := scrapeProfilePosts page username limit in
  NoDup (shortcode <$> posts) /\
  Service.count posts <= Z.max 0 limit /\
  Forall (fun p => url p = post_url (shortcode p)) posts /\
  (posts_goto page <> Ok tt \/ posts_private page <> Ok false -> posts = []).
Proof.
  intros posts.
  destruct (scrapeProfilePosts_gathered page username limit) as [[Hd Hw] Ha].
  unfold within in Hw. rewrite JsFacts.ceil_whole in Hw.
  split; [exact Hd|]. split; [exact Hw|]. split; [exact Ha|].
  subst posts. unfold scrapeProfilePosts. unfold bind at 1. unfold lift at 1.
  destruct (posts_goto page) as [[]|msg]; [|reflexivity].
  unfold bind at 1. unfold lift at 1.
  destruct (posts_private page) as [[|]|msg]; try reflexivity.
  intros [H | H]; congruence.
Qed.

(** *** The profile operation on top of the strategy *)

Lemma profile_flow_runs (e : Common) (a : ProfileAnswers) (username : string)
    (includePosts : bool) (postsLimit : Z) (found : option ProfileData)
    (harvested : list PostData) (s : Sys) :
  launched e = Ok tt -> scripted e = Ok tt -> opened e = Ok tt ->
  closed e = Ok tt ->
  profile_found a = Ok found -> profile_posts a = Ok harvested ->
  let wanted := includePosts && match found with
                                | Some p => negb (isPrivate p)
                                | None => false
                                end in
  exists job s',
    Service.scrapeProfile e a username includePosts postsLimit s
    = (Ok (Some job, (found, if wanted then harvested else [])), s') /\
    status job = completed /\
    scrapedItems job = 1 + Service.count (if wanted then harvested else []) /\
    progress job = (if wanted then 100 else 10).
Proof.
  intros Hl Hi Ho Hc Hf Hp wanted. unfold Service.scrapeProfile, job_flow.
  unfold bind, finally, try_catch, shared, createJob, modify, acquireToken, ret,
    getNextProxy.
  cbn [fst snd pool set_jobs].
  destruct (Proxy.getNextProxy (proxy_used_at e) (pool s)) as [proxy p'].
  unfold createContext, createPage, bind, lift, modify, get, throw, reportWarning,
    updateJob, closeContext, ret, assign_locals, locals, markProxySuccess,
    reportSuccess.
  rewrite Hl, Hi, Ho, Hc, Hf, Hp. cbn -[insert lookup delete].
  repeat first [ rewrite lookup_insert_eq | progress cbn -[insert lookup delete] ].
  subst wanted.
  destruct found as [p|]; [destruct includePosts; [destruct (isPrivate p)|]|];
    cbn [andb negb];
    repeat first [ rewrite lookup_insert_eq | progress cbn -[insert lookup delete] ];
    destruct ((0 <? consecutiveWarnings s) && lucky e);
    destruct proxy;
    repeat first [ rewrite lookup_insert_eq | progress cbn -[insert lookup delete]
                 | progress unfold modify, ret ];
    rewrite ?andb_false_r;
    eexists _, _; (split; [reflexivity|]); repeat split.
Qed.

(** X27.  With [ProfileStrategy] answering and the context closing, the
    profile operation fails only when its context or its page cannot be
    created.  A completed job returns the profile of the strategy and,
    when posts were asked for and a public profile was found, its posts
    (at most [postsLimit], with pairwise distinct shortcodes), otherwise
    none; it reports [1 + posts.length] scraped items, with progress 100
    when the posts were fetched and 10 when they were not. *)
Theorem profile_job_fails_only_at_setup
    (e : Common) (profile_page : ProfilePage) (posts_page : PostsPage)
    (username : string) (includePosts : bool) (postsLimit : Z) (s : Sys) :
  closed e = Ok tt ->
  let a := answers profile_page posts_page username postsLimit in
  let found := scrapeProfile profile_page username in
  let wanted := includePosts && match found with
                                | Some p => negb (isPrivate p)
                                | None => false
                                end in
  let harvested := scrapeProfilePosts posts_page username postsLimit in
  exists job result s',
    Service.scrapeProfile e a username includePosts postsLimit s
    = (Ok (Some job, result), s') /\
    (status job = completed \/ status job = failed) /\
    (status job = completed <->
     is_ok (launched e) && is_ok (scripted e) && is_ok (opened e) = true) /\
    NoDup (shortcode <$> result.2) /\
    Service.count result.2 <= Z.max 0 postsLimit /\
    (status job = completed ->
       result = (found, if wanted then harvested else []) /\
       scrapedItems job = 1 + Service.count result.2 /\
       progress job = (if wanted then 100 else 10)) /\
    (status job = failed -> result = (None, []) /\ scrapedItems job = 0).
Proof.
  intros Hclosed a found wanted harvested.
  destruct (scrapeProfilePosts_gathered posts_page username postsLimit)
    as [[Hd Hw] _]. fold harvested in Hd, Hw.
  unfold within in Hw. rewrite JsFacts.ceil_whole in Hw.
  assert (Hf : profile_found a = Ok found) by reflexivity.
  assert (Hp : profile_posts a = Ok harvested) by reflexivity.
  clearbody a found harvested.
  assert (Hfail : forall msg,
             launched e = Throw msg
             \/ (launched e = Ok tt /\ scripted e = Throw msg)
             \/ (launched e = Ok tt /\ scripted e = Ok tt /\ opened e = Throw msg) ->
             is_ok (launched e) && is_ok (scripted e) && is_ok (opened e) = false ->
             exists job result s',
               Service.scrapeProfile e a username includePosts postsLimit s
               = (Ok (Some job, result), s') /\
               (status job = completed \/ status job = failed) /\
               (status job = completed <->
                is_ok (launched e) && is_ok (scripted e) && is_ok (opened e) = true) /\
               NoDup (shortcode <$> result.2) /\
               Service.count result.2 <= Z.max 0 postsLimit /\
               (status job = completed ->
                  result = (found, if wanted then harvested else []) /\
                  scrapedItems job = 1 + Service.count result.2 /\
                  progress job = (if wanted then 100 else 10)) /\
               (status job = failed -> result = (None, []) /\ scrapedItems job = 0)).
  { intros msg Hwhy Hsetup. unfold Service.scrapeProfile.
    match goal with
    | |- context [@job_flow ?L ?e0 ?k ?p ?ji ?t ?af ?init ?b ?sm s] =>
        destruct (@job_flow_setup_fails L e0 k p ji t af init b sm s msg Hwhy Hclosed)
          as (job & s' & Hrun & Hst & _ & Hsc & _)
    end.
    exists job, (None, []), s'. split; [exact Hrun|].
    split; [right; exact Hst|]. rewrite Hsetup.
    split; [split; [congruence | discriminate]|].
    split; [constructor|]. split; [unfold Service.count; simpl; lia|].
    split; [congruence|]. intros _. split; [reflexivity | exact Hsc]. }
  destruct (launched e) as [[]|m1] eqn:Hl;
    [|apply (Hfail m1); [left; reflexivity | reflexivity]].
  destruct (scripted e) as [[]|m3] eqn:Hi;
    [|apply (Hfail m3); [right; left; split; reflexivity | reflexivity]].
  destruct (opened e) as [[]|m2] eqn:Ho;
    [|apply (Hfail m2); [right; right; repeat split; reflexivity | reflexivity]].
  clear Hfail.
  destruct (profile_flow_runs e a username includePosts postsLimit found harvested s
              Hl Hi Ho Hclosed Hf Hp) as (job & s' & Hrun & Hst & Hsc & Hpr).
  fold wanted in Hrun, Hsc, Hpr.
  exists job, (found, if wanted then harvested else []), s'.
  split; [exact Hrun|]. split; [left; exact Hst|].
  split; [split; [reflexivity | intros _; exact Hst]|].
  cbn [fst snd]. split; [destruct wanted; [exact Hd | constructor]|].
  split; [destruct wanted; [exact Hw | unfold Service.count; simpl; lia]|].
  split; [|congruence]. intros _. repeat split; assumption.
Qed.

Lemma profile_job_fails_only_at_setup_witness :
  let e := answers_at "job_1700000000010_prof456" (Ok tt) in
  let profile_page :=
    {| profile_goto := Ok tt; not_available := Ok false; captured := [];
       page_source := None;
       meta_tags := Ok {| meta_followers := "1.5K"; meta_private := false |} |} in
  let posts_page :=
    {| posts_goto := Ok tt; posts_private := Ok false; captured_edges := [];
       post_links := fun _ =>
         Ok [ {| post_href := "/natgeo/p/Cabc123/"; post_img := "a.jpg" |};
              {| post_href := "/natgeo/reel/Cdef456/"; post_img := "b.jpg" |};
              {| post_href := "/natgeo/p/Cghi789/"; post_img := "c.jpg" |} ];
       posts_scroll := fun _ => Throw "Target closed" |} in
  let s := boot ProxyExamples.two_hosts in
  let a := answers profile_page posts_page "natgeo" 2 in
  let found := scrapeProfile profile_page "natgeo" in
  let wanted := true && match found with
                        | Some p => negb (isPrivate p)
                        | None => false
                        end in
  let harvested := scrapeProfilePosts posts_page "natgeo" 2 in
  closed e = Ok tt /\
  exists job result s',
    Service.scrapeProfile e a "natgeo" true 2 s = (Ok (Some job, result), s') /\
    (status job = completed \/ status job = failed) /\
    (status job = completed <->
     is_ok (launched e) && is_ok (scripted e) && is_ok (opened e) = true) /\
    NoDup (shortcode <$> result.2) /\
    Service.count result.2 <= Z.max 0 2 /\
    (status job = completed ->
       result = (found, if wanted then harvested else []) /\
       scrapedItems job = 1 + Service.count result.2 /\
       progress job = (if wanted then 100 else 10)) /\
    (status job = failed -> result = (None, []) /\ scrapedItems job = 0).
Proof.
  intros e profile_page posts_page s a found wanted harvested.
  assert (closed e = Ok tt) as H by reflexivity.
  split; [exact H|].
  exact (profile_job_fails_only_at_setup e profile_page posts_page "natgeo" true 2 s H).
Defined.

End ProfileFacts.
Module AuthFacts.

Import Eff Eff.Notations Service Session Auth.

(** The three ways through [login]: no credentials, inside the cooldown,
    and an attempt, which asks for its context to be closed whatever
    happens and swallows the exception of the close. *)
Lemma login_cases (c : Credentials) (a : LoginAnswers) (s : Sys) (auth : AuthService) :
  (hasCredentials c = false /\ login c a (s, auth) = (Ok None, (s, auth))) \/
  (hasCredentials c = true /\ cooled_down a auth = false /\
   login c a (s, auth) = (Ok (cachedSessionId auth), (s, auth))) \/
  (hasCredentials c = true /\ cooled_down a auth = true /\
   exists r s',
     login c a (s, auth) = (Ok r, (s', after_attempt a r auth)) /\
     login_leaves a s s').
Proof.
  unfold login, set_session, set_attempt, finally, try_catch, bind, shared, locals,
    assign_locals, ret, lift, createContext, createPage, closeContext, modify,
    get, throw, after_attempt, login_leaves.
  fold (login_context a).
  destruct (hasCredentials c); cbn [negb]; [|left; split; reflexivity].
  right. cbn [fst snd].
  destruct (cooled_down a auth); cbn [negb];
    [right | left; split; [reflexivity | split; reflexivity]].
  split; [reflexivity|]. split; [reflexivity|].
  destruct (context_launched a) as [[]|?];
    destruct (context_scripted a) as [[]|?];
    destruct (page_opened a) as [[]|?];
    destruct (session_cookie a) as [[?|]|?];
    destruct (context_closed a) as [[]|?];
    repeat first
      [ rewrite lookup_insert_eq
      | progress cbn -[insert lookup delete pretty append login_context set_contexts
                       set_browser activeContexts browserContexts]
      | progress cbn [activeContexts browserContexts set_contexts set_browser fst snd]
      | match goal with
        | |- context [match activeContexts ?s0 !! ?k with _ => _ end] =>
            destruct (activeContexts s0 !! k)
        end ];
    match goal with
    | |- exists r s', (Ok ?x, (?y, _)) = _ /\ _ => exists x, y
    end; (split; [reflexivity|]);
    cbn [activeContexts browserContexts set_contexts set_browser Nat.pred];
    rewrite ?delete_insert_eq;
    (split; [destruct s; reflexivity|]);
    (split;
     [first [ left; reflexivity | right; left; reflexivity
            | right; right; split; [reflexivity | eexists; reflexivity] ]|]);
    (split;
     [first [ left; reflexivity | right; left; reflexivity | right; right; reflexivity ]|]);
    intros; first [discriminate | reflexivity].
Qed.

Lemma perform_cases (c : Credentials) (a : LoginAnswers) (op : call) (s : Sys)
    (auth : AuthService) :
  perform c a op (s, auth)
  = match op with
    | GetSessionId =>
        if Js.truthy (cachedSessionId auth) then (Ok (cachedSessionId auth), (s, auth))
        else if hasCredentials c then login c a (s, auth)
             else (Ok None, (s, auth))
    | RefreshSession =>
        login c a (s, {| cachedSessionId := None;
                         lastLoginAttempt := lastLoginAttempt auth |})
    | Login => login c a (s, auth)
    end.
Proof.
  destruct op; cbn [perform]; [| reflexivity | reflexivity].
  unfold getSessionId. unfold bind at 1. unfold locals at 1. cbn [fst snd].
  destruct (Js.truthy (cachedSessionId auth)); [reflexivity|].
  destruct (hasCredentials c); reflexivity.
Qed.

Lemma cooled_down_spec a auth t :
  lastLoginAttempt auth = Some t ->
  cooled_down a auth = negb (checked_at a - t <? loginCooldownMs).
Proof. intros H. unfold cooled_down. rewrite H. reflexivity. Qed.

(** X29.  Login attempts are at least a minute apart: a call of
    [getSessionId], [refreshSession] or [login] made when an attempt is on
    record either makes no attempt (the record and the browser are left
    as they were) or makes one at least 60 seconds after the recorded one.
    A [refreshSession] inside that minute, with credentials configured,
    returns null and leaves no session cached: it has cleared the cache
    and gets no login. *)
Theorem login_attempts_are_a_minute_apart
    (c : Credentials) (a : LoginAnswers) (op : call) (s : Sys) (auth : AuthService)
    (t : Z) :
  lastLoginAttempt auth = Some t ->
  let out := perform c a op (s, auth) in
  ((lastLoginAttempt out.2.2 = Some t /\ out.2.1 = s) \/
   (lastLoginAttempt out.2.2 = Some (attempted_at a) /\
    loginCooldownMs <= checked_at a - t)) /\
  (op = RefreshSession -> hasCredentials c = true ->
   checked_at a - t < loginCooldownMs ->
   out = (Ok None, (s, {| cachedSessionId := None; lastLoginAttempt := Some t |}))).
Proof.
  intros Ht out.
  assert (Hlogin : forall auth0, lastLoginAttempt auth0 = Some t ->
             (lastLoginAttempt (login c a (s, auth0)).2.2 = Some t /\
              (login c a (s, auth0)).2.1 = s) \/
             (lastLoginAttempt (login c a (s, auth0)).2.2 = Some (attempted_at a) /\
              loginCooldownMs <= checked_at a - t)).
  { intros auth0 H0.
    destruct (login_cases c a s auth0)
      as [[_ ->] | [(_ & _ & ->) | (_ & Hcool & r & s' & -> & _)]];
      [left; split; [exact H0 | reflexivity] ..|].
    right. split; [reflexivity|].
    rewrite (cooled_down_spec a auth0 t H0) in Hcool.
    apply negb_true_iff, Z.ltb_ge in Hcool. exact Hcool. }
  subst out. rewrite perform_cases. split.
  - destruct op.
    + destruct (Js.truthy (cachedSessionId auth));
        [left; split; [exact Ht | reflexivity]|].
      destruct (hasCredentials c); [apply Hlogin, Ht|].
      left. split; [exact Ht | reflexivity].
    + apply Hlogin. exact Ht.
    + apply Hlogin, Ht.
  - intros -> Hc Hlt.
    set (auth0 := {| cachedSessionId := None;
                     lastLoginAttempt := lastLoginAttempt auth |}).
    assert (H0 : lastLoginAttempt auth0 = Some t) by exact Ht.
    destruct (login_cases c a s auth0)
      as [[Hno _] | [(_ & _ & ->) | (_ & Hcool & _)]].
    + congruence.
    + subst auth0. rewrite Ht. reflexivity.
    + rewrite (cooled_down_spec a auth0 t H0) in Hcool.
      apply negb_true_iff, Z.ltb_ge in Hcool. lia.
Qed.

Lemma login_attempts_are_a_minute_apart_witness :
  let c := {| cred_username := Some "scout"; cred_password := Some "secret" |} in
  let a := {| checked_at := 1030000; attempted_at := 1030001;
              context_stamp := 1030002; context_launched := Ok tt;
              context_scripted := Ok tt; page_opened := Ok tt;
              context_closed := Throw "Target closed";
              session_cookie := Ok (Some "sid-2") |} in
  let auth := {| cachedSessionId := Some "sid-1"; lastLoginAttempt := Some 1000000 |} in
  let s := Logic.boot ProxyExamples.two_hosts in
  let out := perform c a RefreshSession (s, auth) in
  ((lastLoginAttempt out.2.2 = Some 1000000 /\ out.2.1 = s) \/
   (lastLoginAttempt out.2.2 = Some (attempted_at a) /\
    loginCooldownMs <= checked_at a - 1000000)) /\
  (RefreshSession = RefreshSession -> hasCredentials c = true ->
   checked_at a - 1000000 < loginCooldownMs ->
   out = (Ok None, (s, {| cachedSessionId := None;
                          lastLoginAttempt := Some 1000000 |}))).
Proof.
  intros c a auth s.
  apply (login_attempts_are_a_minute_apart c a RefreshSession s auth 1000000).
  reflexivity.
Defined.

(** X30.  [getSessionId], [refreshSession] and [login] never throw,
    whatever the browser does, a failing close of the login context
    included; a result other than null is the session that is cached
    afterwards.  Of the shared state only the context registry and the
    contexts the browser holds can differ: the registry is as before, or
    without the login context, or, when [context.close()] threw, still
    with it; the browser holds as many contexts as before, or one less
    (a context found under the id was closed), or one more (a context
    that was opened and not closed).  When the context opens, takes its
    scripts and closes, the browser holds as many contexts as before. *)
Theorem session_calls_return_the_cached_session
    (c : Credentials) (a : LoginAnswers) (op : call) (st : State) :
  let cid := login_context a in
  let before := activeContexts st.1 in
  let held := browserContexts st.1 in
  exists r st',
    perform c a op st = (Ok r, st') /\
    (r = None \/ r = cachedSessionId st'.2) /\
    st'.1 = set_browser (set_contexts st.1 (activeContexts st'.1))
                        (browserContexts st'.1) /\
    (activeContexts st'.1 = before \/
     activeContexts st'.1 = delete cid before \/
     (activeContexts st'.1 = <[cid := {| server := proxy_server None |}]> before /\
      exists msg, context_closed a = Throw msg)) /\
    (browserContexts st'.1 = held \/ browserContexts st'.1 = Nat.pred held \/
     browserContexts st'.1 = S held) /\
    (context_launched a = Ok tt -> context_scripted a = Ok tt ->
     context_closed a = Ok tt -> browserContexts st'.1 = held).
Proof.
  intros cid before held. subst cid before held.
  destruct st as [s auth]. cbn [fst snd].
  assert (Hsame : login_leaves a s s).
  { unfold login_leaves. split; [destruct s; reflexivity|].
    split; [left; reflexivity|]. split; [left; reflexivity|]. reflexivity. }
  assert (Hlogin : forall auth0, exists r st',
             login c a (s, auth0) = (Ok r, st') /\
             (r = None \/ r = cachedSessionId st'.2) /\
             login_leaves a s st'.1).
  { intros auth0.
    destruct (login_cases c a s auth0)
      as [[_ ->] | [(_ & _ & ->) | (_ & _ & r & s' & -> & Hs')]].
    - eexists _, _. split; [reflexivity|]. split; [left; reflexivity | exact Hsame].
    - eexists _, _. split; [reflexivity|]. split; [right; reflexivity | exact Hsame].
    - eexists _, _. split; [reflexivity|]. split; [|exact Hs'].
      destruct r; [right | left]; reflexivity. }
  rewrite perform_cases. destruct op.
  - destruct (Js.truthy (cachedSessionId auth)).
    { eexists _, _. split; [reflexivity|]. split; [right; reflexivity | exact Hsame]. }
    destruct (hasCredentials c); [apply Hlogin|].
    eexists _, _. split; [reflexivity|]. split; [left; reflexivity | exact Hsame].
  - apply Hlogin.
  - apply Hlogin.
Qed.

End AuthFacts.
